(** * next-week: the AVL multimap (package avl) and the ICS line decoder
    (package ics), embedded from the Go sources.

    Keys are Go's [cmp.Ordered] instantiated at [int]; only [<], [>] and
    [==] are ever applied to a key, so a key is a [Z].  The cached height
    is a Go [int], a [Z] here.  A Go [string] is a byte sequence, a
    [string] of eight-bit characters here. *)

From Stdlib Require Import ZArith List Bool Lia String Ascii.
From Stdlib Require Import Sorting.Sorted DecimalString.
Import ListNotations.

Local Open Scope Z_scope.

(** ** Aborting computations

    A nil-pointer dereference is a runtime panic in Go; [log.Fatal]
    terminates the process.  Both are abnormal ends of the program. *)

Inductive abort : Type :=
| NilDeref
| FatalLog.

Inductive result (A : Type) : Type :=
| Ok (a : A)
| Abort (e : abort).

Arguments Ok {A} a.
Arguments Abort {A} e.

Definition bind {A B : Type} (m : result A) (f : A -> result B) : result B :=
  match m with
  | Ok a => f a
  | Abort e => Abort e
  end.

Notation "x <- m ;; f" := (bind m (fun x => f))
  (at level 61, m at next level, right associativity).

Module Strings.

(** [strings.HasSuffix], [strings.TrimSuffix] of the Go standard library. *)

Definition HasSuffix (s suffix : string) : bool :=
  (String.length suffix <=? String.length s)%nat
  && String.eqb
       (substring (String.length s - String.length suffix)
                  (String.length suffix) s)
       suffix.

Definition TrimSuffix (s suffix : string) : string :=
  if HasSuffix s suffix
  then substring 0 (String.length s - String.length suffix) s
  else s.

(** [%v] of an [int]: its decimal numeral. *)
Definition fmt_v (k : Z) : string := NilZero.string_of_int (Z.to_int k).

End Strings.

Module AVL.

Section Node.

Context {V : Type}.

(** [type node struct { key K; value []V; left, right *node; height int }];
    the nil pointer is [nil]. *)
Inductive node : Type :=
| nil
| Node (key : Z) (value : list V) (left right : node) (height : Z).

Definition createNode (key : Z) (value : V) : node :=
  Node key [value] nil nil 1.

Definition getHeight (n : node) : Z :=
  match n with
  | nil => 0
  | Node _ _ _ _ h => h
  end.

Fixpoint getSize (n : node) : Z :=
  match n with
  | nil => 0
  | Node _ _ l r _ => 1 + getSize l + getSize r
  end.

Definition updateHeight (n : node) : result node :=
  match n with
  | nil => Abort FatalLog
  | Node k v l r _ => Ok (Node k v l r (1 + Z.max (getHeight l) (getHeight r)))
  end.

Definition balanceFactor (n : node) : Z :=
  match n with
  | nil => 0
  | Node _ _ l r _ => getHeight l - getHeight r
  end.

Definition rotateRight (y : node) : result node :=
  match y with
  | nil => Abort NilDeref
  | Node yk yv x yr yh =>
      match x with
      | nil => Abort NilDeref
      | Node xk xv xl T2 xh =>
          y' <- updateHeight (Node yk yv T2 yr yh) ;;
          updateHeight (Node xk xv xl y' xh)
      end
  end.

Definition rotateLeft (x : node) : result node :=
  match x with
  | nil => Abort NilDeref
  | Node xk xv xl y xh =>
      match y with
      | nil => Abort NilDeref
      | Node yk yv T2 yr yh =>
          x' <- updateHeight (Node xk xv xl T2 xh) ;;
          updateHeight (Node yk yv x' yr yh)
      end
  end.

Definition balance (n : node) : result node :=
  n1 <- updateHeight n ;;
  match n1 with
  | nil => Abort NilDeref
  | Node k v l r h =>
      let balance := balanceFactor n1 in
      if (balance >? 1) && (balanceFactor l >=? 0) then
        rotateRight n1
      else if (balance >? 1) && (balanceFactor l <? 0) then
        l' <- rotateLeft l ;;
        rotateRight (Node k v l' r h)
      else if (balance <? -1) && (balanceFactor r <=? 0) then
        rotateLeft n1
      else if (balance <? -1) && (balanceFactor r >? 0) then
        r' <- rotateRight r ;;
        rotateLeft (Node k v l r' h)
      else Ok n1
  end.

Fixpoint insert (key : Z) (value : V) (n : node) : result node :=
  match n with
  | nil => Ok (createNode key value)
  | Node k v l r h =>
      if key <? k then
        l' <- insert key value l ;;
        balance (Node k v l' r h)
      else if key >? k then
        r' <- insert key value r ;;
        balance (Node k v l r' h)
      else
        Ok (Node k (v ++ [value]) l r h)
  end.

Fixpoint minValueNode (n : node) : result node :=
  match n with
  | nil => Abort NilDeref
  | Node _ _ l _ _ =>
      match l with
      | nil => Ok n
      | Node _ _ _ _ _ => minValueNode l
      end
  end.

Definition get (n : node) : result (Z * list V) :=
  match n with
  | nil => Abort NilDeref
  | Node k v _ _ _ => Ok (k, v)
  end.

Fixpoint delete (key : Z) (n : node) : result node :=
  match n with
  | nil => Ok nil
  | Node k v l r h =>
      if key <? k then
        l' <- delete key l ;;
        balance (Node k v l' r h)
      else if key >? k then
        r' <- delete key r ;;
        balance (Node k v l r' h)
      else
        match l with
        | nil => Ok r
        | Node _ _ _ _ _ =>
            match r with
            | nil => Ok l
            | Node _ _ _ _ _ =>
                temp <- minValueNode r ;;
                kv <- get temp ;;
                r' <- delete (fst kv) r ;;
                balance (Node (fst kv) (snd kv) l r' h)
            end
        end
  end.

Fixpoint find (key : Z) (n : node) : list V * bool :=
  match n with
  | nil => ([], false)
  | Node k v l r _ =>
      if k =? key then (v, true)
      else if key <? k then find key l
      else find key r
  end.

Fixpoint findNode (key : Z) (n : node) : node * bool :=
  match n with
  | nil => (nil, false)
  | Node k _ l r _ =>
      if k =? key then (n, true)
      else if key <? k then findNode key l
      else findNode key r
  end.

Definition contains (key : Z) (n : node) : bool := snd (find key n).

(** [traverseString] appends to the builder it is handed; the builder is
    the accumulated text. *)
Fixpoint traverseString (n : node) (sb : string) : string :=
  match n with
  | nil => sb
  | Node k _ l r _ =>
      traverseString r (traverseString l sb ++ Strings.fmt_v k ++ ", ")%string
  end.

Definition String (n : node) : string :=
  match n with
  | nil => ""%string
  | Node _ _ _ _ _ =>
      (Strings.TrimSuffix (traverseString n "[") ", " ++ "]")%string
  end.

(** The diagnostic sink is the sequence of messages handed to
    [log.Println]. *)
Definition sink : Type := list string.

Definition Println (msg : string) (out : sink) : sink := out ++ [msg].

Definition Print (n : node) (out : sink) : sink :=
  match n with
  | nil => out
  | Node _ _ _ _ _ => Println (String n) out
  end.

(** ** The handle layer: [type Tree struct { root *node }] *)

Record Tree : Type := mkTree { root : node }.

Definition New : Tree := mkTree nil.

Definition Insert (key : Z) (value : V) (t : Tree) : result Tree :=
  r <- insert key value (root t) ;;
  Ok (mkTree r).

Definition Delete (key : Z) (t : Tree) : result Tree :=
  match root t with
  | nil => Ok t
  | Node _ _ _ _ _ =>
      r <- delete key (root t) ;;
      Ok (mkTree r)
  end.

Definition Height (t : Tree) : Z :=
  match root t with
  | nil => 0
  | Node _ _ _ _ _ => getHeight (root t)
  end.

Definition Size (t : Tree) : Z :=
  match root t with
  | nil => 0
  | Node _ _ _ _ _ => getSize (root t)
  end.

(** [Min] returns the zero key, a nil slice and [false] on the empty
    tree. *)
Definition Min (t : Tree) : result (Z * list V * bool) :=
  match root t with
  | nil => Ok (0, [], false)
  | Node _ _ _ _ _ =>
      m <- minValueNode (root t) ;;
      kv <- get m ;;
      Ok (fst kv, snd kv, true)
  end.

Definition Find (key : Z) (t : Tree) : list V * bool :=
  match root t with
  | nil => ([], false)
  | Node _ _ _ _ _ => find key (root t)
  end.

Definition Contains (key : Z) (t : Tree) : bool :=
  match root t with
  | nil => false
  | Node _ _ _ _ _ => contains key (root t)
  end.

Definition TreeString (t : Tree) : string :=
  match root t with
  | nil => "[]"%string
  | Node _ _ _ _ _ => String (root t)
  end.

Definition TreePrint (t : Tree) (out : sink) : sink :=
  match root t with
  | nil => Println "Tried to print empty tree" out
  | Node _ _ _ _ _ => Print (root t) out
  end.

(** The returned handle refers to the node found, not to a copy of it. *)
Definition SubTreeFromKey (key : Z) (t : Tree) : option Tree * bool :=
  match root t with
  | nil => (None, false)
  | Node _ _ _ _ _ =>
      match findNode key (root t) with
      | (Node k v l r h, true) => (Some (mkTree (Node k v l r h)), true)
      | _ => (None, false)
      end
  end.

Definition rootKey (t : Tree) : option Z :=
  match root t with
  | nil => None
  | Node k _ _ _ _ => Some k
  end.

(** Which branch of [balance] fires on a node, read off its conditions. *)
Inductive rotation_case : Type :=
| NoRotation | LeftLeft | LeftRight | RightRight | RightLeft.

Definition balance_case (n : node) : rotation_case :=
  match n with
  | nil => NoRotation
  | Node _ _ l r _ =>
      let balance := getHeight l - getHeight r in
      if (balance >? 1) && (balanceFactor l >=? 0) then LeftLeft
      else if (balance >? 1) && (balanceFactor l <? 0) then LeftRight
      else if (balance <? -1) && (balanceFactor r <=? 0) then RightRight
      else if (balance <? -1) && (balanceFactor r >? 0) then RightLeft
      else NoRotation
  end.

(** Trees built from the empty tree by the public [Insert] and [Delete]. *)
Inductive Reachable : Tree -> Prop :=
| Reach_New : Reachable New
| Reach_Insert t k v t' :
    Reachable t -> Insert k v t = Ok t' -> Reachable t'
| Reach_Delete t k t' :
    Reachable t -> Delete k t = Ok t' -> Reachable t'.

(** ** The structural invariants of the data model *)

Fixpoint all_keys (P : Z -> Prop) (n : node) : Prop :=
  match n with
  | nil => True
  | Node k _ l r _ => P k /\ all_keys P l /\ all_keys P r
  end.

Fixpoint bst_order (n : node) : Prop :=
  match n with
  | nil => True
  | Node k _ l r _ =>
      all_keys (fun x => x < k) l /\ all_keys (fun x => k < x) r
      /\ bst_order l /\ bst_order r
  end.

Fixpoint avl_balanced (n : node) : Prop :=
  match n with
  | nil => True
  | Node _ _ l r _ =>
      Z.abs (getHeight l - getHeight r) <= 1
      /\ avl_balanced l /\ avl_balanced r
  end.

Fixpoint height_cached (n : node) : Prop :=
  match n with
  | nil => True
  | Node _ _ l r h =>
      h = 1 + Z.max (getHeight l) (getHeight r)
      /\ height_cached l /\ height_cached r
  end.

(** In-order contents: every key with its value sequence. *)
Fixpoint elements (n : node) : list (Z * list V) :=
  match n with
  | nil => []
  | Node k v l r _ => elements l ++ (k, v) :: elements r
  end.

Definition keys (n : node) : list Z := map fst (elements n).

(** Balance and height cache together. *)
Definition hb (n : node) : Prop := avl_balanced n /\ height_cached n.

(** All three invariants of the data model. *)
Definition Inv (n : node) : Prop :=
  bst_order n /\ avl_balanced n /\ height_cached n.

(** [subtree m n]: the node [m] occurs in the tree rooted at [n]. *)
Inductive subtree : node -> node -> Prop :=
| subtree_here n : subtree n n
| subtree_left m k v l r h : subtree m l -> subtree m (Node k v l r h)
| subtree_right m k v l r h : subtree m r -> subtree m (Node k v l r h).

(** The keys rendered one after the other, each followed by the
    separator. *)
Fixpoint render_trailing (ks : list Z) : string :=
  match ks with
  | [] => ""%string
  | k :: ks' => (Strings.fmt_v k ++ ", " ++ render_trailing ks')%string
  end.

Fixpoint nsize (n : node) : nat :=
  match n with
  | nil => 0
  | Node _ _ l r _ => S (nsize l + nsize r)
  end.

(** When an insertion raises the height of a sound tree, no rotation took
    place at its root: the new key went into one subtree, which grew, and
    both subtrees had the same height before. *)
Definition grew (key : Z) (value : V) (n n' : node) : Prop :=
  match n with
  | nil => n' = createNode key value
  | Node k v l r h =>
      (key < k /\ exists l',
          insert key value l = Ok l' /\ n' = Node k v l' r (h + 1)
          /\ getHeight l' = getHeight l + 1 /\ getHeight l = getHeight r)
      \/
      (k < key /\ exists r',
          insert key value r = Ok r' /\ n' = Node k v l r' (h + 1)
          /\ getHeight r' = getHeight r + 1 /\ getHeight l = getHeight r)
  end.

(** The multimap a tree stands for, as a key-ordered association list,
    and the three operations on it. *)
Fixpoint ains (key : Z) (value : V) (al : list (Z * list V))
  : list (Z * list V) :=
  match al with
  | [] => [(key, [value])]
  | (k, v) :: t =>
      if key <? k then (key, [value]) :: al
      else if key >? k then (k, v) :: ains key value t
      else (k, v ++ [value]) :: t
  end.

Definition akeys (al : list (Z * list V)) : list Z := map fst al.

Definition aremove (key : Z) (al : list (Z * list V)) : list (Z * list V) :=
  filter (fun p => negb (fst p =? key)) al.

Fixpoint alookup (key : Z) (al : list (Z * list V)) : list V * bool :=
  match al with
  | [] => ([], false)
  | (k, v) :: t => if k =? key then (v, true) else alookup key t
  end.

End Node.

Arguments node V : clear implicits.
Arguments Tree V : clear implicits.

(** Three keys inserted into the empty tree, in the order given. *)
Definition insert3 (a b c : Z) : result (Tree Z) :=
  t1 <- Insert a 1 New ;;
  t2 <- Insert b 2 t1 ;;
  Insert c 3 t2.

(** Concrete trees used to exercise the statements below. *)
Definition ex1 : Tree Z := mkTree (Node 10 [1] nil nil 1).

Definition ex2 : Tree Z :=
  mkTree (Node 10 [1] nil (Node 20 [2] nil nil 1) 2).

Definition ex3 : Tree Z :=
  mkTree (Node 20 [2] (Node 10 [1] nil nil 1) (Node 30 [3] nil nil 1) 2).

Definition ex1s : Tree string := mkTree (Node 1 ["a"%string] nil nil 1).

(** The Fibonacci numbers, for the least size of a tree of a given
    height. *)
Fixpoint fib (n : nat) : Z :=
  match n with
  | O => 0
  | S m =>
      match m with
      | O => 1
      | S p => fib m + fib p
      end
  end.

End AVL.

(** * The calendar-line decoder (package ics) *)

Module ICS.

Local Open Scope nat_scope.
Local Open Scope string_scope.

Definition quote_char : ascii := "034"%char.
Definition colon_char : ascii := ":"%char.
Definition semi_char : ascii := ";"%char.
Definition equals_char : ascii := "="%char.
Definition cr_char : ascii := "013"%char.
Definition lf_char : ascii := "010"%char.

(** [strings.TrimRight(s, cutset)] for a cutset of ASCII bytes. *)
Fixpoint TrimRight (s : string) (cutset : list ascii) : string :=
  match s with
  | EmptyString => EmptyString
  | String c s' =>
      match TrimRight s' cutset with
      | EmptyString =>
          if existsb (Ascii.eqb c) cutset then EmptyString
          else String c EmptyString
      | t => String c t
      end
  end.

(** [strings.IndexByte]: the index of the first occurrence, or -1. *)
Fixpoint IndexByte (s : string) (c : ascii) : Z :=
  match s with
  | EmptyString => (-1)%Z
  | String a s' =>
      if Ascii.eqb a c then 0%Z
      else let r := IndexByte s' c in
           if (r <? 0)%Z then (-1)%Z else (r + 1)%Z
  end.

(** The slices [s[:i]] and [s[i:]]. *)
Definition slice_to (s : string) (i : nat) : string := substring 0 i s.

Definition slice_from (s : string) (i : nat) : string :=
  substring i (String.length s - i) s.

(** [type Param struct { Key, Value string }] *)
Record Param : Type := mkParam { Key : string; PValue : string }.

(** [type ParsedLine struct]; [Property] and [Component] are the iota
    constants of model.go. *)
Record ParsedLine : Type := mkParsedLine {
  Property : Z;
  IsBegin : bool;
  IsEnd : bool;
  Component : Z;
  RawName : string;
  Params : string;
  ParsedParams : list Param;
  Value : string;
  IsUnknown : bool
}.

(** The zero value [ParsedLine{}]. *)
Definition zeroParsedLine : ParsedLine :=
  mkParsedLine 0%Z false false 0%Z "" "" [] "" false.

Definition UnknownProperty : Z := (-1)%Z.
Definition UnknownComponent : Z := (-1)%Z.

Definition propertyByName : list (string * Z) :=
  [ ("CALSCALE", 0%Z)
  ; ("METHOD", 1%Z)
  ; ("PRODID", 2%Z)
  ; ("VERSION", 3%Z)
  ; ("ATTACH", 4%Z)
  ; ("CATEGORIES", 5%Z)
  ; ("CLASS", 6%Z)
  ; ("COMMENT", 7%Z)
  ; ("DESCRIPTION", 8%Z)
  ; ("GEO", 9%Z)
  ; ("LOCATION", 10%Z)
  ; ("PERCENT-COMPLETE", 11%Z)
  ; ("PRIORITY", 12%Z)
  ; ("RESOURCES", 13%Z)
  ; ("STATUS", 14%Z)
  ; ("SUMMARY", 15%Z)
  ; ("COMPLETED", 16%Z)
  ; ("DTEND", 17%Z)
  ; ("DUE", 18%Z)
  ; ("DTSTART", 19%Z)
  ; ("DURATION", 20%Z)
  ; ("FREEBUSY", 21%Z)
  ; ("TRANSP", 22%Z)
  ; ("TZID", 23%Z)
  ; ("TZNAME", 24%Z)
  ; ("TZOFFSETFROM", 25%Z)
  ; ("TZOFFSETTO", 26%Z)
  ; ("TZURL", 27%Z)
  ; ("ATTENDEE", 28%Z)
  ; ("CONTACT", 29%Z)
  ; ("ORGANIZER", 30%Z)
  ; ("RECURRENCE-ID", 31%Z)
  ; ("RELATED-TO", 32%Z)
  ; ("URL", 33%Z)
  ; ("UID", 34%Z)
  ; ("EXDATE", 35%Z)
  ; ("RDATE", 36%Z)
  ; ("RRULE", 37%Z)
  ; ("ACTION", 38%Z)
  ; ("REPEAT", 39%Z)
  ; ("TRIGGER", 40%Z)
  ; ("CREATED", 41%Z)
  ; ("DTSTAMP", 42%Z)
  ; ("LAST-MODIFIED", 43%Z)
  ; ("SEQUENCE", 44%Z)
  ; ("REQUEST-STATUS", 45%Z)
  ; ("NAME", 46%Z)
  ; ("REFRESH-INTERVAL", 47%Z)
  ; ("SOURCE", 48%Z)
  ; ("COLOR", 49%Z)
  ; ("IMAGE", 50%Z)
  ; ("CONFERENCE", 51%Z)
  ; ("PARTICIPANT", 52%Z)
  ; ("STRUCTURED-DATA", 53%Z)
  ; ("STYLED-DESCRIPTION", 54%Z)
  ; ("LOCATION-TYPE", 55%Z)
  ; ("RESOURCE-TYPE", 56%Z)
  ; ("ACKNOWLEDGED", 57%Z)
  ; ("PROXIMITY", 58%Z)
  ; ("BUSYTYPE", 59%Z)
  ; ("X-WR-CALNAME", 60%Z)
  ; ("X-WR-CALDESC", 61%Z)
  ; ("X-WR-TIMEZONE", 62%Z)
  ; ("X-WR-RELCALID", 63%Z)
  ; ("X-APPLE-STRUCTURED-LOCATION", 64%Z)
  ; ("X-APPLE-TRAVEL-ADVISORY-BEHAVIOR", 65%Z)
  ; ("X-APPLE-DEFAULT-ALARM", 66%Z)
  ; ("X-APPLE-OMIT-FROM-SYNC", 67%Z)
  ; ("X-MICROSOFT-CDO-BUSYSTATUS", 68%Z)
  ; ("X-MICROSOFT-CDO-INTENDEDSTATUS", 69%Z)
  ; ("X-MICROSOFT-CDO-ALLDAYEVENT", 70%Z)
  ; ("X-MICROSOFT-CDO-IMPORTANCE", 71%Z)
  ; ("X-MICROSOFT-CDO-INSTTYPE", 72%Z)
  ; ("X-MICROSOFT-CDO-OWNER-APPT-ID", 73%Z)
  ; ("X-MICROSOFT-CDO-APPT-SEQUENCE", 74%Z)
  ; ("X-GOOGLE-CONFERENCE", 75%Z)
  ; ("X-GOOGLE-STRUCTURED-LOCATION", 76%Z)
  ; ("X-GOOGLE-CALENDAR-ID", 77%Z) ].

Definition componentByName : list (string * Z) :=
  [ ("VCALENDAR", 0%Z)
  ; ("VEVENT", 1%Z)
  ; ("VTODO", 2%Z)
  ; ("VJOURNAL", 3%Z)
  ; ("VFREEBUSY", 4%Z)
  ; ("VTIMEZONE", 5%Z)
  ; ("VALARM", 6%Z)
  ; ("VAVAILABILITY", 7%Z)
  ; ("AVAILABLE", 8%Z)
  ; ("STANDARD", 9%Z)
  ; ("DAYLIGHT", 10%Z)
  ; ("VLOCATION", 11%Z)
  ; ("VRESOURCE", 12%Z) ].

(** A Go map read with the comma-ok form. *)
Fixpoint lookup (m : list (string * Z)) (k : string) : option Z :=
  match m with
  | [] => None
  | (k', x) :: m' => if String.eqb k' k then Some x else lookup m' k
  end.

(** The loop of [splitOnFirstUnquotedColon]: [rest] is [s[i:]]. *)
Fixpoint splitColonLoop (s rest : string) (i : nat) (inQuote : bool)
  : string * string * bool :=
  match rest with
  | EmptyString => ("", "", false)
  | String c rest' =>
      if Ascii.eqb c quote_char then
        splitColonLoop s rest' (S i) (negb inQuote)
      else if Ascii.eqb c colon_char then
        if negb inQuote then (slice_to s i, slice_from s (i + 1), true)
        else splitColonLoop s rest' (S i) inQuote
      else splitColonLoop s rest' (S i) inQuote
  end.

Definition splitOnFirstUnquotedColon (s : string) : string * string * bool :=
  splitColonLoop s s 0 false.

(** The loop of [splitUnquoted]: [rest] is [s[i:]], [start] the index where
    the current part begins; the parts come out in order. *)
Fixpoint splitUnquotedLoop (s rest : string) (sep : ascii) (i start : nat)
    (inQuote : bool) : list string :=
  match rest with
  | EmptyString => [slice_from s start]
  | String c rest' =>
      if Ascii.eqb c quote_char then
        splitUnquotedLoop s rest' sep (S i) start (negb inQuote)
      else if Ascii.eqb c sep && negb inQuote then
        substring start (i - start) s
          :: splitUnquotedLoop s rest' sep (S i) (i + 1) inQuote
      else splitUnquotedLoop s rest' sep (S i) start inQuote
  end.

Definition splitUnquoted (s : string) (sep : ascii) : list string :=
  splitUnquotedLoop s s sep 0 0 false.

Section Decoder.

(** [strings.ToUpper] and [strings.TrimSpace] belong to the Go standard
    library and work on Unicode text; the decoder is taken over any two
    such functions. *)
Variable ToUpper : string -> string.
Variable TrimSpace : string -> string.

Fixpoint parseParamsLoop (parts : list string) : list Param :=
  match parts with
  | [] => []
  | part :: parts' =>
      let part := TrimSpace part in
      if String.eqb part "" then parseParamsLoop parts'
      else
        let idx := IndexByte part equals_char in
        if (idx <? 0)%Z then
          mkParam (ToUpper part) "" :: parseParamsLoop parts'
        else
          let key := ToUpper (TrimSpace (slice_to part (Z.to_nat idx))) in
          let val := TrimSpace (slice_from part (Z.to_nat idx + 1)) in
          mkParam key val :: parseParamsLoop parts'
  end.

Definition parseParams (raw : string) : list Param :=
  parseParamsLoop (splitUnquoted raw semi_char).

(** [ParseLine] returns the record together with the error, [None] being
    Go's nil error. *)
Definition ParseLine (line : string) : ParsedLine * option string :=
  let line := TrimRight line [cr_char; lf_char] in
  if String.eqb line "" then
    (zeroParsedLine, Some "ics: empty line")
  else
    match splitOnFirstUnquotedColon line with
    | (_, _, false) =>
        (zeroParsedLine,
         Some ("ics: no ':' separator found in line: " ++ line))
    | (nameAndParams, value, true) =>
        let idx := IndexByte nameAndParams semi_char in
        let rawName :=
          if (idx >=? 0)%Z then slice_to nameAndParams (Z.to_nat idx)
          else nameAndParams in
        let rawParams :=
          if (idx >=? 0)%Z then slice_from nameAndParams (Z.to_nat idx + 1)
          else "" in
        let rawName := ToUpper (TrimSpace rawName) in
        let parsed :=
          if String.eqb rawParams "" then [] else parseParams rawParams in
        let result :=
          mkParsedLine UnknownProperty false false UnknownComponent
            rawName rawParams parsed value false in
        if String.eqb rawName "BEGIN" then
          let compName := ToUpper (TrimSpace value) in
          let comp :=
            match lookup componentByName compName with
            | Some c => c
            | None => UnknownComponent
            end in
          (mkParsedLine UnknownProperty true false comp
             rawName rawParams parsed value false, None)
        else if String.eqb rawName "END" then
          let compName := ToUpper (TrimSpace value) in
          let comp :=
            match lookup componentByName compName with
            | Some c => c
            | None => UnknownComponent
            end in
          (mkParsedLine UnknownProperty false true comp
             rawName rawParams parsed value false, None)
        else
          match lookup propertyByName rawName with
          | Some prop =>
              (mkParsedLine prop false false UnknownComponent
                 rawName rawParams parsed value false, None)
          | None =>
              (mkParsedLine UnknownProperty false false UnknownComponent
                 rawName rawParams parsed value true, None)
          end
    end.

End Decoder.

(** Number of double-quote bytes in a text. *)
Fixpoint quotes (s : string) : nat :=
  match s with
  | EmptyString => 0
  | String c s' =>
      if Ascii.eqb c quote_char then S (quotes s') else quotes s'
  end.

(** The quote state after reading a text from the state [q]. *)
Fixpoint scan (q : bool) (s : string) : bool :=
  match s with
  | EmptyString => q
  | String c s' => scan (if Ascii.eqb c quote_char then negb q else q) s'
  end.

(** A ':' outside double-quoted regions: a ':' preceded by an even number
    of double quotes. *)
Definition unquoted_colon (s : string) : Prop :=
  exists pre post,
    s = pre ++ String colon_char post /\ Nat.even (quotes pre) = true.

(** Whether a byte occurs in a text. *)
Fixpoint occurs (c : ascii) (s : string) : bool :=
  match s with
  | EmptyString => false
  | String a s' => Ascii.eqb a c || occurs c s'
  end.

(** ASCII stand-ins for the two library functions, for concrete runs. *)
Definition upper_ascii (c : ascii) : ascii :=
  let n := nat_of_ascii c in
  if ((97 <=? n) && (n <=? 122))%nat then ascii_of_nat (n - 32) else c.

Fixpoint ToUpperASCII (s : string) : string :=
  match s with
  | EmptyString => EmptyString
  | String c s' => String (upper_ascii c) (ToUpperASCII s')
  end.

Definition is_space (c : ascii) : bool :=
  let n := nat_of_ascii c in
  ((n =? 32) || ((9 <=? n) && (n <=? 13)))%nat.

Fixpoint TrimLeftSpace (s : string) : string :=
  match s with
  | EmptyString => EmptyString
  | String c s' => if is_space c then TrimLeftSpace s' else s
  end.

Fixpoint TrimRightSpace (s : string) : string :=
  match s with
  | EmptyString => EmptyString
  | String c s' =>
      match TrimRightSpace s' with
      | EmptyString => if is_space c then EmptyString else String c EmptyString
      | t => String c t
      end
  end.

Definition TrimSpaceASCII (s : string) : string :=
  TrimRightSpace (TrimLeftSpace s).

(** ** model.go: the names of the constants

    [Property.String] and [Component.String] index a fixed array with the
    constant itself; an index outside the array is a runtime panic,
    [None] here. *)
Definition propertyNames : list string :=
  [ "CALSCALE"
  ; "METHOD"
  ; "PRODID"
  ; "VERSION"
  ; "ATTACH"
  ; "CATEGORIES"
  ; "CLASS"
  ; "COMMENT"
  ; "DESCRIPTION"
  ; "GEO"
  ; "LOCATION"
  ; "PERCENT-COMPLETE"
  ; "PRIORITY"
  ; "RESOURCES"
  ; "STATUS"
  ; "SUMMARY"
  ; "COMPLETED"
  ; "DTEND"
  ; "DUE"
  ; "DTSTART"
  ; "DURATION"
  ; "FREEBUSY"
  ; "TRANSP"
  ; "TZID"
  ; "TZNAME"
  ; "TZOFFSETFROM"
  ; "TZOFFSETTO"
  ; "TZURL"
  ; "ATTENDEE"
  ; "CONTACT"
  ; "ORGANIZER"
  ; "RECURRENCE-ID"
  ; "RELATED-TO"
  ; "URL"
  ; "UID"
  ; "EXDATE"
  ; "RDATE"
  ; "RRULE"
  ; "ACTION"
  ; "REPEAT"
  ; "TRIGGER"
  ; "CREATED"
  ; "DTSTAMP"
  ; "LAST-MODIFIED"
  ; "SEQUENCE"
  ; "REQUEST-STATUS"
  ; "NAME"
  ; "REFRESH-INTERVAL"
  ; "SOURCE"
  ; "COLOR"
  ; "IMAGE"
  ; "CONFERENCE"
  ; "PARTICIPANT"
  ; "STRUCTURED-DATA"
  ; "STYLED-DESCRIPTION"
  ; "LOCATION-TYPE"
  ; "RESOURCE-TYPE"
  ; "ACKNOWLEDGED"
  ; "PROXIMITY"
  ; "BUSYTYPE"
  ; "X-WR-CALNAME"
  ; "X-WR-CALDESC"
  ; "X-WR-TIMEZONE"
  ; "X-WR-RELCALID"
  ; "X-APPLE-STRUCTURED-LOCATION"
  ; "X-APPLE-TRAVEL-ADVISORY-BEHAVIOR"
  ; "X-APPLE-DEFAULT-ALARM"
  ; "X-APPLE-OMIT-FROM-SYNC"
  ; "X-MICROSOFT-CDO-BUSYSTATUS"
  ; "X-MICROSOFT-CDO-INTENDEDSTATUS"
  ; "X-MICROSOFT-CDO-ALLDAYEVENT"
  ; "X-MICROSOFT-CDO-IMPORTANCE"
  ; "X-MICROSOFT-CDO-INSTTYPE"
  ; "X-MICROSOFT-CDO-OWNER-APPT-ID"
  ; "X-MICROSOFT-CDO-APPT-SEQUENCE"
  ; "X-GOOGLE-CONFERENCE"
  ; "X-GOOGLE-STRUCTURED-LOCATION"
  ; "X-GOOGLE-CALENDAR-ID" ].

Definition componentNames : list string :=
  [ "VCALENDAR"
  ; "VEVENT"
  ; "VTODO"
  ; "VJOURNAL"
  ; "VFREEBUSY"
  ; "VTIMEZONE"
  ; "VALARM"
  ; "VAVAILABILITY"
  ; "AVAILABLE"
  ; "STANDARD"
  ; "DAYLIGHT"
  ; "VLOCATION"
  ; "VRESOURCE" ].

Definition index_names (names : list string) (i : Z) : option string :=
  if (i <? 0)%Z then None else nth_error names (Z.to_nat i).

Definition PropertyString (p : Z) : option string :=
  index_names propertyNames p.

Definition ComponentString (c : Z) : option string :=
  index_names componentNames c.

(** [splitUnquoted] without indices: [cur] is the part being read, [rest]
    the text still to read. *)
Fixpoint splitParts (sep : ascii) (cur rest : string) (inQuote : bool)
  : list string :=
  match rest with
  | EmptyString => [cur]
  | String c rest' =>
      if Ascii.eqb c quote_char then
        splitParts sep (cur ++ String c "") rest' (negb inQuote)
      else if Ascii.eqb c sep && negb inQuote then
        cur :: splitParts sep "" rest' inQuote
      else splitParts sep (cur ++ String c "") rest' inQuote
  end.

(** ** parse.go: [ParseProperty] *)
Section Wrapper.

Variable ToUpper : string -> string.
Variable TrimSpace : string -> string.

Definition ParseProperty (line : string) : Z * string * option string :=
  match ParseLine ToUpper TrimSpace line with
  | (_, Some err) => (UnknownProperty, "", Some err)
  | (pl, None) => (Property pl, Value pl, None)
  end.

End Wrapper.

(** ** date.go *)

(** Whether the byte [s[i]] is [c]; the callers check the bounds. *)
Definition byte_is (s : string) (i : nat) (c : ascii) : bool :=
  match String.get i s with
  | Some a => Ascii.eqb a c
  | None => false
  end.

Fixpoint paramValue (params : list Param) (key : string) : string :=
  match params with
  | [] => ""
  | p :: params' =>
      if String.eqb (Key p) key then
        let v := PValue p in
        if Nat.leb 2 (String.length v) && byte_is v 0 quote_char
           && byte_is v (String.length v - 1) quote_char
        then substring 1 (String.length v - 2) v
        else v
      else paramValue params' key
  end.

(** The record with its parsed parameters replaced. *)
Definition with_params (pl : ParsedLine) (ps : list Param) : ParsedLine :=
  mkParsedLine (Property pl) (IsBegin pl) (IsEnd pl) (Component pl)
    (RawName pl) (Params pl) ps (Value pl) (IsUnknown pl).

Section Time.

(** Package [time] of the Go standard library: locations, the parser of a
    layout in a location (an error is [None]) and the Unix seconds of a
    time; and the verb [%q] of package [fmt]. *)
Variable Location : Type.
Variable UTC : Location.
Variable LoadLocation : string -> option Location.
Variable Time : Type.
Variable ParseInLocation : string -> string -> Location -> option Time.
Variable Unix : Time -> Z.
Variable Quote : string -> string.

Definition formats : list string :=
  [ "20060102T150405Z"; "20060102T150405"; "20060102" ].

(** The loop over the layouts. *)
Fixpoint tryFormats (layouts : list string) (raw : string) (loc : Location)
  : option Z :=
  match layouts with
  | [] => None
  | layout :: layouts' =>
      if negb (Nat.eqb (String.length raw) (String.length layout)) then
        tryFormats layouts' raw loc
      else
        match ParseInLocation layout raw loc with
        | Some t => Some (Unix t)
        | None => tryFormats layouts' raw loc
        end
  end.

Definition DateTimeToUnix (pl : ParsedLine) : Z * option string :=
  if String.eqb (Value pl) "" then
    (0%Z, Some "ics: empty value in ParsedLine")
  else
    let raw := Value pl in
    let loc :=
      if Nat.ltb 0 (String.length raw)
         && byte_is raw (String.length raw - 1) "Z"%char
      then UTC
      else
        let tzidVal := paramValue (ParsedParams pl) "TZID" in
        if negb (String.eqb tzidVal "") then
          match LoadLocation tzidVal with
          | None => UTC
          | Some loaded => loaded
          end
        else UTC in
    match tryFormats formats raw loc with
    | Some u => (u, None)
    | None => (0%Z, Some ("ics: cannot parse date/time value " ++ Quote raw))
    end.

Definition DtstampToUnix (pl : ParsedLine) : Z * option string :=
  DateTimeToUnix pl.

End Time.

End ICS.

(** * The tree in the store: nodes shared between handles

    [SubTreeFromKey] hands out a second handle on nodes that the first
    handle still owns, so the pointer structure is modelled as it is: a
    store of node cells addressed by location, the nil pointer being
    [None], and one root pointer per [Tree] object.  The values of a node
    are a Go slice: a header in the node and a backing array in the
    store, which [append] writes in place while the capacity lasts and
    which the two-children branch of [delete] shares between two nodes
    by copying the header.  Recursive methods take fuel; running out of
    it is kept apart from aborting. *)

Module Heap.

(** The capacity that [append] gives the new backing array when a slice
    has to grow is the choice of the Go runtime; the language only
    promises that the new array holds the new length.  [growcap n c] is
    that capacity for the new length [n] and the old capacity [c]. *)
Class Runtime : Type := mkRuntime {
  growcap : nat -> nat -> nat;
  growcap_fits : forall n c, (n <= growcap n c)%nat
}.

Section Store.

Context {V : Type}.

Definition loc : Type := nat.
Definition ptr : Type := option loc.

(** A slice header: the backing array, the length and the capacity.  The
    code never re-slices, so every slice starts at the first element of
    its array. *)
Record slice : Type := mkSlice { sarr : loc; slen : nat; scap : nat }.

(** The nil slice. *)
Definition nil_slice : slice := mkSlice 0%nat 0%nat 0%nat.

Record cell : Type := mkCell {
  key : Z;
  value : slice;
  left : ptr;
  right : ptr;
  height : Z
}.

(** Node locations below [next] and arrays below [anext] are allocated.
    Of a backing array the store keeps the elements written so far; the
    elements behind them hold the zero value and are never read, since
    no slice is ever extended other than by [append]. *)
Record heap : Type := mkHeap {
  cells : loc -> cell;
  next : loc;
  arrs : loc -> list V;
  anext : loc
}.

Definition upd {A : Type} (f : loc -> A) (l : loc) (c : A) : loc -> A :=
  fun l' => if Nat.eqb l' l then c else f l'.

(** The elements a slice shows. *)
Definition sread (h : heap) (s : slice) : list V :=
  firstn (slen s) (arrs h (sarr s)).

(** Writing the element of index [i] of an array. *)
Definition put (xs : list V) (i : nat) (v : V) : list V :=
  firstn i xs ++ v :: skipn (S i) xs.

Inductive outcome (A : Type) : Type :=
| Done (a : A) (h : heap)
| Fail (e : abort)
| OutOfFuel.

Arguments Done {A} a h.
Arguments Fail {A} e.
Arguments OutOfFuel {A}.

Definition M (A : Type) : Type := heap -> outcome A.

Definition ret {A : Type} (a : A) : M A := fun h => Done a h.

Definition hbind {A B : Type} (m : M A) (f : A -> M B) : M B :=
  fun h =>
    match m h with
    | Done a h' => f a h'
    | Fail e => Fail e
    | OutOfFuel => OutOfFuel
    end.

Definition fail {A : Type} (e : abort) : M A := fun _ => Fail e.

Definition load (p : ptr) : M cell :=
  fun h =>
    match p with
    | None => Fail NilDeref
    | Some l => Done (cells h l) h
    end.

Definition store (l : loc) (c : cell) : M unit :=
  fun h => Done tt (mkHeap (upd (cells h) l c) (next h) (arrs h) (anext h)).

Definition alloc (c : cell) : M ptr :=
  fun h =>
    Done (Some (next h))
         (mkHeap (upd (cells h) (next h) c) (S (next h)) (arrs h) (anext h)).

(** The slice literal [[]V{v}]: a new array of one element. *)
Definition literal (v : V) : M slice :=
  fun h =>
    Done (mkSlice (anext h) 1%nat 1%nat)
         (mkHeap (cells h) (next h) (upd (arrs h) (anext h) [v])
                 (S (anext h))).

(** [append(s, v)]: within the capacity the element is written into the
    array of [s], behind its last element, whatever other slice shows
    that place; beyond it the elements move to a new array. *)
Definition append {RT : Runtime} (s : slice) (v : V) : M slice :=
  fun h =>
    if (slen s <? scap s)%nat then
      Done (mkSlice (sarr s) (S (slen s)) (scap s))
           (mkHeap (cells h) (next h)
                   (upd (arrs h) (sarr s) (put (arrs h (sarr s)) (slen s) v))
                   (anext h))
    else
      Done (mkSlice (anext h) (S (slen s)) (growcap (S (slen s)) (scap s)))
           (mkHeap (cells h) (next h)
                   (upd (arrs h) (anext h) (sread h s ++ [v]))
                   (S (anext h))).

End Store.

Arguments heap V : clear implicits.
Arguments outcome V A : clear implicits.
Arguments M V A : clear implicits.
Arguments Done {V A} a h.
Arguments Fail {V A} e.
Arguments OutOfFuel {V A}.

Notation "x <~ m ;; f" := (hbind m (fun x => f))
  (at level 61, m at next level, right associativity).
Notation "m ;;; f" := (hbind m (fun _ => f))
  (at level 61, right associativity).

Section Methods.

Context {V : Type} {RT : Runtime}.

(** Field writes through a non-nil pointer. *)
Definition setLeft (l : loc) (p : ptr) : M V unit :=
  c <~ load (Some l) ;;
  store l (mkCell (key c) (value c) p (right c) (height c)).

Definition setRight (l : loc) (p : ptr) : M V unit :=
  c <~ load (Some l) ;;
  store l (mkCell (key c) (value c) (left c) p (height c)).

Definition setHeight (l : loc) (z : Z) : M V unit :=
  c <~ load (Some l) ;;
  store l (mkCell (key c) (value c) (left c) (right c) z).

Definition setKey (l : loc) (k : Z) : M V unit :=
  c <~ load (Some l) ;;
  store l (mkCell k (value c) (left c) (right c) (height c)).

Definition setValue (l : loc) (v : slice) : M V unit :=
  c <~ load (Some l) ;;
  store l (mkCell (key c) v (left c) (right c) (height c)).

Definition createNode (k : Z) (v : V) : M V ptr :=
  s <~ literal v ;;
  alloc (mkCell k s None None 1).

Definition getHeight (n : ptr) : M V Z :=
  match n with
  | None => ret 0
  | Some _ => c <~ load n ;; ret (height c)
  end.

Definition updateHeight (n : ptr) : M V unit :=
  match n with
  | None => fail FatalLog
  | Some l =>
      c <~ load n ;;
      hl <~ getHeight (left c) ;;
      hr <~ getHeight (right c) ;;
      setHeight l (1 + Z.max hl hr)
  end.

Definition balanceFactor (n : ptr) : M V Z :=
  match n with
  | None => ret 0
  | Some _ =>
      c <~ load n ;;
      hl <~ getHeight (left c) ;;
      hr <~ getHeight (right c) ;;
      ret (hl - hr)
  end.

Definition rotateRight (y : ptr) : M V ptr :=
  cy <~ load y ;;
  let x := left cy in
  cx <~ load x ;;
  let T2 := right cx in
  match x, y with
  | Some xl, Some yl =>
      setRight xl y ;;;
      setLeft yl T2 ;;;
      updateHeight y ;;;
      updateHeight x ;;;
      ret x
  | _, _ => fail NilDeref
  end.

Definition rotateLeft (x : ptr) : M V ptr :=
  cx <~ load x ;;
  let y := right cx in
  cy <~ load y ;;
  let T2 := left cy in
  match x, y with
  | Some xl, Some yl =>
      setLeft yl x ;;;
      setRight xl T2 ;;;
      updateHeight x ;;;
      updateHeight y ;;;
      ret y
  | _, _ => fail NilDeref
  end.

Definition balance (n : ptr) : M V ptr :=
  updateHeight n ;;;
  balance <~ balanceFactor n ;;
  match n with
  | None => fail NilDeref
  | Some nl =>
      c <~ load n ;;
      bl <~ balanceFactor (left c) ;;
      br <~ balanceFactor (right c) ;;
      if (balance >? 1) && (bl >=? 0) then rotateRight n
      else if (balance >? 1) && (bl <? 0) then
        l' <~ rotateLeft (left c) ;;
        setLeft nl l' ;;;
        rotateRight n
      else if (balance <? -1) && (br <=? 0) then rotateLeft n
      else if (balance <? -1) && (br >? 0) then
        r' <~ rotateRight (right c) ;;
        setRight nl r' ;;;
        rotateLeft n
      else ret n
  end.

Fixpoint insert (fuel : nat) (k : Z) (v : V) (n : ptr) : M V ptr :=
  match fuel with
  | O => fun _ => OutOfFuel
  | S fuel' =>
      match n with
      | None => createNode k v
      | Some nl =>
          c <~ load n ;;
          if k <? key c then
            l' <~ insert fuel' k v (left c) ;;
            setLeft nl l' ;;;
            balance n
          else if k >? key c then
            r' <~ insert fuel' k v (right c) ;;
            setRight nl r' ;;;
            balance n
          else
            s <~ append (value c) v ;;
            setValue nl s ;;;
            ret n
      end
  end.

Fixpoint minValueNode (fuel : nat) (n : ptr) : M V ptr :=
  match fuel with
  | O => fun _ => OutOfFuel
  | S fuel' =>
      c <~ load n ;;
      match left c with
      | None => ret n
      | Some _ => minValueNode fuel' (left c)
      end
  end.

Fixpoint delete (fuel : nat) (k : Z) (n : ptr) : M V ptr :=
  match fuel with
  | O => fun _ => OutOfFuel
  | S fuel' =>
      match n with
      | None => ret n
      | Some nl =>
          c <~ load n ;;
          if k <? key c then
            l' <~ delete fuel' k (left c) ;;
            setLeft nl l' ;;;
            balance n
          else if k >? key c then
            r' <~ delete fuel' k (right c) ;;
            setRight nl r' ;;;
            balance n
          else
            match left c, right c with
            | None, _ => ret (right c)
            | Some _, None => ret (left c)
            | Some _, Some _ =>
                temp <~ minValueNode fuel' (right c) ;;
                ct <~ load temp ;;
                setKey nl (key ct) ;;;
                ct' <~ load temp ;;
                setValue nl (value ct') ;;;
                c' <~ load n ;;
                ct'' <~ load temp ;;
                r' <~ delete fuel' (key ct'') (right c') ;;
                setRight nl r' ;;;
                balance n
            end
      end
  end.

Fixpoint find (fuel : nat) (k : Z) (n : ptr) : M V (slice * bool) :=
  match fuel with
  | O => fun _ => OutOfFuel
  | S fuel' =>
      match n with
      | None => ret (nil_slice, false)
      | Some _ =>
          c <~ load n ;;
          if key c =? k then ret (value c, true)
          else if k <? key c then find fuel' k (left c)
          else find fuel' k (right c)
      end
  end.

Fixpoint findNode (fuel : nat) (k : Z) (n : ptr) : M V (ptr * bool) :=
  match fuel with
  | O => fun _ => OutOfFuel
  | S fuel' =>
      match n with
      | None => ret (None, false)
      | Some _ =>
          c <~ load n ;;
          if key c =? k then ret (n, true)
          else if k <? key c then findNode fuel' k (left c)
          else findNode fuel' k (right c)
      end
  end.

Definition contains (fuel : nat) (k : Z) (n : ptr) : M V bool :=
  r <~ find fuel k n ;; ret (snd r).

Fixpoint getSize (fuel : nat) (n : ptr) : M V Z :=
  match fuel with
  | O => fun _ => OutOfFuel
  | S fuel' =>
      match n with
      | None => ret 0
      | Some _ =>
          c <~ load n ;;
          sl <~ getSize fuel' (left c) ;;
          sr <~ getSize fuel' (right c) ;;
          ret (1 + sl + sr)
      end
  end.

Fixpoint traverseString (fuel : nat) (n : ptr) (sb : string) : M V string :=
  match fuel with
  | O => fun _ => OutOfFuel
  | S fuel' =>
      match n with
      | None => ret sb
      | Some _ =>
          c <~ load n ;;
          sb1 <~ traverseString fuel' (left c) sb ;;
          c' <~ load n ;;
          let sb2 := (sb1 ++ Strings.fmt_v (key c') ++ ", ")%string in
          c'' <~ load n ;;
          traverseString fuel' (right c'') sb2
      end
  end.

Definition nodeString (fuel : nat) (n : ptr) : M V string :=
  match n with
  | None => ret ""%string
  | Some _ =>
      str <~ traverseString fuel n "["%string ;;
      ret (Strings.TrimSuffix str ", " ++ "]")%string
  end.

Definition get (n : ptr) : M V (Z * slice) :=
  c <~ load n ;; ret (key c, value c).

(** ** Tree objects

    Every [Tree] object holds one root pointer.  A value of type [*Tree]
    is nil or the address of an object, which is the index of the object
    here.  The diagnostic sink collects what [log.Println] is given. *)
Record state : Type := mkState {
  hp : heap V;
  roots : list ptr;
  out : list string
}.

Definition handle : Type := option nat.

Inductive call : Type :=
| CNew
| CInsert (t : handle) (k : Z) (v : V)
| CDelete (t : handle) (k : Z)
| CHeight (t : handle)
| CSize (t : handle)
| CMin (t : handle)
| CFind (t : handle) (k : Z)
| CContains (t : handle) (k : Z)
| CString (t : handle)
| CPrint (t : handle)
| CSubTreeFromKey (t : handle) (k : Z).

(** What a call returns.  A slice that is returned is given by the
    elements it shows at the return. *)
Inductive retval : Type :=
| RNone
| RTree (t : nat)
| RInt (z : Z)
| RBool (b : bool)
| RFind (v : list V) (ok : bool)
| RMin (k : Z) (v : list V) (ok : bool)
| RString (s : string)
| RSub (t : handle) (ok : bool).

Inductive result_state : Type :=
| Returned (r : retval) (s : state)
| Aborted (e : abort)
| Unfinished
| NoSuchTree.

(** The handle a call goes through, if any. *)
Definition handle_of (c : call) : option handle :=
  match c with
  | CNew => None
  | CInsert t _ _ | CDelete t _ | CHeight t | CSize t | CMin t
  | CFind t _ | CContains t _ | CString t | CPrint t
  | CSubTreeFromKey t _ => Some t
  end.

(** The handle of the call, if it has one, is the address of a tree
    object of the state. *)
Definition live (s : state) (c : call) : Prop :=
  match handle_of c with
  | None => True
  | Some None => False
  | Some (Some t) => (t < List.length (roots s))%nat
  end.

Fixpoint set_nth (rs : list ptr) (t : nat) (p : ptr) : list ptr :=
  match rs, t with
  | [], _ => []
  | _ :: rs', O => p :: rs'
  | r :: rs', S t' => r :: set_nth rs' t' p
  end.

(** Running a method body on the store of a state. *)
Definition lift {A : Type} (m : M V A) (s : state)
    (k : A -> heap V -> result_state) : result_state :=
  match m (hp s) with
  | Done a h' => k a h'
  | Fail e => Aborted e
  | OutOfFuel => Unfinished
  end.

(** Reading [t.root], the first step of every method of [Tree]: a nil
    dereference when the handle is nil.  An index that names no object
    is answered by [NoSuchTree]. *)
Definition root_of (s : state) (t : handle) (k : nat -> ptr -> result_state)
  : result_state :=
  match t with
  | None => Aborted NilDeref
  | Some i =>
      match nth_error (roots s) i with
      | None => NoSuchTree
      | Some root => k i root
      end
  end.

(** The public methods of [Tree], called through the handle [t]. *)
Definition run (fuel : nat) (c : call) (s : state) : result_state :=
  match c with
  | CNew =>
      Returned (RTree (List.length (roots s)))
               (mkState (hp s) (roots s ++ [None]) (out s))
  | CInsert t k v =>
      root_of s t (fun i root =>
        lift (insert fuel k v root) s (fun r h' =>
          Returned RNone (mkState h' (set_nth (roots s) i r) (out s))))
  | CDelete t k =>
      root_of s t (fun i root =>
        match root with
        | None => Returned RNone s
        | Some _ =>
            lift (delete fuel k root) s (fun r h' =>
              Returned RNone (mkState h' (set_nth (roots s) i r) (out s)))
        end)
  | CHeight t =>
      root_of s t (fun _ root =>
        match root with
        | None => Returned (RInt 0) s
        | Some _ =>
            lift (getHeight root) s (fun z h' =>
              Returned (RInt z) (mkState h' (roots s) (out s)))
        end)
  | CSize t =>
      root_of s t (fun _ root =>
        match root with
        | None => Returned (RInt 0) s
        | Some _ =>
            lift (getSize fuel root) s (fun z h' =>
              Returned (RInt z) (mkState h' (roots s) (out s)))
        end)
  | CMin t =>
      root_of s t (fun _ root =>
        match root with
        | None => Returned (RMin 0 [] false) s
        | Some _ =>
            lift (m <~ minValueNode fuel root ;; get m) s (fun kv h' =>
              Returned (RMin (fst kv) (sread h' (snd kv)) true)
                       (mkState h' (roots s) (out s)))
        end)
  | CFind t k =>
      root_of s t (fun _ root =>
        match root with
        | None => Returned (RFind [] false) s
        | Some _ =>
            lift (find fuel k root) s (fun r h' =>
              Returned (RFind (sread h' (fst r)) (snd r))
                       (mkState h' (roots s) (out s)))
        end)
  | CContains t k =>
      root_of s t (fun _ root =>
        match root with
        | None => Returned (RBool false) s
        | Some _ =>
            lift (contains fuel k root) s (fun b h' =>
              Returned (RBool b) (mkState h' (roots s) (out s)))
        end)
  | CString t =>
      root_of s t (fun _ root =>
        match root with
        | None => Returned (RString "[]") s
        | Some _ =>
            lift (nodeString fuel root) s (fun str h' =>
              Returned (RString str) (mkState h' (roots s) (out s)))
        end)
  | CPrint t =>
      root_of s t (fun _ root =>
        match root with
        | None =>
            Returned RNone
              (mkState (hp s) (roots s)
                       (out s ++ ["Tried to print empty tree"%string]))
        | Some _ =>
            lift (nodeString fuel root) s (fun str h' =>
              Returned RNone (mkState h' (roots s) (out s ++ [str])))
        end)
  | CSubTreeFromKey t k =>
      root_of s t (fun _ root =>
        match root with
        | None => Returned (RSub None false) s
        | Some _ =>
            lift (findNode fuel k root) s (fun r h' =>
              match r with
              | (Some l, true) =>
                  Returned (RSub (Some (List.length (roots s))) true)
                           (mkState h' (roots s ++ [Some l]) (out s))
              | _ => Returned (RSub None false)
                              (mkState h' (roots s) (out s))
              end)
        end)
  end.

Definition init : state :=
  mkState
    (mkHeap (fun _ => mkCell 0 nil_slice None None 0) 0%nat (fun _ => []) 0%nat)
    [] [].

(** States that public calls lead to, through any handles in any order. *)
Inductive reachable : state -> Prop :=
| reach_init : reachable init
| reach_step s fuel c r s' :
    reachable s -> run fuel c s = Returned r s' -> reachable s'.

(** ** The pointer graph of a store and its invariants *)

(** [edge h a b]: the allocated node [a] has [b] as a child. *)
Definition edge (h : heap V) (a b : loc) : Prop :=
  (a < next h)%nat
  /\ (left (cells h a) = Some b \/ right (cells h a) = Some b).

(** Child pointers of allocated nodes are allocated. *)
Definition valid (h : heap V) : Prop :=
  forall a b, edge h a b -> (b < next h)%nat.

(** Cached heights of allocated nodes are positive. *)
Definition heights_ok (h : heap V) : Prop :=
  forall a, (a < next h)%nat -> 1 <= height (cells h a).

(** No node has the same node as both children, and no two nodes are
    children of each other. *)
Definition no_parallel (h : heap V) : Prop :=
  (forall a b, (a < next h)%nat ->
     left (cells h a) = Some b -> right (cells h a) = Some b -> False)
  /\ (forall a b, edge h a b -> edge h b a -> False).

(** A relation is a forest when its pairs can be oriented towards
    parents of strictly smaller depth, one parent per node. *)
Definition covers (fp : loc -> option loc) (a b : loc) : Prop :=
  fp b = Some a \/ fp a = Some b.

Definition forest (E : loc -> loc -> Prop) : Prop :=
  exists (fp : loc -> option loc) (d : loc -> Z),
    (forall a b, E a b -> covers fp a b)
    /\ (forall a p, fp a = Some p -> d p < d a).

(** Overriding a parent map or a depth map at one node. *)
Definition fset (fp : loc -> option loc) (a : loc) (p : option loc)
  : loc -> option loc :=
  fun x => if Nat.eqb x a then p else fp x.

Definition dset (d : loc -> Z) (a : loc) (z : Z) : loc -> Z :=
  fun x => if Nat.eqb x a then z else d x.

(** The invariant of the store: whatever the handles did, the child
    pointers, read without direction, never close a cycle. *)
Definition WF (h : heap V) : Prop :=
  valid h /\ heights_ok h /\ no_parallel h /\ forest (edge h).

Definition pvalid (h : heap V) (p : ptr) : Prop :=
  match p with
  | None => True
  | Some l => (l < next h)%nat
  end.

Definition state_ok (s : state) : Prop :=
  WF (hp s) /\ Forall (pvalid (hp s)) (roots s).

(** Nodes reached from a node along child pointers. *)
Inductive reach (h : heap V) : loc -> loc -> Prop :=
| reach_refl a : reach h a a
| reach_edge a b c : edge h a b -> reach h b c -> reach h a c.

(** A set of locations closed under child pointers. *)
Definition closed (h : heap V) (S : loc -> Prop) : Prop :=
  forall a b, S a -> edge h a b -> S b.

Definition inS (S : loc -> Prop) (p : ptr) : Prop :=
  match p with
  | None => True
  | Some l => S l
  end.

(** [dbound h p f]: every descent from [p] along child pointers ends
    within [f] steps. *)
Inductive dbound (h : heap V) : ptr -> nat -> Prop :=
| dbound_nil f : dbound h None f
| dbound_node l f :
    dbound h (left (cells h l)) f -> dbound h (right (cells h l)) f ->
    dbound h (Some l) (S f).

(** A location no child pointer starts from or leads to. *)
Definition isolated (h : heap V) (l : loc) : Prop :=
  forall a b, edge h a b -> a <> l /\ b <> l.

(** How the pointer [r] that replaces a child pointer [c] may relate to
    it: the same, nil, next to it, or a fresh leaf where there was none. *)
Definition relinked (h : heap V) (c r : ptr) : Prop :=
  r = c \/ r = None
  \/ exists rl, r = Some rl
       /\ ((exists cl, c = Some cl /\ (edge h rl cl \/ edge h cl rl))
           \/ (c = None /\ isolated h rl)).

(** The stores that the field writes produce, and the height read through
    a pointer. *)
Definition hsetL (h : heap V) (l : loc) (p : ptr) : heap V :=
  let c := cells h l in
  mkHeap (upd (cells h) l (mkCell (key c) (value c) p (right c) (height c)))
         (next h) (arrs h) (anext h).

Definition hsetR (h : heap V) (l : loc) (p : ptr) : heap V :=
  let c := cells h l in
  mkHeap (upd (cells h) l (mkCell (key c) (value c) (left c) p (height c)))
         (next h) (arrs h) (anext h).

Definition hsetH (h : heap V) (l : loc) (z : Z) : heap V :=
  let c := cells h l in
  mkHeap (upd (cells h) l (mkCell (key c) (value c) (left c) (right c) z))
         (next h) (arrs h) (anext h).

Definition hsetK (h : heap V) (l : loc) (k : Z) : heap V :=
  let c := cells h l in
  mkHeap (upd (cells h) l (mkCell k (value c) (left c) (right c) (height c)))
         (next h) (arrs h) (anext h).

Definition hsetV (h : heap V) (l : loc) (v : slice) : heap V :=
  let c := cells h l in
  mkHeap (upd (cells h) l (mkCell (key c) v (left c) (right c) (height c)))
         (next h) (arrs h) (anext h).

Definition gh (h : heap V) (p : ptr) : Z :=
  match p with
  | None => 0
  | Some l => height (cells h l)
  end.

Definition newHeight (h : heap V) (l : loc) : Z :=
  1 + Z.max (gh h (left (cells h l))) (gh h (right (cells h l))).

Definition bf (h : heap V) (p : ptr) : Z :=
  match p with
  | None => 0
  | Some l => gh h (left (cells h l)) - gh h (right (cells h l))
  end.

(** The store after [rotateRight] at [y] with left child [x], and after
    [rotateLeft] at [x] with right child [y]. *)
Definition hrotR (h : heap V) (y x : loc) : heap V :=
  let h1 := hsetL (hsetR h x (Some y)) y (right (cells h x)) in
  let h2 := hsetH h1 y (newHeight h1 y) in
  hsetH h2 x (newHeight h2 x).

Definition hrotL (h : heap V) (x y : loc) : heap V :=
  let h1 := hsetR (hsetL h y (Some x)) x (left (cells h y)) in
  let h2 := hsetH h1 x (newHeight h1 x) in
  hsetH h2 y (newHeight h2 y).

(** Writes confined to a set of locations. *)
Definition frame (S : loc -> Prop) (h h' : heap V) : Prop :=
  forall l, ~ S l -> cells h' l = cells h l.

(** What rebalancing at [n] guarantees about its result [r] and the
    store [h'] it leaves. *)
Definition bal_post (h : heap V) (n r : loc) (h' : heap V) : Prop :=
  WF h' /\ next h' = next h /\ (r < next h)%nat
  /\ (r = n \/ edge h' r n)
  /\ forall S : loc -> Prop, closed h S -> S n ->
       frame S h h' /\ closed h' S /\ S r.

(** A set of locations together with everything allocated after [h]. *)
Definition ext (S : loc -> Prop) (h : heap V) : loc -> Prop :=
  fun l => S l \/ (next h <= l)%nat.

(** What [insert] and [delete] at [p] guarantee about their result [r]
    and the store [h'] they leave. *)
Definition mut_post (h : heap V) (p r : ptr) (h' : heap V) : Prop :=
  WF h' /\ (next h <= next h')%nat /\ pvalid h' r /\ relinked h' p r
  /\ forall S : loc -> Prop, closed h S -> inS S p ->
       frame (ext S h) h h' /\ closed h' (ext S h) /\ inS (ext S h) r.

(** The nodes below a pointer. *)
Definition below (h : heap V) (p : ptr) : loc -> Prop :=
  match p with
  | None => fun _ => False
  | Some l => reach h l
  end.

(** A method call that needs fuel either ends with a result satisfying
    [Q], or stops for lack of fuel, and then only because the fuel did
    not cover the depth below [p]; it never aborts. *)
Definition outcome_ok {A : Type} (o : outcome V A) (fuel : nat)
    (h : heap V) (p : ptr) (Q : A -> heap V -> Prop) : Prop :=
  match o with
  | Done a h' => Q a h'
  | Fail _ => False
  | OutOfFuel => forall f, dbound h p f -> (fuel <= f)%nat
  end.

(** The store after [createNode]. *)
Definition halloc (h : heap V) (k : Z) (v : V) : heap V :=
  mkHeap (upd (cells h) (next h) (mkCell k (mkSlice (anext h) 1%nat 1%nat) None None 1))
         (S (next h)) (upd (arrs h) (anext h) [v]) (S (anext h)).

(** What a public call may end in from a state that satisfies the
    invariant: a state that satisfies it again, or a stop for lack of
    fuel when the fuel did not exceed the number of allocated nodes. *)
Definition res_ok (fuel : nat) (s : state) (res : result_state) : Prop :=
  match res with
  | Returned _ s' => state_ok s'
  | Aborted _ => False
  | Unfinished => (fuel <= next (hp s))%nat
  | NoSuchTree => False
  end.

(** The state after a call, when it returns. *)
Definition exec (fuel : nat) (c : call) (s : state) : state :=
  match run fuel c s with
  | Returned _ s' => s'
  | _ => s
  end.

(** Two stores with the same allocated locations and child pointers. *)
Definition same_shape (h h' : heap V) : Prop :=
  next h' = next h
  /\ forall l, left (cells h' l) = left (cells h l)
            /\ right (cells h' l) = right (cells h l).

(** [grows m d]: a run of [m] that ends allocates at most [d] cells and
    frees none. *)
Definition grows {A : Type} (m : M V A) (d : nat) : Prop :=
  forall h res h', m h = Done res h' ->
    (next h <= next h' <= next h + d)%nat.

(** The array that the slice of a node is on. *)
Definition arr_of (h : heap V) (l : loc) : loc := sarr (value (cells h l)).

(** Two stores with the same arrays in which every node has the same
    key and the same slice. *)
Definition same_data (h h' : heap V) : Prop :=
  arrs h' = arrs h /\ anext h' = anext h
  /\ forall l, key (cells h' l) = key (cells h l)
               /\ value (cells h' l) = value (cells h l).

(** [pres m]: a run of [m] that ends has written no array, no key and no
    slice; [keeps m]: it has written no array. *)
Definition pres {A : Type} (m : M V A) : Prop :=
  forall h res h', m h = Done res h' -> same_data h h'.

Definition keeps {A : Type} (m : M V A) : Prop :=
  forall h res h', m h = Done res h' ->
    arrs h' = arrs h /\ anext h' = anext h.

(** A slice as Go keeps it: nil, or on an allocated array of which it
    shows written elements only, all within its capacity. *)
Definition slice_ok (h : heap V) (sl : slice) : Prop :=
  sl = nil_slice
  \/ ((sarr sl < anext h)%nat
      /\ (slen sl <= List.length (arrs h (sarr sl)) <= scap sl)%nat).

(** The slices of a store: nothing is written in an array that is not
    allocated, the slice of every node is as Go keeps it, and the slices
    on one array have one capacity. *)
Definition slices_ok (h : heap V) : Prop :=
  (forall a, (anext h <= a)%nat -> arrs h a = [])
  /\ (forall l, slice_ok h (value (cells h l)))
  /\ (forall l1 l2,
        value (cells h l1) <> nil_slice -> value (cells h l2) <> nil_slice ->
        arr_of h l1 = arr_of h l2 ->
        scap (value (cells h l1)) = scap (value (cells h l2))).

(** [okp m]: a run of [m] that ends keeps the slices as Go keeps them. *)
Definition okp {A : Type} (m : M V A) : Prop :=
  forall h res h', m h = Done res h' -> slices_ok h -> slices_ok h'.

(** What [insert] of the value [v] under the key [k] below [p] does to
    the arrays: it allocates at most one; of the arrays there were it
    writes none, or one element of one: the element behind the last one
    of the slice of a node below [p] that holds the key and has
    capacity left. *)
Definition arrays_post (h : heap V) (p : ptr) (k : Z) (v : V) (h' : heap V)
  : Prop :=
  (anext h <= anext h' <= S (anext h))%nat
  /\ ((forall a, (a < anext h)%nat -> arrs h' a = arrs h a)
      \/ exists l,
           below h p l /\ key (cells h l) = k
           /\ (slen (value (cells h l)) < scap (value (cells h l)))%nat
           /\ anext h' = anext h
           /\ arrs h'
              = upd (arrs h) (arr_of h l)
                  (put (arrs h (arr_of h l)) (slen (value (cells h l))) v)).

End Methods.

(** A runtime that doubles the capacity of a slice that has to grow, as
    the Go runtime does for short slices. *)
Definition doubling : Runtime :=
  mkRuntime (fun n c => Nat.max n (2 * c)%nat)
            (fun n c => Nat.le_max_l n (2 * c)%nat).

#[local] Existing Instance doubling.

(** A state in which two tree objects share nodes: the second object is
    the subtree at key 30 of the first and has grown since, so that the
    node of key 30 is a child both of the root of the first object and of
    the root of the second. *)
Definition aliased_state : state (V := unit) :=
  exec 9 (CInsert (Some 1%nat) 40 tt)
    (exec 9 (CInsert (Some 1%nat) 35 tt)
      (exec 9 (CSubTreeFromKey (Some 0%nat) 30)
        (exec 9 (CInsert (Some 0%nat) 30 tt)
          (exec 9 (CInsert (Some 0%nat) 20 tt)
            (exec 9 (CInsert (Some 0%nat) 10 tt)
              (exec 9 CNew init)))))).

(** A state in which two nodes that neither tree object has in common
    have their slices on one array.  The first object held the keys 10,
    20 and 30, the last with the values 3, 4 and 5 in an array of
    capacity 4; the second object is the subtree at key 30.  [Delete] of
    key 20 through the first object made its root take the key 30 and
    the slice of the node of key 30, and unlinked that node, which the
    second object still has as its root.  An [Insert] through the second
    object has since put the value 6 behind the three values. *)
Definition sliced_state : state (V := Z) :=
  exec 9 (CInsert (Some 1%nat) 30 6)
    (exec 9 (CDelete (Some 0%nat) 20)
      (exec 9 (CSubTreeFromKey (Some 0%nat) 30)
        (exec 9 (CInsert (Some 0%nat) 30 5)
          (exec 9 (CInsert (Some 0%nat) 30 4)
            (exec 9 (CInsert (Some 0%nat) 30 3)
              (exec 9 (CInsert (Some 0%nat) 10 1)
                (exec 9 (CInsert (Some 0%nat) 20 2)
                  (exec 9 CNew init)))))))).

End Heap.

(** * The store model against the functional model

    A part of a store that is a tree, with no node reached twice, stands
    for a tree of the functional model. *)

Module Refine.
Import Heap.

Section Shape.

Context {V : Type} {RT : Runtime}.

(** [shape h p n fp]: from the pointer [p] the store [h] holds the tree
    [n], node for node with the same key, the same values shown by its
    slice, and the same cached height; [fp] lists the locations of the
    nodes, root first, then the left subtree, then the right one. *)
Fixpoint shape (h : heap V) (p : ptr) (n : AVL.node V) (fp : list loc)
    {struct n} : Prop :=
  match n with
  | AVL.nil => p = None /\ fp = []
  | AVL.Node k v L R ht =>
      exists l fl fr,
        p = Some l /\ (l < next h)%nat
        /\ key (cells h l) = k /\ sread h (value (cells h l)) = v
        /\ height (cells h l) = ht
        /\ shape h (left (cells h l)) L fl
        /\ shape h (right (cells h l)) R fr
        /\ fp = l :: fl ++ fr
  end.

(** The same, with no location occurring twice: no node is shared. *)
Definition tree (h : heap V) (p : ptr) (n : AVL.node V) (fp : list loc)
  : Prop :=
  shape h p n fp /\ NoDup fp.

(** The slices of the nodes of [fp] are on allocated arrays. *)
Definition allocated (h : heap V) (fp : list loc) : Prop :=
  forall l, In l fp -> (arr_of h l < anext h)%nat.

(** No two nodes of [fp] have their slices on one array, and these
    arrays are allocated: no array is shared. *)
Definition exclusive (h : heap V) (fp : list loc) : Prop :=
  (forall l1 l2, In l1 fp -> In l2 fp -> arr_of h l1 = arr_of h l2 -> l1 = l2)
  /\ allocated h fp.

(** The nodes of [fp2] are none of [fp], and their slices are on
    allocated arrays that no slice of a node of [fp] is on. *)
Definition apart (h : heap V) (fp fp2 : list loc) : Prop :=
  (forall a, In a fp2 -> ~ In a fp)
  /\ (forall l l2, In l fp -> In l2 fp2 -> arr_of h l <> arr_of h l2)
  /\ allocated h fp2.

(** The allocated cells outside [fp] are the same in both stores. *)
Definition unchanged_outside (fp : list loc) (h h' : heap V) : Prop :=
  forall l, ~ In l fp -> (l < next h)%nat -> cells h' l = cells h l.

(** The locations of [fp'] are locations of [fp] or were allocated
    between [h] and [h']. *)
Definition within (fp' fp : list loc) (h h' : heap V) : Prop :=
  forall l, In l fp' -> In l fp \/ (next h <= l < next h')%nat.

(** The allocated arrays that no slice of a node of [fp] is on are the
    same in both stores, and no array is freed. *)
Definition arrays_outside (fp : list loc) (h h' : heap V) : Prop :=
  (anext h <= anext h')%nat
  /\ forall a, (a < anext h)%nat -> (forall l, In l fp -> arr_of h l <> a) ->
               arrs h' a = arrs h a.

(** Where the arrays under the nodes of [fp'] in [h'] come from: every
    node has the key and the array of a node of [fp] in [h], or an
    array allocated since, which it has for itself. *)
Definition carried (h : heap V) (fp : list loc) (h' : heap V)
    (fp' : list loc) : Prop :=
  (forall l', In l' fp' ->
     (exists l, In l fp /\ key (cells h' l') = key (cells h l)
                /\ arr_of h' l' = arr_of h l)
     \/ (anext h <= arr_of h' l' < anext h')%nat)
  /\ (forall l1 l2, In l1 fp' -> In l2 fp' ->
        (anext h <= arr_of h' l1)%nat -> arr_of h' l1 = arr_of h' l2 ->
        l1 = l2).

(** A run of a method of the store model that returns a pointer agrees
    with a result of the functional model. *)
Definition agrees (h : heap V) (fp : list loc) (o : outcome V ptr)
    (n' : AVL.node V) : Prop :=
  exists r h' fp',
    o = Done r h' /\ tree h' r n' fp' /\ within fp' fp h h'
    /\ unchanged_outside fp h h' /\ (next h <= next h')%nat
    /\ arrays_outside fp h h'
    /\ (allocated h fp -> carried h fp h' fp').

(** The tree object [t] of a state holds the tree [T] of the functional
    model, with no node shared. *)
Definition holds (s : state (V := V)) (t : nat) (T : AVL.Tree V)
    (fp : list loc) : Prop :=
  exists root,
    nth_error (roots s) t = Some root /\ tree (hp s) root (AVL.root T) fp.

(** States that public calls other than [SubTreeFromKey] lead to: the
    tree objects of such a state were all made by [New]. *)
Inductive plain : state (V := V) -> Prop :=
| plain_init : plain init
| plain_step s fuel c rv s' :
    plain s -> (forall t k, c <> CSubTreeFromKey t k) ->
    run fuel c s = Returned rv s' -> plain s'.

(** Every tree object holds a tree of the functional model built by
    [Insert] and [Delete], no two objects have a node in common, and no
    two nodes of these trees have their slices on one array. *)
Definition owned (s : state (V := V)) (TT : nat -> AVL.Tree V)
    (F : nat -> list loc) : Prop :=
  (forall t root, nth_error (roots s) t = Some root ->
     AVL.Reachable (TT t) /\ tree (hp s) root (AVL.root (TT t)) (F t))
  /\ (forall t1 t2 a,
        (t1 < List.length (roots s))%nat ->
        (t2 < List.length (roots s))%nat ->
        t1 <> t2 -> In a (F t1) -> ~ In a (F t2))
  /\ (forall t1 t2 l1 l2,
        (t1 < List.length (roots s))%nat ->
        (t2 < List.length (roots s))%nat ->
        In l1 (F t1) -> In l2 (F t2) ->
        arr_of (hp s) l1 = arr_of (hp s) l2 -> l1 = l2)
  /\ (forall t, (t < List.length (roots s))%nat -> allocated (hp s) (F t)).

End Shape.

#[local] Existing Instance doubling.

(** One tree object grown by three [Insert]s, and the tree of the
    functional model it holds. *)
Definition solo_state : state (V := unit) :=
  exec 9 (CInsert (Some 0%nat) 30 tt)
    (exec 9 (CInsert (Some 0%nat) 20 tt)
      (exec 9 (CInsert (Some 0%nat) 10 tt)
        (exec 9 CNew init))).

Definition solo_tree : AVL.Tree unit :=
  AVL.mkTree
    (AVL.Node 20 [tt] (AVL.Node 10 [tt] AVL.nil AVL.nil 1)
       (AVL.Node 30 [tt] AVL.nil AVL.nil 1) 2).

End Refine.

(** * Facts about the string helpers *)

Module StringFacts.
Import Strings.

Local Open Scope string_scope.
Local Open Scope nat_scope.

Lemma length_append (s t : string) :
  String.length (s ++ t) = String.length s + String.length t.
Proof. induction s as [|c s IH]; simpl; [reflexivity|]. now rewrite IH. Qed.

Lemma append_assoc (s t u : string) : (s ++ t) ++ u = s ++ (t ++ u).
Proof. induction s as [|c s IH]; simpl; [reflexivity|]. now rewrite IH. Qed.

Lemma append_nil_r (s : string) : s ++ "" = s.
Proof. induction s as [|c s IH]; simpl; [reflexivity|]. now rewrite IH. Qed.

Lemma substring_all (s : string) : substring 0 (String.length s) s = s.
Proof. induction s as [|c s IH]; simpl; [reflexivity|]. now rewrite IH. Qed.

Lemma substring_prefix (s t : string) :
  substring 0 (String.length s) (s ++ t) = s.
Proof.
  induction s as [|c s IH]; simpl.
  - now destruct t.
  - now rewrite IH.
Qed.

Lemma substring_suffix (s t : string) :
  substring (String.length s) (String.length t) (s ++ t) = t.
Proof.
  induction s as [|c s IH]; simpl; [apply substring_all|exact IH].
Qed.

Lemma substring_skip (pre t : string) (n m : nat) :
  substring (String.length pre + n) m (pre ++ t) = substring n m t.
Proof. induction pre as [|c pre IH]; simpl; [reflexivity|exact IH]. Qed.

(** Trimming a suffix that was just appended gives the text back. *)
Lemma TrimSuffix_append (s suf : string) : TrimSuffix (s ++ suf) suf = s.
Proof.
  unfold TrimSuffix, HasSuffix. rewrite length_append.
  replace (String.length s + String.length suf - String.length suf)
    with (String.length s) by lia.
  rewrite substring_suffix, String.eqb_refl, substring_prefix.
  destruct (Nat.leb_spec (String.length suf)
              (String.length s + String.length suf)); [reflexivity|lia].
Qed.

End StringFacts.

(** * Facts about the AVL multimap *)

Module AVLFacts.
Import AVL.

#[local] Arguments Z.add _ _ : simpl never.
#[local] Arguments Z.sub _ _ : simpl never.
#[local] Arguments Z.max _ _ : simpl never.
#[local] Arguments Z.ltb _ _ : simpl never.
#[local] Arguments Z.leb _ _ : simpl never.
#[local] Arguments Z.gtb _ _ : simpl never.
#[local] Arguments Z.geb _ _ : simpl never.
#[local] Arguments Z.eqb _ _ : simpl never.

Ltac zbool :=
  rewrite ?Z.gtb_ltb, ?Z.geb_leb in *;
  repeat match goal with
  | |- context [Z.ltb ?a ?b] => destruct (Z.ltb_spec a b)
  | |- context [Z.leb ?a ?b] => destruct (Z.leb_spec a b)
  | |- context [Z.eqb ?a ?b] => destruct (Z.eqb_spec a b)
  end; simpl; try reflexivity; try lia.

Section Facts.

Context {V : Type}.
Implicit Types (n l r : node V) (k : Z) (v : list V).
Implicit Types (L M R : list (Z * list V)).

Lemma hb_nil : hb (@nil V).
Proof. split; exact I. Qed.

Lemma hb_node k v l r h :
  hb (Node k v l r h) <->
  hb l /\ hb r /\ h = 1 + Z.max (getHeight l) (getHeight r)
  /\ -1 <= getHeight l - getHeight r <= 1.
Proof. unfold hb; simpl; intuition lia. Qed.

Lemma hb_intro k v l r h :
  hb l -> hb r -> h = 1 + Z.max (getHeight l) (getHeight r) ->
  -1 <= getHeight l - getHeight r <= 1 ->
  hb (Node k v l r h).
Proof. intros. apply hb_node; auto. Qed.

Ltac solve_hb :=
  repeat match goal with
  | |- hb nil => apply hb_nil
  | |- hb (Node _ _ _ _ _) => apply hb_intro
  | |- hb _ => assumption
  | |- _ => simpl; lia
  end.

Lemma height_nonneg n : height_cached n -> 0 <= getHeight n.
Proof.
  induction n as [|k v l IHl r IHr h]; simpl; [lia|].
  intros (-> & Hl & Hr). specialize (IHl Hl). specialize (IHr Hr). lia.
Qed.

Lemma hb_height_nonneg n : hb n -> 0 <= getHeight n.
Proof. intros [_ H]. now apply height_nonneg. Qed.

Lemma height_zero_nil n : height_cached n -> getHeight n <= 0 -> n = nil.
Proof.
  destruct n as [|k v l r h]; [reflexivity|]. simpl.
  intros (-> & Hl & Hr) Hle.
  pose proof (height_nonneg _ Hl). lia.
Qed.

(** *** What [balance] computes, branch by branch *)

Lemma balance_id k v l r h :
  -1 <= getHeight l - getHeight r <= 1 ->
  balance (Node k v l r h)
  = Ok (Node k v l r (1 + Z.max (getHeight l) (getHeight r))).
Proof. intros H. unfold balance; simpl. zbool. Qed.

Lemma balance_LL k v lk lv ll lr lh r h :
  1 < lh - getHeight r ->
  0 <= getHeight ll - getHeight lr ->
  balance (Node k v (Node lk lv ll lr lh) r h)
  = Ok (Node lk lv ll
          (Node k v lr r (1 + Z.max (getHeight lr) (getHeight r)))
          (1 + Z.max (getHeight ll)
                 (1 + Z.max (getHeight lr) (getHeight r)))).
Proof. intros H1 H2. unfold balance; simpl. zbool. Qed.

Lemma balance_LR k v lk lv ll mk mv A B mh lh r h :
  1 < lh - getHeight r ->
  getHeight ll - mh < 0 ->
  balance (Node k v (Node lk lv ll (Node mk mv A B mh) lh) r h)
  = Ok (Node mk mv
          (Node lk lv ll A (1 + Z.max (getHeight ll) (getHeight A)))
          (Node k v B r (1 + Z.max (getHeight B) (getHeight r)))
          (1 + Z.max (1 + Z.max (getHeight ll) (getHeight A))
                 (1 + Z.max (getHeight B) (getHeight r)))).
Proof. intros H1 H2. unfold balance; simpl. zbool. Qed.

Lemma balance_RR k v l rk rv rl rr rh h :
  getHeight l - rh < -1 ->
  getHeight rl - getHeight rr <= 0 ->
  balance (Node k v l (Node rk rv rl rr rh) h)
  = Ok (Node rk rv
          (Node k v l rl (1 + Z.max (getHeight l) (getHeight rl)))
          rr
          (1 + Z.max (1 + Z.max (getHeight l) (getHeight rl))
                 (getHeight rr))).
Proof. intros H1 H2. unfold balance; simpl. zbool. Qed.

Lemma balance_RL k v l rk rv mk mv A B mh rr rh h :
  getHeight l - rh < -1 ->
  0 < mh - getHeight rr ->
  balance (Node k v l (Node rk rv (Node mk mv A B mh) rr rh) h)
  = Ok (Node mk mv
          (Node k v l A (1 + Z.max (getHeight l) (getHeight A)))
          (Node rk rv B rr (1 + Z.max (getHeight B) (getHeight rr)))
          (1 + Z.max (1 + Z.max (getHeight l) (getHeight A))
                 (1 + Z.max (getHeight B) (getHeight rr)))).
Proof. intros H1 H2. unfold balance; simpl. zbool. Qed.

(** Rebalancing keeps the in-order contents, whatever the shape. *)
Lemma balance_elements n n' :
  balance n = Ok n' -> elements n' = elements n.
Proof.
  destruct n as [|k v l r h]; [discriminate|].
  unfold balance; simpl.
  destruct ((_ >? 1) && _).
  { destruct l as [|lk lv ll lr lh]; simpl; [discriminate|].
    intros [= <-]; simpl. now rewrite <- app_assoc. }
  destruct ((_ >? 1) && _).
  { destruct l as [|lk lv ll [|mk mv A B mh] lh]; simpl; try discriminate.
    intros [= <-]; simpl.
    repeat (rewrite <- app_assoc; simpl). reflexivity. }
  destruct ((_ <? -1) && _).
  { destruct r as [|rk rv rl rr rh]; simpl; [discriminate|].
    intros [= <-]; simpl. now rewrite <- app_assoc. }
  destruct ((_ <? -1) && _).
  { destruct r as [|rk rv [|mk mv A B mh] rr rh]; simpl; try discriminate.
    intros [= <-]; simpl.
    repeat (rewrite <- app_assoc; simpl). reflexivity. }
  now intros [= <-].
Qed.

(** Rebalancing a node whose subtrees are sound and whose heights differ by
    at most two succeeds and yields a sound tree. *)
Lemma balance_hb k v l r h :
  hb l -> hb r ->
  -2 <= getHeight l - getHeight r <= 2 ->
  exists n',
    balance (Node k v l r h) = Ok n' /\ hb n'
    /\ Z.max (getHeight l) (getHeight r) <= getHeight n'
       <= 1 + Z.max (getHeight l) (getHeight r)
    /\ (-1 <= getHeight l - getHeight r <= 1 ->
        getHeight n' = 1 + Z.max (getHeight l) (getHeight r)).
Proof.
  intros Hl Hr Hd.
  pose proof (hb_height_nonneg _ Hl) as Pl.
  pose proof (hb_height_nonneg _ Hr) as Pr.
  destruct (Z_le_gt_dec (getHeight l - getHeight r) 1) as [Hu|Hu].
  - destruct (Z_le_gt_dec (-1) (getHeight l - getHeight r)) as [Hd'|Hd'].
    + eexists. split; [apply balance_id; lia|].
      split; [solve_hb|simpl; split; lia].
    + destruct r as [|rk rv rl rr rh]; [simpl in *; lia|].
      apply hb_node in Hr as (Hrl & Hrr & Erh & Brh). simpl in *.
      pose proof (hb_height_nonneg _ Hrl) as Prl.
      pose proof (hb_height_nonneg _ Hrr) as Prr.
      destruct (Z_le_gt_dec (getHeight rl - getHeight rr) 0) as [Hc|Hc].
      * eexists. split; [apply balance_RR; lia|].
        split; [solve_hb|simpl; split; lia].
      * destruct rl as [|mk mv A B mh]; [simpl in *; lia|].
        apply hb_node in Hrl as (HA & HB & Emh & Bmh). simpl in *.
        pose proof (hb_height_nonneg _ HA). pose proof (hb_height_nonneg _ HB).
        eexists. split; [apply balance_RL; lia|].
        split; [solve_hb|simpl; split; lia].
  - destruct l as [|lk lv ll lr lh]; [simpl in *; lia|].
    apply hb_node in Hl as (Hll & Hlr & Elh & Blh). simpl in *.
    pose proof (hb_height_nonneg _ Hll) as Pll.
    pose proof (hb_height_nonneg _ Hlr) as Plr.
    destruct (Z_le_gt_dec 0 (getHeight ll - getHeight lr)) as [Hc|Hc].
    + eexists. split; [apply balance_LL; lia|].
      split; [solve_hb|simpl; split; lia].
    + destruct lr as [|mk mv A B mh]; [simpl in *; lia|].
      apply hb_node in Hlr as (HA & HB & Emh & Bmh). simpl in *.
      pose proof (hb_height_nonneg _ HA). pose proof (hb_height_nonneg _ HB).
      eexists. split; [apply balance_LR; lia|].
      split; [solve_hb|simpl; split; lia].
Qed.

(** Insertion succeeds on a sound tree, keeps it sound, and raises the
    height by at most one. *)
Lemma insert_hb key value n :
  hb n ->
  exists n',
    insert key value n = Ok n' /\ hb n'
    /\ getHeight n <= getHeight n' <= getHeight n + 1.
Proof.
  induction n as [|k v l IHl r IHr h]; intros Hn.
  - eexists; split; [reflexivity|]. split; [|simpl; lia].
    unfold createNode. solve_hb.
  - apply hb_node in Hn as (Hl & Hr & Eh & Bh). simpl.
    zbool.
    + destruct (IHl Hl) as (l' & El & Hl' & Bl). rewrite El; simpl.
      destruct (balance_hb k v l' r h Hl' Hr) as (n' & En & Hn' & Bn & Bi); [lia|].
      exists n'. split; [assumption|split; [assumption|lia]].
    + destruct (IHr Hr) as (r' & Er & Hr' & Br). rewrite Er; simpl.
      destruct (balance_hb k v l r' h Hl Hr') as (n' & En & Hn' & Bn & Bi); [lia|].
      exists n'. split; [assumption|split; [assumption|lia]].
    + eexists; split; [reflexivity|]. split; [solve_hb|simpl; lia].
Qed.

Lemma minValueNode_ok k v l r h :
  exists mk mv mr mh rest,
    minValueNode (Node k v l r h) = Ok (Node mk mv nil mr mh)
    /\ elements (Node k v l r h) = (mk, mv) :: rest.
Proof.
  revert k v r h.
  induction l as [|lk lv ll IHll lr _ lh]; intros k v r h.
  - exists k, v, r, h, (elements r). now split.
  - destruct (IHll lk lv lr lh) as (mk & mv & mr & mh & rest & E1 & E2).
    exists mk, mv, mr, mh, (rest ++ (k, v) :: elements r).
    split; [exact E1|].
    change (elements (Node k v (Node lk lv ll lr lh) r h))
      with (elements (Node lk lv ll lr lh) ++ (k, v) :: elements r).
    now rewrite E2.
Qed.

(** Deletion succeeds on a sound tree, keeps it sound, and lowers the
    height by at most one. *)
Lemma delete_hb n : forall key,
  hb n ->
  exists n',
    delete key n = Ok n' /\ hb n'
    /\ getHeight n - 1 <= getHeight n' <= getHeight n.
Proof.
  induction n as [|k v l IHl r IHr h]; intros key Hn.
  - exists nil. split; [reflexivity|]. split; [apply hb_nil|simpl; lia].
  - apply hb_node in Hn as (Hl & Hr & Eh & Bh).
    pose proof (hb_height_nonneg _ Hl) as Pl.
    pose proof (hb_height_nonneg _ Hr) as Pr.
    cbn [delete]. zbool.
    + destruct (IHl key Hl) as (l' & El & Hl' & Bl). rewrite El; simpl.
      destruct (balance_hb k v l' r h Hl' Hr) as (n' & En & Hn' & Bn & Bi);
        [lia|].
      exists n'. split; [assumption|split; [assumption|simpl; lia]].
    + destruct (IHr key Hr) as (r' & Er & Hr' & Br). rewrite Er; simpl.
      destruct (balance_hb k v l r' h Hl Hr') as (n' & En & Hn' & Bn & Bi);
        [lia|].
      exists n'. split; [assumption|split; [assumption|simpl; lia]].
    + destruct l as [|lk lv ll lr lh].
      { exists r. split; [reflexivity|]. split; [assumption|simpl in *; lia]. }
      destruct r as [|rk rv rl rr rh].
      { eexists. split; [reflexivity|]. split; [assumption|simpl in *; lia]. }
      destruct (minValueNode_ok rk rv rl rr rh)
        as (mk & mv & mr & mh & rest & Em & _).
      rewrite Em. cbn [bind get fst snd].
      destruct (IHr mk Hr) as (r' & Er & Hr' & Br). rewrite Er. cbn [bind].
      destruct (balance_hb mk mv (Node lk lv ll lr lh) r' h Hl Hr')
        as (n' & En & Hn' & Bn & Bi); [lia|].
      exists n'. split; [assumption|split; [assumption|simpl in *; lia]].
Qed.

(** *** Search order and the in-order key list *)

Lemma all_keys_Forall (P : Z -> Prop) n :
  all_keys P n <-> Forall P (keys n).
Proof.
  unfold keys. induction n as [|k v l IHl r IHr h]; simpl.
  - split; auto.
  - rewrite map_app, Forall_app; simpl. rewrite Forall_cons_iff.
    tauto.
Qed.

Lemma sorted_app_iff (l1 l2 : list Z) (x : Z) :
  StronglySorted Z.lt (l1 ++ x :: l2) <->
  StronglySorted Z.lt l1 /\ StronglySorted Z.lt l2
  /\ Forall (fun y => y < x) l1 /\ Forall (fun y => x < y) l2.
Proof.
  induction l1 as [|a l1 IH]; simpl.
  - split.
    + intros H. inversion H; subst. repeat split; auto. constructor.
    + intros (_ & H2 & _ & H4). now constructor.
  - split.
    + intros H. inversion H as [|? ? Hs Hf]; subst.
      apply IH in Hs as (S1 & S2 & F1 & F2).
      apply Forall_app in Hf as [Fa Fb].
      inversion Fb; subst.
      repeat split; auto; constructor; auto.
    + intros (S1 & S2 & F1 & F2).
      inversion S1 as [|? ? Hs Hf]; subst. inversion F1; subst.
      constructor.
      * apply IH. repeat split; auto.
      * apply Forall_app. split; auto. constructor; auto.
        eapply Forall_impl; [|exact F2]. simpl; intros; lia.
Qed.

Lemma bst_sorted n : bst_order n <-> StronglySorted Z.lt (keys n).
Proof.
  induction n as [|k v l IHl r IHr h]; simpl.
  - split; auto. intros; constructor.
  - unfold keys in *; simpl. rewrite map_app; simpl.
    rewrite sorted_app_iff, IHl, IHr.
    rewrite !all_keys_Forall. unfold keys. tauto.
Qed.

Lemma sorted_NoDup (l : list Z) : StronglySorted Z.lt l -> NoDup l.
Proof.
  induction 1 as [|a l Hs IH Hf]; constructor; auto.
  intros Hin. rewrite Forall_forall in Hf. specialize (Hf _ Hin). lia.
Qed.

(** *** The association-list operations *)

Lemma ains_app_left key value L k v R :
  key < k ->
  ains key value (L ++ (k, v) :: R) = ains key value L ++ (k, v) :: R.
Proof.
  intros Hlt. induction L as [|[k' v'] L IH]; simpl.
  - zbool.
  - zbool. now rewrite IH.
Qed.

Lemma ains_app_right key value L M :
  Forall (fun x => x < key) (akeys L) ->
  ains key value (L ++ M) = L ++ ains key value M.
Proof.
  induction L as [|[k' v'] L IH]; simpl; intros HF; [reflexivity|].
  inversion HF; subst. simpl in *. zbool. now rewrite IH.
Qed.

Lemma aremove_app key L M :
  aremove key (L ++ M) = aremove key L ++ aremove key M.
Proof. apply filter_app. Qed.

Lemma aremove_notin key L :
  ~ In key (akeys L) -> aremove key L = L.
Proof.
  induction L as [|[k v] L IH]; simpl; intros Hn; [reflexivity|].
  zbool. rewrite IH; tauto.
Qed.

Lemma akeys_aremove key L :
  akeys (aremove key L) = filter (fun x => negb (x =? key)) (akeys L).
Proof.
  induction L as [|[k v] L IH]; simpl; [reflexivity|].
  zbool; now rewrite <- IH.
Qed.

Lemma alookup_notin key L :
  ~ In key (akeys L) -> alookup key L = ([], false).
Proof.
  induction L as [|[k v] L IH]; simpl; intros Hn; [reflexivity|].
  zbool. apply IH; tauto.
Qed.

Lemma alookup_app key L M :
  alookup key (L ++ M)
  = if snd (alookup key L) then alookup key L else alookup key M.
Proof.
  induction L as [|[k v] L IH]; simpl; [reflexivity|]. zbool. apply IH.
Qed.

Lemma alookup_found_in key L :
  snd (alookup key L) = true <-> In key (akeys L).
Proof.
  induction L as [|[k v] L IH]; simpl.
  - split; [discriminate|tauto].
  - zbool. rewrite IH. intuition congruence.
Qed.

Lemma alookup_false key L :
  snd (alookup key L) = false -> alookup key L = ([], false).
Proof.
  intros E. apply alookup_notin. intros Hin.
  apply alookup_found_in in Hin. congruence.
Qed.

Lemma render_trailing_app (ks1 ks2 : list Z) :
  render_trailing (ks1 ++ ks2)
  = (render_trailing ks1 ++ render_trailing ks2)%string.
Proof.
  induction ks1 as [|a ks1 IH]; [reflexivity|].
  cbn [render_trailing app]. rewrite IH.
  now rewrite !StringFacts.append_assoc.
Qed.

Lemma lt_not_in (key : Z) (l : list Z) :
  Forall (fun x => x < key) l -> ~ In key l.
Proof.
  intros HF Hin. rewrite Forall_forall in HF. specialize (HF _ Hin). lia.
Qed.

Lemma gt_not_in (key : Z) (l : list Z) :
  Forall (fun x => key < x) l -> ~ In key l.
Proof.
  intros HF Hin. rewrite Forall_forall in HF. specialize (HF _ Hin). lia.
Qed.

Lemma Forall_lt_trans (a b : Z) (l : list Z) :
  a < b -> Forall (fun x => x < a) l -> Forall (fun x => x < b) l.
Proof. intros H. apply Forall_impl; intros; lia. Qed.

Lemma Forall_gt_trans (a b : Z) (l : list Z) :
  b < a -> Forall (fun x => a < x) l -> Forall (fun x => b < x) l.
Proof. intros H. apply Forall_impl; intros; lia. Qed.

Lemma bst_node k v l r h :
  bst_order (Node k v l r h) <->
  Forall (fun x => x < k) (keys l) /\ Forall (fun x => k < x) (keys r)
  /\ bst_order l /\ bst_order r.
Proof. simpl. now rewrite !all_keys_Forall. Qed.

Lemma ains_in key value L x :
  In x (akeys (ains key value L)) -> x = key \/ In x (akeys L).
Proof.
  induction L as [|[k v] L IH]; simpl.
  - intuition.
  - zbool; simpl; intuition.
Qed.

Lemma ains_sorted key value L :
  StronglySorted Z.lt (akeys L) ->
  StronglySorted Z.lt (akeys (ains key value L)).
Proof.
  induction L as [|[k v] L IH]; simpl; intros Hs.
  - repeat constructor.
  - inversion Hs as [|? ? Hs' Hf]; subst. zbool.
    + constructor; [exact Hs|]. constructor; [assumption|].
      eapply Forall_gt_trans; eauto.
    + constructor; [auto|]. apply Forall_forall. intros x Hx.
      apply ains_in in Hx as [->|Hx]; [lia|].
      rewrite Forall_forall in Hf. auto.
    + now constructor.
Qed.

Lemma filter_sorted (f : Z -> bool) (l : list Z) :
  StronglySorted Z.lt l -> StronglySorted Z.lt (filter f l).
Proof.
  induction 1 as [|a l Hs IH Hf]; simpl; [constructor|].
  destruct (f a); [|assumption].
  constructor; [assumption|].
  apply Forall_forall. intros x Hx. apply filter_In in Hx as [Hx _].
  rewrite Forall_forall in Hf. auto.
Qed.

(** *** Insertion, deletion and lookup on the in-order contents *)

Lemma insert_elements key value n :
  bst_order n -> forall n',
  insert key value n = Ok n' ->
  elements n' = ains key value (elements n).
Proof.
  induction n as [|k v l IHl r IHr h]; intros Hb.
  - simpl. now intros n' [= <-].
  - apply bst_node in Hb as (Fl & Fr & Bl & Br). cbn [insert elements].
    zbool.
    + destruct (insert key value l) as [l'|] eqn:El; [|discriminate].
      cbn [bind]. intros n' Hn. apply balance_elements in Hn.
      rewrite Hn. cbn [elements]. rewrite (IHl Bl _ eq_refl).
      now rewrite ains_app_left.
    + destruct (insert key value r) as [r'|] eqn:Er; [|discriminate].
      cbn [bind]. intros n' Hn. apply balance_elements in Hn.
      rewrite Hn. cbn [elements]. rewrite (IHr Br _ eq_refl).
      rewrite ains_app_right by (eapply Forall_lt_trans; eauto).
      simpl. zbool.
    + intros n' [= <-]. cbn [elements].
      assert (key = k) as -> by lia.
      rewrite ains_app_right by exact Fl.
      simpl. zbool.
Qed.

Lemma delete_elements n : forall key,
  bst_order n -> forall n',
  delete key n = Ok n' ->
  elements n' = aremove key (elements n).
Proof.
  induction n as [|k v l IHl r IHr h]; intros key Hb.
  - simpl. now intros n' [= <-].
  - pose proof Hb as Hb0.
    apply bst_node in Hb as (Fl & Fr & Bl & Br). cbn [delete elements].
    rewrite aremove_app. cbn [aremove filter fst].
    zbool.
    + destruct (delete key l) as [l'|] eqn:El; [|discriminate].
      cbn [bind]. intros n' Hn. apply balance_elements in Hn.
      rewrite Hn. cbn [elements]. rewrite (IHl _ Bl _ El).
      fold (aremove key (elements r)).
      rewrite (aremove_notin key (elements r)); [reflexivity|].
      apply gt_not_in. eapply Forall_gt_trans; eauto.
    + destruct (delete key r) as [r'|] eqn:Er; [|discriminate].
      cbn [bind]. intros n' Hn. apply balance_elements in Hn.
      rewrite Hn. cbn [elements]. rewrite (IHr _ Br _ Er).
      rewrite (aremove_notin key (elements l)); [reflexivity|].
      apply lt_not_in. eapply Forall_lt_trans; eauto.
    + assert (key = k) as -> by lia.
      fold (aremove k (elements r)).
      rewrite (aremove_notin k (elements l)) by now apply lt_not_in.
      rewrite (aremove_notin k (elements r)) by now apply gt_not_in.
      destruct l as [|lk lv ll lr lh].
      { now intros n' [= <-]. }
      destruct r as [|rk rv rl rr rh].
      { intros n' [= <-]. cbn [elements]. now rewrite app_nil_r. }
      destruct (minValueNode_ok rk rv rl rr rh)
        as (mk & mv & mr & mh & rest & Em & Ee).
      rewrite Em. cbn [bind get fst snd].
      destruct (delete mk (Node rk rv rl rr rh)) as [r'|] eqn:Er;
        [|discriminate].
      cbn [bind]. intros n' Hn. apply balance_elements in Hn.
      rewrite Hn. cbn [elements] in *. rewrite (IHr _ Br _ Er).
      rewrite Ee. cbn [aremove filter fst]. zbool.
      fold (aremove mk rest). rewrite aremove_notin; [reflexivity|].
      apply bst_sorted in Br. unfold keys in Br. cbn [elements] in Br.
      rewrite Ee in Br. simpl in Br. inversion Br; subst.
      now apply gt_not_in.
Qed.

Lemma find_elements key n :
  bst_order n -> find key n = alookup key (elements n).
Proof.
  induction n as [|k v l IHl r IHr h]; intros Hb; [reflexivity|].
  apply bst_node in Hb as (Fl & Fr & Bl & Br). cbn [find elements].
  rewrite alookup_app. cbn [alookup].
  zbool.
  - rewrite (IHl Bl).
    rewrite (alookup_notin key (elements r))
      by (apply gt_not_in; eapply Forall_gt_trans; eauto).
    destruct (snd (alookup key (elements l))) eqn:E; [reflexivity|].
    now apply alookup_false.
  - rewrite alookup_notin; [reflexivity|].
    apply lt_not_in. subst. exact Fl.
  - rewrite (IHr Br).
    rewrite (alookup_notin key (elements l)); [reflexivity|].
    apply lt_not_in. eapply Forall_lt_trans; [|exact Fl]. lia.
Qed.

(** *** The invariants along every public mutation *)

Lemma Inv_hb n : Inv n -> hb n.
Proof. intros (_ & H1 & H2). now split. Qed.

Lemma insert_Inv key value n :
  Inv n ->
  exists n', insert key value n = Ok n' /\ Inv n'
    /\ elements n' = ains key value (elements n)
    /\ getHeight n <= getHeight n' <= getHeight n + 1.
Proof.
  intros HI. pose proof HI as (Hb & _).
  destruct (insert_hb key value n (Inv_hb _ HI)) as (n' & E & [H1 H2] & Hh).
  pose proof (insert_elements key value n Hb n' E) as Ee.
  exists n'. repeat split; try assumption; try lia.
  apply bst_sorted. unfold keys. rewrite Ee.
  apply ains_sorted. now apply bst_sorted.
Qed.

Lemma delete_Inv key n :
  Inv n ->
  exists n', delete key n = Ok n' /\ Inv n'
    /\ elements n' = aremove key (elements n)
    /\ getHeight n - 1 <= getHeight n' <= getHeight n.
Proof.
  intros HI. pose proof HI as (Hb & _).
  destruct (delete_hb n key (Inv_hb _ HI)) as (n' & E & [H1 H2] & Hh).
  pose proof (delete_elements n key Hb n' E) as Ee.
  exists n'. repeat split; try assumption; try lia.
  apply bst_sorted. unfold keys. rewrite Ee.
  fold (akeys (aremove key (elements n))). rewrite akeys_aremove.
  apply filter_sorted. now apply bst_sorted.
Qed.

Lemma Inv_nil : Inv (@nil V).
Proof. repeat split. Qed.

Lemma Insert_ok key value (t : Tree V) :
  Inv (root t) ->
  exists t', Insert key value t = Ok t' /\ Inv (root t')
    /\ elements (root t') = ains key value (elements (root t)).
Proof.
  intros HI. unfold Insert.
  destruct (insert_Inv key value _ HI) as (n' & E & HI' & Ee & _).
  rewrite E. cbn [bind]. eexists. split; [reflexivity|]. now split.
Qed.

Lemma Delete_ok key (t : Tree V) :
  Inv (root t) ->
  exists t', Delete key t = Ok t' /\ Inv (root t')
    /\ elements (root t') = aremove key (elements (root t)).
Proof.
  intros HI. unfold Delete.
  destruct (root t) as [|k v l r h] eqn:Er.
  - exists t. rewrite Er. repeat split.
  - destruct (delete_Inv key _ HI) as (n' & E & HI' & Ee & _).
    rewrite E. cbn [bind]. eexists. split; [reflexivity|]. now split.
Qed.

Lemma Insert_insert key value (t t' : Tree V) :
  Insert key value t = Ok t' -> insert key value (root t) = Ok (root t').
Proof.
  unfold Insert. destruct (insert key value (root t)); [|discriminate].
  now intros [= <-].
Qed.

Lemma Delete_delete key (t t' : Tree V) :
  Delete key t = Ok t' -> delete key (root t) = Ok (root t').
Proof.
  unfold Delete. destruct (root t) as [|k0 v0 l0 r0 h0] eqn:E.
  - intros [= <-]. now rewrite E.
  - destruct (delete key (Node k0 v0 l0 r0 h0)); [|discriminate].
    now intros [= <-].
Qed.

Lemma Reachable_Inv (t : Tree V) : Reachable t -> Inv (root t).
Proof.
  induction 1 as [|t k v t' _ IH E|t k t' _ IH E].
  - apply Inv_nil.
  - destruct (Insert_ok k v t IH) as (t2 & E2 & HI & _). congruence.
  - destruct (Delete_ok k t IH) as (t2 & E2 & HI & _). congruence.
Qed.

Lemma Inv_subtree m n : subtree m n -> Inv n -> Inv m.
Proof.
  induction 1 as [n|m k v l r h _ IH|m k v l r h _ IH]; intros HI; auto;
    apply IH; destruct HI as (Hb & Ha & Hh); simpl in *;
    repeat split; tauto.
Qed.

(** *** Insertion followed by deletion of the same key *)

Lemma insert_lt key value k v l r h :
  key < k ->
  insert key value (Node k v l r h)
  = (l' <- insert key value l ;; balance (Node k v l' r h)).
Proof. intros. cbn [insert]. zbool. Qed.

Lemma insert_gt key value k v l r h :
  k < key ->
  insert key value (Node k v l r h)
  = (r' <- insert key value r ;; balance (Node k v l r' h)).
Proof. intros. cbn [insert]. zbool. Qed.

Lemma delete_lt key k v l r h :
  key < k ->
  delete key (Node k v l r h)
  = (l' <- delete key l ;; balance (Node k v l' r h)).
Proof. intros. cbn [delete]. zbool. Qed.

Lemma delete_gt key k v l r h :
  k < key ->
  delete key (Node k v l r h)
  = (r' <- delete key r ;; balance (Node k v l r' h)).
Proof. intros. cbn [delete]. zbool. Qed.

Lemma insert_grew key value n : forall n',
  hb n -> insert key value n = Ok n' ->
  getHeight n' = getHeight n + 1 ->
  grew key value n n'.
Proof.
  induction n as [|k v l IHl r IHr h]; intros n' Hn E Hg.
  - simpl in E. now injection E as <-.
  - apply hb_node in Hn as (Hl & Hr & Eh & Bh).
    pose proof (hb_height_nonneg _ Hl) as Pl.
    pose proof (hb_height_nonneg _ Hr) as Pr.
    cbn [getHeight] in Hg. cbn [grew].
    destruct (Z.lt_trichotomy key k) as [Hlt|[Heq|Hgt]].
    + left. split; [assumption|].
      rewrite insert_lt in E by assumption.
      destruct (insert_hb key value l Hl) as (l' & El & Hl' & Bl).
      rewrite El in E. cbn [bind] in E. exists l'. split; [assumption|].
      destruct (Z_le_gt_dec (getHeight l' - getHeight r) 1) as [Hu|Hu].
      * rewrite balance_id in E by lia. injection E as <-.
        cbn [getHeight] in Hg. repeat split; try lia. f_equal. lia.
      * exfalso.
        assert (Gl : getHeight l' = getHeight l + 1) by lia.
        specialize (IHl l' Hl El Gl).
        destruct l as [|lk lv ll lr lh]; cbn [grew] in IHl.
        { subst l'. simpl in *. lia. }
        apply hb_node in Hl as (Hll & Hlr & Elh & Blh).
        pose proof (hb_height_nonneg _ Hll). pose proof (hb_height_nonneg _ Hlr).
        cbn [getHeight] in *.
        destruct IHl as [(Hk & ll' & Ell & -> & Gll & Ell')
                        |(Hk & lr' & Elr & -> & Glr & Elr')].
        -- rewrite balance_LL in E by (cbn [getHeight] in *; lia).
           injection E as <-. cbn [getHeight] in *. lia.
        -- apply hb_node in Hl' as (_ & Hlr' & _ & _).
           destruct lr' as [|mk mv A B mh].
           { cbn [getHeight] in *. lia. }
           apply hb_node in Hlr' as (HA & HB & Emh & Bmh).
           pose proof (hb_height_nonneg _ HA). pose proof (hb_height_nonneg _ HB).
           rewrite balance_LR in E by (cbn [getHeight] in *; lia).
           injection E as <-. cbn [getHeight] in *. lia.
    + exfalso. subst key. cbn [insert] in E. revert E. zbool.
      intros [= <-]. cbn [getHeight] in Hg. lia.
    + right. split; [assumption|].
      rewrite insert_gt in E by assumption.
      destruct (insert_hb key value r Hr) as (r' & Er & Hr' & Br).
      rewrite Er in E. cbn [bind] in E. exists r'. split; [assumption|].
      destruct (Z_le_gt_dec (-1) (getHeight l - getHeight r')) as [Hu|Hu].
      * rewrite balance_id in E by lia. injection E as <-.
        cbn [getHeight] in Hg. repeat split; try lia. f_equal. lia.
      * exfalso.
        assert (Gr : getHeight r' = getHeight r + 1) by lia.
        specialize (IHr r' Hr Er Gr).
        destruct r as [|rk rv rl rr rh]; cbn [grew] in IHr.
        { subst r'. simpl in *. lia. }
        apply hb_node in Hr as (Hrl & Hrr & Erh & Brh).
        pose proof (hb_height_nonneg _ Hrl). pose proof (hb_height_nonneg _ Hrr).
        cbn [getHeight] in *.
        destruct IHr as [(Hk & rl' & Erl & -> & Grl & Erl')
                        |(Hk & rr' & Err & -> & Grr & Err')].
        -- apply hb_node in Hr' as (Hrl' & _ & _ & _).
           destruct rl' as [|mk mv A B mh].
           { cbn [getHeight] in *. lia. }
           apply hb_node in Hrl' as (HA & HB & Emh & Bmh).
           pose proof (hb_height_nonneg _ HA). pose proof (hb_height_nonneg _ HB).
           rewrite balance_RL in E by (cbn [getHeight] in *; lia).
           injection E as <-. cbn [getHeight] in *. lia.
        -- rewrite balance_RR in E by (cbn [getHeight] in *; lia).
           injection E as <-. cbn [getHeight] in *. lia.
Qed.

Lemma delete_eq k v l r h :
  delete k (Node k v l r h)
  = match l with
    | nil => Ok r
    | Node _ _ _ _ _ =>
        match r with
        | nil => Ok l
        | Node _ _ _ _ _ =>
            temp <- minValueNode r ;;
            kv <- get temp ;;
            r' <- delete (fst kv) r ;;
            balance (Node (fst kv) (snd kv) l r' h)
        end
    end.
Proof. cbn [delete]. now rewrite Z.gtb_ltb, Z.ltb_irrefl. Qed.

Lemma notin_node key k v l r h :
  ~ In key (keys (Node k v l r h)) ->
  key <> k /\ ~ In key (keys l) /\ ~ In key (keys r).
Proof.
  unfold keys. cbn [elements]. rewrite map_app, in_app_iff. simpl.
  intuition.
Qed.

Ltac use_step Step x x1 :=
  let x2 := fresh x "2" in
  let Ed := fresh "Ed" in
  let Hx2 := fresh "H" x2 in
  let Gx2 := fresh "G" x2 in
  destruct (Step x x1) as (x2 & Ed & Hx2 & Gx2);
  [simpl in *; lia | assumption | assumption | assumption |].

Lemma insert_delete_height key value : forall sz n,
  (nsize n < sz)%nat -> hb n -> ~ In key (keys n) ->
  forall n1 n2,
  insert key value n = Ok n1 -> delete key n1 = Ok n2 ->
  getHeight n2 = getHeight n.
Proof.
  induction sz as [|sz IH]; intros n Hsz Hn Hk n1 n2 E1 E2; [lia|].
  assert (Step : forall x x1, (nsize x < sz)%nat -> hb x ->
            ~ In key (keys x) -> insert key value x = Ok x1 ->
            exists x2, delete key x1 = Ok x2 /\ hb x2
                       /\ getHeight x2 = getHeight x).
  { intros x x1 Hs Hx Hkx Ex.
    destruct (insert_hb key value x Hx) as (x1' & Ex' & Hx1 & _).
    assert (x1' = x1) as -> by congruence.
    destruct (delete_hb x1 key Hx1) as (x2 & Ed & Hx2 & _).
    exists x2. split; [assumption|]. split; [assumption|]. eauto. }
  clear IH.
  destruct n as [|k v l r h].
  - simpl in E1. injection E1 as <-. revert E2.
    unfold createNode. cbn [delete]. zbool. now intros [= <-].
  - apply notin_node in Hk as (Hne & Hkl & Hkr).
    apply hb_node in Hn as (Hl & Hr & Eh & Bh).
    pose proof (hb_height_nonneg _ Hl) as Pl.
    pose proof (hb_height_nonneg _ Hr) as Pr.
    cbn [getHeight].
    destruct (Z.lt_trichotomy key k) as [Hlt|[Heq|Hgt]]; [|lia|].
    + rewrite insert_lt in E1 by assumption.
      destruct (insert_hb key value l Hl) as (l1 & El & Hl1 & Bl).
      rewrite El in E1; cbn [bind] in E1.
      destruct (Z_le_gt_dec (getHeight l1 - getHeight r) 1) as [Hu|Hu].
      * rewrite balance_id in E1 by lia. injection E1 as <-.
        rewrite delete_lt in E2 by assumption.
        use_step Step l l1.
        rewrite Ed in E2; cbn [bind] in E2.
        rewrite balance_id in E2 by lia. injection E2 as <-.
        cbn [getHeight]. lia.
      * assert (Gl : getHeight l1 = getHeight l + 1) by lia.
        pose proof (insert_grew key value l l1 Hl El Gl) as G.
        destruct l as [|lk lv ll lr lh]; cbn [grew] in G.
        { subst l1; simpl in *; lia. }
        apply notin_node in Hkl as (Hnel & Hkll & Hklr).
        apply hb_node in Hl as (Hll & Hlr & Elh & Blh).
        pose proof (hb_height_nonneg _ Hll) as Pll.
        pose proof (hb_height_nonneg _ Hlr) as Plr.
        cbn [getHeight] in *.
        destruct G as [(Hk1 & ll1 & Ell & -> & Gll & Eq)
                      |(Hk1 & lr1 & Elr & -> & Glr & Eq)].
        -- rewrite balance_LL in E1 by (cbn [getHeight] in *; lia).
           injection E1 as <-.
           rewrite delete_lt in E2 by assumption.
           use_step Step ll ll1.
           rewrite Ed in E2; cbn [bind] in E2.
           rewrite balance_id in E2 by (cbn [getHeight]; lia).
           injection E2 as <-. cbn [getHeight]. lia.
        -- pose proof (insert_grew key value lr lr1 Hlr Elr Glr) as G2.
           destruct lr as [|mk mv A B mh]; cbn [grew] in G2.
           ++ subst lr1. unfold createNode in *. cbn [getHeight] in *.
              assert (ll = nil) as -> by (apply height_zero_nil; [apply Hll|lia]).
              assert (r = nil) as -> by (apply height_zero_nil; [apply Hr|lia]).
              rewrite balance_LR in E1 by (cbn [getHeight] in *; lia).
              injection E1 as <-. revert E2.
              cbn [delete minValueNode bind get fst snd]. zbool.
              rewrite balance_id by (cbn [getHeight]; lia).
              intros [= <-]. cbn [getHeight]. lia.
           ++ apply notin_node in Hklr as (Hnem & HkA & HkB).
              apply hb_node in Hlr as (HA & HB & Emh & Bmh).
              pose proof (hb_height_nonneg _ HA) as PA.
              pose proof (hb_height_nonneg _ HB) as PB.
              cbn [getHeight] in *.
              destruct G2 as [(Hk2 & A1 & EA & -> & GA & EqA)
                             |(Hk2 & B1 & EB & -> & GB & EqB)].
              ** rewrite balance_LR in E1 by (cbn [getHeight] in *; lia).
                 injection E1 as <-.
                 rewrite delete_lt in E2 by assumption.
                 rewrite delete_gt in E2 by assumption.
                 use_step Step A A1.
                 rewrite Ed in E2; cbn [bind] in E2.
                 rewrite balance_id in E2 by (cbn [getHeight]; lia).
                 cbn [bind] in E2.
                 rewrite balance_id in E2 by (cbn [getHeight]; lia).
                 injection E2 as <-. cbn [getHeight]. lia.
              ** rewrite balance_LR in E1 by (cbn [getHeight] in *; lia).
                 injection E1 as <-.
                 rewrite delete_gt in E2 by assumption.
                 rewrite delete_lt in E2 by assumption.
                 use_step Step B B1.
                 rewrite Ed in E2; cbn [bind] in E2.
                 rewrite balance_id in E2 by (cbn [getHeight]; lia).
                 cbn [bind] in E2.
                 rewrite balance_id in E2 by (cbn [getHeight]; lia).
                 injection E2 as <-. cbn [getHeight]. lia.
    + rewrite insert_gt in E1 by assumption.
      destruct (insert_hb key value r Hr) as (r1 & Er & Hr1 & Br).
      rewrite Er in E1; cbn [bind] in E1.
      destruct (Z_le_gt_dec (-1) (getHeight l - getHeight r1)) as [Hu|Hu].
      * rewrite balance_id in E1 by lia. injection E1 as <-.
        rewrite delete_gt in E2 by assumption.
        use_step Step r r1.
        rewrite Ed in E2; cbn [bind] in E2.
        rewrite balance_id in E2 by lia. injection E2 as <-.
        cbn [getHeight]. lia.
      * assert (Gr : getHeight r1 = getHeight r + 1) by lia.
        pose proof (insert_grew key value r r1 Hr Er Gr) as G.
        destruct r as [|rk rv rl rr rh]; cbn [grew] in G.
        { subst r1; simpl in *; lia. }
        apply notin_node in Hkr as (Hner & Hkrl & Hkrr).
        apply hb_node in Hr as (Hrl & Hrr & Erh & Brh).
        pose proof (hb_height_nonneg _ Hrl) as Prl.
        pose proof (hb_height_nonneg _ Hrr) as Prr.
        cbn [getHeight] in *.
        destruct G as [(Hk1 & rl1 & Erl & -> & Grl & Eq)
                      |(Hk1 & rr1 & Err & -> & Grr & Eq)].
        -- pose proof (insert_grew key value rl rl1 Hrl Erl Grl) as G2.
           destruct rl as [|mk mv A B mh]; cbn [grew] in G2.
           ++ subst rl1. unfold createNode in *. cbn [getHeight] in *.
              assert (rr = nil) as -> by (apply height_zero_nil; [apply Hrr|lia]).
              assert (l = nil) as -> by (apply height_zero_nil; [apply Hl|lia]).
              rewrite balance_RL in E1 by (cbn [getHeight] in *; lia).
              injection E1 as <-. revert E2.
              cbn [delete minValueNode bind get fst snd]. zbool.
              rewrite balance_id by (cbn [getHeight]; lia).
              intros [= <-]. cbn [getHeight]. lia.
           ++ apply notin_node in Hkrl as (Hnem & HkA & HkB).
              apply hb_node in Hrl as (HA & HB & Emh & Bmh).
              pose proof (hb_height_nonneg _ HA) as PA.
              pose proof (hb_height_nonneg _ HB) as PB.
              cbn [getHeight] in *.
              destruct G2 as [(Hk2 & A1 & EA & -> & GA & EqA)
                             |(Hk2 & B1 & EB & -> & GB & EqB)].
              ** rewrite balance_RL in E1 by (cbn [getHeight] in *; lia).
                 injection E1 as <-.
                 rewrite delete_lt in E2 by assumption.
                 rewrite delete_gt in E2 by assumption.
                 use_step Step A A1.
                 rewrite Ed in E2; cbn [bind] in E2.
                 rewrite balance_id in E2 by (cbn [getHeight]; lia).
                 cbn [bind] in E2.
                 rewrite balance_id in E2 by (cbn [getHeight]; lia).
                 injection E2 as <-. cbn [getHeight]. lia.
              ** rewrite balance_RL in E1 by (cbn [getHeight] in *; lia).
                 injection E1 as <-.
                 rewrite delete_gt in E2 by assumption.
                 rewrite delete_lt in E2 by assumption.
                 use_step Step B B1.
                 rewrite Ed in E2; cbn [bind] in E2.
                 rewrite balance_id in E2 by (cbn [getHeight]; lia).
                 cbn [bind] in E2.
                 rewrite balance_id in E2 by (cbn [getHeight]; lia).
                 injection E2 as <-. cbn [getHeight]. lia.
        -- rewrite balance_RR in E1 by (cbn [getHeight] in *; lia).
           injection E1 as <-.
           rewrite delete_gt in E2 by assumption.
           use_step Step rr rr1.
           rewrite Ed in E2; cbn [bind] in E2.
           rewrite balance_id in E2 by (cbn [getHeight]; lia).
           injection E2 as <-. cbn [getHeight]. lia.
Qed.

(** *** Lookup, size and rendering through the in-order contents *)

Lemma alookup_ains_same key value L :
  StronglySorted Z.lt (akeys L) ->
  alookup key (ains key value L) = (fst (alookup key L) ++ [value], true).
Proof.
  induction L as [|[k v] L IH]; intros Hs; cbn [ains alookup].
  - zbool.
  - inversion Hs as [|? ? Hs' Hf]; subst. zbool; cbn [alookup]; zbool.
    + rewrite alookup_notin; [reflexivity|].
      apply gt_not_in. eapply Forall_gt_trans; eauto.
    + now apply IH.
Qed.

Lemma alookup_ains_other key value j L :
  j <> key -> alookup j (ains key value L) = alookup j L.
Proof.
  intros Hne. induction L as [|[k v] L IH]; cbn [ains alookup].
  - zbool.
  - zbool; cbn [alookup]; zbool. exact IH.
Qed.

Lemma alookup_aremove_same key L :
  alookup key (aremove key L) = ([], false).
Proof.
  apply alookup_notin. rewrite akeys_aremove, filter_In.
  intros [_ H]. revert H. zbool.
Qed.

Lemma alookup_aremove_other key j L :
  j <> key -> alookup j (aremove key L) = alookup j L.
Proof.
  intros Hne. induction L as [|[k v] L IH]; [reflexivity|].
  cbn [aremove filter fst alookup]. zbool; cbn [alookup]; zbool.
  - exact IH.
  - exact IH.
Qed.

Lemma length_ains_present key value L :
  StronglySorted Z.lt (akeys L) -> In key (akeys L) ->
  List.length (ains key value L) = List.length L.
Proof.
  induction L as [|[k v] L IH]; cbn [ains akeys map fst];
    intros Hs Hin; [destruct Hin|].
  inversion Hs as [|? ? Hs' Hf]; subst. zbool.
  - exfalso. destruct Hin as [Hin|Hin]; [lia|].
    revert Hin. apply gt_not_in. eapply Forall_gt_trans; eauto.
  - destruct Hin as [Hin|Hin]; [lia|]. now rewrite IH.
Qed.

Lemma length_ains_absent key value L :
  ~ In key (akeys L) ->
  List.length (ains key value L) = S (List.length L).
Proof.
  induction L as [|[k v] L IH]; cbn [ains akeys map fst];
    intros Hin; [reflexivity|].
  simpl in Hin. zbool. rewrite IH; tauto.
Qed.

Lemma aremove_ains key value L :
  ~ In key (akeys L) -> aremove key (ains key value L) = L.
Proof.
  induction L as [|[k v] L IH]; cbn [ains akeys map fst]; intros Hin.
  - cbn [aremove filter fst]. zbool.
  - simpl in Hin. zbool; cbn [aremove filter fst]; zbool.
    + fold (aremove key L). rewrite aremove_notin; tauto.
    + fold (aremove key (ains key value L)). rewrite IH; tauto.
Qed.

Lemma getSize_elements n : getSize n = Z.of_nat (List.length (elements n)).
Proof.
  induction n as [|k v l IHl r IHr h]; [reflexivity|].
  cbn [getSize elements]. rewrite length_app. cbn [List.length]. lia.
Qed.

(** The trailing-separator rendering that [traverseString] builds, and
    the separator-joined rendering that [String] returns. *)
Lemma traverseString_keys n : forall sb,
  traverseString n sb = (sb ++ render_trailing (keys n))%string.
Proof.
  unfold keys.
  induction n as [|k v l IHl r IHr h]; intros sb; cbn [traverseString].
  - simpl. now rewrite StringFacts.append_nil_r.
  - rewrite IHr, IHl. cbn [elements]. rewrite map_app. cbn [map fst].
    rewrite render_trailing_app. cbn [render_trailing].
    now rewrite !StringFacts.append_assoc.
Qed.

Lemma render_trailing_join (ks : list Z) :
  ks <> [] ->
  render_trailing ks
  = (String.concat ", " (map Strings.fmt_v ks) ++ ", ")%string.
Proof.
  induction ks as [|a ks IH]; [congruence|]. intros _.
  destruct ks as [|b ks]; [reflexivity|].
  cbn [render_trailing] in *. rewrite IH by discriminate.
  cbn [map String.concat]. now rewrite !StringFacts.append_assoc.
Qed.

Lemma String_keys k v l r h :
  String (Node k v l r h)
  = ("[" ++ String.concat ", " (map Strings.fmt_v (keys (Node k v l r h)))
         ++ "]")%string.
Proof.
  unfold String. rewrite traverseString_keys.
  rewrite render_trailing_join.
  - rewrite <- StringFacts.append_assoc.
    now rewrite StringFacts.TrimSuffix_append.
  - unfold keys. cbn [elements]. rewrite map_app. simpl.
    intros H. apply app_eq_nil in H as [_ H]. discriminate.
Qed.

(** *** Deleting a key that is absent *)

Lemma delete_absent n : forall key,
  hb n -> ~ In key (keys n) -> delete key n = Ok n.
Proof.
  induction n as [|k v l IHl r IHr h]; intros key Hn Hk; [reflexivity|].
  apply notin_node in Hk as (Hne & Hkl & Hkr).
  apply hb_node in Hn as (Hl & Hr & Eh & Bh).
  destruct (Z.lt_trichotomy key k) as [Hlt|[Heq|Hgt]]; [|lia|].
  - rewrite delete_lt by assumption. rewrite IHl by assumption.
    cbn [bind]. rewrite balance_id by assumption. now subst h.
  - rewrite delete_gt by assumption. rewrite IHr by assumption.
    cbn [bind]. rewrite balance_id by assumption. now subst h.
Qed.

(** *** Nodes of a tree and its in-order contents *)

Lemma subtree_trans m n p : subtree m n -> subtree n p -> subtree m p.
Proof.
  intros Hmn Hnp. induction Hnp; auto using subtree_left, subtree_right.
Qed.

Lemma subtree_elements k v l r h n :
  subtree (Node k v l r h) n -> In (k, v) (elements n).
Proof.
  remember (Node k v l r h) as m eqn:Em.
  induction 1 as [n|m k' v' l' r' h' _ IH|m k' v' l' r' h' _ IH]; subst.
  - cbn [elements]. apply in_or_app. right. now left.
  - cbn [elements]. apply in_or_app. left. now apply IH.
  - cbn [elements]. apply in_or_app. right. right. now apply IH.
Qed.

Lemma minValueNode_subtree n : forall m,
  minValueNode n = Ok m -> subtree m n.
Proof.
  induction n as [|k v l IHl r _ h]; intros m E; [discriminate|].
  cbn [minValueNode] in E. destruct l as [|lk lv ll lr lh].
  - injection E as <-. constructor.
  - apply subtree_left. now apply IHl.
Qed.

Lemma alookup_In k v L :
  StronglySorted Z.lt (akeys L) -> In (k, v) L -> alookup k L = (v, true).
Proof.
  induction L as [|[k' v'] L IH]; intros Hs Hin; [destruct Hin|].
  inversion Hs as [|? ? Hs' Hf]; subst. cbn [alookup].
  destruct Hin as [[= -> ->]|Hin]; zbool.
  - subst. exfalso. apply (in_map fst) in Hin. simpl in Hin.
    revert Hin. now apply gt_not_in.
  - now apply IH.
Qed.

(** *** The handle layer through the in-order contents *)

Lemma Find_alookup key (t : Tree V) :
  Inv (root t) -> Find key t = alookup key (elements (root t)).
Proof.
  intros (Hb & _). unfold Find.
  destruct (root t) eqn:E; [reflexivity|]. now apply find_elements.
Qed.

Lemma Contains_alookup key (t : Tree V) :
  Inv (root t) -> Contains key t = snd (alookup key (elements (root t))).
Proof.
  intros (Hb & _). unfold Contains, contains.
  destruct (root t) eqn:E; [reflexivity|]. now rewrite find_elements.
Qed.

Lemma Contains_In key (t : Tree V) :
  Inv (root t) -> Contains key t = true <-> In key (keys (root t)).
Proof.
  intros HI. rewrite Contains_alookup by assumption.
  apply alookup_found_in.
Qed.

Lemma Size_elements (t : Tree V) :
  Size t = Z.of_nat (List.length (elements (root t))).
Proof.
  unfold Size. destruct (root t) eqn:E; [reflexivity|].
  apply getSize_elements.
Qed.

Lemma Height_root (t : Tree V) : Height t = getHeight (root t).
Proof. unfold Height. now destruct (root t). Qed.

Lemma TreeString_keys (t : Tree V) :
  TreeString t
  = ("[" ++ String.concat ", " (map Strings.fmt_v (keys (root t)))
         ++ "]")%string.
Proof.
  unfold TreeString. destruct (root t) eqn:E; [reflexivity|].
  apply String_keys.
Qed.

End Facts.

(** ** The claims about the tree *)

Lemma ex3_reachable : Reachable ex3.
Proof.
  apply (Reach_Insert ex2 30 3); [|reflexivity].
  apply (Reach_Insert ex1 20 2); [|reflexivity].
  apply (Reach_Insert New 10 1); [|reflexivity].
  apply Reach_New.
Defined.

Lemma ex1s_reachable : Reachable ex1s.
Proof.
  apply (Reach_Insert New 1 "a"%string); [|reflexivity].
  apply Reach_New.
Defined.

(** C1. In every tree built from the empty tree by [Insert] and [Delete],
    every node has all keys of its left subtree strictly below its key and
    all keys of its right subtree strictly above it, has subtree heights
    differing by at most one, and caches the height one plus the larger of
    its subtrees' heights; the keys of the tree are pairwise distinct. *)
Theorem C1_reachable_invariants {V : Type} (t : Tree V)
    (k : Z) (v : list V) (l r : node V) (h : Z) :
  Reachable t ->
  subtree (Node k v l r h) (root t) ->
  (all_keys (fun x => x < k) l /\ all_keys (fun x => k < x) r)
  /\ Z.abs (getHeight l - getHeight r) <= 1
  /\ h = 1 + Z.max (getHeight l) (getHeight r)
  /\ NoDup (keys (root t)).
Proof.
  intros HR Hs. pose proof (Reachable_Inv t HR) as HI.
  pose proof (Inv_subtree _ _ Hs HI) as (Hb & Ha & Hh).
  simpl in Hb, Ha, Hh.
  repeat split; try tauto.
  apply sorted_NoDup, bst_sorted, HI.
Qed.

Lemma C1_witness :
  Reachable ex3 /\ subtree (root ex3) (root ex3)
  /\ (all_keys (fun x => x < 20) (Node 10 [1] nil nil 1)
      /\ all_keys (fun x => 20 < x) (Node 30 [3] nil nil 1))
  /\ Z.abs (1 - 1) <= 1
  /\ 2 = 1 + Z.max 1 1
  /\ NoDup (keys (root ex3)).
Proof.
  split; [exact ex3_reachable|]. split; [apply subtree_here|].
  exact (C1_reachable_invariants ex3 20 [2] _ _ 2 ex3_reachable
           (subtree_here _)).
Defined.

(** C3. Inserting key 1 with "a" and then with "b" into the empty tree
    gives a tree where [Find 1] is the sequence "a", "b" with [true] and
    [Size] is 1; and for any reachable tree and any key already present,
    [Insert] appends the value at the end of that key's sequence, leaves
    the keys as they are and leaves [Size] unchanged. *)
Theorem C3_insert_same_key_accumulates :
  (exists t1 t2 : Tree string,
      Insert 1 "a"%string New = Ok t1 /\ Insert 1 "b"%string t1 = Ok t2
      /\ Find 1 t2 = (["a"%string; "b"%string], true) /\ Size t2 = 1)
  /\ (forall (V : Type) (t : Tree V) (k : Z) (v : V),
         Reachable t -> Contains k t = true ->
         exists t', Insert k v t = Ok t'
           /\ Find k t' = (fst (Find k t) ++ [v], true)
           /\ keys (root t') = keys (root t)
           /\ Size t' = Size t).
Proof.
  split.
  - eexists; eexists. repeat split; reflexivity.
  - intros V t k v HR Hc. pose proof (Reachable_Inv t HR) as HI.
    destruct (Insert_ok k v t HI) as (t' & E & HI' & Ee).
    pose proof HI as (Hb & _). apply bst_sorted in Hb.
    apply (Contains_In k t HI) in Hc.
    exists t'. split; [assumption|].
    rewrite (Find_alookup k t' HI'), (Find_alookup k t HI), Ee.
    split; [now apply alookup_ains_same|].
    assert (El : List.length (elements (root t'))
                 = List.length (elements (root t))).
    { rewrite Ee. now apply length_ains_present. }
    split; [|rewrite !Size_elements; now rewrite El].
    unfold keys. rewrite Ee. clear -Hb Hc.
    unfold keys in *. fold (akeys (elements (root t))) in *.
    induction (elements (root t)) as [|[k' v'] L IH]; [destruct Hc|].
    cbn [ains akeys map fst] in *.
    inversion Hb as [|? ? Hs Hf]; subst. zbool.
    + exfalso. destruct Hc as [Hc|Hc]; [lia|]. revert Hc.
      apply gt_not_in. eapply Forall_gt_trans; eauto.
    + destruct Hc as [Hc|Hc]; [lia|]. cbn [map fst]. f_equal. now apply IH.
Qed.

Lemma C3_witness :
  Reachable ex1s /\ Contains 1 ex1s = true
  /\ exists t', Insert 1 "b"%string ex1s = Ok t'
       /\ Find 1 t' = (fst (Find 1 ex1s) ++ ["b"%string], true)
       /\ keys (root t') = keys (root ex1s)
       /\ Size t' = Size ex1s.
Proof.
  split; [exact ex1s_reachable|]. split; [reflexivity|].
  exact (proj2 C3_insert_same_key_accumulates string ex1s 1 "b"%string
           ex1s_reachable eq_refl).
Defined.

(** C4. Each of the four three-key insertion orders ends with key 20 at
    the root: 30, 20, 10 through the left-left branch of [balance] (one
    right rotation); 10, 20, 30 through the right-right branch (one left
    rotation); 30, 10, 20 through the left-right branch (left child
    rotated left, then the node rotated right); 10, 30, 20 through the
    right-left branch (right child rotated right, then the node rotated
    left).  In each case [u] is the node handed to the last [balance]. *)
Theorem C4_three_key_rotations :
  (exists t u, insert3 30 20 10 = Ok t /\ rootKey t = Some 20
     /\ u = Node 30 [1] (Node 20 [2] (Node 10 [3] nil nil 1) nil 2) nil 2
     /\ balance_case u = LeftLeft
     /\ balance u = (u1 <- updateHeight u ;; rotateRight u1)
     /\ balance u = Ok (root t))
  /\ (exists t u, insert3 10 20 30 = Ok t /\ rootKey t = Some 20
     /\ u = Node 10 [1] nil (Node 20 [2] nil (Node 30 [3] nil nil 1) 2) 2
     /\ balance_case u = RightRight
     /\ balance u = (u1 <- updateHeight u ;; rotateLeft u1)
     /\ balance u = Ok (root t))
  /\ (exists t u, insert3 30 10 20 = Ok t /\ rootKey t = Some 20
     /\ u = Node 30 [1] (Node 10 [2] nil (Node 20 [3] nil nil 1) 2) nil 2
     /\ balance_case u = LeftRight
     /\ balance u
        = (l' <- rotateLeft (Node 10 [2] nil (Node 20 [3] nil nil 1) 2) ;;
           rotateRight (Node 30 [1] l' nil 3))
     /\ balance u = Ok (root t))
  /\ (exists t u, insert3 10 30 20 = Ok t /\ rootKey t = Some 20
     /\ u = Node 10 [1] nil (Node 30 [2] (Node 20 [3] nil nil 1) nil 2) 2
     /\ balance_case u = RightLeft
     /\ balance u
        = (r' <- rotateRight (Node 30 [2] (Node 20 [3] nil nil 1) nil 2) ;;
           rotateLeft (Node 10 [1] nil r' 3))
     /\ balance u = Ok (root t)).
Proof.
  repeat split; eexists; eexists; repeat split; reflexivity.
Qed.

Lemma ex3_Inv : Inv (root ex3).
Proof.
  unfold Inv; simpl. repeat split; lia.
Defined.

(** C6. Deleting a key that the tree does not hold, and deleting any key
    from the empty tree, ends without error and returns the very same
    tree: same shape, same cached heights, same keys and value sequences.
    The tree is any tree satisfying the invariants of the data model, in
    particular any reachable one. *)
Theorem C6_delete_absent_is_noop {V : Type} (t : Tree V) (k : Z) :
  Inv (root t) -> Contains k t = false ->
  Delete k t = Ok t /\ Delete k (@New V) = Ok New.
Proof.
  intros HI Hc. split; [|reflexivity].
  unfold Delete. destruct t as [n]. cbn [root] in *.
  destruct n as [|k0 v0 l0 r0 h0]; [reflexivity|].
  rewrite delete_absent; [reflexivity|now apply Inv_hb|].
  intros Hin.
  apply (Contains_In k (mkTree (Node k0 v0 l0 r0 h0)) HI) in Hin.
  congruence.
Qed.

Lemma C6_witness :
  Inv (root ex3) /\ Contains 25 ex3 = false
  /\ Delete 25 ex3 = Ok ex3 /\ Delete 25 (@New Z) = Ok New.
Proof.
  split; [exact ex3_Inv|]. split; [reflexivity|].
  exact (C6_delete_absent_is_noop ex3 25 ex3_Inv eq_refl).
Defined.

(** C10. For every reachable tree and distinct keys [j] and [k], neither
    [Insert j v] nor [Delete j] changes what [Find k] returns: the same
    flag and the same value sequence in the same order. *)
Theorem C10_other_keys_untouched {V : Type} (t : Tree V) (j k : Z) (v : V) :
  Reachable t -> j <> k ->
  (exists t', Insert j v t = Ok t' /\ Find k t' = Find k t)
  /\ (exists t', Delete j t = Ok t' /\ Find k t' = Find k t).
Proof.
  intros HR Hne. pose proof (Reachable_Inv t HR) as HI. split.
  - destruct (Insert_ok j v t HI) as (t' & E & HI' & Ee).
    exists t'. split; [assumption|].
    rewrite (Find_alookup k t' HI'), (Find_alookup k t HI), Ee.
    apply alookup_ains_other. congruence.
  - destruct (Delete_ok j t HI) as (t' & E & HI' & Ee).
    exists t'. split; [assumption|].
    rewrite (Find_alookup k t' HI'), (Find_alookup k t HI), Ee.
    apply alookup_aremove_other. congruence.
Qed.

Lemma C10_witness :
  Reachable ex3 /\ 20 <> 10
  /\ (exists t', Insert 20 7 ex3 = Ok t' /\ Find 10 t' = Find 10 ex3)
  /\ (exists t', Delete 20 ex3 = Ok t' /\ Find 10 t' = Find 10 ex3).
Proof.
  split; [exact ex3_reachable|].
  assert (H : 20 <> 10) by discriminate.
  split; [exact H|].
  exact (C10_other_keys_untouched ex3 20 10 7 ex3_reachable H).
Defined.

(** C2. In a tree satisfying the invariants, deleting a key it holds
    removes the key with every value stored under it: afterwards
    [Contains] is false and [Find] returns the empty sequence and false.
    When the node holding the key has two children, [delete] at that node
    copies the key and value sequence of the leftmost node of the right
    subtree into it and deletes that key from the right subtree; the
    successor's key is present afterwards with the value sequence it had
    before. *)
Theorem C2_delete_removes_key {V : Type} (t : Tree V) (k : Z) :
  Inv (root t) -> Contains k t = true ->
  exists t', Delete k t = Ok t'
    /\ Contains k t' = false /\ Find k t' = ([], false)
    /\ forall vs lk lv ll lr lh rk rv rl rr rh h,
         subtree (Node k vs (Node lk lv ll lr lh) (Node rk rv rl rr rh) h)
                 (root t) ->
         exists sk sv sr sh,
           minValueNode (Node rk rv rl rr rh) = Ok (Node sk sv nil sr sh)
           /\ delete k (Node k vs (Node lk lv ll lr lh)
                              (Node rk rv rl rr rh) h)
              = (r' <- delete sk (Node rk rv rl rr rh) ;;
                 balance (Node sk sv (Node lk lv ll lr lh) r' h))
           /\ Find sk t = (sv, true)
           /\ Find sk t' = (sv, true).
Proof.
  intros HI Hc.
  destruct (Delete_ok k t HI) as (t' & E & HI' & Ee).
  exists t'. split; [assumption|].
  rewrite (Contains_alookup k t' HI'), (Find_alookup k t' HI'), Ee.
  rewrite alookup_aremove_same. split; [reflexivity|]. split; [reflexivity|].
  intros vs lk lv ll lr lh rk rv rl rr rh h Hs.
  destruct (minValueNode_ok rk rv rl rr rh)
    as (sk & sv & sr & sh & rest & Em & Eel).
  exists sk, sv, sr, sh. split; [assumption|].
  split.
  { rewrite delete_eq. cbv beta iota. rewrite Em. reflexivity. }
  pose proof (Inv_subtree _ _ Hs HI) as (Hb & _).
  apply bst_node in Hb as (_ & Fr & _ & _).
  assert (Hsk : k < sk).
  { rewrite Forall_forall in Fr. apply Fr. unfold keys. rewrite Eel.
    now left. }
  assert (Hin : In (sk, sv) (elements (root t))).
  { eapply subtree_elements. eapply subtree_trans; [|exact Hs].
    apply subtree_right. apply minValueNode_subtree. exact Em. }
  assert (Hf : alookup sk (elements (root t)) = (sv, true)).
  { apply alookup_In; [|assumption].
    destruct HI as (Hbst & _). now apply bst_sorted in Hbst. }
  rewrite (Find_alookup sk t HI), (Find_alookup sk t' HI'), Ee.
  split; [assumption|].
  rewrite alookup_aremove_other by lia. assumption.
Qed.

Lemma C2_witness :
  Inv (root ex3) /\ Contains 20 ex3 = true
  /\ exists t', Delete 20 ex3 = Ok t'
    /\ Contains 20 t' = false /\ Find 20 t' = ([], false)
    /\ forall vs lk lv ll lr lh rk rv rl rr rh h,
         subtree (Node 20 vs (Node lk lv ll lr lh) (Node rk rv rl rr rh) h)
                 (root ex3) ->
         exists sk sv sr sh,
           minValueNode (Node rk rv rl rr rh) = Ok (Node sk sv nil sr sh)
           /\ delete 20 (Node 20 vs (Node lk lv ll lr lh)
                               (Node rk rv rl rr rh) h)
              = (r' <- delete sk (Node rk rv rl rr rh) ;;
                 balance (Node sk sv (Node lk lv ll lr lh) r' h))
           /\ Find sk ex3 = (sv, true)
           /\ Find sk t' = (sv, true).
Proof.
  split; [exact ex3_Inv|]. split; [reflexivity|].
  exact (C2_delete_removes_key ex3 20 ex3_Inv eq_refl).
Defined.

(** C5, as stated, fails when the key was already present: the tree
    holding key 1 is reachable, and inserting a further value under key 1
    and then deleting key 1 leaves the empty tree, whose [Size], [Height],
    [String] and [Contains 1] all differ from before. *)
Lemma C5_counterexample :
  Reachable ex1s
  /\ exists t1 t2 : Tree string,
       Insert 1 "b"%string ex1s = Ok t1 /\ Delete 1 t1 = Ok t2
       /\ Size t2 <> Size ex1s /\ Height t2 <> Height ex1s
       /\ TreeString t2 <> TreeString ex1s
       /\ Contains 1 t2 <> Contains 1 ex1s.
Proof.
  split; [exact ex1s_reachable|].
  eexists; eexists. split; [reflexivity|]. split; [reflexivity|].
  repeat split; discriminate.
Qed.

(** C5, amended. For every reachable tree and every key that the tree does
    not hold, [Insert] of the key followed at once by [Delete] of it gives
    a tree with the same [Size], the same [Height], the same [String] and
    the same [Contains j] for every key [j]. *)
Theorem C5_insert_delete_roundtrip {V : Type} (t : Tree V) (k : Z) (v : V) :
  Reachable t -> Contains k t = false ->
  exists t1 t2,
    Insert k v t = Ok t1 /\ Delete k t1 = Ok t2
    /\ Size t2 = Size t /\ Height t2 = Height t
    /\ TreeString t2 = TreeString t
    /\ forall j, Contains j t2 = Contains j t.
Proof.
  intros HR Hc. pose proof (Reachable_Inv t HR) as HI.
  assert (Hk : ~ In k (keys (root t))).
  { intros Hin. apply (Contains_In k t HI) in Hin. congruence. }
  destruct (Insert_ok k v t HI) as (t1 & E1 & HI1 & Ee1).
  destruct (Delete_ok k t1 HI1) as (t2 & E2 & HI2 & Ee2).
  exists t1, t2. split; [assumption|]. split; [assumption|].
  assert (Eel : elements (root t2) = elements (root t)).
  { rewrite Ee2, Ee1. now apply aremove_ains. }
  split; [now rewrite !Size_elements, Eel|].
  split.
  - rewrite !Height_root.
    apply Insert_insert in E1. apply Delete_delete in E2.
    eapply (insert_delete_height k v (S (nsize (root t)))); eauto.
    now apply Inv_hb.
  - split; [now rewrite !TreeString_keys; unfold keys; rewrite Eel|].
    intros j. now rewrite !Contains_alookup, Eel by assumption.
Qed.

Lemma C5_witness :
  Reachable ex3 /\ Contains 25 ex3 = false
  /\ exists t1 t2,
       Insert 25 9 ex3 = Ok t1 /\ Delete 25 t1 = Ok t2
       /\ Size t2 = Size ex3 /\ Height t2 = Height ex3
       /\ TreeString t2 = TreeString ex3
       /\ forall j, Contains j t2 = Contains j ex3.
Proof.
  split; [exact ex3_reachable|]. split; [reflexivity|].
  exact (C5_insert_delete_roundtrip ex3 25 9 ex3_reachable eq_refl).
Defined.

(** C8, as stated, fails on the empty tree: [Print] writes the fixed
    message of its empty-tree guard, not the text "[]" that [String]
    returns. *)
Lemma C8_counterexample :
  TreePrint (@New Z) [] = ["Tried to print empty tree"%string]
  /\ TreeString (@New Z) = "[]"%string
  /\ TreePrint (@New Z) [] <> Println (TreeString (@New Z)) [].
Proof. repeat split. discriminate. Qed.

(** C8, amended. On every non-empty tree [Print] writes exactly the text
    returned by [String] to the diagnostic sink, and on the empty tree it
    writes the message "Tried to print empty tree".  [String] returns
    "[]" for the empty tree and otherwise the keys between brackets,
    separated by a comma and a space, with no separator after the last;
    in a reachable tree the keys come in strictly ascending order. *)
Theorem C8_print_and_string {V : Type} (t : Tree V) (out : sink) :
  (root t <> nil -> TreePrint t out = Println (TreeString t) out)
  /\ (root t = nil ->
      TreePrint t out = Println "Tried to print empty tree" out
      /\ TreeString t = "[]"%string)
  /\ TreeString t
     = ("[" ++ String.concat ", " (map Strings.fmt_v (keys (root t)))
            ++ "]")%string
  /\ (Reachable t -> StronglySorted Z.lt (keys (root t))).
Proof.
  split; [|split; [|split]].
  - unfold TreePrint, TreeString, Print. now destruct (root t).
  - intros E. unfold TreePrint, TreeString. now rewrite E.
  - apply TreeString_keys.
  - intros HR. apply bst_sorted. now apply Reachable_Inv.
Qed.

Lemma C8_witness :
  root ex3 <> nil /\ Reachable ex3
  /\ TreePrint ex3 [] = ["[10, 20, 30]"%string]
  /\ TreeString ex3 = "[10, 20, 30]"%string
  /\ StronglySorted Z.lt (keys (root ex3)).
Proof.
  assert (Hn : root ex3 <> nil) by discriminate.
  split; [exact Hn|]. split; [exact ex3_reachable|].
  pose proof (C8_print_and_string ex3 []) as (H1 & _ & H3 & H4).
  split; [exact (H1 Hn)|]. split; [exact H3|].
  exact (H4 ex3_reachable).
Defined.

End AVLFacts.

(** * Facts about the calendar-line decoder *)

Module ICSFacts.
Import ICS.

Local Open Scope nat_scope.
Local Open Scope string_scope.

Lemma slice_to_app (pre rest : string) :
  slice_to (pre ++ rest) (String.length pre) = pre.
Proof. apply StringFacts.substring_prefix. Qed.

Lemma slice_from_app (pre : string) (c : ascii) (rest : string) :
  slice_from (pre ++ String c rest) (String.length pre + 1) = rest.
Proof.
  unfold slice_from. rewrite StringFacts.substring_skip.
  rewrite StringFacts.length_append. cbn [String.length substring].
  replace (String.length pre + S (String.length rest)
           - (String.length pre + 1)) with (String.length rest) by lia.
  apply StringFacts.substring_all.
Qed.

Lemma app_cons_assoc (pre : string) (c : ascii) (rest : string) :
  pre ++ String c rest = (pre ++ String c "") ++ rest.
Proof. now rewrite StringFacts.append_assoc. Qed.

Lemma length_snoc (pre : string) (c : ascii) :
  String.length (pre ++ String c "") = S (String.length pre).
Proof. rewrite StringFacts.length_append. simpl. lia. Qed.

Lemma scan_odd (q : bool) (s : string) :
  scan q s = xorb q (Nat.odd (quotes s)).
Proof.
  revert q. induction s as [|c s IH]; intros q; simpl.
  - now destruct q.
  - rewrite IH. destruct (Ascii.eqb c quote_char); [|reflexivity].
    rewrite Nat.odd_succ, <- Nat.negb_odd.
    destruct q, (Nat.odd (quotes s)); reflexivity.
Qed.

Lemma scan_false_even (s : string) :
  scan false s = false <-> Nat.even (quotes s) = true.
Proof.
  rewrite scan_odd, <- Nat.negb_odd. simpl.
  destruct (Nat.odd (quotes s)); simpl; intuition congruence.
Qed.

(** What the scanning loop returns, from any position and quote state. *)
Lemma splitColonLoop_spec (rest : string) : forall (pre : string) (q : bool),
  match splitColonLoop (pre ++ rest) rest (String.length pre) q with
  | (b, a, true) =>
      exists mid, b = pre ++ mid /\ rest = mid ++ String colon_char a
        /\ scan q mid = false
        /\ forall m1 m2, mid = m1 ++ String colon_char m2 ->
                         scan q m1 = true
  | (b, a, false) =>
      b = "" /\ a = ""
      /\ forall m1 m2, rest = m1 ++ String colon_char m2 -> scan q m1 = true
  end.
Proof.
  induction rest as [|c rest IH]; intros pre q.
  - simpl. repeat split. intros [|a m1] m2; discriminate.
  - cbn [splitColonLoop].
    assert (Step : forall q',
      q' = (if Ascii.eqb c quote_char then negb q else q) ->
      (Ascii.eqb c colon_char = true -> q = true) ->
      match splitColonLoop (pre ++ String c rest) rest
              (S (String.length pre)) q' with
      | (b, a, true) =>
          exists mid, b = pre ++ mid
            /\ String c rest = mid ++ String colon_char a
            /\ scan q mid = false
            /\ forall m1 m2, mid = m1 ++ String colon_char m2 ->
                             scan q m1 = true
      | (b, a, false) =>
          b = "" /\ a = ""
          /\ forall m1 m2, String c rest = m1 ++ String colon_char m2 ->
                           scan q m1 = true
      end).
    { intros q' Eq' Hcol.
      specialize (IH (pre ++ String c "") q').
      rewrite <- app_cons_assoc, length_snoc in IH.
      destruct (splitColonLoop (pre ++ String c rest) rest
                  (S (String.length pre)) q') as [[b a] [|]].
      - destruct IH as (mid & Eb & Er & Hs & Hall).
        exists (String c mid). rewrite Eb, Er.
        rewrite StringFacts.append_assoc. simpl. rewrite <- Eq'.
        repeat split; auto.
        intros [|a1 m1] m2 Em; simpl in Em.
        + injection Em as -> _. simpl.
          apply Hcol. apply Ascii.eqb_refl.
        + injection Em as <- ->. simpl. rewrite <- Eq'. eauto.
      - destruct IH as (-> & -> & Hall). repeat split.
        intros [|a1 m1] m2 Em; simpl in Em.
        + injection Em as -> _. simpl. apply Hcol. apply Ascii.eqb_refl.
        + injection Em as <- ->. simpl. rewrite <- Eq'. eauto. }
    destruct (Ascii.eqb c quote_char) eqn:Eq.
    + apply Step; [reflexivity|].
      apply Ascii.eqb_eq in Eq. subst c. discriminate.
    + destruct (Ascii.eqb c colon_char) eqn:Ec.
      * destruct q; cbn [negb].
        -- apply Step; auto.
        -- apply Ascii.eqb_eq in Ec. subst c.
           exists "". rewrite StringFacts.append_nil_r.
           rewrite slice_to_app, slice_from_app.
           repeat split. intros [|a1 m1] m2; discriminate.
      * apply Step; [reflexivity|discriminate].
Qed.

Lemma occurs_app (c : ascii) (s t : string) :
  occurs c (s ++ t) = occurs c s || occurs c t.
Proof.
  induction s as [|a s IH]; simpl; [reflexivity|].
  now rewrite IH, orb_assoc.
Qed.

(** [TrimRight] removes a tail made of bytes of the cutset only. *)
Lemma TrimRight_tail (s : string) (cut : list ascii) :
  exists tail, s = TrimRight s cut ++ tail
    /\ forall c, occurs c tail = true -> In c cut.
Proof.
  induction s as [|a s (tail & Es & Ht)].
  - exists "". split; [reflexivity|]. discriminate.
  - cbn [TrimRight]. destruct (TrimRight s cut) as [|b t] eqn:Et.
    + simpl in Es. subst tail.
      destruct (existsb (Ascii.eqb a) cut) eqn:Ex.
      * exists (String a s). split; [reflexivity|].
        intros c. simpl. destruct (Ascii.eqb a c) eqn:Eac; simpl; [|auto].
        intros _. apply Ascii.eqb_eq in Eac. subst c.
        apply existsb_exists in Ex as (x & Hin & Ex).
        apply Ascii.eqb_eq in Ex. now subst x.
      * exists s. split; [reflexivity|assumption].
    + exists tail. split; [|assumption]. simpl. f_equal. exact Es.
Qed.

Lemma app_colon_split (pre post T tail : string) :
  pre ++ String colon_char post = T ++ tail ->
  occurs colon_char tail = false ->
  exists post', T = pre ++ String colon_char post' /\ post = post' ++ tail.
Proof.
  revert T. induction pre as [|a pre IH]; intros T E Ho.
  - destruct T as [|b T]; simpl in E.
    + subst tail. simpl in Ho. discriminate.
    + injection E as <- ->. now exists T.
  - destruct T as [|b T]; simpl in E.
    + subst tail. simpl in Ho. rewrite occurs_app in Ho. simpl in Ho.
      destruct (Ascii.eqb a colon_char), (occurs colon_char pre);
        discriminate.
    + injection E as <- E. destruct (IH T E Ho) as (post' & -> & ->).
      now exists post'.
Qed.

Lemma unquoted_colon_TrimRight (s : string) :
  unquoted_colon (TrimRight s [cr_char; lf_char]) <-> unquoted_colon s.
Proof.
  destruct (TrimRight_tail s [cr_char; lf_char]) as (tail & Es & Ht).
  split.
  - intros (pre & post & E & Hq). exists pre, (post ++ tail).
    split; [|assumption]. rewrite Es at 1. rewrite E.
    now rewrite StringFacts.append_assoc.
  - intros (pre & post & E & Hq).
    destruct (app_colon_split pre post (TrimRight s [cr_char; lf_char]) tail)
      as (post' & ET & _).
    + now rewrite <- E.
    + destruct (occurs colon_char tail) eqn:Ho; [|reflexivity].
      apply Ht in Ho. simpl in Ho.
      destruct Ho as [Ho|[Ho|[]]]; discriminate.
    + now exists pre, post'.
Qed.

Lemma IndexByte_spec (s : string) (c : ascii) :
  (IndexByte s c = (-1)%Z /\ occurs c s = false)
  \/ exists name rest,
       s = name ++ String c rest /\ occurs c name = false
       /\ IndexByte s c = Z.of_nat (String.length name).
Proof.
  induction s as [|a s IH].
  - left. now split.
  - cbn [IndexByte occurs]. destruct (Ascii.eqb a c) eqn:Eac.
    + right. apply Ascii.eqb_eq in Eac. subst a.
      exists "", s. repeat split.
    + destruct IH as [[Ei Ho]|(name & rest & -> & Ho & Ei)].
      * left. rewrite Ei, Ho. now split.
      * right. exists (String a name), rest. rewrite Ei.
        split; [reflexivity|]. split; [simpl; now rewrite Eac|].
        destruct (Z.ltb_spec (Z.of_nat (String.length name)) 0); [lia|].
        cbn [String.length]. lia.
Qed.

Lemma scan_true_even (s : string) :
  scan false s = true <-> Nat.even (quotes s) = false.
Proof.
  rewrite scan_odd, <- Nat.negb_odd. simpl.
  destruct (Nat.odd (quotes s)); simpl; intuition congruence.
Qed.

Lemma splitOnFirstUnquotedColon_spec (T : string) :
  match splitOnFirstUnquotedColon T with
  | (b, a, true) =>
      T = b ++ String colon_char a /\ Nat.even (quotes b) = true
      /\ forall m1 m2, b = m1 ++ String colon_char m2 ->
                       Nat.even (quotes m1) = false
  | (_, _, false) => ~ unquoted_colon T
  end.
Proof.
  unfold splitOnFirstUnquotedColon.
  pose proof (splitColonLoop_spec T "" false) as H. simpl in H.
  destruct (splitColonLoop T T 0 false) as [[b a] [|]].
  - destruct H as (mid & -> & -> & Hs & Hall).
    split; [reflexivity|]. split; [now apply scan_false_even|].
    intros m1 m2 E. apply scan_true_even. eauto.
  - destruct H as (_ & _ & Hall). intros (pre & post & E & Hq).
    apply Hall in E. apply scan_true_even in E. congruence.
Qed.

Lemma not_unquoted_colon_empty : ~ unquoted_colon "".
Proof. intros ([|a pre] & post & E & _); discriminate. Qed.

Section DecoderFacts.

Variable ToUpper : string -> string.
Variable TrimSpace : string -> string.

Lemma ParseLine_ok_iff (line : string) :
  snd (ParseLine ToUpper TrimSpace line) = None <-> unquoted_colon line.
Proof.
  rewrite <- unquoted_colon_TrimRight. unfold ParseLine.
  set (T := TrimRight line [cr_char; lf_char]).
  destruct (String.eqb_spec T "") as [E|E].
  - rewrite E. simpl. split; [discriminate|].
    intros H. now apply not_unquoted_colon_empty in H.
  - pose proof (splitOnFirstUnquotedColon_spec T) as H.
    destruct (splitOnFirstUnquotedColon T) as [[b a] [|]].
    + destruct H as (ET & Hq & _). split.
      * intros _. now exists b, a.
      * intros _.
        destruct (String.eqb _ "BEGIN"); [reflexivity|].
        destruct (String.eqb _ "END"); [reflexivity|].
        now destruct (lookup propertyByName _).
    + simpl. split; [discriminate|]. intros HU. now apply H in HU.
Qed.

End DecoderFacts.

(** C9. [ParseLine] returns an error exactly when the line has no ':'
    outside double-quoted regions (the empty line has none).  Whenever the
    line has one, it returns a record and no error: the text before the
    first such ':' is the name, optionally followed by ';' and the raw
    parameter list, and the text after it is the raw value; the record
    exposes the raw name, the raw parameters and the raw value, sets
    [IsBegin] and [IsEnd] for the names BEGIN and END, and sets
    [IsUnknown] exactly for every other name that the property table does
    not hold, with the property set to the unknown marker. *)
Theorem C9_ParseLine_error_iff_no_separator
    (ToUpper TrimSpace : string -> string) (line : string) :
  (snd (ParseLine ToUpper TrimSpace line) <> None <-> ~ unquoted_colon line)
  /\ (unquoted_colon line ->
      exists r np value name params,
        ParseLine ToUpper TrimSpace line = (r, None)
        /\ TrimRight line [cr_char; lf_char] = np ++ String colon_char value
        /\ Nat.even (quotes np) = true
        /\ (forall m1 m2, np = m1 ++ String colon_char m2 ->
                          Nat.even (quotes m1) = false)
        /\ ((occurs semi_char np = false /\ name = np /\ params = "")
            \/ (np = name ++ String semi_char params
                /\ occurs semi_char name = false))
        /\ RawName r = ToUpper (TrimSpace name)
        /\ Params r = params
        /\ Value r = value
        /\ IsBegin r = String.eqb (RawName r) "BEGIN"
        /\ IsEnd r = String.eqb (RawName r) "END"
        /\ IsUnknown r
           = (negb (IsBegin r) && negb (IsEnd r)
              && match lookup propertyByName (RawName r) with
                 | Some _ => false
                 | None => true
                 end)%bool
        /\ (IsUnknown r = true -> Property r = UnknownProperty)).
Proof.
  split.
  { rewrite <- (ParseLine_ok_iff ToUpper TrimSpace line).
    destruct (snd (ParseLine ToUpper TrimSpace line));
      intuition congruence. }
  intros HU. apply unquoted_colon_TrimRight in HU. unfold ParseLine.
  set (T := TrimRight line [cr_char; lf_char]) in *.
  destruct (String.eqb_spec T "") as [E|E].
  { rewrite E in HU. now apply not_unquoted_colon_empty in HU. }
  pose proof (splitOnFirstUnquotedColon_spec T) as H.
  destruct (splitOnFirstUnquotedColon T) as [[np value] [|]];
    [|contradiction].
  destruct H as (ET & Hq & Hfirst). cbv zeta.
  assert (Names : exists name params rn rp,
    ((occurs semi_char np = false /\ name = np /\ params = "")
     \/ (np = name ++ String semi_char params
         /\ occurs semi_char name = false))
    /\ (if (IndexByte np semi_char >=? 0)%Z
        then slice_to np (Z.to_nat (IndexByte np semi_char)) else np) = rn
    /\ (if (IndexByte np semi_char >=? 0)%Z
        then slice_from np (Z.to_nat (IndexByte np semi_char) + 1)
        else "") = rp
    /\ rn = name /\ rp = params).
  { destruct (IndexByte_spec np semi_char)
      as [[Ei Ho]|(name & params & En & Ho & Ei)].
    - exists np, "", np, "". rewrite Ei. repeat split. now left.
    - exists name, params, name, params. rewrite Ei.
      rewrite Nat2Z.id.
      destruct (Z.geb_spec (Z.of_nat (String.length name)) 0); [|lia].
      rewrite En, slice_to_app, slice_from_app. repeat split.
      right. now split. }
  destruct Names as (name & params & rn & rp & Hnp & -> & -> & -> & ->).
  set (rawName := ToUpper (TrimSpace _)).
  destruct (String.eqb rawName "BEGIN") eqn:EB;
    [|destruct (String.eqb rawName "END") eqn:EE;
      [|destruct (lookup propertyByName rawName) as [prop|] eqn:EL]];
    eexists; exists np, value; eexists; eexists;
    (split; [reflexivity|]);
    cbn [RawName Params Value IsBegin IsEnd IsUnknown Property];
    fold rawName; rewrite ?EB, ?EE, ?EL;
    (split; [exact ET|]); (split; [exact Hq|]); (split; [exact Hfirst|]);
    (split; [exact Hnp|]); repeat split; try discriminate.
  apply String.eqb_eq in EB. now rewrite EB.
Qed.

Lemma C9_witness :
  unquoted_colon "BEGIN:VEVENT"
  /\ exists r,
      ParseLine ToUpperASCII TrimSpaceASCII "BEGIN:VEVENT" = (r, None)
      /\ IsBegin r = true /\ RawName r = "BEGIN" /\ Value r = "VEVENT".
Proof.
  assert (HU : unquoted_colon "BEGIN:VEVENT").
  { exists "BEGIN", "VEVENT". split; reflexivity. }
  split; [exact HU|].
  destruct (proj2 (C9_ParseLine_error_iff_no_separator
                     ToUpperASCII TrimSpaceASCII "BEGIN:VEVENT") HU)
    as (r & np & value & name & params & E & _).
  exists r. split; [exact E|].
  injection E as <-. repeat split.
Defined.

End ICSFacts.

(** * Facts about the store model

    The public operations under sharing: the child pointers of a store,
    read without direction, form a forest, and every method keeps it so. *)

Module ForestFacts.
Import Heap.

(** ** Forests *)

Lemma forest_sub (E E' : loc -> loc -> Prop) :
  (forall a b, E' a b -> E a b) -> forest E -> forest E'.
Proof.
  intros Hsub (fp & d & Hc & Hm). exists fp, d. split; auto.
Qed.

Lemma covers_sym fp a b : covers fp a b -> covers fp b a.
Proof. unfold covers. tauto. Qed.

Ltac eqb_cases :=
  repeat match goal with
  | |- context [Nat.eqb ?a ?b] => destruct (Nat.eqb_spec a b); subst
  | H : context [Nat.eqb ?a ?b] |- _ => destruct (Nat.eqb_spec a b); subst
  end.

(** Hanging a node that no pair mentions under any node keeps a forest. *)
Lemma forest_pendant (E : loc -> loc -> Prop) (A F : loc) :
  forest E -> (forall a b, E a b -> a <> F /\ b <> F) -> A <> F ->
  forest (fun a b => E a b \/ (a = A /\ b = F)).
Proof.
  intros (fp & d & Hc & Hm) Hiso HAF.
  exists (fun x => if Nat.eqb x F then Some A
                   else match fp x with
                        | Some p => if Nat.eqb p F then None else Some p
                        | None => None
                        end),
         (dset d F (d A + 1)).
  split.
  - intros a b [Hab|[-> ->]].
    + destruct (Hiso _ _ Hab) as [Ha Hb]. specialize (Hc _ _ Hab).
      unfold covers in *.
      destruct (Nat.eqb_spec a F); [congruence|].
      destruct (Nat.eqb_spec b F); [congruence|].
      destruct Hc as [Hc|Hc]; rewrite Hc; [left|right];
        match goal with |- context [Nat.eqb ?x F] =>
          destruct (Nat.eqb_spec x F); congruence end.
    + left. now rewrite Nat.eqb_refl.
  - intros a p. unfold dset.
    destruct (Nat.eqb_spec a F) as [->|Ha].
    + intros [= <-]. destruct (Nat.eqb_spec A F); [congruence|]. lia.
    + destruct (fp a) as [q|] eqn:Eq; [|discriminate].
      destruct (Nat.eqb_spec q F); [discriminate|].
      intros [= <-]. destruct (Nat.eqb_spec q F); [congruence|].
      now apply Hm.
Qed.

(** Moving one end of a pair along an adjacent pair keeps a forest:
    with [A]-[B] and [B]-[C] present, [A]-[B] may be replaced by
    [A]-[C]. *)
Lemma forest_move (E : loc -> loc -> Prop) (A B C : loc) :
  forest E -> (E A B \/ E B A) -> (E B C \/ E C B) -> A <> C ->
  forest (fun a b =>
            (E a b /\ ~ (a = A /\ b = B) /\ ~ (a = B /\ b = A))
            \/ (a = A /\ b = C) \/ (a = C /\ b = A)).
Proof.
  intros (fp & d & Hc & Hm) HAB HBC HAC.
  assert (CAB : covers fp A B).
  { destruct HAB as [H|H]; [|apply covers_sym]; auto. }
  assert (CBC : covers fp B C).
  { destruct HBC as [H|H]; [|apply covers_sym]; auto. }
  assert (NAB : A <> B).
  { intros ->. destruct CAB as [H|H]; apply Hm in H; lia. }
  assert (NBC : B <> C).
  { intros ->. destruct CBC as [H|H]; apply Hm in H; lia. }
  destruct CAB as [FB|FA]; destruct CBC as [FC|FB'].
  - (* A above B above C *)
    pose proof (Hm _ _ FB) as D1. pose proof (Hm _ _ FC) as D2.
    exists (fset (fset fp B (Some C)) C (Some A)),
           (fun x => if Nat.eqb x C then 2 * d A + 1 else 2 * d x).
    split.
    + intros a b [(Hab & N1 & N2)|[[-> ->]|[-> ->]]].
      * specialize (Hc _ _ Hab). unfold covers, fset in *.
        eqb_cases; try tauto; try congruence;
          destruct Hc as [Hc|Hc]; try congruence; auto;
          rewrite Hc in *; try congruence;
          match goal with
          | H1 : Some _ = Some _ |- _ => injection H1 as ?; subst; tauto
          end.
      * left. unfold fset. now rewrite Nat.eqb_refl.
      * right. unfold fset. now rewrite Nat.eqb_refl.
    + intros a p. unfold fset. eqb_cases; intros Hp;
        try (injection Hp as <-); eqb_cases; try lia;
        try (specialize (Hm _ _ Hp); lia).
  - (* B below both A and C: impossible unless A = C *)
    congruence.
  - (* A and C both below B *)
    pose proof (Hm _ _ FA) as D1. pose proof (Hm _ _ FC) as D2.
    exists (fset fp A (Some C)),
           (fun x => if Nat.eqb x C then 2 * d B + 1 else 2 * d x).
    split.
    + intros a b [(Hab & N1 & N2)|[[-> ->]|[-> ->]]].
      * specialize (Hc _ _ Hab). unfold covers, fset in *.
        eqb_cases; try tauto; try congruence;
          destruct Hc as [Hc|Hc]; try congruence; auto;
          rewrite Hc in *; try congruence;
          match goal with
          | H1 : Some _ = Some _ |- _ => injection H1 as ?; subst; tauto
          end.
      * right. unfold fset. now rewrite Nat.eqb_refl.
      * left. unfold fset. now rewrite Nat.eqb_refl.
    + intros a p. unfold fset. eqb_cases; intros Hp;
        try (rewrite FC in Hp);
        try (injection Hp as <-); eqb_cases; try lia;
        try (specialize (Hm _ _ Hp); lia).
  - (* C above B above A *)
    pose proof (Hm _ _ FA) as D1. pose proof (Hm _ _ FB') as D2.
    exists (fset fp A (Some C)), d.
    split.
    + intros a b [(Hab & N1 & N2)|[[-> ->]|[-> ->]]].
      * specialize (Hc _ _ Hab). unfold covers, fset in *.
        eqb_cases; try tauto; try congruence;
          destruct Hc as [Hc|Hc]; try congruence; auto;
          rewrite Hc in *; try congruence;
          match goal with
          | H1 : Some _ = Some _ |- _ => injection H1 as ?; subst; tauto
          end.
      * right. unfold fset. now rewrite Nat.eqb_refl.
      * left. unfold fset. now rewrite Nat.eqb_refl.
    + intros a p. unfold fset. eqb_cases; intros Hp;
        try (injection Hp as <-); try lia;
        try (specialize (Hm _ _ Hp); lia).
Qed.

(** A forest has no triangle. *)
Lemma forest_no_triangle (E : loc -> loc -> Prop) (a b c : loc) :
  forest E -> (E a b \/ E b a) -> (E b c \/ E c b) -> (E a c \/ E c a) ->
  False.
Proof.
  intros (fp & d & Hc & Hm) Hab Hbc Hac.
  assert (Cab : covers fp a b).
  { destruct Hab as [H|H]; [|apply covers_sym]; auto. }
  assert (Cbc : covers fp b c).
  { destruct Hbc as [H|H]; [|apply covers_sym]; auto. }
  assert (Cac : covers fp a c).
  { destruct Hac as [H|H]; [|apply covers_sym]; auto. }
  unfold covers in *.
  destruct Cab as [H1|H1], Cbc as [H2|H2], Cac as [H3|H3];
    pose proof (Hm _ _ H1); pose proof (Hm _ _ H2); pose proof (Hm _ _ H3);
    try lia;
    rewrite ?H1, ?H2, ?H3 in *;
    repeat match goal with
    | H : Some _ = Some _ |- _ => injection H as ?; subst
    end; lia.
Qed.

End ForestFacts.

Module GraphFacts.
Import Heap ForestFacts.

Section Graph.
Context {V : Type}.
Implicit Types (h : heap V) (p : ptr) (a b c l : loc).

Lemma forest_sym_sub (E E' : loc -> loc -> Prop) :
  (forall a b, E' a b -> E a b \/ E b a) -> forest E -> forest E'.
Proof.
  intros Hsub (fp & d & Hc & Hm). exists fp, d. split; [|assumption].
  intros a b Hab. destruct (Hsub _ _ Hab) as [H|H]; [|apply covers_sym]; auto.
Qed.

Lemma reach_trans h a b c : reach h a b -> reach h b c -> reach h a c.
Proof. induction 1; eauto using reach_edge. Qed.

Lemma reach_snoc h a b c : reach h a b -> edge h b c -> reach h a c.
Proof.
  intros H E. eapply reach_trans; [exact H|].
  eapply reach_edge; [exact E|apply reach_refl].
Qed.

(** Induction from the far end of a path. *)
Lemma reach_ind_r h a (P : loc -> Prop) :
  P a ->
  (forall b c, reach h a b -> P b -> edge h b c -> P c) ->
  forall b, reach h a b -> P b.
Proof.
  intros H0 Hstep b Hr.
  assert (G : forall x y, reach h x y -> reach h a x -> P x -> P y).
  { induction 1 as [x|x y z Exy Hyz IH]; intros Hax Px; [assumption|].
    apply IH; [eapply reach_snoc; eauto|eapply Hstep; eauto]. }
  eapply G; eauto using reach_refl.
Qed.

Lemma WF_self h a : WF h -> edge h a a -> False.
Proof. intros (_ & _ & (_ & Hanti) & _) E. eapply Hanti; eauto. Qed.

Lemma WF_anti h a b : WF h -> edge h a b -> edge h b a -> False.
Proof. intros (_ & _ & (_ & Hanti) & _). apply Hanti. Qed.

Lemma WF_par h a b :
  WF h -> (a < next h)%nat ->
  left (cells h a) = Some b -> right (cells h a) = Some b -> False.
Proof. intros (_ & _ & (Hpar & _) & _). apply Hpar. Qed.

Lemma WF_tri h a b c :
  WF h -> (edge h a b \/ edge h b a) -> (edge h b c \/ edge h c b) ->
  (edge h a c \/ edge h c a) -> False.
Proof. intros (_ & _ & _ & HF). now apply forest_no_triangle. Qed.

Lemma WF_valid h a b : WF h -> edge h a b -> (b < next h)%nat.
Proof. intros (Hv & _). apply Hv. Qed.

(** No node is reached from one of its own children. *)
Lemma WF_acyclic h a b : WF h -> edge h a b -> reach h b a -> False.
Proof.
  intros HW Eab Hba.
  pose proof HW as (_ & _ & _ & (fp & d & Hc & Hm)).
  assert (Down : forall x y z, edge h x y -> fp y = Some x ->
                   edge h y z -> fp z = Some y).
  { intros x y z Exy Fy Eyz. destruct (Hc _ _ Eyz) as [F|F]; [assumption|].
    rewrite Fy in F. injection F as ->. exfalso. eapply WF_anti; eauto. }
  assert (Up : forall x y z, edge h y z -> fp y = Some z ->
                 edge h x y -> fp x = Some y).
  { intros x y z Eyz Fy Exy. destruct (Hc _ _ Exy) as [F|F]; [|assumption].
    rewrite Fy in F. injection F as ->. exfalso. eapply WF_anti; eauto. }
  destruct (Hc _ _ Eab) as [F|F].
  - (* the edge goes down: so does everything after it *)
    assert (G : forall y z, reach h y z ->
                  forall x, edge h x y -> fp y = Some x -> d y <= d z).
    { induction 1 as [y|y y' z Eyy' _ IH]; intros x Exy Fy; [lia|].
      pose proof (Down _ _ _ Exy Fy Eyy') as Fy'.
      specialize (IH _ Eyy' Fy'). pose proof (Hm _ _ Fy'). lia. }
    pose proof (G _ _ Hba _ Eab F). pose proof (Hm _ _ F). lia.
  - (* the edge goes up: so does everything before it *)
    assert (G : forall y, reach h b y ->
                  forall z, edge h y z -> fp y = Some z -> d y <= d b).
    { apply (reach_ind_r h b
               (fun y => forall z, edge h y z -> fp y = Some z -> d y <= d b)).
      - intros; lia.
      - intros y y' Hby IH Eyy' z Ey'z Fy'.
        pose proof (Up _ _ _ Ey'z Fy' Eyy') as Fy.
        specialize (IH _ Eyy' Fy). pose proof (Hm _ _ Fy). lia. }
    pose proof (G _ Hba _ Eab F). pose proof (Hm _ _ F). lia.
Qed.

Lemma NoDup_bounded_length (l : list nat) (n : nat) :
  NoDup l -> (forall v, In v l -> (v < n)%nat) -> (List.length l <= n)%nat.
Proof.
  intros Hnd Hb.
  assert (Hi : incl l (seq 0%nat n)).
  { intros v Hv. apply in_seq. specialize (Hb _ Hv). lia. }
  pose proof (NoDup_incl_length Hnd Hi) as H.
  now rewrite length_seq in H.
Qed.

(** In a well-formed store every descent ends within as many steps as
    there are allocated nodes. *)
Lemma WF_dbound_aux h : WF h ->
  forall k l visited,
    NoDup visited ->
    (forall v, In v visited ->
       (v < next h)%nat /\ exists w, edge h v w /\ reach h w l) ->
    (l < next h)%nat ->
    (next h <= List.length visited + k)%nat ->
    dbound h (Some l) k.
Proof.
  intros HW. induction k as [|k IH]; intros l visited Hnd Hanc Hl Hlen.
  - exfalso.
    assert (Hnd' : NoDup (l :: visited)).
    { constructor; [|assumption]. intros Hin.
      destruct (Hanc _ Hin) as (_ & w & E & R).
      eapply WF_acyclic; eauto. }
    apply NoDup_bounded_length with (n := next h) in Hnd'.
    + simpl in Hnd'. lia.
    + intros v [<-|Hv]; [assumption|]. now apply Hanc.
  - assert (Child : forall c, edge h l c -> dbound h (Some c) k).
    { intros c E. apply (IH c (l :: visited)).
      - constructor; [|assumption]. intros Hin.
        destruct (Hanc _ Hin) as (_ & w & E' & R).
        eapply WF_acyclic; eauto.
      - intros v [<-|Hv].
        + split; [assumption|]. exists c. split; [assumption|apply reach_refl].
        + destruct (Hanc _ Hv) as (Hv' & w & E' & R). split; [assumption|].
          exists w. split; [assumption|]. eapply reach_snoc; eauto.
      - eapply WF_valid; eauto.
      - simpl. lia. }
    constructor.
    + destruct (left (cells h l)) as [c|] eqn:E; [|constructor].
      apply Child. split; auto.
    + destruct (right (cells h l)) as [c|] eqn:E; [|constructor].
      apply Child. split; auto.
Qed.

Lemma WF_dbound h p : WF h -> pvalid h p -> dbound h p (next h).
Proof.
  intros HW Hp. destruct p as [l|]; [|constructor].
  apply (WF_dbound_aux h HW (next h) l []); simpl; auto using NoDup_nil.
  intros v [].
Qed.

Lemma dbound_mono h p f f' : dbound h p f -> (f <= f')%nat -> dbound h p f'.
Proof.
  intros H. revert f'. induction H as [f|l f _ IHl _ IHr]; intros f' Hle.
  - constructor.
  - destruct f' as [|f']; [lia|]. constructor; [apply IHl|apply IHr]; lia.
Qed.

Lemma dbound_shape h h' p f :
  same_shape h h' -> dbound h p f -> dbound h' p f.
Proof.
  intros (_ & Hs). induction 1 as [f|l f _ IHl _ IHr]; constructor.
  - now rewrite (proj1 (Hs l)).
  - now rewrite (proj2 (Hs l)).
Qed.

End Graph.

End GraphFacts.

Module StoreFacts.
Import Heap ForestFacts GraphFacts.

Ltac gunfold :=
  unfold hsetL, hsetR, hsetH, hsetK, hsetV, upd in *;
  cbn [cells next left right height key value] in *.

Ltac eqb_all :=
  repeat match goal with
  | |- context [Nat.eqb ?a ?b] =>
      destruct (Nat.eqb_spec a b); try congruence
  | H : context [Nat.eqb ?a ?b] |- _ =>
      destruct (Nat.eqb_spec a b); try congruence
  end; cbn [cells next left right height key value] in *.

Section Mutations.
Context {V : Type}.
Implicit Types (h : heap V) (p : ptr) (a b c l : loc).

Lemma edge_intro_l h a b :
  (a < next h)%nat -> left (cells h a) = Some b -> edge h a b.
Proof. intros; split; auto. Qed.

Lemma edge_intro_r h a b :
  (a < next h)%nat -> right (cells h a) = Some b -> edge h a b.
Proof. intros; split; auto. Qed.

Ltac gcontra h :=
  solve [ congruence
        | eauto using WF_self, edge_intro_l, edge_intro_r
        | eauto using WF_anti, edge_intro_l, edge_intro_r
        | eauto using WF_par
        | eauto 7 using WF_tri, edge_intro_l, edge_intro_r ].

Ltac fm_edge h :=
  split; [solve [eauto using edge_intro_l, edge_intro_r]
         |split; intros [? ?]; subst; gcontra h].

Ltac fm_case h :=
  first [ left; left; fm_edge h
        | right; left; fm_edge h
        | left; right; left; split; congruence
        | left; right; right; split; congruence
        | right; right; left; split; congruence
        | right; right; right; split; congruence ].

(** A store with the same pointers and positive heights stays
    well-formed. *)
Lemma WF_shape h h' :
  same_shape h h' -> heights_ok h' -> WF h -> WF h'.
Proof.
  intros (Hn & Hs) Hh (Hv & _ & (Hp & Ha) & HF).
  assert (E : forall a b, edge h' a b <-> edge h a b).
  { intros a b. unfold edge. rewrite Hn.
    destruct (Hs a) as [-> ->]. tauto. }
  split; [|split; [assumption|split; [split|]]].
  - intros a b Hab. rewrite Hn. apply E in Hab. eauto.
  - intros a b Ha'. destruct (Hs a) as [-> ->]. rewrite Hn in Ha'. eauto.
  - intros a b H1 H2. apply E in H1, H2. eauto.
  - eapply forest_sub; [|exact HF]. intros a b. apply E.
Qed.

Lemma WF_hsetH h l z : WF h -> 1 <= z -> WF (hsetH h l z).
Proof.
  intros HW Hz. apply (WF_shape h); [| |assumption].
  - split; [reflexivity|]. intros a. gunfold. eqb_all; subst; auto.
  - destruct HW as (_ & Hh & _). intros a Ha. gunfold. eqb_all; subst; auto.
Qed.

Lemma WF_hsetK h l k : WF h -> WF (hsetK h l k).
Proof.
  intros HW. apply (WF_shape h); [| |assumption].
  - split; [reflexivity|]. intros a. gunfold. eqb_all; subst; auto.
  - destruct HW as (_ & Hh & _). intros a Ha. gunfold. eqb_all; subst; auto.
Qed.

Lemma WF_hsetV h l v : WF h -> WF (hsetV h l v).
Proof.
  intros HW. apply (WF_shape h); [| |assumption].
  - split; [reflexivity|]. intros a. gunfold. eqb_all; subst; auto.
  - destruct HW as (_ & Hh & _). intros a Ha. gunfold. eqb_all; subst; auto.
Qed.

Lemma gh_nonneg h p : WF h -> pvalid h p -> 0 <= gh h p.
Proof.
  intros (_ & Hh & _) Hp. destruct p as [l|]; simpl; [|lia].
  specialize (Hh l Hp). lia.
Qed.

Lemma gh_pos_some h p : 0 < gh h p -> exists l, p = Some l.
Proof. destruct p as [l|]; simpl; [eauto|lia]. Qed.

Lemma pvalid_left h l : WF h -> (l < next h)%nat -> pvalid h (left (cells h l)).
Proof.
  intros HW Hl. destruct (left (cells h l)) as [c|] eqn:E; simpl; [|exact I].
  eapply WF_valid; eauto using edge_intro_l.
Qed.

Lemma pvalid_right h l : WF h -> (l < next h)%nat -> pvalid h (right (cells h l)).
Proof.
  intros HW Hl. destruct (right (cells h l)) as [c|] eqn:E; simpl; [|exact I].
  eapply WF_valid; eauto using edge_intro_r.
Qed.

Lemma newHeight_pos h l : WF h -> (l < next h)%nat -> 1 <= newHeight h l.
Proof.
  intros HW Hl. unfold newHeight.
  pose proof (gh_nonneg h _ HW (pvalid_left h l HW Hl)).
  pose proof (gh_nonneg h _ HW (pvalid_right h l HW Hl)). lia.
Qed.

(** *** A right rotation on the pointers *)
Lemma WF_rotR h y x :
  WF h -> (y < next h)%nat -> left (cells h y) = Some x ->
  WF (hsetL (hsetR h x (Some y)) y (right (cells h x))).
Proof.
  intros HW Hy Hyx.
  assert (Eyx : edge h y x) by (split; auto).
  assert (Hx : (x < next h)%nat) by (eapply WF_valid; eauto).
  assert (Nxy : x <> y) by (intros ->; eapply WF_self; eauto).
  pose proof HW as (Hv & Hh & (Hpar & Hanti) & HF).
  set (h' := hsetL (hsetR h x (Some y)) y (right (cells h x))).
  assert (Ech : forall a b, edge h' a b ->
            (a <> x /\ a <> y /\ edge h a b)
            \/ (a = x /\ (left (cells h x) = Some b \/ b = y))
            \/ (a = y /\ (right (cells h x) = Some b
                          \/ right (cells h y) = Some b))).
  { intros a b. subst h'. unfold edge at 1. gunfold. intros [Ha Hc].
    destruct (Nat.eq_dec a y) as [->|Nay];
      [|destruct (Nat.eq_dec a x) as [->|Nax]]; eqb_all.
    - right. right. split; [reflexivity|tauto].
    - right. left. split; [reflexivity|].
      destruct Hc as [Hc|Hc]; try (injection Hc as <-); tauto.
    - left. repeat split; auto. }
  split; [|split; [|split; [split|]]].
  - (* valid *)
    intros a b Hab. change (next h') with (next h).
    destruct (Ech _ _ Hab) as [(_ & _ & E)|[(-> & [E| ->])|(-> & [E|E])]];
      eauto using edge_intro_l, edge_intro_r.
  - (* heights *)
    intros a Ha. subst h'. gunfold. eqb_all; subst; auto.
  - (* no node with twice the same child *)
    intros a b Ha. subst h'. gunfold.
    destruct (Nat.eq_dec a y) as [->|Nay];
      [|destruct (Nat.eq_dec a x) as [->|Nax]]; eqb_all; intros L R.
    all: try (injection L as <-); try (injection R as <-); gcontra h.
  - (* no two nodes children of each other *)
    intros a b Hab Hba.
    destruct (Ech _ _ Hab) as [(Na1 & Na2 & E1)|[(-> & C1)|(-> & C1)]];
      destruct (Ech _ _ Hba) as [(Nb1 & Nb2 & E2)|[(-> & C2)|(-> & C2)]];
      repeat match goal with H : _ \/ _ |- _ => destruct H end;
      subst; try gcontra h.
  - (* forest *)
    destruct (right (cells h x)) as [t|] eqn:Ext.
    + assert (Ext' : edge h x t) by (split; auto).
      assert (Nty : t <> y) by (intros ->; eapply (WF_anti h); eauto).
      pose proof (forest_move (edge h) t x y HF (or_intror Ext')
                    (or_intror Eyx) Nty) as HM.
      eapply forest_sym_sub; [|exact HM]. cbv beta.
      intros a b Hab.
      destruct (Ech _ _ Hab) as [(Na1 & Na2 & E)|[(-> & [E| ->])|(-> & [E|E])]];
        try (injection E as <-); fm_case h.
    + eapply forest_sym_sub; [|exact HF].
      intros a b Hab.
      destruct (Ech _ _ Hab) as [(Na1 & Na2 & E)|[(-> & [E| ->])|(-> & [E|E])]];
        eauto using edge_intro_l, edge_intro_r; discriminate.
Qed.

(** *** A left rotation on the pointers *)
Lemma WF_rotL h y x :
  WF h -> (y < next h)%nat -> right (cells h y) = Some x ->
  WF (hsetR (hsetL h x (Some y)) y (left (cells h x))).
Proof.
  intros HW Hy Hyx.
  assert (Eyx : edge h y x) by (split; auto).
  assert (Hx : (x < next h)%nat) by (eapply WF_valid; eauto).
  assert (Nxy : x <> y) by (intros ->; eapply WF_self; eauto).
  pose proof HW as (Hv & Hh & (Hpar & Hanti) & HF).
  set (h' := hsetR (hsetL h x (Some y)) y (left (cells h x))).
  assert (Ech : forall a b, edge h' a b ->
            (a <> x /\ a <> y /\ edge h a b)
            \/ (a = x /\ (right (cells h x) = Some b \/ b = y))
            \/ (a = y /\ (left (cells h x) = Some b
                          \/ left (cells h y) = Some b))).
  { intros a b. subst h'. unfold edge at 1. gunfold. intros [Ha Hc].
    destruct (Nat.eq_dec a y) as [->|Nay];
      [|destruct (Nat.eq_dec a x) as [->|Nax]]; eqb_all.
    - right. right. split; [reflexivity|tauto].
    - right. left. split; [reflexivity|].
      destruct Hc as [Hc|Hc]; try (injection Hc as <-); tauto.
    - left. repeat split; auto. }
  split; [|split; [|split; [split|]]].
  - (* valid *)
    intros a b Hab. change (next h') with (next h).
    destruct (Ech _ _ Hab) as [(_ & _ & E)|[(-> & [E| ->])|(-> & [E|E])]];
      eauto using edge_intro_r, edge_intro_l.
  - (* heights *)
    intros a Ha. subst h'. gunfold. eqb_all; subst; auto.
  - (* no node with twice the same child *)
    intros a b Ha. subst h'. gunfold.
    destruct (Nat.eq_dec a y) as [->|Nay];
      [|destruct (Nat.eq_dec a x) as [->|Nax]]; eqb_all; intros L R.
    all: try (injection L as <-); try (injection R as <-); gcontra h.
  - (* no two nodes children of each other *)
    intros a b Hab Hba.
    destruct (Ech _ _ Hab) as [(Na1 & Na2 & E1)|[(-> & C1)|(-> & C1)]];
      destruct (Ech _ _ Hba) as [(Nb1 & Nb2 & E2)|[(-> & C2)|(-> & C2)]];
      repeat match goal with H : _ \/ _ |- _ => destruct H end;
      subst; try gcontra h.
  - (* forest *)
    destruct (left (cells h x)) as [t|] eqn:Ext.
    + assert (Ext' : edge h x t) by (split; auto).
      assert (Nty : t <> y) by (intros ->; eapply (WF_anti h); eauto).
      pose proof (forest_move (edge h) t x y HF (or_intror Ext')
                    (or_intror Eyx) Nty) as HM.
      eapply forest_sym_sub; [|exact HM]. cbv beta.
      intros a b Hab.
      destruct (Ech _ _ Hab) as [(Na1 & Na2 & E)|[(-> & [E| ->])|(-> & [E|E])]];
        try (injection E as <-); fm_case h.
    + eapply forest_sym_sub; [|exact HF].
      intros a b Hab.
      destruct (Ech _ _ Hab) as [(Na1 & Na2 & E)|[(-> & [E| ->])|(-> & [E|E])]];
        eauto using edge_intro_r, edge_intro_l; discriminate.
Qed.

(** *** Replacing a child pointer *)
Lemma WF_rebindL h n r :
  WF h -> (n < next h)%nat -> pvalid h r -> r <> Some n ->
  relinked h (left (cells h n)) r ->
  WF (hsetL h n r).
Proof.
  intros HW Hn Hr Hrn Hrel.
  pose proof HW as (Hv & Hh & (Hpar & Hanti) & HF).
  set (h' := hsetL h n r).
  assert (Ech : forall a b, edge h' a b ->
            (a <> n /\ edge h a b)
            \/ (a = n /\ (r = Some b \/ right (cells h n) = Some b))).
  { intros a b. subst h'. unfold edge at 1. gunfold. intros [Ha Hc].
    destruct (Nat.eq_dec a n) as [->|Nan]; eqb_all.
    - right. split; [reflexivity|tauto].
    - left. repeat split; auto. }
  assert (Hhe : heights_ok h').
  { intros a Ha. subst h'. gunfold. eqb_all; subst; auto. }
  destruct Hrel as [Hrel|[Hrel|(rl & -> & Hrel)]].
  - (* the same pointer *)
    apply (WF_shape h); [|assumption|assumption].
    split; [reflexivity|]. intros a. subst h'. gunfold.
    eqb_all; subst; auto.
  - (* nil: a child pointer less *)
    subst r.
    assert (Sub : forall a b, edge h' a b -> edge h a b).
    { intros a b Hab.
      destruct (Ech _ _ Hab) as [(_ & E)|(-> & [E|E])];
        eauto using edge_intro_r; discriminate. }
    split; [|split; [assumption|split; [split|]]].
    + intros a b Hab. apply Sub in Hab. eauto.
    + intros a b Ha. subst h'. gunfold.
      destruct (Nat.eq_dec a n) as [->|Nan]; eqb_all; intros L R;
        gcontra h.
    + intros a b Hab Hba. apply Sub in Hab, Hba. eauto.
    + eapply forest_sub; [|exact HF]. exact Sub.
  - simpl in Hr.
    assert (Nrn : rl <> n) by (intros ->; now apply Hrn).
    destruct Hrel as [(cl & Hc & Hadj)|(Hc & Hiso)].
    + (* next to the old child *)
      assert (Enc : edge h n cl) by (split; auto).
      assert (Ncr : cl <> rl).
      { intros ->. destruct Hadj; eapply WF_self; eauto. }
      assert (Nadj : ~ (edge h n rl \/ edge h rl n)).
      { intros Hx. eapply (WF_tri h n cl rl); eauto. tauto. }
      split; [|split; [assumption|split; [split|]]].
      * intros a b Hab. change (next h') with (next h).
        destruct (Ech _ _ Hab) as [(_ & E)|(-> & [E|E])];
          try (injection E as <-); eauto using edge_intro_r.
      * intros a b Ha. subst h'. gunfold.
        destruct (Nat.eq_dec a n) as [->|Nan]; eqb_all; intros L R;
          try (injection L as <-); try (injection R as <-); [|gcontra h].
        apply Nadj. left. solve [eauto using edge_intro_l, edge_intro_r].
      * intros a b Hab Hba.
        destruct (Ech _ _ Hab) as [(Na & E1)|(-> & C1)];
          destruct (Ech _ _ Hba) as [(Nb & E2)|(-> & C2)];
          repeat match goal with H : _ \/ _ |- _ => destruct H end;
          repeat match goal with
                 | H : Some _ = Some _ |- _ => injection H as <-
                 end;
          try gcontra h; try (apply Nadj; tauto).
      * pose proof (forest_move (edge h) n cl rl HF (or_introl Enc)) as HM.
        assert (Hcr : edge h cl rl \/ edge h rl cl) by tauto.
        specialize (HM Hcr (not_eq_sym Nrn)).
        eapply forest_sub; [|exact HM]. cbv beta.
        intros a b Hab.
        destruct (Ech _ _ Hab) as [(Na & E)|(-> & [E|E])];
          try (injection E as <-).
        -- left. fm_edge h.
        -- right. left. now split.
        -- left. fm_edge h.
    + (* a fresh leaf where there was no child *)
      split; [|split; [assumption|split; [split|]]].
      * intros a b Hab. change (next h') with (next h).
        destruct (Ech _ _ Hab) as [(_ & E)|(-> & [E|E])];
          try (injection E as <-); eauto using edge_intro_r.
      * intros a b Ha. subst h'. gunfold.
        destruct (Nat.eq_dec a n) as [->|Nan]; eqb_all; intros L R;
          try (injection L as <-); try (injection R as <-); [|gcontra h].
        destruct (Hiso n rl);
          [solve [eauto using edge_intro_l, edge_intro_r]|congruence].
      * intros a b Hab Hba.
        destruct (Ech _ _ Hab) as [(Na & E1)|(-> & C1)];
          destruct (Ech _ _ Hba) as [(Nb & E2)|(-> & C2)];
          repeat match goal with H : _ \/ _ |- _ => destruct H end;
          repeat match goal with
                 | H : Some _ = Some _ |- _ => injection H as <-
                 end;
          try gcontra h;
          match goal with
          | E : edge h ?x ?y |- _ =>
              solve [destruct (Hiso _ _ E); congruence]
          end.
      * pose proof (forest_pendant (edge h) n rl HF Hiso (not_eq_sym Nrn))
          as HM.
        eapply forest_sub; [|exact HM]. cbv beta.
        intros a b Hab.
        destruct (Ech _ _ Hab) as [(Na & E)|(-> & [E|E])];
          try (injection E as <-); eauto using edge_intro_r.
Qed.

Lemma WF_rebindR h n r :
  WF h -> (n < next h)%nat -> pvalid h r -> r <> Some n ->
  relinked h (right (cells h n)) r ->
  WF (hsetR h n r).
Proof.
  intros HW Hn Hr Hrn Hrel.
  pose proof HW as (Hv & Hh & (Hpar & Hanti) & HF).
  set (h' := hsetR h n r).
  assert (Ech : forall a b, edge h' a b ->
            (a <> n /\ edge h a b)
            \/ (a = n /\ (r = Some b \/ left (cells h n) = Some b))).
  { intros a b. subst h'. unfold edge at 1. gunfold. intros [Ha Hc].
    destruct (Nat.eq_dec a n) as [->|Nan]; eqb_all.
    - right. split; [reflexivity|tauto].
    - left. repeat split; auto. }
  assert (Hhe : heights_ok h').
  { intros a Ha. subst h'. gunfold. eqb_all; subst; auto. }
  destruct Hrel as [Hrel|[Hrel|(rl & -> & Hrel)]].
  - (* the same pointer *)
    apply (WF_shape h); [|assumption|assumption].
    split; [reflexivity|]. intros a. subst h'. gunfold.
    eqb_all; subst; auto.
  - (* nil: a child pointer less *)
    subst r.
    assert (Sub : forall a b, edge h' a b -> edge h a b).
    { intros a b Hab.
      destruct (Ech _ _ Hab) as [(_ & E)|(-> & [E|E])];
        eauto using edge_intro_l; discriminate. }
    split; [|split; [assumption|split; [split|]]].
    + intros a b Hab. apply Sub in Hab. eauto.
    + intros a b Ha. subst h'. gunfold.
      destruct (Nat.eq_dec a n) as [->|Nan]; eqb_all; intros L R;
        gcontra h.
    + intros a b Hab Hba. apply Sub in Hab, Hba. eauto.
    + eapply forest_sub; [|exact HF]. exact Sub.
  - simpl in Hr.
    assert (Nrn : rl <> n) by (intros ->; now apply Hrn).
    destruct Hrel as [(cl & Hc & Hadj)|(Hc & Hiso)].
    + (* next to the old child *)
      assert (Enc : edge h n cl) by (split; auto).
      assert (Ncr : cl <> rl).
      { intros ->. destruct Hadj; eapply WF_self; eauto. }
      assert (Nadj : ~ (edge h n rl \/ edge h rl n)).
      { intros Hx. eapply (WF_tri h n cl rl); eauto. tauto. }
      split; [|split; [assumption|split; [split|]]].
      * intros a b Hab. change (next h') with (next h).
        destruct (Ech _ _ Hab) as [(_ & E)|(-> & [E|E])];
          try (injection E as <-); eauto using edge_intro_l.
      * intros a b Ha. subst h'. gunfold.
        destruct (Nat.eq_dec a n) as [->|Nan]; eqb_all; intros L R;
          try (injection L as <-); try (injection R as <-); [|gcontra h].
        apply Nadj. left. solve [eauto using edge_intro_l, edge_intro_r].
      * intros a b Hab Hba.
        destruct (Ech _ _ Hab) as [(Na & E1)|(-> & C1)];
          destruct (Ech _ _ Hba) as [(Nb & E2)|(-> & C2)];
          repeat match goal with H : _ \/ _ |- _ => destruct H end;
          repeat match goal with
                 | H : Some _ = Some _ |- _ => injection H as <-
                 end;
          try gcontra h; try (apply Nadj; tauto).
      * pose proof (forest_move (edge h) n cl rl HF (or_introl Enc)) as HM.
        assert (Hcr : edge h cl rl \/ edge h rl cl) by tauto.
        specialize (HM Hcr (not_eq_sym Nrn)).
        eapply forest_sub; [|exact HM]. cbv beta.
        intros a b Hab.
        destruct (Ech _ _ Hab) as [(Na & E)|(-> & [E|E])];
          try (injection E as <-).
        -- left. fm_edge h.
        -- right. left. now split.
        -- left. fm_edge h.
    + (* a fresh leaf where there was no child *)
      split; [|split; [assumption|split; [split|]]].
      * intros a b Hab. change (next h') with (next h).
        destruct (Ech _ _ Hab) as [(_ & E)|(-> & [E|E])];
          try (injection E as <-); eauto using edge_intro_l.
      * intros a b Ha. subst h'. gunfold.
        destruct (Nat.eq_dec a n) as [->|Nan]; eqb_all; intros L R;
          try (injection L as <-); try (injection R as <-); [|gcontra h].
        destruct (Hiso n rl);
          [solve [eauto using edge_intro_l, edge_intro_r]|congruence].
      * intros a b Hab Hba.
        destruct (Ech _ _ Hab) as [(Na & E1)|(-> & C1)];
          destruct (Ech _ _ Hba) as [(Nb & E2)|(-> & C2)];
          repeat match goal with H : _ \/ _ |- _ => destruct H end;
          repeat match goal with
                 | H : Some _ = Some _ |- _ => injection H as <-
                 end;
          try gcontra h;
          match goal with
          | E : edge h ?x ?y |- _ =>
              solve [destruct (Hiso _ _ E); congruence]
          end.
      * pose proof (forest_pendant (edge h) n rl HF Hiso (not_eq_sym Nrn))
          as HM.
        eapply forest_sub; [|exact HM]. cbv beta.
        intros a b Hab.
        destruct (Ech _ _ Hab) as [(Na & E)|(-> & [E|E])];
          try (injection E as <-); eauto using edge_intro_l.
Qed.

End Mutations.

End StoreFacts.

Module HeapFacts.
Import Heap ForestFacts GraphFacts StoreFacts.

#[local] Arguments Z.add _ _ : simpl never.
#[local] Arguments Z.sub _ _ : simpl never.
#[local] Arguments Z.max _ _ : simpl never.
#[local] Arguments Z.ltb _ _ : simpl never.
#[local] Arguments Z.leb _ _ : simpl never.
#[local] Arguments Z.gtb _ _ : simpl never.
#[local] Arguments Z.geb _ _ : simpl never.
#[local] Arguments Z.eqb _ _ : simpl never.

Section Ops.
Context {V : Type}.
Implicit Types (h : heap V) (p : ptr) (a b c l n x y : loc).

(** *** What the straight-line methods compute *)

Lemma getHeight_eq h p : getHeight p h = Done (gh h p) h.
Proof. destruct p; reflexivity. Qed.

Lemma updateHeight_eq h l :
  updateHeight (Some l) h = Done tt (hsetH h l (newHeight h l)).
Proof.
  unfold updateHeight, hbind, load. rewrite !getHeight_eq. reflexivity.
Qed.

Lemma balanceFactor_eq h p : balanceFactor p h = Done (bf h p) h.
Proof.
  destruct p as [l|]; [|reflexivity].
  unfold balanceFactor, hbind, load. rewrite !getHeight_eq. reflexivity.
Qed.

Lemma rotateRight_eq h y x :
  left (cells h y) = Some x ->
  rotateRight (Some y) h = Done (Some x) (hrotR h y x).
Proof.
  intros E. unfold rotateRight, hbind, load. rewrite E.
  unfold setRight, setLeft, hbind, load, store.
  rewrite !updateHeight_eq. reflexivity.
Qed.

Lemma rotateRight_nil h y :
  left (cells h y) = None -> rotateRight (Some y) h = Fail NilDeref.
Proof. intros E. unfold rotateRight, hbind, load. now rewrite E. Qed.

Lemma rotateLeft_eq h x y :
  right (cells h x) = Some y ->
  rotateLeft (Some x) h = Done (Some y) (hrotL h x y).
Proof.
  intros E. unfold rotateLeft, hbind, load. rewrite E.
  unfold setRight, setLeft, hbind, load, store.
  rewrite !updateHeight_eq. reflexivity.
Qed.

Lemma WF_hrotR h y x :
  WF h -> (y < next h)%nat -> left (cells h y) = Some x -> WF (hrotR h y x).
Proof.
  intros HW Hy E. unfold hrotR.
  assert (Hx : (x < next h)%nat).
  { eapply WF_valid; eauto using edge_intro_l. }
  pose proof (WF_rotR h y x HW Hy E) as H1.
  set (h1 := hsetL (hsetR h x (Some y)) y (right (cells h x))) in *.
  assert (H2 : WF (hsetH h1 y (newHeight h1 y))).
  { apply WF_hsetH; [assumption|]. now apply newHeight_pos. }
  apply WF_hsetH; [assumption|]. now apply newHeight_pos.
Qed.

Lemma WF_hrotL h x y :
  WF h -> (x < next h)%nat -> right (cells h x) = Some y -> WF (hrotL h x y).
Proof.
  intros HW Hx E. unfold hrotL.
  assert (Hy : (y < next h)%nat).
  { eapply WF_valid; eauto using edge_intro_r. }
  pose proof (WF_rotL h x y HW Hx E) as H1.
  set (h1 := hsetR (hsetL h y (Some x)) x (left (cells h y))) in *.
  assert (H2 : WF (hsetH h1 x (newHeight h1 x))).
  { apply WF_hsetH; [assumption|]. now apply newHeight_pos. }
  apply WF_hsetH; [assumption|]. now apply newHeight_pos.
Qed.

(** Pointers of the store after a rotation. *)
Lemma hrotR_ptrs h y x : x <> y ->
  next (hrotR h y x) = next h
  /\ left (cells (hrotR h y x) x) = left (cells h x)
  /\ right (cells (hrotR h y x) x) = Some y
  /\ left (cells (hrotR h y x) y) = right (cells h x)
  /\ right (cells (hrotR h y x) y) = right (cells h y)
  /\ forall l, l <> x -> l <> y -> cells (hrotR h y x) l = cells h l.
Proof.
  intros N. unfold hrotR. gunfold. repeat split; eqb_all; auto.
  intros l N1 N2. eqb_all; auto.
Qed.

Lemma hrotL_ptrs h x y : x <> y ->
  next (hrotL h x y) = next h
  /\ right (cells (hrotL h x y) y) = right (cells h y)
  /\ left (cells (hrotL h x y) y) = Some x
  /\ right (cells (hrotL h x y) x) = left (cells h y)
  /\ left (cells (hrotL h x y) x) = left (cells h x)
  /\ forall l, l <> x -> l <> y -> cells (hrotL h x y) l = cells h l.
Proof.
  intros N. unfold hrotL. gunfold. repeat split; eqb_all; auto.
  intros l N1 N2. eqb_all; auto.
Qed.

(** *** Writes stay inside a set closed under child pointers *)

Lemma frame_refl (S : loc -> Prop) h : frame S h h.
Proof. intros l _. reflexivity. Qed.

Lemma frame_trans (S : loc -> Prop) h1 h2 h3 :
  frame S h1 h2 -> frame S h2 h3 -> frame S h1 h3.
Proof. intros H1 H2 l Hl. rewrite H2, H1; auto. Qed.

Lemma frame_hsetH (S : loc -> Prop) h l z : S l -> frame S h (hsetH h l z).
Proof. intros Hl a Ha. gunfold. eqb_all; subst; tauto. Qed.

Lemma frame_hsetK (S : loc -> Prop) h l k : S l -> frame S h (hsetK h l k).
Proof. intros Hl a Ha. gunfold. eqb_all; subst; tauto. Qed.

Lemma frame_hsetV (S : loc -> Prop) h l v : S l -> frame S h (hsetV h l v).
Proof. intros Hl a Ha. gunfold. eqb_all; subst; tauto. Qed.

Lemma frame_hsetL (S : loc -> Prop) h l p : S l -> frame S h (hsetL h l p).
Proof. intros Hl a Ha. gunfold. eqb_all; subst; tauto. Qed.

Lemma frame_hsetR (S : loc -> Prop) h l p : S l -> frame S h (hsetR h l p).
Proof. intros Hl a Ha. gunfold. eqb_all; subst; tauto. Qed.

Lemma frame_hrotR (S : loc -> Prop) h y x :
  S x -> S y -> frame S h (hrotR h y x).
Proof.
  intros Hx Hy a Ha. unfold hrotR. gunfold. eqb_all; subst; tauto.
Qed.

Lemma frame_hrotL (S : loc -> Prop) h x y :
  S x -> S y -> frame S h (hrotL h x y).
Proof.
  intros Hx Hy a Ha. unfold hrotL. gunfold. eqb_all; subst; tauto.
Qed.

Lemma same_shape_hsetH h l z : same_shape h (hsetH h l z).
Proof. split; [reflexivity|]. intros a. gunfold. eqb_all; subst; auto. Qed.

Lemma same_shape_hsetK h l k : same_shape h (hsetK h l k).
Proof. split; [reflexivity|]. intros a. gunfold. eqb_all; subst; auto. Qed.

Lemma same_shape_hsetV h l v : same_shape h (hsetV h l v).
Proof. split; [reflexivity|]. intros a. gunfold. eqb_all; subst; auto. Qed.

Lemma edge_shape h h' a b : same_shape h h' -> edge h' a b <-> edge h a b.
Proof.
  intros (Hn & Hs). unfold edge. rewrite Hn.
  destruct (Hs a) as [-> ->]. tauto.
Qed.

Lemma closed_shape (S : loc -> Prop) h h' :
  same_shape h h' -> closed h S -> closed h' S.
Proof.
  intros Hs Hc a b Ha E. apply (edge_shape h h' a b Hs) in E. eauto.
Qed.

Lemma closed_hsetL (S : loc -> Prop) h n r :
  closed h S -> inS S r -> closed (hsetL h n r) S.
Proof.
  intros Hc Hr a b Ha. unfold edge. gunfold. intros [Hlt E].
  destruct (Nat.eq_dec a n) as [->|N]; eqb_all.
  - destruct E as [E|E]; [subst r; exact Hr|].
    eapply Hc; eauto using edge_intro_r.
  - eapply Hc; eauto. split; auto.
Qed.

Lemma closed_hsetR (S : loc -> Prop) h n r :
  closed h S -> inS S r -> closed (hsetR h n r) S.
Proof.
  intros Hc Hr a b Ha. unfold edge. gunfold. intros [Hlt E].
  destruct (Nat.eq_dec a n) as [->|N]; eqb_all.
  - destruct E as [E|E]; [|subst r; exact Hr].
    eapply Hc; eauto using edge_intro_l.
  - eapply Hc; eauto. split; auto.
Qed.

Lemma closed_hrotR (S : loc -> Prop) h y x :
  closed h S -> S y -> (y < next h)%nat -> (x < next h)%nat -> x <> y ->
  left (cells h y) = Some x ->
  closed (hrotR h y x) S.
Proof.
  intros Hc Hy Ly Lx N E.
  assert (Hx : S x) by (eapply Hc; eauto using edge_intro_l).
  destruct (hrotR_ptrs h y x N) as (Hn & X1 & X2 & Y1 & Y2 & Oth).
  intros a b Ha [Hlt Hab]. rewrite Hn in Hlt.
  destruct (Nat.eq_dec a x) as [->|Nx]; [|destruct (Nat.eq_dec a y) as [->|Ny]].
  - rewrite X1, X2 in Hab. destruct Hab as [Hab|Hab].
    + eapply Hc; eauto using edge_intro_l.
    + now injection Hab as <-.
  - rewrite Y1, Y2 in Hab. destruct Hab as [Hab|Hab].
    + eapply (Hc x); eauto using edge_intro_r.
    + eapply (Hc y); eauto using edge_intro_r.
  - rewrite Oth in Hab by assumption. eapply Hc; eauto. split; auto.
Qed.

Lemma closed_hrotL (S : loc -> Prop) h x y :
  closed h S -> S x -> (x < next h)%nat -> (y < next h)%nat -> x <> y ->
  right (cells h x) = Some y ->
  closed (hrotL h x y) S.
Proof.
  intros Hc Hx Lx Ly N E.
  assert (Hy : S y) by (eapply Hc; eauto using edge_intro_r).
  destruct (hrotL_ptrs h x y N) as (Hn & Y1 & Y2 & X1 & X2 & Oth).
  intros a b Ha [Hlt Hab]. rewrite Hn in Hlt.
  destruct (Nat.eq_dec a y) as [->|Ny]; [|destruct (Nat.eq_dec a x) as [->|Nx]].
  - rewrite Y1, Y2 in Hab. destruct Hab as [Hab|Hab].
    + now injection Hab as <-.
    + eapply Hc; eauto using edge_intro_r.
  - rewrite X1, X2 in Hab. destruct Hab as [Hab|Hab].
    + eapply (Hc x); eauto using edge_intro_l.
    + eapply (Hc y); eauto using edge_intro_l.
  - rewrite Oth in Hab by assumption. eapply Hc; eauto. split; auto.
Qed.

(** *** Rebalancing *)

Lemma rotR_spec h n x :
  WF h -> (n < next h)%nat -> left (cells h n) = Some x ->
  rotateRight (Some n) h = Done (Some x) (hrotR h n x)
  /\ bal_post h n x (hrotR h n x).
Proof.
  intros HW Hn E.
  assert (Enx : edge h n x) by (split; auto).
  assert (Hx : (x < next h)%nat) by (eapply WF_valid; eauto).
  assert (N : x <> n) by (intros ->; eapply WF_self; eauto).
  destruct (hrotR_ptrs h n x N) as (Hnx & X1 & X2 & Y1 & Y2 & Oth).
  split; [now apply rotateRight_eq|].
  split; [now apply WF_hrotR|]. split; [assumption|]. split; [assumption|].
  split.
  - right. split; [now rewrite Hnx|]. right. exact X2.
  - intros S Hc HS.
    assert (Sx : S x) by (eapply Hc; eauto).
    split; [now apply frame_hrotR|]. split; [|assumption].
    now apply closed_hrotR.
Qed.

Lemma rotL_spec h n y :
  WF h -> (n < next h)%nat -> right (cells h n) = Some y ->
  rotateLeft (Some n) h = Done (Some y) (hrotL h n y)
  /\ bal_post h n y (hrotL h n y).
Proof.
  intros HW Hn E.
  assert (Eny : edge h n y) by (split; auto).
  assert (Hy : (y < next h)%nat) by (eapply WF_valid; eauto).
  assert (N : n <> y) by (intros ->; eapply WF_self; eauto).
  destruct (hrotL_ptrs h n y N) as (Hnx & Y1 & Y2 & X1 & X2 & Oth).
  split; [now apply rotateLeft_eq|].
  split; [now apply WF_hrotL|]. split; [assumption|]. split; [assumption|].
  split.
  - right. split; [now rewrite Hnx|]. left. exact Y2.
  - intros S Hc HS.
    assert (Sy : S y) by (eapply Hc; eauto).
    split; [now apply frame_hrotL|]. split; [|assumption].
    now apply closed_hrotL.
Qed.

(** Left child rotated left, then the node rotated right. *)
Lemma rotLR_spec h n x m :
  WF h -> (n < next h)%nat ->
  left (cells h n) = Some x -> right (cells h x) = Some m ->
  exists h',
    (l' <~ rotateLeft (Some x) ;; setLeft n l' ;;; rotateRight (Some n)) h
    = Done (Some m) h'
    /\ bal_post h n m h'.
Proof.
  intros HW Hn En Ex.
  assert (Enx : edge h n x) by (split; auto).
  assert (Hx : (x < next h)%nat) by (eapply WF_valid; eauto).
  assert (Exm : edge h x m) by (split; auto).
  assert (Hm : (m < next h)%nat) by (eapply WF_valid; eauto).
  assert (Nnx : n <> x) by (intros ->; eapply WF_self; eauto).
  assert (Nxm : x <> m) by (intros ->; eapply WF_self; eauto).
  assert (Nnm : n <> m) by (intros ->; eapply WF_anti; eauto).
  destruct (rotL_spec h x m HW Hx Ex) as (E1 & W2 & N2 & _ & _ & F2).
  destruct (hrotL_ptrs h x m Nxm) as (_ & M1 & M2 & X1 & X2 & Oth2).
  set (h2 := hrotL h x m) in *.
  set (h3 := hsetL h2 n (Some m)).
  assert (Ln2 : left (cells h2 n) = Some x).
  { rewrite Oth2 by congruence. exact En. }
  assert (W3 : WF h3).
  { apply WF_rebindL; try assumption.
    - congruence.
    - right. right. exists m. split; [reflexivity|]. left.
      exists x. split; [assumption|]. left. split; [assumption|].
      left. exact M2. }
  assert (Ln3 : left (cells h3 n) = Some m).
  { subst h3. gunfold. now rewrite Nat.eqb_refl. }
  assert (N3 : next h3 = next h) by (subst h3; simpl; assumption).
  assert (Hn3 : (n < next h3)%nat) by now rewrite N3.
  destruct (rotR_spec h3 n m W3 Hn3 Ln3) as (E4 & W4 & N4 & _ & Hedge & F4).
  exists (hrotR h3 n m). split.
  { unfold hbind at 1. rewrite E1. unfold hbind at 1.
    unfold setLeft, hbind, load, store. fold (hsetL h2 n (Some m)).
    exact E4. }
  split; [assumption|]. split; [congruence|]. split; [assumption|].
  split.
  - destruct Hedge as [Hedge|Hedge]; [congruence|]. now right.
  - intros S Hc HS.
    assert (Sx : S x) by (eapply Hc; eauto).
    destruct (F2 S Hc Sx) as (Fr2 & C2 & Sm).
    assert (C3 : closed h3 S) by now apply closed_hsetL.
    destruct (F4 S C3 HS) as (Fr4 & C4 & _).
    split; [|split; assumption].
    eapply frame_trans; [exact Fr2|].
    eapply frame_trans; [|exact Fr4].
    now apply frame_hsetL.
Qed.

(** Right child rotated right, then the node rotated left. *)
Lemma rotRL_spec h n y m :
  WF h -> (n < next h)%nat ->
  right (cells h n) = Some y -> left (cells h y) = Some m ->
  exists h',
    (r' <~ rotateRight (Some y) ;; setRight n r' ;;; rotateLeft (Some n)) h
    = Done (Some m) h'
    /\ bal_post h n m h'.
Proof.
  intros HW Hn En Ey.
  assert (Eny : edge h n y) by (split; auto).
  assert (Hy : (y < next h)%nat) by (eapply WF_valid; eauto).
  assert (Eym : edge h y m) by (split; auto).
  assert (Hm : (m < next h)%nat) by (eapply WF_valid; eauto).
  assert (Nny : n <> y) by (intros ->; eapply WF_self; eauto).
  assert (Nym : m <> y) by (intros ->; eapply WF_self; eauto).
  assert (Nnm : n <> m) by (intros ->; eapply WF_anti; eauto).
  destruct (rotR_spec h y m HW Hy Ey) as (E1 & W2 & N2 & _ & _ & F2).
  destruct (hrotR_ptrs h y m Nym) as (_ & M1 & M2 & Y1 & Y2 & Oth2).
  set (h2 := hrotR h y m) in *.
  set (h3 := hsetR h2 n (Some m)).
  assert (Rn2 : right (cells h2 n) = Some y).
  { rewrite Oth2 by congruence. exact En. }
  assert (W3 : WF h3).
  { apply WF_rebindR; try assumption.
    - congruence.
    - right. right. exists m. split; [reflexivity|]. left.
      exists y. split; [assumption|]. left. split; [assumption|].
      right. exact M2. }
  assert (Rn3 : right (cells h3 n) = Some m).
  { subst h3. gunfold. now rewrite Nat.eqb_refl. }
  assert (N3 : next h3 = next h) by (subst h3; simpl; assumption).
  assert (Hn3 : (n < next h3)%nat) by now rewrite N3.
  destruct (rotL_spec h3 n m W3 Hn3 Rn3) as (E4 & W4 & N4 & _ & Hedge & F4).
  exists (hrotL h3 n m). split.
  { unfold hbind at 1. rewrite E1. unfold hbind at 1.
    unfold setRight, hbind, load, store. fold (hsetR h2 n (Some m)).
    exact E4. }
  split; [assumption|]. split; [congruence|]. split; [assumption|].
  split.
  - destruct Hedge as [Hedge|Hedge]; [congruence|]. now right.
  - intros S Hc HS.
    assert (Sy : S y) by (eapply Hc; eauto).
    destruct (F2 S Hc Sy) as (Fr2 & C2 & Sm).
    assert (C3 : closed h3 S) by now apply closed_hsetR.
    destruct (F4 S C3 HS) as (Fr4 & C4 & _).
    split; [|split; assumption].
    eapply frame_trans; [exact Fr2|].
    eapply frame_trans; [|exact Fr4].
    now apply frame_hsetR.
Qed.

Lemma balance_unfold h n :
  balance (Some n) h
  = let h1 := hsetH h n (newHeight h n) in
    let b := bf h1 (Some n) in
    let lc := left (cells h1 n) in
    let rc := right (cells h1 n) in
    if (b >? 1) && (bf h1 lc >=? 0) then rotateRight (Some n) h1
    else if (b >? 1) && (bf h1 lc <? 0) then
      (l' <~ rotateLeft lc ;; setLeft n l' ;;; rotateRight (Some n)) h1
    else if (b <? -1) && (bf h1 rc <=? 0) then rotateLeft (Some n) h1
    else if (b <? -1) && (bf h1 rc >? 0) then
      (r' <~ rotateRight rc ;; setRight n r' ;;; rotateLeft (Some n)) h1
    else Done (Some n) h1.
Proof.
  unfold balance. unfold hbind at 1. rewrite updateHeight_eq.
  unfold hbind at 1. rewrite balanceFactor_eq.
  unfold hbind at 1. unfold load at 1.
  unfold hbind at 1. rewrite balanceFactor_eq.
  unfold hbind at 1. rewrite balanceFactor_eq.
  cbv zeta.
  repeat match goal with
  | |- context [if ?c then _ else _] => destruct c
  end; reflexivity.
Qed.

Lemma bal_post_pre h h1 n r h' :
  same_shape h h1 -> (forall S : loc -> Prop, S n -> frame S h h1) ->
  bal_post h1 n r h' -> bal_post h n r h'.
Proof.
  intros Hs Hf (W & Hn & Hr & He & HS).
  pose proof Hs as (En & _).
  split; [assumption|]. split; [congruence|]. split; [congruence|].
  split; [assumption|].
  intros S Hc Sn.
  destruct (HS S (closed_shape S h h1 Hs Hc) Sn) as (F & C & Sr).
  split; [|split; assumption].
  eapply frame_trans; [apply Hf; assumption|exact F].
Qed.

Lemma balance_spec h n :
  WF h -> (n < next h)%nat ->
  exists r h', balance (Some n) h = Done (Some r) h' /\ bal_post h n r h'.
Proof.
  intros HW Hn. rewrite balance_unfold. cbv zeta.
  set (h1 := hsetH h n (newHeight h n)).
  assert (W1 : WF h1) by (apply WF_hsetH; auto using newHeight_pos).
  assert (Sh : same_shape h h1) by apply same_shape_hsetH.
  assert (Fr : forall S : loc -> Prop, S n -> frame S h h1).
  { intros S Sn. now apply frame_hsetH. }
  assert (Hn1 : (n < next h1)%nat) by exact Hn.
  pose proof (gh_nonneg h1 _ W1 (pvalid_left h1 n W1 Hn1)) as Pl.
  pose proof (gh_nonneg h1 _ W1 (pvalid_right h1 n W1 Hn1)) as Pr.
  assert (Hb : bf h1 (Some n)
               = gh h1 (left (cells h1 n)) - gh h1 (right (cells h1 n)))
    by reflexivity.
  rewrite !Z.gtb_ltb, !Z.geb_leb.
  destruct (Z.ltb_spec 1 (bf h1 (Some n))) as [B1|B1]; cbn [andb].
  - (* left-heavy *)
    destruct (gh_pos_some h1 (left (cells h1 n))) as (x & Ex); [lia|].
    rewrite Ex.
    assert (Hx : (x < next h1)%nat).
    { eapply WF_valid; eauto using edge_intro_l. }
    destruct (Z.leb_spec 0 (bf h1 (Some x))) as [B2|B2].
    + destruct (rotR_spec h1 n x W1 Hn1 Ex) as (E & P).
      exists x, (hrotR h1 n x). split; [exact E|].
      eapply bal_post_pre; eauto.
    + destruct (Z.ltb_spec (bf h1 (Some x)) 0) as [B3|B3]; [|lia].
      pose proof (gh_nonneg h1 _ W1 (pvalid_left h1 x W1 Hx)).
      destruct (gh_pos_some h1 (right (cells h1 x))) as (m & Em).
      { unfold bf in B3. lia. }
      destruct (rotLR_spec h1 n x m W1 Hn1 Ex Em) as (h' & E & P).
      exists m, h'. split; [exact E|].
      eapply bal_post_pre; eauto.
  - destruct (Z.ltb_spec (bf h1 (Some n)) (-1)) as [B4|B4]; cbn [andb].
    + (* right-heavy *)
      destruct (gh_pos_some h1 (right (cells h1 n))) as (y & Ey); [lia|].
      rewrite Ey.
      assert (Hy : (y < next h1)%nat).
      { eapply WF_valid; eauto using edge_intro_r. }
      destruct (Z.leb_spec (bf h1 (Some y)) 0) as [B2|B2].
      * destruct (rotL_spec h1 n y W1 Hn1 Ey) as (E & P).
        exists y, (hrotL h1 n y). split; [exact E|].
        eapply bal_post_pre; eauto.
      * destruct (Z.ltb_spec 0 (bf h1 (Some y))) as [B3|B3]; [|lia].
        pose proof (gh_nonneg h1 _ W1 (pvalid_right h1 y W1 Hy)).
        destruct (gh_pos_some h1 (left (cells h1 y))) as (m & Em).
        { unfold bf in B3. lia. }
        destruct (rotRL_spec h1 n y m W1 Hn1 Ey Em) as (h' & E & P).
        exists m, h'. split; [exact E|].
        eapply bal_post_pre; eauto.
    + (* balanced *)
      exists n, h1. split; [reflexivity|].
      split; [assumption|]. split; [reflexivity|]. split; [assumption|].
      split; [now left|].
      intros S Hc Sn. split; [now apply Fr|].
      split; [eapply closed_shape; eauto|assumption].
Qed.

End Ops.

Section Recursive.
Context {V : Type} {RT : Runtime}.
Implicit Types (h : heap V) (p r c : ptr) (a b l n x y : loc).

Lemma closed_below h p : closed h (below h p).
Proof.
  destruct p as [l|]; simpl; intros a b Ha E; [|exact Ha].
  eapply reach_snoc; eauto.
Qed.

Lemma inS_below h p : inS (below h p) p.
Proof. destruct p; simpl; [apply reach_refl|exact I]. Qed.

Lemma closed_ext (S : loc -> Prop) h h0 :
  (next h <= next h0)%nat -> valid h ->
  closed h S -> closed h (ext S h0).
Proof.
  intros Hle Hv Hc a b [Ha|Ha] E; [left; eauto|].
  destruct E as [Hlt _]. unfold ext. lia.
Qed.

Lemma not_below_parent h n c :
  WF h -> (n < next h)%nat ->
  (left (cells h n) = c \/ right (cells h n) = c) ->
  ~ ext (below h c) h n.
Proof.
  intros HW Hn Hc [Hb|Hb]; [|lia].
  destruct c as [cl|]; simpl in Hb; [|exact Hb].
  eapply (WF_acyclic h n cl); eauto. split; [assumption|tauto].
Qed.

Lemma inS_child (S : loc -> Prop) h n c :
  closed h S -> S n -> (n < next h)%nat ->
  (left (cells h n) = c \/ right (cells h n) = c) -> inS S c.
Proof.
  intros Hc Sn Hn E. destruct c as [cl|]; simpl; [|exact I].
  eapply Hc; eauto. split; [assumption|tauto].
Qed.

(** *** Allocation *)
Lemma WF_halloc h k v :
  WF h -> WF (halloc h k v) /\ isolated (halloc h k v) (next h).
Proof.
  intros HW. pose proof HW as (Hv & Hh & (Hpar & Hanti) & HF).
  assert (Ech : forall a b, edge (halloc h k v) a b -> edge h a b).
  { intros a b. unfold edge, halloc, upd. cbn [cells next].
    intros [Ha E]. destruct (Nat.eqb_spec a (next h)) as [->|N].
    - simpl in E. destruct E; discriminate.
    - split; [lia|assumption]. }
  split.
  - split; [|split; [|split; [split|]]].
    + intros a b E. apply Ech in E. apply Hv in E. simpl. lia.
    + intros a Ha. unfold halloc, upd in *. cbn [cells next] in *.
      destruct (Nat.eqb_spec a (next h)); [simpl; lia|].
      apply Hh. lia.
    + intros a b Ha. unfold halloc, upd in *. cbn [cells next] in *.
      destruct (Nat.eqb_spec a (next h)); [discriminate|].
      apply Hpar. lia.
    + intros a b E1 E2. apply Ech in E1, E2. eauto.
    + eapply forest_sub; [|exact HF]. exact Ech.
  - intros a b E. apply Ech in E. pose proof (Hv _ _ E).
    destruct E as [Ha _]. lia.
Qed.

(** *** Storing the result of a recursive call and rebalancing *)
Lemma step_left h0 h1 n r :
  WF h0 -> (n < next h0)%nat ->
  mut_post h0 (left (cells h0 n)) r h1 ->
  exists (r3 : loc) h3,
    (setLeft n r ;;; balance (Some n)) h1 = Done (Some r3) h3
    /\ mut_post h0 (Some n) (Some r3) h3.
Proof.
  intros W0 Hn (W1 & Hle & Hpr & Hrel & HS).
  set (c := left (cells h0 n)) in *.
  destruct (HS (below h0 c) (closed_below h0 c) (inS_below h0 c))
    as (Fb & _ & Rb).
  assert (Nn : ~ ext (below h0 c) h0 n).
  { apply not_below_parent; auto. }
  assert (Cn : cells h1 n = cells h0 n) by (apply Fb; exact Nn).
  assert (Rn : r <> Some n) by (intros ->; exact (Nn Rb)).
  assert (Hn1 : (n < next h1)%nat) by lia.
  assert (W2 : WF (hsetL h1 n r)).
  { apply WF_rebindL; try assumption. rewrite Cn. exact Hrel. }
  set (h2 := hsetL h1 n r) in *.
  destruct (balance_spec h2 n W2 Hn1)
    as (r3 & h3 & E3 & W3 & N3 & Hr3 & He3 & HS3).
  exists r3, h3. split.
  { unfold hbind at 1. unfold setLeft, hbind, load, store.
    fold (hsetL h1 n r). exact E3. }
  split; [assumption|].
  split; [rewrite N3; exact Hle|].
  split; [simpl; rewrite N3; exact Hr3|].
  split.
  { destruct He3 as [->|He3]; [now left|].
    right. right. exists r3. split; [reflexivity|]. left.
    exists n. split; [reflexivity|]. now left. }
  intros S Hc Sn. simpl in Sn.
  assert (Sc : inS S c) by (eapply inS_child; eauto).
  destruct (HS S Hc Sc) as (F1 & C1 & R1).
  assert (En : ext S h0 n) by now left.
  assert (C2 : closed h2 (ext S h0)) by now apply closed_hsetL.
  destruct (HS3 (ext S h0) C2 En) as (F3 & C3 & R3).
  split; [|split; assumption].
  eapply frame_trans; [exact F1|].
  eapply frame_trans; [|exact F3].
  now apply frame_hsetL.
Qed.

Lemma step_right h0 h1 n r :
  WF h0 -> (n < next h0)%nat ->
  mut_post h0 (right (cells h0 n)) r h1 ->
  exists (r3 : loc) h3,
    (setRight n r ;;; balance (Some n)) h1 = Done (Some r3) h3
    /\ mut_post h0 (Some n) (Some r3) h3.
Proof.
  intros W0 Hn (W1 & Hle & Hpr & Hrel & HS).
  set (c := right (cells h0 n)) in *.
  destruct (HS (below h0 c) (closed_below h0 c) (inS_below h0 c))
    as (Fb & _ & Rb).
  assert (Nn : ~ ext (below h0 c) h0 n).
  { apply not_below_parent; auto. }
  assert (Cn : cells h1 n = cells h0 n) by (apply Fb; exact Nn).
  assert (Rn : r <> Some n) by (intros ->; exact (Nn Rb)).
  assert (Hn1 : (n < next h1)%nat) by lia.
  assert (W2 : WF (hsetR h1 n r)).
  { apply WF_rebindR; try assumption. rewrite Cn. exact Hrel. }
  set (h2 := hsetR h1 n r) in *.
  destruct (balance_spec h2 n W2 Hn1)
    as (r3 & h3 & E3 & W3 & N3 & Hr3 & He3 & HS3).
  exists r3, h3. split.
  { unfold hbind at 1. unfold setRight, hbind, load, store.
    fold (hsetR h1 n r). exact E3. }
  split; [assumption|].
  split; [rewrite N3; exact Hle|].
  split; [simpl; rewrite N3; exact Hr3|].
  split.
  { destruct He3 as [->|He3]; [now left|].
    right. right. exists r3. split; [reflexivity|]. left.
    exists n. split; [reflexivity|]. now left. }
  intros S Hc Sn. simpl in Sn.
  assert (Sc : inS S c) by (eapply inS_child; eauto).
  destruct (HS S Hc Sc) as (F1 & C1 & R1).
  assert (En : ext S h0 n) by now left.
  assert (C2 : closed h2 (ext S h0)) by now apply closed_hsetR.
  destruct (HS3 (ext S h0) C2 En) as (F3 & C3 & R3).
  split; [|split; assumption].
  eapply frame_trans; [exact F1|].
  eapply frame_trans; [|exact F3].
  now apply frame_hsetR.
Qed.

(** *** Unfolding the monad *)
Lemma hbind_eq {A B : Type} (m : M V A) (f : A -> M V B) h :
  hbind m f h =
  match m h with
  | Done a h' => f a h'
  | Fail e => Fail e
  | OutOfFuel => OutOfFuel
  end.
Proof. reflexivity. Qed.

Lemma hbind_load {B : Type} l (f : cell -> M V B) h :
  hbind (load (Some l)) f h = f (cells h l) h.
Proof. reflexivity. Qed.

Lemma dbound_inv h n f :
  dbound h (Some n) f ->
  exists f', f = S f' /\ dbound h (left (cells h n)) f'
             /\ dbound h (right (cells h n)) f'.
Proof. inversion 1; subst; eauto. Qed.

Lemma same_shape_trans h1 h2 h3 :
  same_shape h1 h2 -> same_shape h2 h3 -> same_shape h1 h3.
Proof.
  intros (N1 & S1) (N2 & S2). split; [congruence|].
  intros l. destruct (S1 l), (S2 l). split; congruence.
Qed.

Lemma inS_ext (S : loc -> Prop) h p : inS S p -> inS (ext S h) p.
Proof. destruct p; simpl; [now left|trivial]. Qed.

(** *** Results that leave the store alone *)
Lemma mut_post_same h n :
  WF h -> (n < next h)%nat -> mut_post h (Some n) (Some n) h.
Proof.
  intros W Hn. split; [assumption|]. split; [lia|].
  split; [exact Hn|]. split; [now left|].
  intros S Hc Sn. split; [apply frame_refl|].
  split; [apply closed_ext; [lia|apply W|assumption]|].
  now apply inS_ext.
Qed.

Lemma mut_post_nil h : WF h -> mut_post h None None h.
Proof.
  intros W. split; [assumption|]. split; [lia|].
  split; [exact I|]. split; [now left|].
  intros S Hc Sn. split; [apply frame_refl|].
  split; [apply closed_ext; [lia|apply W|assumption]|exact I].
Qed.

Lemma mut_post_child h n c :
  WF h -> (n < next h)%nat ->
  (left (cells h n) = c \/ right (cells h n) = c) ->
  mut_post h (Some n) c h.
Proof.
  intros W Hn Hc. split; [assumption|]. split; [lia|].
  split.
  { destruct Hc as [<-|<-]; [now apply pvalid_left|now apply pvalid_right]. }
  split.
  { destruct c as [cl|]; [|right; now left].
    right. right. exists cl. split; [reflexivity|]. left.
    exists n. split; [reflexivity|]. right. split; [assumption|tauto]. }
  intros S HS Sn. split; [apply frame_refl|].
  split; [apply closed_ext; [lia|apply W|assumption]|].
  apply inS_ext. eapply inS_child; eauto.
Qed.

Lemma mut_post_pre h hm n r h' :
  same_shape h hm -> (forall l, l <> n -> cells hm l = cells h l) ->
  mut_post hm (Some n) r h' -> mut_post h (Some n) r h'.
Proof.
  intros Hs Hf (W & Hle & Hp & Hrel & HS).
  pose proof Hs as (En & _).
  split; [assumption|]. split; [lia|]. split; [assumption|].
  split; [assumption|].
  intros S Hc Sn.
  destruct (HS S (closed_shape S h hm Hs Hc) Sn) as (F & C & Sr).
  unfold ext in *. rewrite En in *.
  split; [|split; assumption].
  intros l Hl. rewrite (F l Hl). apply Hf.
  intros ->. apply Hl. left. exact Sn.
Qed.

Lemma mut_post_alloc h k v :
  WF h -> mut_post h None (Some (next h)) (halloc h k v).
Proof.
  intros W. destruct (WF_halloc h k v W) as (W' & Hiso).
  split; [assumption|]. split; [simpl; lia|].
  split; [simpl; lia|].
  split.
  { right. right. exists (next h). split; [reflexivity|]. right. tauto. }
  intros S Hc _. split; [|split].
  - intros l Hl. unfold halloc, upd. cbn [cells].
    destruct (Nat.eqb_spec l (next h)) as [->|N]; [|reflexivity].
    exfalso. apply Hl. right. lia.
  - intros a b Ha E.
    assert (E' : edge h a b).
    { revert E. unfold edge, halloc, upd. cbn [cells next].
      intros [Hlt E]. destruct (Nat.eqb_spec a (next h)) as [->|N].
      - simpl in E. destruct E; discriminate.
      - split; [lia|assumption]. }
    destruct Ha as [Ha|Ha]; [left; eauto|].
    destruct E' as [Hlt _]. lia.
  - right. lia.
Qed.

(** *** insert *)
Lemma append_cells (sl : slice) (v : V) h :
  exists sl' h1,
    append sl v h = Done sl' h1 /\ cells h1 = cells h /\ next h1 = next h.
Proof. unfold append. destruct (slen sl <? scap sl)%nat; eauto. Qed.

Lemma same_shape_cells h h1 :
  cells h1 = cells h -> next h1 = next h -> same_shape h h1.
Proof. intros Ec En. split; [exact En|]. intros l. now rewrite Ec. Qed.

Lemma WF_cells h h1 :
  cells h1 = cells h -> next h1 = next h -> WF h -> WF h1.
Proof.
  intros Ec En W. apply (WF_shape h); [now apply same_shape_cells| |exact W].
  destruct W as (_ & Hh & _). intros a Ha. rewrite Ec. apply Hh. lia.
Qed.

Lemma insert_spec fuel : forall k v p h,
  WF h -> pvalid h p ->
  outcome_ok (insert fuel k v p h) fuel h p (mut_post h p).
Proof.
  induction fuel as [|fuel IH]; intros k v p h W Hp.
  { simpl. intros f _. lia. }
  destruct p as [n|].
  2:{ simpl. apply (mut_post_alloc h k v W). }
  simpl in Hp. cbn [insert]. rewrite hbind_load.
  destruct (k <? key (cells h n)).
  { rewrite hbind_eq.
    pose proof (IH k v (left (cells h n)) h W (pvalid_left h n W Hp)) as IHl.
    destruct (insert fuel k v (left (cells h n)) h) as [r h1|e|];
      simpl in IHl.
    - destruct (step_left h h1 n r W Hp IHl) as (r3 & h3 & E & MP).
      cbv beta. rewrite E. exact MP.
    - contradiction.
    - intros f Hd. apply dbound_inv in Hd as (f' & -> & Hl & Hr).
      specialize (IHl f' Hl). lia. }
  destruct (k >? key (cells h n)).
  { rewrite hbind_eq.
    pose proof (IH k v (right (cells h n)) h W (pvalid_right h n W Hp)) as IHr.
    destruct (insert fuel k v (right (cells h n)) h) as [r h1|e|];
      simpl in IHr.
    - destruct (step_right h h1 n r W Hp IHr) as (r3 & h3 & E & MP).
      cbv beta. rewrite E. exact MP.
    - contradiction.
    - intros f Hd. apply dbound_inv in Hd as (f' & -> & Hl & Hr).
      specialize (IHr f' Hr). lia. }
  rewrite hbind_eq.
  destruct (append_cells (value (cells h n)) v h) as (sl & h1 & -> & Ec & En).
  change (mut_post h (Some n) (Some n) (hsetV h1 n sl)).
  apply (mut_post_pre h (hsetV h1 n sl) n).
  - apply (same_shape_trans h h1); [now apply same_shape_cells|].
    apply same_shape_hsetV.
  - intros l Hl. unfold hsetV, upd. cbn [cells]. rewrite Ec.
    destruct (Nat.eqb_spec l n); [contradiction|reflexivity].
  - apply mut_post_same; [apply WF_hsetV; now apply (WF_cells h)|].
    unfold hsetV. cbn [next]. lia.
Qed.

(** *** minValueNode *)
Lemma minValueNode_spec fuel : forall l h,
  WF h -> (l < next h)%nat ->
  outcome_ok (minValueNode fuel (Some l) h) fuel h (Some l)
    (fun r h' => h' = h /\ exists t, r = Some t /\ (t < next h)%nat).
Proof.
  induction fuel as [|fuel IH]; intros l h W Hl.
  { simpl. intros f _. lia. }
  cbn [minValueNode]. rewrite hbind_load.
  destruct (left (cells h l)) as [l'|] eqn:E.
  - assert (Hl' : (l' < next h)%nat).
    { apply (WF_valid h l l' W). split; [assumption|now left]. }
    pose proof (IH l' h W Hl') as IHl.
    destruct (minValueNode fuel (Some l') h) as [r h1|e|]; simpl in *.
    + exact IHl.
    + contradiction.
    + intros f Hd. apply dbound_inv in Hd as (f' & -> & Hd & _).
      rewrite E in Hd. specialize (IHl f' Hd). lia.
  - simpl. split; [reflexivity|]. eauto.
Qed.

(** *** delete *)
Lemma delete_two_tail fuel n t h :
  (ct <~ load (Some t) ;;
   setKey n (key ct) ;;;
   ct' <~ load (Some t) ;;
   setValue n (value ct') ;;;
   c' <~ load (Some n) ;;
   ct'' <~ load (Some t) ;;
   r' <~ delete fuel (key ct'') (right c') ;;
   setRight n r' ;;;
   balance (Some n)) h
  = let hK := hsetK h n (key (cells h t)) in
    let hKV := hsetV hK n (value (cells hK t)) in
    (r' <~ delete fuel (key (cells hKV t)) (right (cells hKV n)) ;;
     setRight n r' ;;;
     balance (Some n)) hKV.
Proof. reflexivity. Qed.

Lemma delete_spec fuel : forall k p h,
  WF h -> pvalid h p ->
  outcome_ok (delete fuel k p h) fuel h p (mut_post h p).
Proof.
  induction fuel as [|fuel IH]; intros k p h W Hp.
  { simpl. intros f _. lia. }
  destruct p as [n|].
  2:{ simpl. apply (mut_post_nil h W). }
  simpl in Hp. cbn [delete]. rewrite hbind_load.
  destruct (k <? key (cells h n)).
  { rewrite hbind_eq.
    pose proof (IH k (left (cells h n)) h W (pvalid_left h n W Hp)) as IHl.
    destruct (delete fuel k (left (cells h n)) h) as [r h1|e|];
      simpl in IHl.
    - destruct (step_left h h1 n r W Hp IHl) as (r3 & h3 & E & MP).
      cbv beta. rewrite E. exact MP.
    - contradiction.
    - intros f Hd. apply dbound_inv in Hd as (f' & -> & Hl & Hr).
      specialize (IHl f' Hl). lia. }
  destruct (k >? key (cells h n)).
  { rewrite hbind_eq.
    pose proof (IH k (right (cells h n)) h W (pvalid_right h n W Hp)) as IHr.
    destruct (delete fuel k (right (cells h n)) h) as [r h1|e|];
      simpl in IHr.
    - destruct (step_right h h1 n r W Hp IHr) as (r3 & h3 & E & MP).
      cbv beta. rewrite E. exact MP.
    - contradiction.
    - intros f Hd. apply dbound_inv in Hd as (f' & -> & Hl & Hr).
      specialize (IHr f' Hr). lia. }
  destruct (left (cells h n)) as [a|] eqn:EL.
  2:{ simpl. apply mut_post_child; auto. }
  destruct (right (cells h n)) as [b|] eqn:ER.
  2:{ simpl. rewrite <- EL. apply mut_post_child; auto. }
  assert (Hb : (b < next h)%nat).
  { apply (WF_valid h n b W). split; [assumption|now right]. }
  rewrite hbind_eq.
  pose proof (minValueNode_spec fuel b h W Hb) as Hm.
  destruct (minValueNode fuel (Some b) h) as [tp hm|e|]; simpl in Hm.
  2:{ contradiction. }
  2:{ intros f Hd. apply dbound_inv in Hd as (f' & -> & Hl & Hr).
      rewrite ER in Hr. specialize (Hm f' Hr). lia. }
  destruct Hm as (-> & t & -> & Ht).
  rewrite delete_two_tail. cbv zeta.
  set (hK := hsetK h n (key (cells h t))).
  set (hKV := hsetV hK n (value (cells hK t))).
  assert (Hs : same_shape h hKV).
  { eapply same_shape_trans; [apply same_shape_hsetK|apply same_shape_hsetV]. }
  assert (WKV : WF hKV) by (apply WF_hsetV, WF_hsetK, W).
  assert (HnKV : (n < next hKV)%nat) by exact Hp.
  rewrite hbind_eq.
  pose proof (IH (key (cells hKV t)) (right (cells hKV n)) hKV WKV
                (pvalid_right hKV n WKV HnKV)) as IHr.
  destruct (delete fuel (key (cells hKV t)) (right (cells hKV n)) hKV)
    as [r h1|e|]; simpl in IHr.
  - destruct (step_right hKV h1 n r WKV HnKV IHr) as (r3 & h3 & E & MP).
    cbv beta. rewrite E. cbn [outcome_ok].
    apply (mut_post_pre h hKV n); [exact Hs| |exact MP].
    intros l Hl. unfold hKV, hK, hsetV, hsetK, upd. cbn [cells].
    destruct (Nat.eqb_spec l n); [contradiction|reflexivity].
  - contradiction.
  - intros f Hd. apply dbound_inv in Hd as (f' & -> & Hl & Hr).
    assert (Hr' : dbound hKV (right (cells hKV n)) f').
    { destruct Hs as (Hn' & Hsh). rewrite (proj2 (Hsh n)).
      apply (dbound_shape h hKV); [split; assumption|exact Hr]. }
    specialize (IHr f' Hr'). lia.
Qed.

End Recursive.

Section Queries.
Context {V : Type} {RT : Runtime}.
Implicit Types (h : heap V) (p r c : ptr) (a b l n x y : loc).

(** *** Methods that only read *)
Lemma find_spec fuel : forall k p h,
  WF h -> pvalid h p ->
  outcome_ok (find fuel k p h) fuel h p (fun _ h' => h' = h).
Proof.
  induction fuel as [|fuel IH]; intros k p h W Hp.
  { simpl. intros f _. lia. }
  destruct p as [n|]; [|reflexivity].
  simpl in Hp. cbn [find]. rewrite hbind_load.
  destruct (key (cells h n) =? k); [reflexivity|].
  destruct (k <? key (cells h n)).
  - pose proof (IH k (left (cells h n)) h W (pvalid_left h n W Hp)) as IHl.
    destruct (find fuel k (left (cells h n)) h); simpl in *; auto.
    intros f Hd. apply dbound_inv in Hd as (f' & -> & Hl & Hr).
    specialize (IHl f' Hl). lia.
  - pose proof (IH k (right (cells h n)) h W (pvalid_right h n W Hp)) as IHr.
    destruct (find fuel k (right (cells h n)) h); simpl in *; auto.
    intros f Hd. apply dbound_inv in Hd as (f' & -> & Hl & Hr).
    specialize (IHr f' Hr). lia.
Qed.

Lemma findNode_spec fuel : forall k p h,
  WF h -> pvalid h p ->
  outcome_ok (findNode fuel k p h) fuel h p
    (fun res h' => h' = h /\ pvalid h (fst res)).
Proof.
  induction fuel as [|fuel IH]; intros k p h W Hp.
  { simpl. intros f _. lia. }
  destruct p as [n|]; [|simpl; auto].
  simpl in Hp. cbn [findNode]. rewrite hbind_load.
  destruct (key (cells h n) =? k); [simpl; auto|].
  destruct (k <? key (cells h n)).
  - pose proof (IH k (left (cells h n)) h W (pvalid_left h n W Hp)) as IHl.
    destruct (findNode fuel k (left (cells h n)) h); simpl in *; auto.
    intros f Hd. apply dbound_inv in Hd as (f' & -> & Hl & Hr).
    specialize (IHl f' Hl). lia.
  - pose proof (IH k (right (cells h n)) h W (pvalid_right h n W Hp)) as IHr.
    destruct (findNode fuel k (right (cells h n)) h); simpl in *; auto.
    intros f Hd. apply dbound_inv in Hd as (f' & -> & Hl & Hr).
    specialize (IHr f' Hr). lia.
Qed.

Lemma contains_spec fuel k p h :
  WF h -> pvalid h p ->
  outcome_ok (contains fuel k p h) fuel h p (fun _ h' => h' = h).
Proof.
  intros W Hp. unfold contains. rewrite hbind_eq.
  pose proof (find_spec fuel k p h W Hp) as Hf.
  destruct (find fuel k p h); simpl in *; auto.
Qed.

Lemma getSize_spec fuel : forall p h,
  WF h -> pvalid h p ->
  outcome_ok (getSize fuel p h) fuel h p (fun _ h' => h' = h).
Proof.
  induction fuel as [|fuel IH]; intros p h W Hp.
  { simpl. intros f _. lia. }
  destruct p as [n|]; [|reflexivity].
  simpl in Hp. cbn [getSize]. rewrite hbind_load, hbind_eq.
  pose proof (IH (left (cells h n)) h W (pvalid_left h n W Hp)) as IHl.
  destruct (getSize fuel (left (cells h n)) h) as [sl h1|e|]; simpl in IHl.
  2:{ contradiction. }
  2:{ intros f Hd. apply dbound_inv in Hd as (f' & -> & Hl & Hr).
      specialize (IHl f' Hl). lia. }
  subst h1. cbv beta. rewrite hbind_eq.
  pose proof (IH (right (cells h n)) h W (pvalid_right h n W Hp)) as IHr.
  destruct (getSize fuel (right (cells h n)) h) as [sr h1|e|]; simpl in IHr.
  - subst h1. reflexivity.
  - contradiction.
  - intros f Hd. apply dbound_inv in Hd as (f' & -> & Hl & Hr).
    specialize (IHr f' Hr). lia.
Qed.

Lemma traverseString_spec fuel : forall p sb h,
  WF h -> pvalid h p ->
  outcome_ok (traverseString fuel p sb h) fuel h p (fun _ h' => h' = h).
Proof.
  induction fuel as [|fuel IH]; intros p sb h W Hp.
  { simpl. intros f _. lia. }
  destruct p as [n|]; [|reflexivity].
  simpl in Hp. cbn [traverseString]. rewrite hbind_load, hbind_eq.
  pose proof (IH (left (cells h n)) sb h W (pvalid_left h n W Hp)) as IHl.
  destruct (traverseString fuel (left (cells h n)) sb h) as [s1 h1|e|];
    simpl in IHl.
  2:{ contradiction. }
  2:{ intros f Hd. apply dbound_inv in Hd as (f' & -> & Hl & Hr).
      specialize (IHl f' Hl). lia. }
  subst h1. cbv beta. rewrite !hbind_load.
  set (sb2 := (s1 ++ _)%string).
  pose proof (IH (right (cells h n)) sb2 h W (pvalid_right h n W Hp)) as IHr.
  destruct (traverseString fuel (right (cells h n)) sb2 h) as [s2 h1|e|];
    simpl in *; auto.
  intros f Hd. apply dbound_inv in Hd as (f' & -> & Hl & Hr).
  specialize (IHr f' Hr). lia.
Qed.

Lemma nodeString_spec fuel p h :
  WF h -> pvalid h p ->
  outcome_ok (nodeString fuel p h) fuel h p (fun _ h' => h' = h).
Proof.
  intros W Hp. destruct p as [n|]; [|reflexivity].
  unfold nodeString. rewrite hbind_eq.
  pose proof (traverseString_spec fuel (Some n) "[" h W Hp) as Hf.
  destruct (traverseString fuel (Some n) "[" h); simpl in *; auto.
Qed.

Lemma min_spec fuel l h :
  WF h -> (l < next h)%nat ->
  outcome_ok ((m <~ minValueNode fuel (Some l) ;; get m) h) fuel h (Some l)
    (fun _ h' => h' = h).
Proof.
  intros W Hl. rewrite hbind_eq.
  pose proof (minValueNode_spec fuel l h W Hl) as Hm.
  destruct (minValueNode fuel (Some l) h) as [r h1|e|]; simpl in *; auto.
  destruct Hm as (-> & t & -> & Ht). reflexivity.
Qed.

End Queries.

Section Public.
Context {V : Type} {RT : Runtime}.
Implicit Types (h : heap V) (p r c : ptr) (a b l n x y : loc)
  (s : state (V := V)).

Lemma pvalid_mono h h' p :
  (next h <= next h')%nat -> pvalid h p -> pvalid h' p.
Proof. destruct p; simpl; [lia|trivial]. Qed.

Lemma Forall_set_nth (P : ptr -> Prop) (rs : list ptr) : forall t p,
  Forall P rs -> P p -> Forall P (set_nth rs t p).
Proof.
  induction rs as [|r0 rs IH]; intros t p Hrs Hp; [constructor|].
  inversion Hrs; subst. destruct t; simpl; constructor; auto.
Qed.

Lemma root_pvalid s t root :
  state_ok s -> nth_error (roots s) t = Some root -> pvalid (hp s) root.
Proof.
  intros [_ HF] E. apply nth_error_In in E.
  rewrite Forall_forall in HF. auto.
Qed.

Lemma lift_ok {A : Type} (m : M V A) s fuel root
    (Q : A -> heap V -> Prop) (k : A -> heap V -> result_state (V := V)) :
  state_ok s -> pvalid (hp s) root ->
  outcome_ok (m (hp s)) fuel (hp s) root Q ->
  (forall (res : A) h', Q res h' -> res_ok fuel s (k res h')) ->
  res_ok fuel s (lift m s k).
Proof.
  intros [W _] Hp Ho Hk. unfold lift.
  destruct (m (hp s)) as [res h'|e|]; simpl in Ho.
  - auto.
  - contradiction.
  - simpl. apply Ho. now apply WF_dbound.
Qed.

Lemma state_ok_same s (o : list string) :
  state_ok s -> state_ok (mkState (hp s) (roots s) o).
Proof. intros [W F]. split; assumption. Qed.

Lemma state_ok_mut s t root r h' :
  state_ok s -> mut_post (hp s) root r h' ->
  state_ok (mkState h' (set_nth (roots s) t r) (out s)).
Proof.
  intros [W F] (W' & Hle & Hr & _). split; [exact W'|]. simpl.
  apply Forall_set_nth; [|exact Hr].
  eapply Forall_impl; [|exact F].
  intros p. now apply pvalid_mono.
Qed.

Lemma length_set_nth (rs : list ptr) : forall t p,
  List.length (set_nth rs t p) = List.length rs.
Proof.
  induction rs as [|r0 rs IH]; intros t p; [reflexivity|].
  destruct t; simpl; [reflexivity|]. now rewrite IH.
Qed.

(** Every public call, made through the address of an object, on a state
    that satisfies the invariant. *)
Lemma run_ok fuel (c : call (V := V)) s :
  state_ok s -> live s c -> res_ok fuel s (run fuel c s).
Proof.
  intros Hs Ht.
  assert (Hroot : forall t, handle_of c = Some t ->
            exists i root, t = Some i /\ nth_error (roots s) i = Some root
                           /\ pvalid (hp s) root).
  { intros t E. unfold live in Ht. rewrite E in Ht.
    destruct t as [i|]; [|contradiction].
    destruct (nth_error (roots s) i) as [root|] eqn:En.
    - exists i, root. split; [reflexivity|]. split; [exact En|].
      eapply root_pvalid; eauto.
    - apply nth_error_None in En. lia. }
  clear Ht.
  destruct c as [|t k v|t k|t|t|t|t k|t k|t|t|t k]; simpl in Hroot;
    try (destruct (Hroot t eq_refl) as (i & root & -> & En & Hp);
         clear Hroot);
    unfold run, root_of; try rewrite En.
  - (* New *)
    destruct Hs as [W F]. split; [exact W|]. simpl.
    apply Forall_app. split; [exact F|]. constructor; [exact I|constructor].
  - (* Insert *)
    eapply lift_ok; [exact Hs|exact Hp| |].
    + apply insert_spec; [apply Hs|exact Hp].
    + intros r h' MP. simpl. eapply state_ok_mut; eauto.
  - (* Delete *)
    destruct root as [n|]; [|exact Hs].
    eapply lift_ok; [exact Hs|exact Hp| |].
    + apply delete_spec; [apply Hs|exact Hp].
    + intros r h' MP. simpl. eapply state_ok_mut; eauto.
  - (* Height *)
    destruct root as [n|]; [|exact Hs].
    unfold lift. rewrite getHeight_eq. simpl.
    destruct s; exact Hs.
  - (* Size *)
    destruct root as [n|]; [|exact Hs].
    eapply lift_ok; [exact Hs|exact Hp| |].
    + apply getSize_spec; [apply Hs|exact Hp].
    + intros z h' ->. simpl. destruct s; exact Hs.
  - (* Min *)
    destruct root as [n|]; [|exact Hs].
    eapply lift_ok; [exact Hs|exact Hp| |].
    + apply min_spec; [apply Hs|exact Hp].
    + intros z h' ->. simpl. destruct s; exact Hs.
  - (* Find *)
    destruct root as [n|]; [|exact Hs].
    eapply lift_ok; [exact Hs|exact Hp| |].
    + apply find_spec; [apply Hs|exact Hp].
    + intros z h' ->. simpl. destruct s; exact Hs.
  - (* Contains *)
    destruct root as [n|]; [|exact Hs].
    eapply lift_ok; [exact Hs|exact Hp| |].
    + apply contains_spec; [apply Hs|exact Hp].
    + intros z h' ->. simpl. destruct s; exact Hs.
  - (* String *)
    destruct root as [n|]; [|exact Hs].
    eapply lift_ok; [exact Hs|exact Hp| |].
    + apply nodeString_spec; [apply Hs|exact Hp].
    + intros z h' ->. simpl. destruct s; exact Hs.
  - (* Print *)
    destruct root as [n|]; [|now apply state_ok_same].
    eapply lift_ok; [exact Hs|exact Hp| |].
    + apply nodeString_spec; [apply Hs|exact Hp].
    + intros z h' ->. simpl. now apply state_ok_same.
  - (* SubTreeFromKey *)
    destruct root as [n|]; [|exact Hs].
    eapply lift_ok; [exact Hs|exact Hp| |].
    + apply findNode_spec; [apply Hs|exact Hp].
    + intros [[l|] [|]] h' [-> Hl]; simpl; try (destruct s; exact Hs).
      destruct Hs as [W F]. split; [exact W|]. simpl.
      apply Forall_app. split; [exact F|]. constructor; [exact Hl|constructor].
Qed.

Lemma init_ok : state_ok (init (V := V)).
Proof.
  split; [|constructor].
  split; [|split; [|split; [split|]]].
  - intros a b [Ha _]. simpl in Ha. lia.
  - intros a Ha. simpl in Ha. lia.
  - intros a b Ha. simpl in Ha. lia.
  - intros a b [Ha _]. simpl in Ha. lia.
  - exists (fun _ => None), (fun _ => 0). split.
    + intros a b [Ha _]. simpl in Ha. lia.
    + discriminate.
Qed.

(** A call that returns went through the address of an object. *)
Lemma run_live fuel (c : call (V := V)) s (rv : retval) s' :
  run fuel c s = Returned rv s' -> live s c.
Proof.
  intros E. unfold live.
  destruct c as [|t k v|t k|t|t|t|t k|t k|t|t|t k]; simpl; trivial;
    (destruct t as [i|]; [|discriminate E]);
    apply nth_error_Some; unfold run, root_of in E;
    destruct (nth_error (roots s) i); discriminate.
Qed.

Lemma reachable_ok s : reachable s -> state_ok s.
Proof.
  induction 1 as [|s fuel c rv s' _ IH E]; [apply init_ok|].
  pose proof (run_ok fuel c s IH (run_live fuel c s rv s' E)) as H.
  rewrite E in H. exact H.
Qed.

Lemma reachable_exec fuel (c : call (V := V)) s :
  reachable s -> reachable (exec fuel c s).
Proof.
  intros H. unfold exec. destruct (run fuel c s) eqn:E; try assumption.
  eapply reach_step; eauto.
Qed.

(** Every method of [Tree] reads [t.root] first, so through the nil
    handle it is a nil dereference. *)
Lemma run_nil fuel (c : call (V := V)) s :
  handle_of c = Some None -> run fuel c s = Aborted NilDeref.
Proof.
  destruct c as [|t k v|t k|t|t|t|t k|t k|t|t|t k]; simpl;
    try discriminate; intros [= ->]; reflexivity.
Qed.

(** Tree objects are never removed, [New] returns the address of an
    object, and [SubTreeFromKey] returns the address of an object
    exactly when it reports success, and the nil handle otherwise. *)
Lemma run_handles fuel (c : call (V := V)) s (rv : retval) s' :
  run fuel c s = Returned rv s' ->
  (List.length (roots s) <= List.length (roots s'))%nat
  /\ match rv with
     | RTree t => (t < List.length (roots s'))%nat
     | RSub (Some t) ok => ok = true /\ (t < List.length (roots s'))%nat
     | RSub None ok => ok = false
     | _ => True
     end.
Proof.
  intros E.
  destruct c as [|t k v|t k|t|t|t|t k|t k|t|t|t k]; unfold run, root_of in E;
    try (destruct t as [i|]; [|discriminate E];
         destruct (nth_error (roots s) i) as [root|]; [|discriminate E]).
  - injection E as <- <-. simpl. rewrite length_app. simpl. lia.
  - unfold lift in E. destruct (insert fuel k v root (hp s)); try discriminate E.
    injection E as <- <-. simpl. rewrite length_set_nth. lia.
  - destruct root as [n|].
    + unfold lift in E.
      destruct (delete fuel k (Some n) (hp s)); try discriminate E.
      injection E as <- <-. simpl. rewrite length_set_nth. lia.
    + injection E as <- <-. lia.
  - destruct root as [n|]; [|injection E as <- <-; lia].
    unfold lift in E. destruct (getHeight (Some n) (hp s)); try discriminate E.
    injection E as <- <-. simpl. lia.
  - destruct root as [n|]; [|injection E as <- <-; lia].
    unfold lift in E. destruct (getSize fuel (Some n) (hp s)); try discriminate E.
    injection E as <- <-. simpl. lia.
  - destruct root as [n|]; [|injection E as <- <-; lia].
    unfold lift in E.
    destruct ((m <~ minValueNode fuel (Some n) ;; get m) (hp s));
      try discriminate E.
    injection E as <- <-. simpl. lia.
  - destruct root as [n|]; [|injection E as <- <-; lia].
    unfold lift in E. destruct (find fuel k (Some n) (hp s)); try discriminate E.
    injection E as <- <-. simpl. lia.
  - destruct root as [n|]; [|injection E as <- <-; lia].
    unfold lift in E.
    destruct (contains fuel k (Some n) (hp s)); try discriminate E.
    injection E as <- <-. simpl. lia.
  - destruct root as [n|]; [|injection E as <- <-; lia].
    unfold lift in E.
    destruct (nodeString fuel (Some n) (hp s)); try discriminate E.
    injection E as <- <-. simpl. lia.
  - destruct root as [n|]; [|injection E as <- <-; simpl; rewrite ?length_app; simpl; lia].
    unfold lift in E.
    destruct (nodeString fuel (Some n) (hp s)); try discriminate E.
    injection E as <- <-. simpl. lia.
  - destruct root as [n|]; [|injection E as <- <-; split; [lia|reflexivity]].
    unfold lift in E.
    destruct (findNode fuel k (Some n) (hp s)) as [[[l|] [|]] h'| |];
      try discriminate E; injection E as <- <-; simpl;
      rewrite ?length_app; simpl; repeat split; try reflexivity; lia.
Qed.

End Public.

(** C7, amended.  No sequence of public operations, through any number
    of tree objects sharing nodes by [SubTreeFromKey], leads to a state
    in which a public operation called through the address of a tree
    object aborts, be it by the failure branch of [updateHeight] or by a
    nil dereference, and every such operation returns, given fuel beyond
    the number of allocated nodes.  Tree objects are never removed; the
    handle that [New] returns, and the one that [SubTreeFromKey] returns
    with a true flag, is the address of an object; with a false flag
    [SubTreeFromKey] returns the nil handle, and a method called through
    the nil handle is a nil dereference. *)
Theorem C7_public_operations_total_and_safe {V : Type} {RT : Runtime}
    (s : state (V := V)) (c : call (V := V)) :
  reachable s ->
  (live s c ->
     (forall fuel e, run fuel c s <> Aborted e)
     /\ (forall fuel, (next (hp s) < fuel)%nat ->
           exists r s', run fuel c s = Returned r s' /\ reachable s'))
  /\ (forall fuel r s', run fuel c s = Returned r s' ->
        (List.length (roots s) <= List.length (roots s'))%nat
        /\ match r with
           | RTree t => (t < List.length (roots s'))%nat
           | RSub (Some t) ok =>
               ok = true /\ (t < List.length (roots s'))%nat
           | RSub None ok => ok = false
           | _ => True
           end)
  /\ (handle_of c = Some None ->
        forall fuel, run fuel c s = Aborted NilDeref).
Proof.
  intros Hr. pose proof (reachable_ok s Hr) as Hs. split; [|split].
  - intros Ht. split.
    + intros fuel e E. pose proof (run_ok fuel c s Hs Ht) as H.
      rewrite E in H. exact H.
    + intros fuel Hf. pose proof (run_ok fuel c s Hs Ht) as H.
      destruct (run fuel c s) as [r s'| | |] eqn:E; simpl in H.
      * exists r, s'. split; [reflexivity|]. eapply reach_step; eauto.
      * contradiction.
      * lia.
      * contradiction.
  - intros fuel r s' E. exact (run_handles fuel c s r s' E).
  - intros Hn fuel. now apply run_nil.
Qed.

#[local] Existing Instance doubling.

(** The witness state really shares a node between its two objects. *)
Example aliased_state_shares_a_node :
  roots aliased_state = [Some 1%nat; Some 3%nat]
  /\ right (cells (hp aliased_state) 1%nat) = Some 2%nat
  /\ left (cells (hp aliased_state) 3%nat) = Some 2%nat.
Proof. vm_compute. repeat split. Qed.

Lemma aliased_state_reachable : reachable aliased_state.
Proof.
  unfold aliased_state. repeat apply reachable_exec. apply reach_init.
Qed.

(** C7, as stated, fails: [SubTreeFromKey] is one of the public
    operations, for a key that the tree does not hold it returns the nil
    handle, and every method called through that handle dereferences
    nil.  Here the first object of a reachable state holds the keys 10,
    20 and 30; asked for the subtree at key 99 it returns the nil
    handle, through which [Size] aborts, as every other method does. *)
Lemma C7_counterexample :
  reachable aliased_state
  /\ run 9 (CSubTreeFromKey (Some 0%nat) 99) aliased_state
     = Returned (RSub None false) aliased_state
  /\ run 9 (CSize None) aliased_state = Aborted NilDeref
  /\ (forall (fuel : nat) (c : call (V := unit)) (s : state),
        handle_of c = Some None -> run fuel c s = Aborted NilDeref).
Proof.
  split; [exact aliased_state_reachable|].
  split; [vm_compute; reflexivity|].
  split; [reflexivity|].
  intros fuel c s. apply run_nil.
Qed.

Lemma C7_witness :
  reachable aliased_state
  /\ live aliased_state (CDelete (Some 0%nat) 20)
  /\ (forall fuel e,
        run fuel (CDelete (Some 0%nat) 20) aliased_state <> Aborted e)
  /\ (forall fuel, (next (hp aliased_state) < fuel)%nat ->
        exists r s',
          run fuel (CDelete (Some 0%nat) 20) aliased_state = Returned r s'
          /\ reachable s').
Proof.
  assert (L : live aliased_state (CDelete (Some 0%nat) 20))
    by (vm_compute; lia).
  split; [exact aliased_state_reachable|]. split; [exact L|].
  exact (proj1 (C7_public_operations_total_and_safe aliased_state
                  (CDelete (Some 0%nat) 20) aliased_state_reachable) L).
Defined.

End HeapFacts.

(** * Further properties of the code *)

Module AVLMore.
Import AVL AVLFacts.

#[local] Arguments Z.add _ _ : simpl never.
#[local] Arguments Z.sub _ _ : simpl never.
#[local] Arguments Z.max _ _ : simpl never.
#[local] Arguments Z.ltb _ _ : simpl never.
#[local] Arguments Z.leb _ _ : simpl never.
#[local] Arguments Z.gtb _ _ : simpl never.
#[local] Arguments Z.geb _ _ : simpl never.
#[local] Arguments Z.eqb _ _ : simpl never.
#[local] Arguments Z.pow _ _ : simpl never.
#[local] Arguments Z.div _ _ : simpl never.

Section More.

Context {V : Type}.
Implicit Types (n l r m : node V) (k : Z) (v : list V) (t : Tree V).
Implicit Types (L M R : list (Z * list V)).

Lemma Size_root t : Size t = getSize (root t).
Proof. unfold Size. destruct (root t); reflexivity. Qed.

Lemma Find_root key t : Find key t = find key (root t).
Proof. unfold Find. destruct (root t); reflexivity. Qed.

Lemma Contains_root key t : Contains key t = snd (find key (root t)).
Proof. unfold Contains, contains. destruct (root t); reflexivity. Qed.

Lemma Inv_sorted n : Inv n -> StronglySorted Z.lt (keys n).
Proof. intros (H & _). now apply bst_sorted. Qed.

(** *** Size against height *)
Lemma hb_size_bounds n :
  hb n ->
  2 ^ (getHeight n / 2) <= getSize n + 1 <= 2 ^ getHeight n.
Proof.
  induction n as [|k v l IHl r IHr h]; intros H.
  { simpl. change (0 / 2) with 0. change (2 ^ 0) with 1. lia. }
  apply hb_node in H as (Hl & Hr & -> & Hd).
  specialize (IHl Hl). specialize (IHr Hr).
  pose proof (hb_height_nonneg _ Hl) as Nl.
  pose proof (hb_height_nonneg _ Hr) as Nr.
  cbn [getHeight getSize].
  set (hl := getHeight l) in *. set (hr := getHeight r) in *.
  set (h := 1 + Z.max hl hr).
  assert (Hh : 1 <= h) by (unfold h; lia).
  split.
  - destruct (Z.eq_dec h 1) as [E|E].
    + rewrite E. change (1 / 2) with 0. change (2 ^ 0) with 1.
      assert (0 < 2 ^ (hl / 2)) by (apply Z.pow_pos_nonneg; [lia|apply Z.div_pos; lia]).
      assert (0 < 2 ^ (hr / 2)) by (apply Z.pow_pos_nonneg; [lia|apply Z.div_pos; lia]).
      lia.
    + assert (Hq : 0 <= h / 2 - 1) by (Z.to_euclidean_division_equations; lia).
      assert (Ql : h / 2 - 1 <= hl / 2)
        by (unfold h; Z.to_euclidean_division_equations; lia).
      assert (Qr : h / 2 - 1 <= hr / 2)
        by (unfold h; Z.to_euclidean_division_equations; lia).
      assert (Pl : 2 ^ (h / 2 - 1) <= 2 ^ (hl / 2))
        by (apply Z.pow_le_mono_r; lia).
      assert (Pr : 2 ^ (h / 2 - 1) <= 2 ^ (hr / 2))
        by (apply Z.pow_le_mono_r; lia).
      assert (E2 : 2 ^ (h / 2) = 2 * 2 ^ (h / 2 - 1)).
      { replace (h / 2) with (Z.succ (h / 2 - 1)) at 1 by lia.
        now rewrite Z.pow_succ_r. }
      lia.
  - assert (Pl : 2 ^ hl <= 2 ^ (h - 1))
      by (apply Z.pow_le_mono_r; unfold h; lia).
    assert (Pr : 2 ^ hr <= 2 ^ (h - 1))
      by (apply Z.pow_le_mono_r; unfold h; lia).
    assert (E2 : 2 ^ h = 2 * 2 ^ (h - 1)).
    { replace h with (Z.succ (h - 1)) at 1 by lia.
      rewrite Z.pow_succ_r; lia. }
    lia.
Qed.

Lemma fib_SS (a : nat) : AVL.fib (S (S a)) = AVL.fib (S a) + AVL.fib a.
Proof. reflexivity. Qed.

Lemma fib_nonneg (a : nat) : 0 <= AVL.fib a /\ 0 <= AVL.fib (S a).
Proof.
  induction a as [|a [IH1 IH2]]; [simpl; lia|].
  split; [assumption|]. rewrite fib_SS. lia.
Qed.

Lemma fib_mono (a b : nat) : (a <= b)%nat -> AVL.fib a <= AVL.fib b.
Proof.
  induction 1 as [|b _ IH]; [lia|].
  destruct b as [|b]; [simpl in *; lia|].
  rewrite fib_SS. pose proof (fib_nonneg b). lia.
Qed.

Lemma hb_size_fib n :
  hb n -> AVL.fib (Z.to_nat (getHeight n) + 2) <= getSize n + 1.
Proof.
  induction n as [|k v l IHl r IHr h]; intros H.
  { simpl. lia. }
  apply hb_node in H as (Hl & Hr & -> & Hd).
  specialize (IHl Hl). specialize (IHr Hr).
  pose proof (hb_height_nonneg _ Hl) as Nl.
  pose proof (hb_height_nonneg _ Hr) as Nr.
  cbn [getHeight getSize].
  set (hl := getHeight l) in *. set (hr := getHeight r) in *.
  destruct (Z_le_gt_dec hr hl) as [Hle|Hgt].
  - replace (Z.to_nat (1 + Z.max hl hr) + 2)%nat
      with (S (S (Z.to_nat hl + 1)))%nat by lia.
    rewrite fib_SS.
    replace (S (Z.to_nat hl + 1)) with (Z.to_nat hl + 2)%nat by lia.
    assert (AVL.fib (Z.to_nat hl + 1) <= AVL.fib (Z.to_nat hr + 2))
      by (apply fib_mono; lia).
    lia.
  - replace (Z.to_nat (1 + Z.max hl hr) + 2)%nat
      with (S (S (Z.to_nat hr + 1)))%nat by lia.
    rewrite fib_SS.
    replace (S (Z.to_nat hr + 1)) with (Z.to_nat hr + 2)%nat by lia.
    assert (AVL.fib (Z.to_nat hr + 1) <= AVL.fib (Z.to_nat hl + 2))
      by (apply fib_mono; lia).
    lia.
Qed.

(** *** The leftmost node *)
Lemma sorted_head_least (x : Z) (ks : list Z) :
  StronglySorted Z.lt (x :: ks) -> forall j, In j (x :: ks) -> x <= j.
Proof.
  intros H j [<-|Hj]; [lia|].
  inversion H as [|? ? _ HF]; subst.
  rewrite Forall_forall in HF. specialize (HF j Hj). lia.
Qed.

(** *** Removing a key that is there *)
Lemma length_aremove_present key L :
  StronglySorted Z.lt (akeys L) -> In key (akeys L) ->
  S (List.length (aremove key L)) = List.length L.
Proof.
  induction L as [|[k0 v0] L IH]; simpl; intros HS Hin; [contradiction|].
  inversion HS as [|? ? HS' HF]; subst.
  destruct (Z.eqb_spec k0 key) as [->|N]; simpl.
  - rewrite aremove_notin; [reflexivity|].
    now apply gt_not_in.
  - destruct Hin as [E|Hin]; [contradiction|].
    f_equal. now apply IH.
Qed.

(** *** Inserting two different keys in either order *)
Lemma ains_comm a b (va vb : V) L :
  a <> b -> StronglySorted Z.lt (akeys L) ->
  ains a va (ains b vb L) = ains b vb (ains a va L).
Proof.
  intros Hab. induction L as [|[k0 v0] L IH]; intros HS.
  - simpl. destruct (Z.ltb_spec a b), (Z.gtb_spec a b),
      (Z.ltb_spec b a), (Z.gtb_spec b a); try lia; reflexivity.
  - inversion HS as [|? ? HS' HF]; subst. specialize (IH HS').
    cbn [ains].
    destruct (Z.ltb_spec a k0), (Z.gtb_spec a k0),
      (Z.ltb_spec b k0), (Z.gtb_spec b k0); try lia; cbn [ains];
      repeat match goal with
      | |- context [?x <? ?y] => destruct (Z.ltb_spec x y); try lia
      | |- context [?x >? ?y] => destruct (Z.gtb_spec x y); try lia
      end; try reflexivity; try (f_equal; assumption).
Qed.

(** *** findNode *)
Lemma findNode_find key n :
  match findNode key n with
  | (Node k v l r h, true) =>
      k = key /\ subtree (Node k v l r h) n /\ find key n = (v, true)
  | (nil, true) => False
  | (m, false) => m = nil /\ find key n = ([], false)
  end.
Proof.
  induction n as [|k v l IHl r IHr h]; simpl; [auto|].
  destruct (Z.eqb_spec k key) as [->|N].
  - split; [reflexivity|]. split; [constructor|reflexivity].
  - destruct (key <? k).
    + destruct (findNode key l) as [[|k' v' l' r' h'] [|]]; try tauto.
      destruct IHl as (-> & Hs & Hf). split; [reflexivity|].
      split; [now apply subtree_left|assumption].
    + destruct (findNode key r) as [[|k' v' l' r' h'] [|]]; try tauto.
      destruct IHr as (-> & Hs & Hf). split; [reflexivity|].
      split; [now apply subtree_right|assumption].
Qed.

Lemma subtree_elements_incl m n :
  subtree m n -> forall x, In x (elements m) -> In x (elements n).
Proof.
  induction 1 as [n|m k v l r h _ IH|m k v l r h _ IH]; intros x Hx;
    [assumption| |]; simpl; apply in_or_app.
  - left. now apply IH.
  - right. right. now apply IH.
Qed.

Lemma alookup_found_In key vs L :
  alookup key L = (vs, true) -> In (key, vs) L.
Proof.
  induction L as [|[k0 v0] L IH]; simpl; [discriminate|].
  destruct (Z.eqb_spec k0 key) as [->|N].
  - intros [= ->]. now left.
  - intros H. right. now apply IH.
Qed.

End More.

(** X1.  [Min] on the empty tree returns the zero key, no values and
    [false]; on a non-empty tree satisfying the invariants it returns
    [true] with the least key of the tree and the value sequence that
    [Find] returns for that key. *)
Theorem X1_Min_returns_least_key {V : Type} (t : Tree V) :
  Inv (root t) ->
  (root t = nil -> Min t = Ok (0, [], false))
  /\ (root t <> nil ->
      exists k vs,
        Min t = Ok (k, vs, true)
        /\ In k (keys (root t))
        /\ (forall j, In j (keys (root t)) -> k <= j)
        /\ Find k t = (vs, true)).
Proof.
  intros HI. split.
  { intros E. unfold Min. now rewrite E. }
  intros Hne. pose proof (Inv_sorted _ HI) as HS.
  destruct t as [n]. simpl in *.
  destruct n as [|k v l r h]; [contradiction|].
  destruct (minValueNode_ok k v l r h) as (mk & mv & mr & mh & rest & Em & Ee).
  exists mk, mv. unfold Min. cbn [root]. rewrite Em. cbn [bind get fst snd].
  split; [reflexivity|].
  unfold keys in *. rewrite Ee in *. cbn [map fst] in *.
  split; [now left|]. split.
  - now apply sorted_head_least.
  - rewrite (Find_alookup mk (mkTree (Node k v l r h)) HI). cbn [root].
    rewrite Ee. cbn [alookup]. now rewrite Z.eqb_refl.
Qed.

Lemma X1_witness :
  Inv (root ex3)
  /\ (root ex3 = nil -> Min ex3 = Ok (0, [], false))
  /\ (root ex3 <> nil ->
      exists k vs,
        Min ex3 = Ok (k, vs, true)
        /\ In k (keys (root ex3))
        /\ (forall j, In j (keys (root ex3)) -> k <= j)
        /\ Find k ex3 = (vs, true)).
Proof.
  split; [exact ex3_Inv|]. exact (X1_Min_returns_least_key ex3 ex3_Inv).
Defined.

(** X2.  Inserting a key that the tree does not hold yet adds it with the
    one value given: [Find] returns exactly that value, [Contains] is
    true, [Size] grows by one, and the invariants still hold. *)
Theorem X2_insert_fresh_key {V : Type} (t : Tree V) (k : Z) (v : V) :
  Inv (root t) -> Contains k t = false ->
  exists t',
    Insert k v t = Ok t'
    /\ Find k t' = ([v], true)
    /\ Contains k t' = true
    /\ Size t' = Size t + 1
    /\ Inv (root t').
Proof.
  intros HI HC.
  destruct (Insert_ok k v t HI) as (t' & E & HI' & He).
  assert (Hnot : ~ In k (keys (root t))).
  { intros Hin. apply (Contains_In k t HI) in Hin. congruence. }
  assert (HF : Find k t' = ([v], true)).
  { rewrite (Find_alookup k t' HI'), He.
    rewrite alookup_ains_same by (apply (Inv_sorted _ HI)).
    now rewrite (alookup_notin k _ Hnot). }
  exists t'. split; [assumption|]. split; [assumption|].
  split.
  { rewrite Contains_root, <- Find_root, HF. reflexivity. }
  split; [|assumption].
  rewrite !Size_elements, He, (length_ains_absent k v _ Hnot). lia.
Qed.

Lemma X2_witness :
  Inv (root ex3) /\ Contains 25 ex3 = false
  /\ exists t',
       Insert 25 7 ex3 = Ok t'
       /\ Find 25 t' = ([7], true)
       /\ Contains 25 t' = true
       /\ Size t' = Size ex3 + 1
       /\ Inv (root t').
Proof.
  split; [exact ex3_Inv|]. split; [reflexivity|].
  exact (X2_insert_fresh_key ex3 25 7 ex3_Inv eq_refl).
Defined.

(** X3.  Deleting a key that the tree holds lowers [Size] by exactly one
    and leaves the other keys in place and in order; deleting the same key
    once more changes nothing. *)
Theorem X3_delete_present_key {V : Type} (t : Tree V) (k : Z) :
  Inv (root t) -> Contains k t = true ->
  exists t',
    Delete k t = Ok t'
    /\ Size t' = Size t - 1
    /\ keys (root t') = filter (fun x => negb (x =? k)) (keys (root t))
    /\ Inv (root t')
    /\ Delete k t' = Ok t'.
Proof.
  intros HI HC.
  destruct (Delete_ok k t HI) as (t' & E & HI' & He).
  assert (Hin : In k (keys (root t))) by now apply (Contains_In k t HI).
  exists t'. split; [assumption|].
  assert (Hk : keys (root t') = filter (fun x => negb (x =? k)) (keys (root t))).
  { unfold keys. rewrite He. apply akeys_aremove. }
  split.
  { rewrite !Size_elements, He.
    pose proof (length_aremove_present k (elements (root t))
                  (Inv_sorted _ HI) Hin). lia. }
  split; [assumption|]. split; [assumption|].
  assert (Hnot : ~ In k (keys (root t'))).
  { rewrite Hk, filter_In. intros [_ Hb]. rewrite Z.eqb_refl in Hb.
    discriminate. }
  unfold Delete. destruct t' as [n']. cbn [root] in *.
  destruct n' as [|k' v' l' r' h']; [reflexivity|].
  rewrite (delete_absent _ k (Inv_hb _ HI') Hnot). reflexivity.
Qed.

Lemma X3_witness :
  Inv (root ex3) /\ Contains 20 ex3 = true
  /\ exists t',
       Delete 20 ex3 = Ok t'
       /\ Size t' = Size ex3 - 1
       /\ keys (root t') = filter (fun x => negb (x =? 20)) (keys (root ex3))
       /\ Inv (root t')
       /\ Delete 20 t' = Ok t'.
Proof.
  split; [exact ex3_Inv|]. split; [reflexivity|].
  exact (X3_delete_present_key ex3 20 ex3_Inv eq_refl).
Defined.

(** X4.  The height of a tree satisfying the invariants is logarithmic in
    its size: a tree of height [h] holds at most [2 ^ h - 1] keys and at
    least [fib (h + 2) - 1] keys, the Fibonacci bound of AVL trees, hence
    at least [2 ^ (h / 2) - 1].  This holds in particular for every tree
    built by [Insert] and [Delete]. *)
Theorem X4_height_logarithmic {V : Type} (t : Tree V) :
  Inv (root t) ->
  2 ^ (Height t / 2) <= Size t + 1 <= 2 ^ Height t
  /\ fib (Z.to_nat (Height t) + 2) <= Size t + 1.
Proof.
  intros HI. rewrite Height_root, Size_root.
  pose proof (Inv_hb _ HI) as Hb. split.
  - now apply hb_size_bounds.
  - now apply hb_size_fib.
Qed.

Lemma X4_witness :
  Inv (root ex3)
  /\ 2 ^ (Height ex3 / 2) <= Size ex3 + 1 <= 2 ^ Height ex3
  /\ fib (Z.to_nat (Height ex3) + 2) <= Size ex3 + 1.
Proof.
  split; [exact ex3_Inv|]. exact (X4_height_logarithmic ex3 ex3_Inv).
Defined.

(** X5.  One [Insert] raises [Height] by at most one and never lowers it;
    one [Delete] lowers it by at most one and never raises it. *)
Theorem X5_height_moves_by_one {V : Type} (t : Tree V) (k : Z) (v : V) :
  Inv (root t) ->
  (exists t', Insert k v t = Ok t'
     /\ Height t <= Height t' <= Height t + 1)
  /\ (exists t', Delete k t = Ok t'
     /\ Height t - 1 <= Height t' <= Height t).
Proof.
  intros HI. split.
  - destruct (insert_Inv k v (root t) HI) as (n' & E & _ & _ & Hh).
    exists (mkTree n'). unfold Insert. rewrite E. split; [reflexivity|].
    now rewrite !Height_root.
  - destruct (delete_Inv k (root t) HI) as (n' & E & _ & _ & Hh).
    destruct t as [n]. cbn [root] in *.
    destruct n as [|k0 v0 l0 r0 h0].
    + exists (mkTree nil). split; [reflexivity|]. rewrite !Height_root.
      simpl. lia.
    + exists (mkTree n'). unfold Delete. cbn [root]. rewrite E.
      split; [reflexivity|]. now rewrite !Height_root.
Qed.

Lemma X5_witness :
  Inv (root ex3)
  /\ (exists t', Insert 5 9 ex3 = Ok t'
        /\ Height ex3 <= Height t' <= Height ex3 + 1)
  /\ (exists t', Delete 5 ex3 = Ok t'
        /\ Height ex3 - 1 <= Height t' <= Height ex3).
Proof.
  split; [exact ex3_Inv|]. exact (X5_height_moves_by_one ex3 5 9 ex3_Inv).
Defined.

(** X6.  [SubTreeFromKey] succeeds exactly on the keys the tree holds.
    The tree it returns has the key at its root, is a part of the
    original tree, satisfies the invariants, and answers [Find] for each
    of its keys as the original tree does. *)
Theorem X6_SubTreeFromKey {V : Type} (t : Tree V) (k : Z) :
  Inv (root t) ->
  (Contains k t = false -> SubTreeFromKey k t = (None, false))
  /\ (Contains k t = true ->
      exists st,
        SubTreeFromKey k t = (Some st, true)
        /\ rootKey st = Some k
        /\ subtree (root st) (root t)
        /\ Inv (root st)
        /\ forall j, Contains j st = true -> Find j st = Find j t).
Proof.
  intros HI. rewrite Contains_root.
  pose proof (findNode_find k (root t)) as HN.
  unfold SubTreeFromKey.
  destruct t as [n]. cbn [root] in *.
  destruct n as [|k0 v0 l0 r0 h0].
  { split; [reflexivity|]. simpl. discriminate. }
  destruct (findNode k (Node k0 v0 l0 r0 h0)) as [[|k' v' l' r' h'] [|]].
  - contradiction.
  - destruct HN as (_ & Hf). rewrite Hf. split; [reflexivity|].
    simpl. discriminate.
  - destruct HN as (-> & Hs & Hf). rewrite Hf. split; [simpl; discriminate|].
    intros _. exists (mkTree (Node k v' l' r' h')).
    split; [reflexivity|]. split; [reflexivity|]. split; [exact Hs|].
    pose proof (Inv_subtree _ _ Hs HI) as HI'.
    split; [exact HI'|].
    intros j Hj.
    rewrite (Find_alookup j (mkTree (Node k v' l' r' h')) HI').
    rewrite (Find_alookup j (mkTree (Node k0 v0 l0 r0 h0)) HI).
    cbn [root].
    rewrite (Contains_alookup j (mkTree (Node k v' l' r' h')) HI') in Hj.
    cbn [root] in Hj.
    destruct (alookup j (elements (Node k v' l' r' h'))) as [vs b] eqn:Ea.
    simpl in Hj. subst b.
    apply alookup_found_In in Ea.
    apply (subtree_elements_incl _ _ Hs) in Ea.
    symmetry. apply alookup_In; [|exact Ea].
    apply (Inv_sorted _ HI).
  - destruct HN as (Hnil & _). discriminate.
Qed.

Lemma X6_witness :
  Inv (root ex3)
  /\ (Contains 30 ex3 = false -> SubTreeFromKey 30 ex3 = (None, false))
  /\ (Contains 30 ex3 = true ->
      exists st,
        SubTreeFromKey 30 ex3 = (Some st, true)
        /\ rootKey st = Some 30
        /\ subtree (root st) (root ex3)
        /\ Inv (root st)
        /\ forall j, Contains j st = true -> Find j st = Find j ex3).
Proof.
  split; [exact ex3_Inv|]. exact (X6_SubTreeFromKey ex3 30 ex3_Inv).
Defined.

(** X7.  The order in which two different keys are inserted affects at
    most the shape of the tree: both orders succeed and give trees with
    the same keys and value sequences, hence the same answers of [Find],
    the same [Size] and the same [String]. *)
Theorem X7_insert_order_irrelevant {V : Type} (t : Tree V)
    (a b : Z) (va vb : V) :
  Inv (root t) -> a <> b ->
  exists t1 t2 u1 u2,
    Insert a va t = Ok t1 /\ Insert b vb t1 = Ok t2
    /\ Insert b vb t = Ok u1 /\ Insert a va u1 = Ok u2
    /\ elements (root t2) = elements (root u2)
    /\ (forall j, Find j t2 = Find j u2)
    /\ Size t2 = Size u2
    /\ TreeString t2 = TreeString u2.
Proof.
  intros HI Hab.
  destruct (Insert_ok a va t HI) as (t1 & E1 & I1 & L1).
  destruct (Insert_ok b vb t1 I1) as (t2 & E2 & I2 & L2).
  destruct (Insert_ok b vb t HI) as (u1 & F1 & J1 & M1).
  destruct (Insert_ok a va u1 J1) as (u2 & F2 & J2 & M2).
  exists t1, t2, u1, u2. repeat (split; [assumption|]).
  assert (He : elements (root t2) = elements (root u2)).
  { rewrite L2, L1, M2, M1. symmetry.
    apply ains_comm; [assumption|apply (Inv_sorted _ HI)]. }
  split; [assumption|]. split; [|split].
  - intros j. now rewrite (Find_alookup j t2 I2), (Find_alookup j u2 J2), He.
  - now rewrite !Size_elements, He.
  - rewrite !TreeString_keys. unfold keys. now rewrite He.
Qed.

Lemma X7_witness :
  Inv (root ex3) /\ 5 <> 25
  /\ exists t1 t2 u1 u2,
       Insert 5 8 ex3 = Ok t1 /\ Insert 25 9 t1 = Ok t2
       /\ Insert 25 9 ex3 = Ok u1 /\ Insert 5 8 u1 = Ok u2
       /\ elements (root t2) = elements (root u2)
       /\ (forall j, Find j t2 = Find j u2)
       /\ Size t2 = Size u2
       /\ TreeString t2 = TreeString u2.
Proof.
  split; [exact ex3_Inv|]. split; [lia|].
  apply (X7_insert_order_irrelevant ex3 5 25 8 9 ex3_Inv). lia.
Defined.
(** X18.  A rotation keeps the in-order sequence of keys and values.
    [rotateRight] ends in a nil dereference exactly when the node or its
    left child is nil, [rotateLeft] when the node or its right child is
    nil, and they end in no other way than a nil dereference or a node.
    [balance] reaches the fatal log of [updateHeight] exactly on the nil
    node, and whenever it returns a node, that node has the in-order
    sequence of the node it was given, whatever the shape and the cached
    heights of the tree. *)
Theorem X18_rotations_keep_contents {V : Type} (n : node V) :
  (forall e, rotateRight n = Abort e <->
     e = NilDeref /\ (n = nil \/ exists k v r h, n = Node k v nil r h))
  /\ (forall n', rotateRight n = Ok n' -> elements n' = elements n)
  /\ (forall e, rotateLeft n = Abort e <->
        e = NilDeref /\ (n = nil \/ exists k v l h, n = Node k v l nil h))
  /\ (forall n', rotateLeft n = Ok n' -> elements n' = elements n)
  /\ (balance n = Abort FatalLog <-> n = nil)
  /\ (forall n', balance n = Ok n' -> elements n' = elements n).
Proof.
  split; [|split; [|split; [|split; [|split]]]].
  - intros e. destruct n as [|k v [|lk lv ll lr lh] r h]; simpl; split.
    + intros [= <-]. split; [reflexivity|now left].
    + now intros [-> _].
    + intros [= <-]. split; [reflexivity|]. right. now exists k, v, r, h.
    + now intros [-> _].
    + discriminate.
    + intros [_ [H|(k0 & v0 & r0 & h0 & H)]]; discriminate H.
  - intros n'. destruct n as [|k v [|lk lv ll lr lh] r h]; simpl;
      try discriminate.
    intros [= <-]. simpl. now rewrite <- app_assoc.
  - intros e. destruct n as [|k v l [|rk rv rl rr rh] h]; simpl; split.
    + intros [= <-]. split; [reflexivity|now left].
    + now intros [-> _].
    + intros [= <-]. split; [reflexivity|]. right. now exists k, v, l, h.
    + now intros [-> _].
    + discriminate.
    + intros [_ [H|(k0 & v0 & l0 & h0 & H)]]; discriminate H.
  - intros n'. destruct n as [|k v l [|rk rv rl rr rh] h]; simpl;
      try discriminate.
    intros [= <-]. simpl. now rewrite <- app_assoc.
  - split; [|intros ->; reflexivity].
    destruct n as [|k v l r h]; [reflexivity|].
    unfold balance; simpl. intros E. exfalso. revert E.
    destruct ((_ >? 1) && _).
    { destruct l as [|lk lv ll lr lh]; simpl; discriminate. }
    destruct ((_ >? 1) && _).
    { destruct l as [|lk lv ll [|mk mv A B mh] lh]; simpl; discriminate. }
    destruct ((_ <? -1) && _).
    { destruct r as [|rk rv rl rr rh]; simpl; discriminate. }
    destruct ((_ <? -1) && _).
    { destruct r as [|rk rv [|mk mv A B mh] rr rh]; simpl; discriminate. }
    discriminate.
  - intros n'. apply balance_elements.
Qed.

End AVLMore.


Module ICSMore.
Import ICS ICSFacts.

Local Open Scope nat_scope.
Local Open Scope string_scope.

(** *** splitUnquoted *)
Lemma splitUnquotedLoop_join (sep : ascii) (rest : string) :
  forall (done cur : string) (q : bool),
    let parts :=
      splitUnquotedLoop (done ++ cur ++ rest) rest sep
        (String.length done + String.length cur) (String.length done) q in
    parts <> [] /\ String.concat (String sep "") parts = cur ++ rest.
Proof.
  induction rest as [|c rest IH]; intros done cur q; cbn zeta.
  - cbn [splitUnquotedLoop]. split; [discriminate|].
    unfold slice_from. rewrite !StringFacts.append_nil_r.
    rewrite StringFacts.length_append.
    replace (String.length done + String.length cur - String.length done)
      with (String.length cur) by lia.
    cbn [String.concat]. apply StringFacts.substring_suffix.
  - cbn [splitUnquotedLoop].
    assert (Step : forall q',
      let parts :=
        splitUnquotedLoop (done ++ cur ++ String c rest) rest sep
          (S (String.length done + String.length cur))
          (String.length done) q' in
      parts <> [] /\ String.concat (String sep "") parts
                     = cur ++ String c rest).
    { intros q'. cbn zeta.
      specialize (IH done (cur ++ String c "") q'). cbn zeta in IH.
      rewrite length_snoc in IH.
      rewrite StringFacts.append_assoc in IH. cbn [append] in IH.
      replace (String.length done + S (String.length cur))
        with (S (String.length done + String.length cur)) in IH by lia.
      exact IH. }
    destruct (Ascii.eqb c quote_char); [apply Step|].
    destruct (Ascii.eqb c sep) eqn:Ec; cbn [andb]; [|apply Step].
    destruct q; cbn [negb]; [apply Step|].
    apply Ascii.eqb_eq in Ec. subst c.
    split; [discriminate|].
    specialize (IH (done ++ cur ++ String sep "") "" false). cbn zeta in IH.
    rewrite !StringFacts.length_append in IH. cbn [String.length] in IH.
    rewrite !StringFacts.append_assoc in IH. cbn [append] in IH.
    replace (String.length done + (String.length cur + 1) + 0)
      with (S (String.length done + String.length cur)) in IH by lia.
    replace (String.length done + (String.length cur + 1))
      with (String.length done + String.length cur + 1) in IH by lia.
    destruct IH as (Hne & Hj).
    replace (String.length done + String.length cur - String.length done)
      with (String.length cur) by lia.
    assert (Hsub : substring (String.length done) (String.length cur)
                     (done ++ cur ++ String sep rest) = cur).
    { pose proof (StringFacts.substring_skip done (cur ++ String sep rest)
                    0 (String.length cur)) as H.
      rewrite Nat.add_0_r in H. rewrite H.
      apply StringFacts.substring_prefix. }
    rewrite Hsub.
    destruct (splitUnquotedLoop _ rest sep _ _ false) as [|p ps] eqn:El;
      [contradiction|].
    change (String.concat (String sep "") (cur :: p :: ps))
      with (cur ++ String sep "" ++ String.concat (String sep "") (p :: ps)).
    now rewrite Hj.
Qed.

Lemma splitUnquotedLoop_nosep (sep : ascii) (rest : string) :
  forall (s : string) (i start : nat) (q : bool),
    occurs sep rest = false ->
    splitUnquotedLoop s rest sep i start q = [slice_from s start].
Proof.
  induction rest as [|c rest IH]; intros s i start q Ho; [reflexivity|].
  cbn [splitUnquotedLoop]. simpl in Ho. apply orb_false_iff in Ho as [Hc Hr].
  rewrite Hc. cbn [andb]. destruct (Ascii.eqb c quote_char); now apply IH.
Qed.

Lemma splitUnquotedLoop_quote (rest : string) :
  forall (s : string) (i start : nat) (q : bool),
    splitUnquotedLoop s rest quote_char i start q = [slice_from s start].
Proof.
  induction rest as [|c rest IH]; intros s i start q; [reflexivity|].
  cbn [splitUnquotedLoop].
  destruct (Ascii.eqb c quote_char); [apply IH|]. cbn [andb]. apply IH.
Qed.

Lemma slice_from_0 (s : string) : slice_from s 0 = s.
Proof.
  unfold slice_from. rewrite Nat.sub_0_r. apply StringFacts.substring_all.
Qed.

(** *** The tables of names *)
Lemma lookup_In (m : list (string * Z)) (k : string) (x : Z) :
  lookup m k = Some x -> In (k, x) m.
Proof.
  induction m as [|[k' x'] m IH]; simpl; [discriminate|].
  destruct (String.eqb_spec k' k) as [->|N].
  - intros [= ->]. now left.
  - intros H. right. now apply IH.
Qed.

Lemma index_names_range (names : list string) (i : Z) :
  index_names names i = None
  <-> (i < 0 \/ Z.of_nat (List.length names) <= i)%Z.
Proof.
  unfold index_names. destruct (Z.ltb_spec i 0).
  - split; [now left|reflexivity].
  - rewrite nth_error_None. lia.
Qed.

Lemma names_table (names : list string) (tab : list (string * Z)) :
  forallb (fun i =>
             match nth_error names i with
             | Some nm =>
                 match lookup tab nm with
                 | Some q => Z.eqb q (Z.of_nat i)
                 | None => false
                 end
             | None => false
             end) (seq 0 (List.length names)) = true ->
  forallb (fun e =>
             match index_names names (snd e) with
             | Some nm => String.eqb nm (fst e)
             | None => false
             end) tab = true ->
  forall p name, index_names names p = Some name <-> lookup tab name = Some p.
Proof.
  intros H1 H2 p name. rewrite forallb_forall in H1, H2. split.
  - intros E. unfold index_names in E.
    destruct (Z.ltb_spec p 0); [discriminate|].
    assert (Hlt : Z.to_nat p < List.length names).
    { apply nth_error_Some. congruence. }
    specialize (H1 (Z.to_nat p)). rewrite in_seq in H1.
    specialize (H1 ltac:(lia)). rewrite E in H1.
    destruct (lookup tab name) as [q|]; [|discriminate].
    apply Z.eqb_eq in H1. f_equal. lia.
  - intros E. apply lookup_In in E. specialize (H2 _ E). cbn [fst snd] in H2.
    destruct (index_names names p) as [nm|]; [|discriminate].
    apply String.eqb_eq in H2. now subst.
Qed.

Lemma property_names_table p name :
  PropertyString p = Some name <-> lookup propertyByName name = Some p.
Proof. apply names_table; vm_compute; reflexivity. Qed.

Lemma component_names_table c name :
  ComponentString c = Some name <-> lookup componentByName name = Some c.
Proof. apply names_table; vm_compute; reflexivity. Qed.

(** X8.  [splitUnquoted] never returns an empty list, and joining its
    parts with the separator gives the text back; a text without the
    separator, and any text when the separator is the double quote
    itself, comes back as its single part. *)
Theorem X8_splitUnquoted_join (s : string) (sep : ascii) :
  splitUnquoted s sep <> []
  /\ String.concat (String sep "") (splitUnquoted s sep) = s
  /\ (occurs sep s = false -> splitUnquoted s sep = [s])
  /\ splitUnquoted s quote_char = [s].
Proof.
  unfold splitUnquoted.
  pose proof (splitUnquotedLoop_join sep s "" "" false) as H.
  cbn zeta in H. cbn [append String.length Nat.add] in H.
  destruct H as (Hne & Hj).
  split; [exact Hne|]. split; [exact Hj|]. split.
  - intros Ho. rewrite splitUnquotedLoop_nosep by exact Ho.
    now rewrite slice_from_0.
  - rewrite splitUnquotedLoop_quote. now rewrite slice_from_0.
Qed.

(** X9.  The name arrays of model.go and the lookup tables of parse.go
    are inverse to each other: [String] of a property or component
    constant is the name under which the table holds that constant, and
    only that name.  [String] is defined on the 78 property constants and
    the 13 component constants only; on any other value, the unknown
    markers included, the array index is out of range. *)
Theorem X9_names_round_trip :
  (forall p name,
      PropertyString p = Some name <-> lookup propertyByName name = Some p)
  /\ (forall c name,
      ComponentString c = Some name <-> lookup componentByName name = Some c)
  /\ (forall p, PropertyString p = None <-> (p < 0 \/ 78 <= p)%Z)
  /\ (forall c, ComponentString c = None <-> (c < 0 \/ 13 <= c)%Z)
  /\ PropertyString UnknownProperty = None
  /\ ComponentString UnknownComponent = None.
Proof.
  split; [exact property_names_table|].
  split; [exact component_names_table|].
  split; [intros p; apply (index_names_range propertyNames p)|].
  split; [intros c; apply (index_names_range componentNames c)|].
  split; reflexivity.
Qed.

(** X10.  [ParseProperty] fails exactly when [ParseLine] does, that is on
    lines without a ':' outside double quotes, and then returns the
    unknown marker and the empty value with the error of [ParseLine].
    Otherwise it returns the property and the value of the record of
    [ParseLine]: for a BEGIN line, an END line or a name outside the
    table the property is the unknown marker, on which [String] is out
    of range; for every other line [String] of the returned property is
    the upper-cased name of the line. *)
Theorem X10_ParseProperty (ToUpper TrimSpace : string -> string)
    (line : string) :
  (~ unquoted_colon line ->
     exists e, snd (ParseLine ToUpper TrimSpace line) = Some e
       /\ ParseProperty ToUpper TrimSpace line
          = (UnknownProperty, "", Some e))
  /\ (unquoted_colon line ->
     exists r, ParseLine ToUpper TrimSpace line = (r, None)
       /\ ParseProperty ToUpper TrimSpace line = (Property r, Value r, None)
       /\ if IsBegin r || IsEnd r || IsUnknown r
          then Property r = UnknownProperty
               /\ PropertyString (Property r) = None
          else PropertyString (Property r) = Some (RawName r)).
Proof.
  pose proof (ParseLine_ok_iff ToUpper TrimSpace line) as Hok.
  unfold ParseProperty. split.
  - intros HU.
    destruct (ParseLine ToUpper TrimSpace line) as [r [e|]]; simpl in *.
    + now exists e.
    + exfalso. apply HU. now apply Hok.
  - intros HU. apply Hok in HU.
    destruct (ParseLine ToUpper TrimSpace line) as [r [e|]] eqn:E;
      simpl in HU; [discriminate|].
    exists r. split; [reflexivity|]. split; [reflexivity|].
    revert E. unfold ParseLine.
    destruct (String.eqb _ ""); [discriminate|].
    destruct (splitOnFirstUnquotedColon _) as [[np value] [|]];
      [|discriminate].
    cbv zeta.
    destruct (String.eqb _ "BEGIN"); [intros [= <-]; now split|].
    destruct (String.eqb _ "END"); [intros [= <-]; now split|].
    destruct (lookup propertyByName _) as [prop|] eqn:El;
      intros [= <-]; cbn [IsBegin IsEnd IsUnknown Property RawName orb].
    + now apply property_names_table.
    + now split.
Qed.

Lemma X10_witness :
  unquoted_colon "SUMMARY:Team standup"
  /\ exists r,
       ParseLine ToUpperASCII TrimSpaceASCII "SUMMARY:Team standup"
       = (r, None)
       /\ ParseProperty ToUpperASCII TrimSpaceASCII "SUMMARY:Team standup"
          = (Property r, Value r, None)
       /\ PropertyString (Property r) = Some "SUMMARY".
Proof.
  assert (HU : unquoted_colon "SUMMARY:Team standup").
  { exists "SUMMARY", "Team standup". split; reflexivity. }
  split; [exact HU|].
  destruct (proj2 (X10_ParseProperty ToUpperASCII TrimSpaceASCII
                     "SUMMARY:Team standup") HU) as (r & E & EP & HS).
  exists r. split; [exact E|]. split; [exact EP|].
  injection E as <-. exact HS.
Defined.

(** *** date.go *)
Lemma get_app_length (v : string) (c : ascii) (rest : string) :
  String.get (String.length v) (v ++ String c rest) = Some c.
Proof. induction v as [|a v IH]; simpl; [reflexivity|exact IH]. Qed.

Lemma paramValue_absent (ps : list Param) (key : string) :
  Forall (fun q => Key q <> key) ps -> paramValue ps key = "".
Proof.
  induction 1 as [|q ps Hq _ IH]; simpl; [reflexivity|].
  destruct (String.eqb_spec (Key q) key); [contradiction|exact IH].
Qed.

Lemma paramValue_first (ps1 ps2 : list Param) (p : Param) :
  Forall (fun q => Key q <> Key p) ps1 ->
  paramValue (ps1 ++ p :: ps2) (Key p) = paramValue [p] (Key p).
Proof.
  induction 1 as [|q ps Hq _ IH]; simpl.
  - now rewrite String.eqb_refl.
  - destruct (String.eqb_spec (Key q) (Key p)); [contradiction|exact IH].
Qed.

(** X11.  [paramValue] returns the value of the first parameter whose key
    equals the given key byte for byte, whatever follows it, and the empty
    text when there is none.  A value enclosed in double quotes comes back
    without them; a value that does not begin with a double quote, and the
    value made of one double quote alone, come back unchanged. *)
Theorem X11_paramValue (key : string) :
  (forall ps, Forall (fun q => Key q <> key) ps -> paramValue ps key = "")
  /\ (forall ps1 ps2 v,
        Forall (fun q => Key q <> key) ps1 ->
        paramValue (ps1 ++ mkParam key v :: ps2) key
        = paramValue [mkParam key v] key)
  /\ (forall v,
        paramValue [mkParam key
                      (String quote_char (v ++ String quote_char ""))] key
        = v)
  /\ (forall v, byte_is v 0 quote_char = false ->
        paramValue [mkParam key v] key = v)
  /\ paramValue [mkParam key (String quote_char "")] key
     = String quote_char "".
Proof.
  split; [intros ps; apply paramValue_absent|].
  split.
  { intros ps1 ps2 v H.
    exact (paramValue_first ps1 ps2 (mkParam key v) H). }
  split.
  { intros v. cbn [paramValue Key PValue]. rewrite String.eqb_refl.
    cbn [String.length]. rewrite StringFacts.length_append.
    cbn [String.length].
    replace (S (String.length v + 1) - 1) with (S (String.length v)) by lia.
    replace (S (String.length v + 1) - 2) with (String.length v) by lia.
    unfold byte_is. cbn [String.get]. rewrite get_app_length.
    rewrite Ascii.eqb_refl.
    replace (Nat.leb 2 (S (String.length v + 1))) with true
      by (symmetry; apply Nat.leb_le; lia).
    cbn [andb substring]. apply StringFacts.substring_prefix. }
  split.
  { intros v Hv. cbn [paramValue Key PValue]. rewrite String.eqb_refl, Hv.
    now rewrite andb_false_r. }
  cbn [paramValue Key PValue]. rewrite String.eqb_refl. reflexivity.
Qed.


Section TimeFacts.

Variable Location : Type.
Variable UTC : Location.
Variable LoadLocation : string -> option Location.
Variable Time : Type.
Variable ParseInLocation : string -> string -> Location -> option Time.
Variable Unix : Time -> Z.
Variable Quote : string -> string.

#[local] Abbreviation D :=
  (DateTimeToUnix Location UTC LoadLocation Time ParseInLocation Unix Quote).

Lemma byte_is_last (raw : string) (c : ascii) :
  byte_is (raw ++ String c "") (String.length (raw ++ String c "") - 1) c
  = true.
Proof.
  rewrite length_snoc. replace (S (String.length raw) - 1)
    with (String.length raw) by lia.
  unfold byte_is. rewrite get_app_length. apply Ascii.eqb_refl.
Qed.

Lemma DateTimeToUnix_Z (pl : ParsedLine) (raw : string) (ps : list Param) :
  Value pl = raw ++ "Z" -> D pl = D (with_params pl ps).
Proof.
  intros E. unfold DateTimeToUnix. cbn [Value ParsedParams with_params].
  rewrite E, byte_is_last, length_snoc. reflexivity.
Qed.

Lemma DateTimeToUnix_bad_length (pl : ParsedLine) :
  Value pl <> "" ->
  String.length (Value pl) <> 8 -> String.length (Value pl) <> 15 ->
  String.length (Value pl) <> 16 ->
  D pl = (0%Z, Some ("ics: cannot parse date/time value " ++ Quote (Value pl))).
Proof.
  intros Hne H8 H15 H16. unfold DateTimeToUnix.
  destruct (String.eqb_spec (Value pl) ""); [contradiction|].
  cbv zeta. unfold formats. cbn [tryFormats String.length].
  apply Nat.eqb_neq in H8, H15, H16. rewrite H8, H15, H16. reflexivity.
Qed.

Lemma DateTimeToUnix_layout (pl : ParsedLine) (layout : string) :
  In layout formats -> String.length (Value pl) = String.length layout ->
  exists loc,
    D pl = match ParseInLocation layout (Value pl) loc with
           | Some t => (Unix t, None)
           | None =>
               (0%Z, Some ("ics: cannot parse date/time value "
                           ++ Quote (Value pl)))
           end.
Proof.
  intros Hin Hlen. unfold DateTimeToUnix.
  destruct (String.eqb_spec (Value pl) "") as [E|_].
  { rewrite E in Hlen. simpl in Hin.
    destruct Hin as [<-|[<-|[<-|[]]]]; discriminate. }
  cbv zeta.
  match goal with
  | |- context [tryFormats _ _ _ _ formats (Value pl) ?l] => exists l
  end.
  unfold formats. cbn [tryFormats].
  simpl in Hin. destruct Hin as [<-|[<-|[<-|[]]]];
    rewrite Hlen; cbn [String.length Nat.eqb negb];
    destruct (ParseInLocation _ (Value pl) _); reflexivity.
Qed.

End TimeFacts.

(** X12.  [DateTimeToUnix], over any implementation of package [time]:
    an empty value is refused; a value whose length is not that of one of
    the three layouts (16, 15 or 8 bytes) is refused without the parser
    deciding; a value of the length of a layout is parsed with that layout
    only, and the result is the Unix time of what the parser returns;
    when the value ends in 'Z' the parameters of the line, TZID included,
    have no influence; and a TZID that cannot be loaded gives the same
    result as no parameter at all.  [DtstampToUnix] is the same function. *)
Theorem X12_DateTimeToUnix (Location : Type) (UTC : Location)
    (LoadLocation : string -> option Location) (Time : Type)
    (ParseInLocation : string -> string -> Location -> option Time)
    (Unix : Time -> Z) (Quote : string -> string) (pl : ParsedLine) :
  let D := DateTimeToUnix Location UTC LoadLocation Time ParseInLocation
             Unix Quote in
  let refused :=
    (0%Z, Some ("ics: cannot parse date/time value " ++ Quote (Value pl))) in
  (Value pl = "" -> D pl = (0%Z, Some "ics: empty value in ParsedLine"))
  /\ (Value pl <> "" ->
      String.length (Value pl) <> 8 -> String.length (Value pl) <> 15 ->
      String.length (Value pl) <> 16 -> D pl = refused)
  /\ (forall layout,
        In layout formats ->
        String.length (Value pl) = String.length layout ->
        exists loc,
          D pl = match ParseInLocation layout (Value pl) loc with
                 | Some t => (Unix t, None)
                 | None => refused
                 end)
  /\ (forall raw ps, Value pl = raw ++ "Z" -> D pl = D (with_params pl ps))
  /\ (LoadLocation (paramValue (ParsedParams pl) "TZID") = None ->
      D pl = D (with_params pl []))
  /\ DtstampToUnix Location UTC LoadLocation Time ParseInLocation Unix Quote
       pl = D pl.
Proof.
  cbv zeta. split.
  { intros E. unfold DateTimeToUnix. now rewrite E. }
  split; [apply DateTimeToUnix_bad_length|].
  split; [apply DateTimeToUnix_layout|].
  split; [intros raw ps; apply DateTimeToUnix_Z|].
  split; [|reflexivity].
  intros HL. unfold DateTimeToUnix. cbn [Value ParsedParams with_params].
  cbn [paramValue]. rewrite HL. cbn [String.eqb negb].
  destruct (negb (String.eqb (paramValue (ParsedParams pl) "TZID") ""));
    reflexivity.
Qed.

(** *** Line endings *)
Lemma TrimRight_all_cut (tail : string) (cut : list ascii) :
  (forall c, occurs c tail = true -> In c cut) -> TrimRight tail cut = "".
Proof.
  induction tail as [|a tail IH]; intros H; [reflexivity|].
  cbn [TrimRight]. rewrite IH.
  - assert (Ha : In a cut).
    { apply H. simpl. now rewrite Ascii.eqb_refl. }
    replace (existsb (Ascii.eqb a) cut) with true; [reflexivity|].
    symmetry. apply existsb_exists. exists a. split; [assumption|].
    apply Ascii.eqb_refl.
  - intros c Hc. apply H. simpl. rewrite Hc. apply orb_true_r.
Qed.

Lemma TrimRight_app_cut (s tail : string) (cut : list ascii) :
  (forall c, occurs c tail = true -> In c cut) ->
  TrimRight (s ++ tail) cut = TrimRight s cut.
Proof.
  intros H. induction s as [|a s IH]; cbn [append TrimRight].
  - now apply TrimRight_all_cut.
  - now rewrite IH.
Qed.

(** X17.  Carriage returns and line feeds at the end of a line, in any
    number and order, make no difference to [ParseLine] nor to
    [ParseProperty]: record, value and error are the same as without
    them. *)
Theorem X17_line_ending_ignored (ToUpper TrimSpace : string -> string)
    (line tail : string) :
  (forall c, occurs c tail = true -> c = cr_char \/ c = lf_char) ->
  ParseLine ToUpper TrimSpace (line ++ tail)
  = ParseLine ToUpper TrimSpace line
  /\ ParseProperty ToUpper TrimSpace (line ++ tail)
     = ParseProperty ToUpper TrimSpace line.
Proof.
  intros H.
  assert (E : ParseLine ToUpper TrimSpace (line ++ tail)
              = ParseLine ToUpper TrimSpace line).
  { unfold ParseLine. rewrite TrimRight_app_cut; [reflexivity|].
    intros c Hc. destruct (H c Hc) as [->| ->]; simpl; auto. }
  split; [exact E|]. unfold ParseProperty. now rewrite E.
Qed.

Lemma X17_witness :
  (forall c, occurs c (String cr_char (String lf_char "")) = true ->
             c = cr_char \/ c = lf_char)
  /\ ParseLine ToUpperASCII TrimSpaceASCII
       ("SUMMARY:Team standup" ++ String cr_char (String lf_char ""))
     = ParseLine ToUpperASCII TrimSpaceASCII "SUMMARY:Team standup"
  /\ ParseProperty ToUpperASCII TrimSpaceASCII
       ("SUMMARY:Team standup" ++ String cr_char (String lf_char ""))
     = ParseProperty ToUpperASCII TrimSpaceASCII "SUMMARY:Team standup".
Proof.
  assert (H : forall c,
             occurs c (String cr_char (String lf_char "")) = true ->
             c = cr_char \/ c = lf_char).
  { intros c. cbn [occurs].
    destruct (Ascii.eqb_spec cr_char c) as [<-|_]; [now left|].
    destruct (Ascii.eqb_spec lf_char c) as [<-|_]; [now right|].
    discriminate. }
  split; [exact H|].
  exact (X17_line_ending_ignored ToUpperASCII TrimSpaceASCII
           "SUMMARY:Team standup" (String cr_char (String lf_char "")) H).
Defined.

(** *** parseParams *)
Lemma splitUnquotedLoop_parts (sep : ascii) (rest : string) :
  forall (done cur : string) (q : bool),
    splitUnquotedLoop (done ++ cur ++ rest) rest sep
      (String.length done + String.length cur) (String.length done) q
    = splitParts sep cur rest q.
Proof.
  induction rest as [|c rest IH]; intros done cur q.
  - cbn [splitUnquotedLoop splitParts].
    unfold slice_from. rewrite !StringFacts.append_nil_r.
    rewrite StringFacts.length_append.
    replace (String.length done + String.length cur - String.length done)
      with (String.length cur) by lia.
    now rewrite StringFacts.substring_suffix.
  - cbn [splitUnquotedLoop splitParts].
    assert (Step : forall q',
      splitUnquotedLoop (done ++ cur ++ String c rest) rest sep
        (S (String.length done + String.length cur))
        (String.length done) q'
      = splitParts sep (cur ++ String c "") rest q').
    { intros q'.
      specialize (IH done (cur ++ String c "") q').
      rewrite length_snoc in IH.
      rewrite StringFacts.append_assoc in IH. cbn [append] in IH.
      replace (String.length done + S (String.length cur))
        with (S (String.length done + String.length cur)) in IH by lia.
      exact IH. }
    destruct (Ascii.eqb c quote_char); [apply Step|].
    destruct (Ascii.eqb c sep) eqn:Ec; cbn [andb]; [|apply Step].
    destruct q; cbn [negb]; [apply Step|].
    specialize (IH (done ++ cur ++ String c "") "" false).
    rewrite !StringFacts.length_append in IH. cbn [String.length] in IH.
    rewrite !StringFacts.append_assoc in IH. cbn [append] in IH.
    replace (String.length done + (String.length cur + 1) + 0)
      with (S (String.length done + String.length cur)) in IH by lia.
    replace (String.length done + (String.length cur + 1))
      with (String.length done + String.length cur + 1) in IH by lia.
    rewrite IH.
    replace (String.length done + String.length cur - String.length done)
      with (String.length cur) by lia.
    f_equal.
    pose proof (StringFacts.substring_skip done (cur ++ String c rest)
                  0 (String.length cur)) as H.
    rewrite Nat.add_0_r in H. rewrite H.
    apply StringFacts.substring_prefix.
Qed.

Lemma splitUnquoted_parts (s : string) (sep : ascii) :
  splitUnquoted s sep = splitParts sep "" s false.
Proof. exact (splitUnquotedLoop_parts sep s "" "" false). Qed.

Lemma splitParts_app (sep : ascii) (a b : string) :
  sep <> quote_char ->
  forall (cur : string) (q : bool),
    scan q a = false ->
    splitParts sep cur (a ++ String sep b) q
    = (splitParts sep cur a q ++ splitParts sep "" b false)%list.
Proof.
  intros Hsep. induction a as [|c a IH]; intros cur q Hq.
  - simpl in Hq. subst q. cbn [append splitParts].
    destruct (Ascii.eqb_spec sep quote_char); [contradiction|].
    rewrite Ascii.eqb_refl. reflexivity.
  - cbn [append splitParts]. simpl in Hq.
    destruct (Ascii.eqb c quote_char); [now apply IH|].
    destruct (Ascii.eqb c sep && negb q); [|now apply IH].
    cbn [app]. f_equal. now apply IH.
Qed.

Lemma parseParamsLoop_app (ToUpper TrimSpace : string -> string)
    (l1 l2 : list string) :
  parseParamsLoop ToUpper TrimSpace (l1 ++ l2)%list
  = (parseParamsLoop ToUpper TrimSpace l1
     ++ parseParamsLoop ToUpper TrimSpace l2)%list.
Proof.
  induction l1 as [|p l1 IH]; [reflexivity|].
  cbn [app parseParamsLoop]. rewrite IH.
  destruct (String.eqb (TrimSpace p) ""); [reflexivity|].
  destruct (IndexByte (TrimSpace p) equals_char <? 0)%Z; reflexivity.
Qed.

(** X22.  [parseParams] reads the parameters one by one: a ';' after an
    even number of double quotes separates what is before it from what is
    after it, and the two sides are read independently.  A text without
    ';' gives no parameter when it is blank after trimming; a parameter
    with key and value split at its first '=', the key trimmed and
    upper-cased and the value trimmed, so that the value may itself
    contain '='; and a parameter with the upper-cased text as key and the
    empty value when it has no '='. *)
Theorem X22_parseParams (ToUpper TrimSpace : string -> string) :
  (forall a b,
      Nat.even (quotes a) = true ->
      parseParams ToUpper TrimSpace (a ++ String semi_char b)
      = (parseParams ToUpper TrimSpace a
         ++ parseParams ToUpper TrimSpace b)%list)
  /\ (forall p,
        occurs semi_char p = false -> TrimSpace p = "" ->
        parseParams ToUpper TrimSpace p = [])
  /\ (forall p name v,
        occurs semi_char p = false ->
        TrimSpace p = name ++ String equals_char v ->
        occurs equals_char name = false ->
        parseParams ToUpper TrimSpace p
        = [mkParam (ToUpper (TrimSpace name)) (TrimSpace v)])
  /\ (forall p,
        occurs semi_char p = false -> TrimSpace p <> "" ->
        occurs equals_char (TrimSpace p) = false ->
        parseParams ToUpper TrimSpace p = [mkParam (ToUpper (TrimSpace p)) ""]).
Proof.
  split; [|split; [|split]].
  - intros a b Hq. unfold parseParams. rewrite !splitUnquoted_parts.
    rewrite splitParts_app; [apply parseParamsLoop_app|discriminate|].
    now apply scan_false_even.
  - intros p Ho Ht. unfold parseParams, splitUnquoted.
    rewrite splitUnquotedLoop_nosep by exact Ho. rewrite slice_from_0.
    cbn [parseParamsLoop]. now rewrite Ht.
  - intros p name v Ho Ht Hn. unfold parseParams, splitUnquoted.
    rewrite splitUnquotedLoop_nosep by exact Ho. rewrite slice_from_0.
    cbn [parseParamsLoop]. rewrite Ht.
    destruct (String.eqb_spec (name ++ String equals_char v) "") as [E|_].
    { destruct name; discriminate. }
    destruct (IndexByte_spec (name ++ String equals_char v) equals_char)
      as [[_ Hno]|(name' & rest & E & Hn' & Ei)].
    { rewrite occurs_app in Hno. cbn [occurs] in Hno.
      rewrite Ascii.eqb_refl in Hno. cbn [orb] in Hno.
      rewrite orb_true_r in Hno. discriminate. }
    assert (En : name' = name /\ rest = v).
    { clear -E Hn Hn'. revert name' E Hn'.
      induction name as [|c name IH]; intros [|c' name'] E Hn'; simpl in *.
      - injection E as ->. now split.
      - injection E as <- _. rewrite Ascii.eqb_refl in Hn'. discriminate.
      - injection E as -> _. rewrite Ascii.eqb_refl in Hn. discriminate.
      - injection E as <- E.
        apply orb_false_iff in Hn as [_ Hn].
        apply orb_false_iff in Hn' as [_ Hn'].
        destruct (IH Hn name' E Hn') as [-> ->]. now split. }
    destruct En as [-> ->]. rewrite Ei.
    destruct (Z.ltb_spec (Z.of_nat (String.length name)) 0); [lia|].
    rewrite Nat2Z.id. now rewrite slice_to_app, slice_from_app.
  - intros p Ho Hne Hn. unfold parseParams, splitUnquoted.
    rewrite splitUnquotedLoop_nosep by exact Ho. rewrite slice_from_0.
    cbn [parseParamsLoop].
    destruct (String.eqb_spec (TrimSpace p) ""); [contradiction|].
    destruct (IndexByte_spec (TrimSpace p) equals_char)
      as [[Ei _]|(name' & rest & E & _ & _)].
    + now rewrite Ei.
    + rewrite E, occurs_app in Hn. cbn [occurs] in Hn.
      rewrite Ascii.eqb_refl in Hn. cbn [orb] in Hn.
      rewrite orb_true_r in Hn. discriminate.
Qed.

Lemma X22_witness :
  Nat.even (quotes "TZID=Europe/Stockholm") = true
  /\ parseParams ToUpperASCII TrimSpaceASCII
       ("TZID=Europe/Stockholm" ++ String semi_char "VALUE=DATE-TIME")
     = (parseParams ToUpperASCII TrimSpaceASCII "TZID=Europe/Stockholm"
        ++ parseParams ToUpperASCII TrimSpaceASCII "VALUE=DATE-TIME")%list.
Proof.
  split; [reflexivity|].
  exact (proj1 (X22_parseParams ToUpperASCII TrimSpaceASCII)
           "TZID=Europe/Stockholm" "VALUE=DATE-TIME" eq_refl).
Defined.

End ICSMore.


Module HeapMore.
Import Heap ForestFacts GraphFacts StoreFacts HeapFacts.

#[local] Arguments Z.add _ _ : simpl never.
#[local] Arguments Z.sub _ _ : simpl never.
#[local] Arguments Z.max _ _ : simpl never.
#[local] Arguments Z.ltb _ _ : simpl never.
#[local] Arguments Z.leb _ _ : simpl never.
#[local] Arguments Z.gtb _ _ : simpl never.
#[local] Arguments Z.geb _ _ : simpl never.
#[local] Arguments Z.eqb _ _ : simpl never.

Section Sharing.
Context {V : Type} {RT : Runtime}.
Implicit Types (h : heap V) (p c : ptr) (a b l n x y : loc)
  (s : state (V := V)).

Lemma state_eta s : mkState (hp s) (roots s) (out s) = s.
Proof. now destruct s. Qed.

Lemma lift_returned {A : Type} (m : M V A) s
    (k : A -> heap V -> result_state (V := V)) (rv : retval) s' :
  lift m s k = Returned rv s' ->
  exists (res : A) h', m (hp s) = Done res h' /\ k res h' = Returned rv s'.
Proof.
  unfold lift. destruct (m (hp s)) as [res h'|e|]; try discriminate.
  intros E. now exists res, h'.
Qed.

Lemma outcome_ok_Done {A : Type} (o : outcome V A) fuel h p
    (Q : A -> heap V -> Prop) (res : A) h' :
  outcome_ok o fuel h p Q -> o = Done res h' -> Q res h'.
Proof. intros H ->. exact H. Qed.

(** *** What [findNode] returns *)
Lemma findNode_reach fuel : forall k p h res h',
  WF h -> pvalid h p ->
  findNode fuel k p h = Done res h' ->
  match res with
  | (Some l, true) =>
      exists n, p = Some n /\ reach h n l /\ key (cells h l) = k
  | (None, false) => True
  | _ => False
  end.
Proof.
  induction fuel as [|fuel IH]; intros k p h res h' W Hp E; [discriminate|].
  destruct p as [n|]; cbn [findNode] in E.
  2:{ injection E as <- _. exact I. }
  simpl in Hp. rewrite hbind_load in E.
  destruct (Z.eqb_spec (key (cells h n)) k) as [Ek|Nk].
  - injection E as <- _. exists n. split; [reflexivity|].
    split; [apply reach_refl|exact Ek].
  - destruct (k <? key (cells h n)).
    + specialize (IH _ _ _ _ _ W (pvalid_left h n W Hp) E).
      destruct res as [[l|] [|]]; try assumption.
      destruct IH as (m & Em & Hr & Hk). exists n.
      split; [reflexivity|]. split; [|exact Hk].
      eapply reach_edge; [|exact Hr]. split; [exact Hp|now left].
    + specialize (IH _ _ _ _ _ W (pvalid_right h n W Hp) E).
      destruct res as [[l|] [|]]; try assumption.
      destruct IH as (m & Em & Hr & Hk). exists n.
      split; [reflexivity|]. split; [|exact Hk].
      eapply reach_edge; [|exact Hr]. split; [exact Hp|now right].
Qed.

(** *** Allocation *)


Lemma grows_ret {A : Type} (res0 : A) : grows (ret res0 : M V A) 0.
Proof. intros h res h' E. inversion E; subst. lia. Qed.

Lemma grows_fail {A : Type} e : grows (fail e : M V A) 0.
Proof. intros h res h'. discriminate. Qed.

Lemma grows_load p : grows (V := V) (load p) 0.
Proof.
  intros h res h' E. destruct p; [|discriminate].
  inversion E; subst. lia.
Qed.

Lemma grows_store l (cl : cell) : grows (V := V) (store l cl) 0.
Proof. intros h res h' E. inversion E; subst. simpl. lia. Qed.

Lemma grows_bind {A B : Type} (m : M V A) (f : A -> M V B) d1 d2 :
  grows m d1 -> (forall res, grows (V := V) (f res) d2) ->
  grows (V := V) (hbind m f) (d1 + d2).
Proof.
  intros H1 H2 h res h'. rewrite hbind_eq.
  destruct (m h) as [res1 h1|e|] eqn:E; try discriminate.
  intros E2. specialize (H1 _ _ _ E). specialize (H2 _ _ _ _ E2). lia.
Qed.

Lemma grows_weaken {A : Type} (m : M V A) d d' :
  grows m d -> (d <= d')%nat -> grows m d'.
Proof. intros H Hle h res h' E. specialize (H _ _ _ E). lia. Qed.

Ltac grows0 :=
  repeat first
    [ apply grows_ret | apply grows_fail | apply grows_load
    | apply grows_store
    | apply (grows_bind _ _ 0 0); [|intros ?]
    | assumption ].

Lemma grows_setLeft l p : grows (V := V) (setLeft l p) 0.
Proof. unfold setLeft. grows0. Qed.
Lemma grows_setRight l p : grows (V := V) (setRight l p) 0.
Proof. unfold setRight. grows0. Qed.
Lemma grows_setHeight l z : grows (V := V) (setHeight l z) 0.
Proof. unfold setHeight. grows0. Qed.
Lemma grows_setKey l k : grows (V := V) (setKey l k) 0.
Proof. unfold setKey. grows0. Qed.
Lemma grows_setValue l v : grows (V := V) (setValue l v) 0.
Proof. unfold setValue. grows0. Qed.

Lemma grows_append (sl : slice) (v : V) : grows (append sl v) 0.
Proof.
  intros h res h' E. unfold append in E.
  destruct (slen sl <? scap sl)%nat; inversion E; subst; simpl; lia.
Qed.

Lemma grows_getHeight p : grows (V := V) (getHeight p) 0.
Proof. destruct p; unfold getHeight; grows0. Qed.

Lemma grows_updateHeight p : grows (V := V) (updateHeight p) 0.
Proof.
  destruct p; unfold updateHeight; grows0;
    first [apply grows_getHeight | apply grows_setHeight].
Qed.

Lemma grows_balanceFactor p : grows (V := V) (balanceFactor p) 0.
Proof.
  destruct p; unfold balanceFactor; grows0; apply grows_getHeight.
Qed.

Lemma grows_rotateRight p : grows (V := V) (rotateRight p) 0.
Proof.
  unfold rotateRight. grows0.
  repeat match goal with
         | |- grows (V := V) (match ?a with _ => _ end) _ => destruct a
         end; grows0; apply grows_getHeight.
Qed.

Lemma grows_rotateLeft p : grows (V := V) (rotateLeft p) 0.
Proof.
  unfold rotateLeft. grows0.
  repeat match goal with
         | |- grows (V := V) (match ?a with _ => _ end) _ => destruct a
         end; grows0; apply grows_getHeight.
Qed.

Lemma grows_balance p : grows (V := V) (balance p) 0.
Proof.
  unfold balance.
  apply (grows_bind _ _ 0 0); [apply grows_updateHeight|intros _].
  apply (grows_bind _ _ 0 0); [apply grows_balanceFactor|intros bal].
  destruct p as [n|]; [|apply grows_fail].
  apply (grows_bind _ _ 0 0); [apply grows_load|intros cl].
  apply (grows_bind _ _ 0 0); [apply grows_balanceFactor|intros bl].
  apply (grows_bind _ _ 0 0); [apply grows_balanceFactor|intros br].
  repeat match goal with
         | |- grows (V := V) (if ?b then _ else _) _ => destruct b
         end;
    repeat first
      [ apply grows_rotateRight | apply grows_rotateLeft | apply grows_ret
      | apply grows_setLeft | apply grows_setRight
      | apply (grows_bind _ _ 0 0); [|intros ?] ].
Qed.

Lemma grows_insert fuel : forall k v p, grows (V := V) (insert fuel k v p) 1.
Proof.
  induction fuel as [|fuel IH]; intros k v p; [intros h res h'; discriminate|].
  cbn [insert]. destruct p as [n|].
  2:{ intros h res h' E. inversion E; subst. simpl. lia. }
  apply (grows_bind _ _ 0 1); [apply grows_load|intros cl].
  destruct (k <? key cl).
  { apply (grows_bind _ _ 1 0); [apply IH|intros l'].
    apply (grows_bind _ _ 0 0); [apply grows_setLeft|intros _].
    apply grows_balance. }
  destruct (k >? key cl).
  { apply (grows_bind _ _ 1 0); [apply IH|intros l'].
    apply (grows_bind _ _ 0 0); [apply grows_setRight|intros _].
    apply grows_balance. }
  apply (grows_weaken _ 0); [|lia].
  apply (grows_bind _ _ 0 0); [apply grows_append|intros sl].
  apply (grows_bind _ _ 0 0); [apply grows_setValue|intros _].
  apply grows_ret.
Qed.

Lemma grows_minValueNode fuel : forall p, grows (V := V) (minValueNode fuel p) 0.
Proof.
  induction fuel as [|fuel IH]; intros p; [intros h res h'; discriminate|].
  cbn [minValueNode].
  apply (grows_bind _ _ 0 0); [apply grows_load|intros cl].
  destruct (left cl); [apply IH|apply grows_ret].
Qed.

Lemma grows_delete fuel : forall k p, grows (V := V) (delete fuel k p) 0.
Proof.
  induction fuel as [|fuel IH]; intros k p; [intros h res h'; discriminate|].
  cbn [delete]. destruct p as [n|]; [|apply grows_ret].
  apply (grows_bind _ _ 0 0); [apply grows_load|intros cl].
  destruct (k <? key cl).
  { apply (grows_bind _ _ 0 0); [apply IH|intros l'].
    apply (grows_bind _ _ 0 0); [apply grows_setLeft|intros _].
    apply grows_balance. }
  destruct (k >? key cl).
  { apply (grows_bind _ _ 0 0); [apply IH|intros l'].
    apply (grows_bind _ _ 0 0); [apply grows_setRight|intros _].
    apply grows_balance. }
  destruct (left cl); [|apply grows_ret].
  destruct (right cl); [|apply grows_ret].
  apply (grows_bind _ _ 0 0); [apply grows_minValueNode|intros temp].
  apply (grows_bind _ _ 0 0); [apply grows_load|intros ct].
  apply (grows_bind _ _ 0 0); [apply grows_setKey|intros _].
  apply (grows_bind _ _ 0 0); [apply grows_load|intros ct'].
  apply (grows_bind _ _ 0 0); [apply grows_setValue|intros _].
  apply (grows_bind _ _ 0 0); [apply grows_load|intros c'].
  apply (grows_bind _ _ 0 0); [apply grows_load|intros ct''].
  apply (grows_bind _ _ 0 0); [apply IH|intros r'].
  apply (grows_bind _ _ 0 0); [apply grows_setRight|intros _].
  apply grows_balance.
Qed.

Lemma grows_find fuel : forall k p, grows (V := V) (find fuel k p) 0.
Proof.
  induction fuel as [|fuel IH]; intros k p; [intros h res h'; discriminate|].
  cbn [find]. destruct p as [n|]; [|apply grows_ret].
  apply (grows_bind _ _ 0 0); [apply grows_load|intros cl].
  destruct (key cl =? k); [apply grows_ret|].
  destruct (k <? key cl); apply IH.
Qed.

Lemma grows_findNode fuel : forall k p, grows (V := V) (findNode fuel k p) 0.
Proof.
  induction fuel as [|fuel IH]; intros k p; [intros h res h'; discriminate|].
  cbn [findNode]. destruct p as [n|]; [|apply grows_ret].
  apply (grows_bind _ _ 0 0); [apply grows_load|intros cl].
  destruct (key cl =? k); [apply grows_ret|].
  destruct (k <? key cl); apply IH.
Qed.

Lemma grows_getSize fuel : forall p, grows (V := V) (getSize fuel p) 0.
Proof.
  induction fuel as [|fuel IH]; intros p; [intros h res h'; discriminate|].
  cbn [getSize]. destruct p as [n|]; [|apply grows_ret].
  apply (grows_bind _ _ 0 0); [apply grows_load|intros cl].
  apply (grows_bind _ _ 0 0); [apply IH|intros sl].
  apply (grows_bind _ _ 0 0); [apply IH|intros sr].
  apply grows_ret.
Qed.

Lemma grows_traverseString fuel : forall p sb,
  grows (V := V) (traverseString fuel p sb) 0.
Proof.
  induction fuel as [|fuel IH]; intros p sb;
    [intros h res h'; discriminate|].
  cbn [traverseString]. destruct p as [n|]; [|apply grows_ret].
  apply (grows_bind _ _ 0 0); [apply grows_load|intros cl].
  apply (grows_bind _ _ 0 0); [apply IH|intros sb1].
  apply (grows_bind _ _ 0 0); [apply grows_load|intros cl'].
  apply (grows_bind _ _ 0 0); [apply grows_load|intros cl''].
  apply IH.
Qed.

Lemma grows_nodeString fuel p : grows (V := V) (nodeString fuel p) 0.
Proof.
  unfold nodeString. destruct p as [n|]; [|apply grows_ret].
  apply (grows_bind _ _ 0 0); [apply grows_traverseString|intros str].
  apply grows_ret.
Qed.

Lemma grows_contains fuel k p : grows (V := V) (contains fuel k p) 0.
Proof.
  unfold contains.
  apply (grows_bind _ _ 0 0); [apply grows_find|intros res0].
  apply grows_ret.
Qed.

Lemma grows_min fuel p : grows (V := V) (m <~ minValueNode fuel p ;; get m) 0.
Proof.
  apply (grows_bind _ _ 0 0); [apply grows_minValueNode|intros m].
  unfold get. apply (grows_bind _ _ 0 0); [apply grows_load|intros cl].
  apply grows_ret.
Qed.

Lemma nth_error_set_nth_other (rs : list ptr) : forall t t' p,
  t' <> t -> nth_error (set_nth rs t p) t' = nth_error rs t'.
Proof.
  induction rs as [|r0 rs IH]; intros t t' p Hne; [reflexivity|].
  destruct t, t'; simpl; try reflexivity; [contradiction|].
  apply IH. congruence.
Qed.

(** What a returning mutation through the root [root] leaves alone. *)
Lemma mut_post_local h root r h' :
  mut_post h root r h' ->
  forall l, (l < next h)%nat -> ~ below h root l ->
            cells h' l = cells h l.
Proof.
  intros (_ & _ & _ & _ & HS) l Hl Hn.
  destruct (HS (below h root) (closed_below h root) (inS_below h root))
    as (F & _ & _).
  apply F. intros [Hb|Hb]; [contradiction|lia].
Qed.

(** *** Arrays, keys and slices that a method leaves alone *)
Lemma same_data_refl h : same_data h h.
Proof. split; [reflexivity|]. split; [reflexivity|]. now intros l. Qed.

Lemma same_data_trans h1 h2 h3 :
  same_data h1 h2 -> same_data h2 h3 -> same_data h1 h3.
Proof.
  intros (A1 & N1 & C1) (A2 & N2 & C2).
  split; [congruence|]. split; [congruence|].
  intros l. destruct (C1 l), (C2 l). split; congruence.
Qed.

Lemma pres_ret {A : Type} (res0 : A) : pres (ret res0 : M V A).
Proof. intros h res h' E. inversion E; subst. apply same_data_refl. Qed.

Lemma pres_fail {A : Type} e : pres (fail e : M V A).
Proof. intros h res h'. discriminate. Qed.

Lemma pres_load p : pres (V := V) (load p).
Proof.
  intros h res h' E. destruct p; [|discriminate].
  inversion E; subst. apply same_data_refl.
Qed.

Lemma pres_bind {A B : Type} (m : M V A) (f : A -> M V B) :
  pres m -> (forall res, pres (V := V) (f res)) -> pres (V := V) (hbind m f).
Proof.
  intros H1 H2 h res h'. rewrite hbind_eq.
  destruct (m h) as [res1 h1|e|] eqn:E; try discriminate.
  intros E2. exact (same_data_trans _ _ _ (H1 _ _ _ E) (H2 _ _ _ _ E2)).
Qed.

Lemma same_data_hsetL h l p : same_data h (hsetL h l p).
Proof.
  split; [reflexivity|]. split; [reflexivity|]. intros l'.
  unfold hsetL, upd. cbn [cells].
  destruct (Nat.eqb_spec l' l) as [->|N]; now split.
Qed.

Lemma same_data_hsetR h l p : same_data h (hsetR h l p).
Proof.
  split; [reflexivity|]. split; [reflexivity|]. intros l'.
  unfold hsetR, upd. cbn [cells].
  destruct (Nat.eqb_spec l' l) as [->|N]; now split.
Qed.

Lemma same_data_hsetH h l z : same_data h (hsetH h l z).
Proof.
  split; [reflexivity|]. split; [reflexivity|]. intros l'.
  unfold hsetH, upd. cbn [cells].
  destruct (Nat.eqb_spec l' l) as [->|N]; now split.
Qed.

Lemma pres_setLeft l p : pres (V := V) (setLeft l p).
Proof. intros h res h' E. inversion E; subst. apply same_data_hsetL. Qed.

Lemma pres_setRight l p : pres (V := V) (setRight l p).
Proof. intros h res h' E. inversion E; subst. apply same_data_hsetR. Qed.

Lemma pres_setHeight l z : pres (V := V) (setHeight l z).
Proof. intros h res h' E. inversion E; subst. apply same_data_hsetH. Qed.

Lemma pres_getHeight p : pres (V := V) (getHeight p).
Proof.
  intros h res h' E. rewrite getHeight_eq in E. inversion E; subst.
  apply same_data_refl.
Qed.

Lemma pres_updateHeight p : pres (V := V) (updateHeight p).
Proof.
  destruct p as [l|]; [|apply pres_fail].
  intros h res h' E. rewrite updateHeight_eq in E. inversion E; subst.
  apply same_data_hsetH.
Qed.

Lemma pres_balanceFactor p : pres (V := V) (balanceFactor p).
Proof.
  intros h res h' E. rewrite balanceFactor_eq in E. inversion E; subst.
  apply same_data_refl.
Qed.

Lemma pres_rotateRight p : pres (V := V) (rotateRight p).
Proof.
  unfold rotateRight.
  apply pres_bind; [apply pres_load|intros cy].
  apply pres_bind; [apply pres_load|intros cx].
  destruct (left cy); [|apply pres_fail].
  destruct p; [|apply pres_fail].
  repeat first
    [ apply pres_ret | apply pres_setRight | apply pres_setLeft
    | apply pres_updateHeight | apply pres_bind; [|intros ?] ].
Qed.

Lemma pres_rotateLeft p : pres (V := V) (rotateLeft p).
Proof.
  unfold rotateLeft.
  apply pres_bind; [apply pres_load|intros cx].
  apply pres_bind; [apply pres_load|intros cy].
  destruct p; [|apply pres_fail].
  destruct (right cx); [|apply pres_fail].
  repeat first
    [ apply pres_ret | apply pres_setRight | apply pres_setLeft
    | apply pres_updateHeight | apply pres_bind; [|intros ?] ].
Qed.

Lemma pres_balance p : pres (V := V) (balance p).
Proof.
  unfold balance.
  apply pres_bind; [apply pres_updateHeight|intros _].
  apply pres_bind; [apply pres_balanceFactor|intros bal].
  destruct p as [n|]; [|apply pres_fail].
  apply pres_bind; [apply pres_load|intros cl].
  apply pres_bind; [apply pres_balanceFactor|intros bl].
  apply pres_bind; [apply pres_balanceFactor|intros br].
  repeat match goal with
         | |- pres (V := V) (if ?b then _ else _) => destruct b
         end;
    repeat first
      [ apply pres_rotateRight | apply pres_rotateLeft | apply pres_ret
      | apply pres_setLeft | apply pres_setRight
      | apply pres_bind; [|intros ?] ].
Qed.

Lemma keeps_pres {A : Type} (m : M V A) : pres m -> keeps m.
Proof. intros H h res h' E. destruct (H h res h' E) as (Ea & En & _). auto. Qed.

Lemma keeps_bind {A B : Type} (m : M V A) (f : A -> M V B) :
  keeps m -> (forall res, keeps (V := V) (f res)) ->
  keeps (V := V) (hbind m f).
Proof.
  intros H1 H2 h res h'. rewrite hbind_eq.
  destruct (m h) as [res1 h1|e|] eqn:E; try discriminate.
  intros E2. destruct (H1 _ _ _ E), (H2 _ _ _ _ E2). split; congruence.
Qed.

Lemma keeps_store l (cl : cell) : keeps (V := V) (store l cl).
Proof. intros h res h' E. inversion E; subst. now split. Qed.

Lemma keeps_setKey l k : keeps (V := V) (setKey l k).
Proof. intros h res h' E. inversion E; subst. now split. Qed.

Lemma keeps_setValue l (sl : slice) : keeps (V := V) (setValue l sl).
Proof. intros h res h' E. inversion E; subst. now split. Qed.

Lemma keeps_minValueNode fuel : forall p, keeps (V := V) (minValueNode fuel p).
Proof.
  induction fuel as [|fuel IH]; intros p; [intros h res h'; discriminate|].
  cbn [minValueNode].
  apply keeps_bind; [apply keeps_pres, pres_load|intros cl].
  destruct (left cl); [apply IH|apply keeps_pres, pres_ret].
Qed.

Lemma keeps_step (m : M V ptr) (w : ptr -> M V unit) p :
  keeps m -> (forall q, pres (w q)) ->
  keeps (V := V) (q <~ m ;; w q ;;; balance p).
Proof.
  intros Hm Hw. apply keeps_bind; [exact Hm|intros q].
  apply keeps_pres. apply pres_bind; [apply Hw|intros _]. apply pres_balance.
Qed.

Lemma keeps_delete fuel : forall k p, keeps (V := V) (delete fuel k p).
Proof.
  induction fuel as [|fuel IH]; intros k p; [intros h res h'; discriminate|].
  cbn [delete]. destruct p as [n|]; [|apply keeps_pres, pres_ret].
  apply keeps_bind; [apply keeps_pres, pres_load|intros cl].
  destruct (k <? key cl).
  { apply keeps_step; [apply IH|intros q; apply pres_setLeft]. }
  destruct (k >? key cl).
  { apply keeps_step; [apply IH|intros q; apply pres_setRight]. }
  destruct (left cl); [|apply keeps_pres, pres_ret].
  destruct (right cl); [|apply keeps_pres, pres_ret].
  apply keeps_bind; [apply keeps_minValueNode|intros temp].
  apply keeps_bind; [apply keeps_pres, pres_load|intros ct].
  apply keeps_bind; [apply keeps_setKey|intros _].
  apply keeps_bind; [apply keeps_pres, pres_load|intros ct'].
  apply keeps_bind; [apply keeps_setValue|intros _].
  apply keeps_bind; [apply keeps_pres, pres_load|intros c'].
  apply keeps_bind; [apply keeps_pres, pres_load|intros ct''].
  apply keeps_step; [apply IH|intros q; apply pres_setRight].
Qed.

(** *** The slices stay as Go keeps them *)
Lemma slices_ok_data h h' : same_data h h' -> slices_ok h -> slices_ok h'.
Proof.
  intros (Ea & En & Hd) (Ha & Hs & Hc).
  assert (Ev : forall l, value (cells h' l) = value (cells h l))
    by (intros l; apply Hd).
  unfold slices_ok, slice_ok, arr_of. rewrite Ea, En.
  split; [exact Ha|]. split.
  - intros l. rewrite Ev. apply Hs.
  - intros l1 l2. rewrite !Ev. apply Hc.
Qed.

Lemma okp_pres {A : Type} (m : M V A) : pres m -> okp m.
Proof. intros H h res h' E. apply slices_ok_data. eauto. Qed.

Lemma okp_bind {A B : Type} (m : M V A) (f : A -> M V B) :
  okp m -> (forall res, okp (V := V) (f res)) -> okp (V := V) (hbind m f).
Proof.
  intros H1 H2 h res h'. rewrite hbind_eq.
  destruct (m h) as [res1 h1|e|] eqn:E; try discriminate.
  intros E2 Hok. exact (H2 _ _ _ _ E2 (H1 _ _ _ E Hok)).
Qed.

Lemma okp_setKey l k : okp (V := V) (setKey l k).
Proof.
  intros h res h' E (Ha & Hs & Hc). inversion E; subst; clear E.
  assert (Ev : forall l', value (cells (hsetK h l k) l') = value (cells h l')).
  { intros l'. unfold hsetK, upd. cbn [cells].
    destruct (Nat.eqb_spec l' l) as [->|N]; reflexivity. }
  change (slices_ok (hsetK h l k)).
  split; [exact Ha|]. split.
  - intros l'. rewrite Ev. apply Hs.
  - intros l1 l2. unfold arr_of. rewrite !Ev. apply Hc.
Qed.

(** Writing into a node a slice that is as Go keeps it and whose
    capacity is that of the slices on its array. *)
Lemma slices_ok_hsetV h l (sl : slice) :
  slices_ok h -> slice_ok h sl ->
  (forall l2, l2 <> l -> sl <> nil_slice ->
     value (cells h l2) <> nil_slice -> sarr sl = arr_of h l2 ->
     scap sl = scap (value (cells h l2))) ->
  slices_ok (hsetV h l sl).
Proof.
  intros (Ha & Hs & Hc) Hsl Hcap.
  assert (Ev : forall l', value (cells (hsetV h l sl) l')
                          = if Nat.eqb l' l then sl else value (cells h l')).
  { intros l'. unfold hsetV, upd. cbn [cells].
    destruct (Nat.eqb_spec l' l) as [->|N]; reflexivity. }
  split; [exact Ha|]. split.
  - intros l'. rewrite Ev. destruct (Nat.eqb l' l); [exact Hsl|apply Hs].
  - intros l1 l2. unfold arr_of. rewrite !Ev.
    destruct (Nat.eqb_spec l1 l) as [->|N1];
      destruct (Nat.eqb_spec l2 l) as [->|N2]; intros V1 V2 E.
    + reflexivity.
    + now apply Hcap.
    + symmetry. now apply Hcap.
    + now apply Hc.
Qed.

(** The header copy of the two-children branch of [delete]. *)
Lemma okp_copy l p :
  okp (V := V) (ct <~ load p ;; setValue l (value ct)).
Proof.
  intros h res h' E Hok. destruct p as [t|]; [|discriminate].
  inversion E; subst; clear E.
  change (slices_ok (hsetV h l (value (cells h t)))).
  pose proof Hok as (Ha & Hs & Hc).
  apply slices_ok_hsetV; [exact Hok|apply Hs|].
  intros l2 _ V1 V2 Heq. now apply Hc.
Qed.

Lemma slice_eq_dec (s1 s2 : slice) : {s1 = s2} + {s1 <> s2}.
Proof. decide equality; apply Nat.eq_dec. Qed.

Lemma length_put (xs : list V) i (v : V) :
  (i <= List.length xs)%nat ->
  List.length (put xs i v) = Nat.max (List.length xs) (S i).
Proof.
  intros Hi. unfold put. rewrite length_app, length_firstn.
  cbn [List.length]. rewrite length_skipn. lia.
Qed.

(** [n.value = append(n.value, v)]. *)
Lemma okp_append l p (v : V) :
  okp (ct <~ load p ;; sl <~ append (value ct) v ;; setValue l sl).
Proof.
  intros h res h' E Hok. destruct p as [t|]; [|discriminate].
  rewrite hbind_load, hbind_eq in E. unfold append in E.
  pose proof Hok as (Ha & Hs & Hc).
  set (s0 := value (cells h t)) in *.
  destruct (Nat.ltb_spec (slen s0) (scap s0)) as [Hlt|Hge];
    inversion E; subst; clear E.
  - (* in place *)
    pose proof (Hs t) as Ht. fold s0 in Ht.
    destruct Ht as [En|(Hal & Hlen)].
    { rewrite En in Hlt. simpl in Hlt. lia. }
    assert (N0 : s0 <> nil_slice).
    { intros En. rewrite En in Hlt. simpl in Hlt. lia. }
    set (h1 := mkHeap (cells h) (next h)
                 (upd (arrs h) (sarr s0) (put (arrs h (sarr s0)) (slen s0) v))
                 (anext h)).
    assert (L1 : List.length (arrs h1 (sarr s0))
                 = Nat.max (List.length (arrs h (sarr s0))) (S (slen s0))).
    { unfold h1, upd. cbn [arrs]. rewrite Nat.eqb_refl.
      apply length_put. lia. }
    assert (O1 : forall a, a <> sarr s0 -> arrs h1 a = arrs h a).
    { intros a Na. unfold h1, upd. cbn [arrs].
      destruct (Nat.eqb_spec a (sarr s0)); [contradiction|reflexivity]. }
    assert (Hok1 : slices_ok h1).
    { split; [|split].
      - intros a Hle. rewrite O1; [now apply Ha|]. cbn [anext h1] in Hle. lia.
      - intros l'. change (cells h1 l') with (cells h l').
        destruct (slice_eq_dec (value (cells h l')) nil_slice) as [En|Nn];
          [now left|].
        destruct (Hs l') as [En|(Hal' & Hlen')]; [now left|right].
        split; [exact Hal'|].
        destruct (Nat.eq_dec (sarr (value (cells h l'))) (sarr s0)) as [Ea|Na].
        + assert (scap (value (cells h l')) = scap s0)
            by (apply (Hc l' t); auto).
          rewrite Ea in *. rewrite L1. lia.
        + rewrite O1 by exact Na. exact Hlen'.
      - intros l1 l2. apply Hc. }
    change (slices_ok (hsetV h1 l (mkSlice (sarr s0) (S (slen s0)) (scap s0)))).
    apply slices_ok_hsetV; [exact Hok1| |].
    + right. cbn [sarr slen scap]. split; [exact Hal|]. rewrite L1. lia.
    + intros l2 _ _ V2 Heq. cbn [sarr scap] in *.
      change (cells h1 l2) with (cells h l2) in *.
      symmetry. apply (Hc l2 t); auto.
  - (* a new array *)
    set (h1 := mkHeap (cells h) (next h)
                 (upd (arrs h) (anext h) (sread h s0 ++ [v]))
                 (S (anext h))).
    assert (O1 : forall a, a <> anext h -> arrs h1 a = arrs h a).
    { intros a Na. unfold h1, upd. cbn [arrs].
      destruct (Nat.eqb_spec a (anext h)); [contradiction|reflexivity]. }
    assert (Lr : List.length (sread h s0) = slen s0).
    { unfold sread. pose proof (Hs t) as Ht. fold s0 in Ht.
      destruct Ht as [En|(_ & Hlen)].
      - rewrite En. reflexivity.
      - rewrite length_firstn. lia. }
    assert (Hok1 : slices_ok h1).
    { split; [|split].
      - intros a Hle. cbn [anext h1] in Hle. rewrite O1 by lia.
        apply Ha. lia.
      - intros l'. destruct (Hs l') as [En|(Hal' & Hlen')]; [now left|right].
        change (cells h1 l') with (cells h l').
        split; [cbn [anext h1]; lia|]. rewrite O1 by lia. exact Hlen'.
      - intros l1 l2. apply Hc. }
    change (slices_ok
              (hsetV h1 l (mkSlice (anext h) (S (slen s0))
                             (growcap (S (slen s0)) (scap s0))))).
    apply slices_ok_hsetV; [exact Hok1| |].
    + right. cbn [sarr slen scap]. split; [cbn [anext h1]; lia|].
      unfold h1, upd. cbn [arrs]. rewrite Nat.eqb_refl.
      rewrite length_app, Lr. simpl.
      pose proof (growcap_fits (S (slen s0)) (scap s0)). lia.
    + intros l2 _ _ V2 Heq. cbn [sarr scap] in *.
      change (cells h1 l2) with (cells h l2) in *.
      destruct (Hs l2) as [En|(Hal' & _)]; [contradiction|].
      unfold arr_of in Heq. change (cells h1 l2) with (cells h l2) in Heq.
      lia.
Qed.

Lemma okp_createNode k (v : V) : okp (createNode k v).
Proof.
  intros h res h' E (Ha & Hs & Hc). inversion E; subst; clear E.
  change (slices_ok (halloc h k v)).
  assert (Ev : forall l', value (cells (halloc h k v) l')
                          = if Nat.eqb l' (next h)
                            then mkSlice (anext h) 1 1
                            else value (cells h l')).
  { intros l'. unfold halloc, upd. cbn [cells].
    destruct (Nat.eqb_spec l' (next h)); reflexivity. }
  assert (O1 : forall a, a <> anext h -> arrs (halloc h k v) a = arrs h a).
  { intros a Na. unfold halloc, upd. cbn [arrs].
    destruct (Nat.eqb_spec a (anext h)); [contradiction|reflexivity]. }
  split; [|split].
  - intros a Hle. cbn [anext halloc] in Hle. rewrite O1 by lia.
    apply Ha. lia.
  - intros l'. rewrite Ev. destruct (Nat.eqb l' (next h)).
    + right. cbn [sarr slen scap anext halloc]. split; [lia|].
      unfold halloc, upd. cbn [arrs]. rewrite Nat.eqb_refl. simpl. lia.
    + destruct (Hs l') as [En|(Hal' & Hlen')]; [now left|right].
      split; [cbn [anext halloc]; lia|]. rewrite O1 by lia. exact Hlen'.
  - intros l1 l2. unfold arr_of. rewrite !Ev.
    destruct (Nat.eqb_spec l1 (next h)) as [->|N1];
      destruct (Nat.eqb_spec l2 (next h)) as [->|N2];
      cbn [sarr scap]; intros V1 V2 E.
    + reflexivity.
    + destruct (Hs l2) as [En|(Hal' & _)]; [contradiction|lia].
    + destruct (Hs l1) as [En|(Hal' & _)]; [contradiction|lia].
    + now apply Hc.
Qed.

Lemma okp_step (m : M V ptr) (w : ptr -> M V unit) p :
  okp m -> (forall q, pres (w q)) ->
  okp (V := V) (q <~ m ;; w q ;;; balance p).
Proof.
  intros Hm Hw. apply okp_bind; [exact Hm|intros q].
  apply okp_pres. apply pres_bind; [apply Hw|intros _]. apply pres_balance.
Qed.

Lemma okp_insert fuel : forall k (v : V) p, okp (insert fuel k v p).
Proof.
  induction fuel as [|fuel IH]; intros k v p; [intros h res h'; discriminate|].
  cbn [insert]. destruct p as [n|]; [|apply okp_createNode].
  intros h res h' E. rewrite hbind_load in E. revert E.
  destruct (k <? key (cells h n)).
  { apply (okp_step _ (setLeft n)); [apply IH|intros q; apply pres_setLeft]. }
  destruct (k >? key (cells h n)).
  { apply (okp_step _ (setRight n)); [apply IH|intros q; apply pres_setRight]. }
  intros E.
  assert (E' : (ct <~ load (Some n) ;; sl <~ append (value ct) v ;;
                setValue n sl) h = Done tt h').
  { revert E. unfold hbind, load.
    destruct (append (value (cells h n)) v h) as [sl h1|e|]; try discriminate.
    unfold setValue, hbind, load, store, ret. intros E. now inversion E. }
  exact (okp_append n (Some n) v h tt h' E').
Qed.

Lemma pres_minValueNode fuel : forall p, pres (V := V) (minValueNode fuel p).
Proof.
  induction fuel as [|fuel IH]; intros p; [intros h res h'; discriminate|].
  cbn [minValueNode].
  apply pres_bind; [apply pres_load|intros cl].
  destruct (left cl); [apply IH|apply pres_ret].
Qed.

Lemma okp_delete fuel : forall k p, okp (V := V) (delete fuel k p).
Proof.
  induction fuel as [|fuel IH]; intros k p; [intros h res h'; discriminate|].
  cbn [delete]. destruct p as [n|]; [|apply okp_pres, pres_ret].
  apply okp_bind; [apply okp_pres, pres_load|intros cl].
  destruct (k <? key cl).
  { apply okp_step; [apply IH|intros q; apply pres_setLeft]. }
  destruct (k >? key cl).
  { apply okp_step; [apply IH|intros q; apply pres_setRight]. }
  destruct (left cl); [|apply okp_pres, pres_ret].
  destruct (right cl); [|apply okp_pres, pres_ret].
  apply okp_bind; [apply okp_pres, pres_minValueNode|intros temp].
  apply okp_bind; [apply okp_pres, pres_load|intros ct].
  apply okp_bind; [apply okp_setKey|intros _].
  intros h res h' E.
  assert (E' : (u <~ (ct' <~ load temp ;; setValue n (value ct')) ;;
                c' <~ load (Some n) ;;
                ct'' <~ load temp ;;
                r' <~ delete fuel (key ct'') (right c') ;;
                setRight n r' ;;;
                balance (Some n)) h = Done res h').
  { rewrite <- E. unfold hbind. destruct (load temp h); reflexivity. }
  revert E'. apply okp_bind; [apply okp_copy|intros _].
  apply okp_bind; [apply okp_pres, pres_load|intros c'].
  apply okp_bind; [apply okp_pres, pres_load|intros ct''].
  apply okp_step; [apply IH|intros q; apply pres_setRight].
Qed.

(** *** What [insert] does to the arrays *)
Lemma arrays_post_keep h p k (v : V) h1 h' :
  arrays_post h p k v h1 -> arrs h' = arrs h1 -> anext h' = anext h1 ->
  arrays_post h p k v h'.
Proof.
  intros (Hn & H) Ea En. unfold arrays_post. rewrite Ea, En.
  split; [exact Hn|exact H].
Qed.

Lemma arrays_post_up h n q k (v : V) h' :
  (n < next h)%nat ->
  left (cells h n) = q \/ right (cells h n) = q ->
  arrays_post h q k v h' -> arrays_post h (Some n) k v h'.
Proof.
  intros Hn Hq (Ha & H). split; [exact Ha|].
  destruct H as [H|(l & Hb & R)]; [now left|right].
  exists l. split; [|exact R].
  destruct q as [b|]; [|contradiction]. simpl in *.
  eapply reach_edge; [|exact Hb]. split; [exact Hn|exact Hq].
Qed.

Lemma insert_arrays fuel : forall k (v : V) p h r h',
  WF h -> pvalid h p ->
  insert fuel k v p h = Done r h' -> arrays_post h p k v h'.
Proof.
  induction fuel as [|fuel IH]; intros k v p h r h' W Hp E; [discriminate|].
  destruct p as [n|]; cbn [insert] in E.
  - simpl in Hp. rewrite hbind_load in E.
    destruct (Z.ltb_spec k (key (cells h n))) as [Hlt|Hge].
    { rewrite hbind_eq in E.
      destruct (insert fuel k v (left (cells h n)) h) as [r1 h1|e|] eqn:E1;
        try discriminate.
      destruct (keeps_pres _ (pres_bind _ _ (pres_setLeft n r1)
                                (fun _ => pres_balance (Some n))) _ _ _ E)
        as [Ea En].
      apply (arrays_post_keep h (Some n) k v h1); [|exact Ea|exact En].
      apply (arrays_post_up h n (left (cells h n))); [exact Hp|now left|].
      exact (IH _ _ _ _ _ _ W (pvalid_left h n W Hp) E1). }
    destruct (Z.gtb_spec k (key (cells h n))) as [Hgt|Hle].
    { rewrite hbind_eq in E.
      destruct (insert fuel k v (right (cells h n)) h) as [r1 h1|e|] eqn:E1;
        try discriminate.
      destruct (keeps_pres _ (pres_bind _ _ (pres_setRight n r1)
                                (fun _ => pres_balance (Some n))) _ _ _ E)
        as [Ea En].
      apply (arrays_post_keep h (Some n) k v h1); [|exact Ea|exact En].
      apply (arrays_post_up h n (right (cells h n))); [exact Hp|now right|].
      exact (IH _ _ _ _ _ _ W (pvalid_right h n W Hp) E1). }
    rewrite hbind_eq in E. unfold append in E.
    destruct (Nat.ltb_spec (slen (value (cells h n)))
                (scap (value (cells h n)))) as [Hc|Hc];
      inversion E; subst; clear E.
    + split; [simpl; lia|]. right. exists n.
      split; [apply reach_refl|]. split; [lia|]. split; [exact Hc|].
      split; reflexivity.
    + split; [simpl; lia|]. left. intros a Ha. simpl. unfold upd.
      destruct (Nat.eqb_spec a (anext h)); [lia|reflexivity].
  - inversion E; subst; clear E. split; [simpl; lia|]. left.
    intros a Ha. simpl. unfold upd.
    destruct (Nat.eqb_spec a (anext h)); [lia|reflexivity].
Qed.

End Sharing.

(** What each public call may change. *)
Lemma run_effect {V : Type} {RT : Runtime}
    (s : state (V := V)) (c : call (V := V)) (fuel : nat)
    (rv : retval (V := V)) (s' : state (V := V)) :
  reachable s -> run fuel c s = Returned rv s' ->
  match c with
  | CHeight _ | CSize _ | CMin _ | CFind _ _ | CContains _ _ | CString _ =>
      s' = s
  | CPrint _ =>
      hp s' = hp s /\ roots s' = roots s
      /\ exists msg, out s' = out s ++ [msg]
  | CSubTreeFromKey _ _ =>
      hp s' = hp s /\ out s' = out s
      /\ (roots s' = roots s \/ exists l, roots s' = roots s ++ [Some l])
  | CNew => hp s' = hp s /\ out s' = out s /\ roots s' = roots s ++ [None]
  | CInsert _ _ _ | CDelete _ _ =>
      out s' = out s /\ List.length (roots s') = List.length (roots s)
  end.
Proof.
  intros Hr E. pose proof (reachable_ok s Hr) as Hs.
  pose proof Hs as [W _].
  destruct c as [|t k v|t k|t|t|t|t k|t k|t|t|t k];
    unfold run, root_of in E;
    try (destruct t as [t|]; [|discriminate E];
         destruct (nth_error (roots s) t) as [root|] eqn:En;
         [pose proof (root_pvalid s t root Hs En) as Hp|discriminate]).
  - injection E as _ <-. simpl. auto.
  - apply lift_returned in E as (r & h' & _ & E). injection E as _ <-.
    simpl. split; [reflexivity|apply length_set_nth].
  - destruct root as [n|]; [|injection E as _ <-; auto].
    apply lift_returned in E as (r & h' & _ & E). injection E as _ <-.
    simpl. split; [reflexivity|apply length_set_nth].
  - destruct root as [n|]; [|now injection E as _ <-].
    apply lift_returned in E as (r & h' & Em & E). injection E as _ <-.
    rewrite getHeight_eq in Em. injection Em as _ <-. apply state_eta.
  - destruct root as [n|]; [|now injection E as _ <-].
    apply lift_returned in E as (r & h' & Em & E). injection E as _ <-.
    pose proof (outcome_ok_Done _ _ _ _ _ _ _
                  (getSize_spec fuel (Some n) (hp s) W Hp) Em) as ->.
    apply state_eta.
  - destruct root as [n|]; [|now injection E as _ <-].
    apply lift_returned in E as (r & h' & Em & E). injection E as _ <-.
    pose proof (outcome_ok_Done _ _ _ _ _ _ _
                  (min_spec fuel n (hp s) W Hp) Em) as ->.
    apply state_eta.
  - destruct root as [n|]; [|now injection E as _ <-].
    apply lift_returned in E as (r & h' & Em & E). injection E as _ <-.
    pose proof (outcome_ok_Done _ _ _ _ _ _ _
                  (find_spec fuel k (Some n) (hp s) W Hp) Em) as ->.
    apply state_eta.
  - destruct root as [n|]; [|now injection E as _ <-].
    apply lift_returned in E as (r & h' & Em & E). injection E as _ <-.
    pose proof (outcome_ok_Done _ _ _ _ _ _ _
                  (contains_spec fuel k (Some n) (hp s) W Hp) Em) as ->.
    apply state_eta.
  - destruct root as [n|]; [|now injection E as _ <-].
    apply lift_returned in E as (r & h' & Em & E). injection E as _ <-.
    pose proof (outcome_ok_Done _ _ _ _ _ _ _
                  (nodeString_spec fuel (Some n) (hp s) W Hp) Em) as ->.
    apply state_eta.
  - destruct root as [n|].
    + apply lift_returned in E as (r & h' & Em & E). injection E as _ <-.
      pose proof (outcome_ok_Done _ _ _ _ _ _ _
                    (nodeString_spec fuel (Some n) (hp s) W Hp) Em) as ->.
      simpl. eauto.
    + injection E as _ <-. simpl. eauto.
  - destruct root as [n|]; [|injection E as _ <-; auto].
    apply lift_returned in E as (r & h' & Em & E).
    pose proof (outcome_ok_Done _ _ _ _ _ _ _
                  (findNode_spec fuel k (Some n) (hp s) W Hp) Em)
      as [-> _].
    destruct r as [[l|] [|]]; injection E as _ <-; simpl; eauto.
Qed.

(** X13.  The queries [Height], [Size], [Min], [Find], [Contains] and
    [String] leave the whole state as it was: no node, no root and no
    diagnostic line changes, however the tree objects share nodes.
    [Print] adds one line to the diagnostic sink and nothing else;
    [SubTreeFromKey] and [New] add at most one tree object and write to no
    node; [Insert] and [Delete] add no tree object and print nothing. *)
Theorem X13_queries_do_not_write {V : Type} {RT : Runtime}
    (s : state (V := V)) (c : call (V := V)) (fuel : nat)
    (rv : retval (V := V)) (s' : state (V := V)) :
  reachable s -> run fuel c s = Returned rv s' ->
  match c with
  | CHeight _ | CSize _ | CMin _ | CFind _ _ | CContains _ _ | CString _ =>
      s' = s
  | CPrint _ =>
      hp s' = hp s /\ roots s' = roots s
      /\ exists msg, out s' = out s ++ [msg]
  | CSubTreeFromKey _ _ =>
      hp s' = hp s /\ out s' = out s
      /\ (roots s' = roots s \/ exists l, roots s' = roots s ++ [Some l])
  | CNew => hp s' = hp s /\ out s' = out s /\ roots s' = roots s ++ [None]
  | CInsert _ _ _ | CDelete _ _ =>
      out s' = out s /\ List.length (roots s') = List.length (roots s)
  end.
Proof. apply run_effect. Qed.

(** X14.  A tree object returned by [SubTreeFromKey] is no copy: its root
    is a node of the store as it was, reached from the root of the tree
    it was asked of, and holds the key asked for; the store itself is
    left as it was. *)
Theorem X14_SubTreeFromKey_shares {V : Type} {RT : Runtime}
    (s : state (V := V)) (t : nat) (k : Z) (fuel : nat) (t' : nat)
    (s' : state (V := V)) :
  reachable s ->
  run fuel (CSubTreeFromKey (Some t) k) s
  = Returned (RSub (Some t') true) s' ->
  exists n l,
    nth_error (roots s) t = Some (Some n)
    /\ t' = List.length (roots s)
    /\ nth_error (roots s') t' = Some (Some l)
    /\ reach (hp s) n l
    /\ key (cells (hp s) l) = k
    /\ hp s' = hp s.
Proof.
  intros Hr E. pose proof (reachable_ok s Hr) as Hs.
  pose proof Hs as [W _]. unfold run, root_of in E.
  destruct (nth_error (roots s) t) as [root|] eqn:En; [|discriminate].
  pose proof (root_pvalid s t root Hs En) as Hp.
  destruct root as [n|]; [|discriminate].
  apply lift_returned in E as (r & h' & Em & E).
  pose proof (outcome_ok_Done _ _ _ _ _ _ _
                (findNode_spec fuel k (Some n) (hp s) W Hp) Em) as [-> _].
  pose proof (findNode_reach fuel k (Some n) (hp s) r (hp s) W Hp Em) as Hf.
  destruct r as [[l|] [|]]; try discriminate.
  destruct Hf as (n0 & [= <-] & Hreach & Hk).
  injection E as <- <-. exists n, l. simpl.
  repeat split; try assumption.
  rewrite nth_error_app2 by lia. now rewrite Nat.sub_diag.
Qed.

(** X15.  An [Insert] or [Delete] through one tree object writes only to
    nodes that were reachable from the root of that object, and to nodes
    it allocates: every other node of the store keeps its key, its slice
    of values, its children and its cached height, and the roots of the
    other tree objects stay as they were.  The backing arrays are
    another matter, since the slices of two nodes can be on one array:
    [Delete] writes to no array; [Insert] allocates at most one array,
    and of the arrays there were it writes none, or one element of one,
    namely the element behind the last one of the slice of a node that
    was reachable from the root, holds the key and has capacity left. *)
Theorem X15_mutation_is_local {V : Type} {RT : Runtime}
    (s : state (V := V)) (c : call (V := V)) (t : nat) (root : ptr)
    (fuel : nat) (rv : retval (V := V)) (s' : state (V := V)) :
  reachable s ->
  (exists k v, c = CInsert (Some t) k v) \/ (exists k, c = CDelete (Some t) k) ->
  nth_error (roots s) t = Some root ->
  run fuel c s = Returned rv s' ->
  (forall l, (l < next (hp s))%nat -> ~ below (hp s) root l ->
             cells (hp s') l = cells (hp s) l)
  /\ (forall t', t' <> t -> nth_error (roots s') t' = nth_error (roots s) t')
  /\ match c with
     | CInsert _ k v => arrays_post (hp s) root k v (hp s')
     | _ => arrs (hp s') = arrs (hp s) /\ anext (hp s') = anext (hp s)
     end.
Proof.
  intros Hr Hc En E. pose proof (reachable_ok s Hr) as Hs.
  pose proof Hs as [W _].
  pose proof (root_pvalid s t root Hs En) as Hp.
  destruct Hc as [(k & v & ->)|(k & ->)]; unfold run, root_of in E;
    rewrite En in E.
  - apply lift_returned in E as (r & h' & Em & E). injection E as _ <-.
    pose proof (outcome_ok_Done _ _ _ _ _ _ _
                  (insert_spec fuel k v root (hp s) W Hp) Em) as MP.
    simpl. split; [now apply (mut_post_local _ _ _ _ MP)|].
    split; [intros t' Hne; now apply nth_error_set_nth_other|].
    exact (insert_arrays fuel k v root (hp s) r h' W Hp Em).
  - destruct root as [n|]; [|injection E as _ <-; now repeat split].
    apply lift_returned in E as (r & h' & Em & E). injection E as _ <-.
    pose proof (outcome_ok_Done _ _ _ _ _ _ _
                  (delete_spec fuel k (Some n) (hp s) W Hp) Em) as MP.
    simpl. split; [now apply (mut_post_local _ _ _ _ MP)|].
    split; [intros t' Hne; now apply nth_error_set_nth_other|].
    exact (keeps_delete fuel k (Some n) _ _ _ Em).
Qed.

(** X16.  [Insert] allocates at most one node; no other public operation
    allocates any, and none ever frees a node.  This holds from every
    state, reachable or not. *)
Theorem X16_allocation {V : Type} {RT : Runtime}
    (s : state (V := V)) (c : call (V := V))
    (fuel : nat) (rv : retval (V := V)) (s' : state (V := V)) :
  run fuel c s = Returned rv s' ->
  match c with
  | CInsert _ _ _ =>
      (next (hp s) <= next (hp s') <= next (hp s) + 1)%nat
  | _ => next (hp s') = next (hp s)
  end.
Proof.
  intros E. destruct c as [|t k v|t k|t|t|t|t k|t k|t|t|t k];
    unfold run, root_of in E;
    try (destruct t as [t|]; [|discriminate E];
         destruct (nth_error (roots s) t) as [root|]; [|discriminate]);
    try (destruct root as [n|]; [|now injection E as _ <-]).
  - now injection E as _ <-.
  - apply lift_returned in E as (r & h' & Em & E). injection E as _ <-.
    exact (grows_insert fuel k v root _ _ _ Em).
  - apply lift_returned in E as (r & h' & Em & E). injection E as _ <-.
    pose proof (grows_delete fuel k (Some n) _ _ _ Em). simpl. lia.
  - apply lift_returned in E as (r & h' & Em & E). injection E as _ <-.
    pose proof (grows_getHeight (Some n) _ _ _ Em). simpl. lia.
  - apply lift_returned in E as (r & h' & Em & E). injection E as _ <-.
    pose proof (grows_getSize fuel (Some n) _ _ _ Em). simpl. lia.
  - apply lift_returned in E as (r & h' & Em & E). injection E as _ <-.
    pose proof (grows_min fuel (Some n) _ _ _ Em). simpl. lia.
  - apply lift_returned in E as (r & h' & Em & E). injection E as _ <-.
    pose proof (grows_find fuel k (Some n) _ _ _ Em). simpl. lia.
  - apply lift_returned in E as (r & h' & Em & E). injection E as _ <-.
    pose proof (grows_contains fuel k (Some n) _ _ _ Em). simpl. lia.
  - apply lift_returned in E as (r & h' & Em & E). injection E as _ <-.
    pose proof (grows_nodeString fuel (Some n) _ _ _ Em). simpl. lia.
  - apply lift_returned in E as (r & h' & Em & E). injection E as _ <-.
    pose proof (grows_nodeString fuel (Some n) _ _ _ Em). simpl. lia.
  - apply lift_returned in E as (r & h' & Em & E).
    pose proof (grows_findNode fuel k (Some n) _ _ _ Em).
    destruct r as [[l|] [|]]; injection E as _ <-; simpl; lia.
Qed.

(** In every state that public calls lead to, however nodes and arrays
    are shared, the slices are as Go keeps them: the slice of a node
    shows as many elements as its length says, all of them written, and
    its length is within its capacity; [append] never reads or writes
    past the written part of an array by more than the one element it
    adds. *)
Lemma reachable_slices_ok {V : Type} {RT : Runtime} (s : state (V := V)) :
  reachable s ->
  slices_ok (hp s)
  /\ forall l,
       List.length (sread (hp s) (value (cells (hp s) l)))
       = slen (value (cells (hp s) l))
       /\ (slen (value (cells (hp s) l)) <= scap (value (cells (hp s) l)))%nat.
Proof.
  intros Hr.
  assert (Hok : slices_ok (hp s)).
  { induction Hr as [|s fuel c rv s' Hr IH E].
    - split; [reflexivity|]. split; [intros l; now left|].
      intros l1 l2 H1. now contradiction H1.
    - pose proof (run_effect s c fuel rv s' Hr E) as Heff.
      destruct c as [|t k v|t k|t|t|t|t k|t k|t|t|t k];
        try (subst s'; exact IH);
        try (destruct Heff as (-> & _); exact IH);
        unfold run, root_of in E;
        (destruct t as [t|]; [|discriminate E]);
        (destruct (nth_error (roots s) t) as [root|]; [|discriminate E]).
      + apply lift_returned in E as (r & h' & Em & E). injection E as _ <-.
        exact (okp_insert fuel k v root _ _ _ Em IH).
      + destruct root as [n|]; [|injection E as _ <-; exact IH].
        apply lift_returned in E as (r & h' & Em & E). injection E as _ <-.
        exact (okp_delete fuel k (Some n) _ _ _ Em IH). }
  split; [exact Hok|]. intros l. destruct Hok as (_ & Hs & _).
  unfold sread. destruct (Hs l) as [->|(_ & Hlen)]; [now split|].
  rewrite length_firstn. lia.
Qed.

#[local] Existing Instance doubling.

(** The runs on the shared state that the statements above are exercised
    on. *)
Lemma aliased_reachable : reachable aliased_state.
Proof.
  unfold aliased_state. repeat apply reachable_exec. apply reach_init.
Qed.

Lemma aliased_run_Find :
  run 9 (CFind (Some 1%nat) 30) aliased_state
  = Returned (RFind [tt] true) aliased_state.
Proof. vm_compute. reflexivity. Qed.

Lemma aliased_run_Sub :
  run 9 (CSubTreeFromKey (Some 1%nat) 40) aliased_state
  = Returned (RSub (Some 2%nat) true)
      (exec 9 (CSubTreeFromKey (Some 1%nat) 40) aliased_state).
Proof. vm_compute. reflexivity. Qed.

Lemma aliased_run_Delete :
  run 9 (CDelete (Some 0%nat) 20) aliased_state
  = Returned RNone (exec 9 (CDelete (Some 0%nat) 20) aliased_state).
Proof. vm_compute. reflexivity. Qed.

Lemma X13_witness :
  reachable aliased_state
  /\ run 9 (CFind (Some 1%nat) 30) aliased_state
     = Returned (RFind [tt] true) aliased_state
  /\ aliased_state = aliased_state.
Proof.
  split; [exact aliased_reachable|]. split; [exact aliased_run_Find|].
  exact (X13_queries_do_not_write aliased_state (CFind (Some 1%nat) 30) 9 _ _
           aliased_reachable aliased_run_Find).
Defined.

Lemma X14_witness :
  reachable aliased_state
  /\ run 9 (CSubTreeFromKey (Some 1%nat) 40) aliased_state
     = Returned (RSub (Some 2%nat) true)
         (exec 9 (CSubTreeFromKey (Some 1%nat) 40) aliased_state)
  /\ exists n l,
       nth_error (roots aliased_state) 1 = Some (Some n)
       /\ 2%nat = List.length (roots aliased_state)
       /\ nth_error
            (roots (exec 9 (CSubTreeFromKey (Some 1%nat) 40) aliased_state)) 2
          = Some (Some l)
       /\ reach (hp aliased_state) n l
       /\ key (cells (hp aliased_state) l) = 40
       /\ hp (exec 9 (CSubTreeFromKey (Some 1%nat) 40) aliased_state)
          = hp aliased_state.
Proof.
  split; [exact aliased_reachable|]. split; [exact aliased_run_Sub|].
  exact (X14_SubTreeFromKey_shares aliased_state 1 40 9 2 _
           aliased_reachable aliased_run_Sub).
Defined.

Lemma X15_witness :
  reachable aliased_state
  /\ nth_error (roots aliased_state) 0 = Some (Some 1%nat)
  /\ run 9 (CDelete (Some 0%nat) 20) aliased_state
     = Returned RNone (exec 9 (CDelete (Some 0%nat) 20) aliased_state)
  /\ (forall l, (l < next (hp aliased_state))%nat ->
        ~ below (hp aliased_state) (Some 1%nat) l ->
        cells (hp (exec 9 (CDelete (Some 0%nat) 20) aliased_state)) l
        = cells (hp aliased_state) l)
  /\ (forall t', t' <> 0%nat ->
        nth_error (roots (exec 9 (CDelete (Some 0%nat) 20) aliased_state)) t'
        = nth_error (roots aliased_state) t')
  /\ arrs (hp (exec 9 (CDelete (Some 0%nat) 20) aliased_state))
     = arrs (hp aliased_state)
  /\ anext (hp (exec 9 (CDelete (Some 0%nat) 20) aliased_state))
     = anext (hp aliased_state).
Proof.
  split; [exact aliased_reachable|]. split; [reflexivity|].
  split; [exact aliased_run_Delete|].
  exact (X15_mutation_is_local aliased_state (CDelete (Some 0%nat) 20) 0
           (Some 1%nat) 9 RNone _ aliased_reachable
           (or_intror (ex_intro _ 20 eq_refl)) eq_refl aliased_run_Delete).
Defined.

(** Two tree objects with no node in common, and yet an [Insert] through
    the first changes the values that [Find] returns through the second:
    the slices of their roots are on one array, and [append] writes the
    fourth element of that array in place. *)
Example values_shared_after_delete :
  reachable sliced_state
  /\ roots sliced_state = [Some 0%nat; Some 2%nat]
  /\ (forall l, below (hp sliced_state) (Some 0%nat) l ->
                below (hp sliced_state) (Some 2%nat) l -> False)
  /\ arr_of (hp sliced_state) 0%nat = arr_of (hp sliced_state) 2%nat
  /\ run 9 (CFind (Some 1%nat) 30) sliced_state
     = Returned (RFind [3; 4; 5; 6] true) sliced_state
  /\ run 9 (CFind (Some 1%nat) 30)
       (exec 9 (CInsert (Some 0%nat) 30 7) sliced_state)
     = Returned (RFind [3; 4; 5; 7] true)
         (exec 9 (CInsert (Some 0%nat) 30 7) sliced_state).
Proof.
  split.
  { unfold sliced_state. repeat apply reachable_exec. apply reach_init. }
  split; [vm_compute; reflexivity|].
  split.
  { assert (C : left (cells (hp sliced_state) 0%nat) = Some 1%nat
                /\ right (cells (hp sliced_state) 0%nat) = None
                /\ left (cells (hp sliced_state) 1%nat) = None
                /\ right (cells (hp sliced_state) 1%nat) = None
                /\ left (cells (hp sliced_state) 2%nat) = None
                /\ right (cells (hp sliced_state) 2%nat) = None)
      by (vm_compute; repeat split).
    revert C. generalize (hp sliced_state).
    intros h (A0 & B0 & A1 & B1 & A2 & B2) l H0 H2. cbn [below] in H0, H2.
    assert (E2 : l = 2%nat).
    { inversion H2 as [|a b c [_ Hc] _]; subst; [reflexivity|].
      destruct Hc; congruence. }
    subst l.
    inversion H0 as [|a b c [_ Hc] Hr]; subst.
    assert (b = 1%nat) by (destruct Hc; congruence). subst b.
    inversion Hr as [|a b c [_ Hc'] _]; subst.
    destruct Hc'; congruence. }
  split; [vm_compute; reflexivity|].
  split; vm_compute; reflexivity.
Qed.

Lemma X16_witness :
  run 9 (CDelete (Some 0%nat) 20) aliased_state
  = Returned RNone (exec 9 (CDelete (Some 0%nat) 20) aliased_state)
  /\ next (hp (exec 9 (CDelete (Some 0%nat) 20) aliased_state))
     = next (hp aliased_state).
Proof.
  split; [exact aliased_run_Delete|].
  exact (X16_allocation aliased_state (CDelete (Some 0%nat) 20) 9 RNone _
           aliased_run_Delete).
Defined.

End HeapMore.


Module RefineFacts.
Import Heap ForestFacts GraphFacts StoreFacts HeapFacts HeapMore Refine.

#[local] Arguments Z.add _ _ : simpl never.
#[local] Arguments Z.sub _ _ : simpl never.
#[local] Arguments Z.max _ _ : simpl never.
#[local] Arguments Z.ltb _ _ : simpl never.
#[local] Arguments Z.leb _ _ : simpl never.
#[local] Arguments Z.gtb _ _ : simpl never.
#[local] Arguments Z.geb _ _ : simpl never.
#[local] Arguments Z.eqb _ _ : simpl never.

Section Simulation.
Context {V : Type} {RT : Runtime}.
Implicit Types (h : heap V) (p q : ptr) (l x y : loc) (n m : AVL.node V)
  (fp fl fr : list loc).

(** *** Shapes *)
Lemma shape_lt n : forall h p fp,
  shape h p n fp -> forall l, In l fp -> (l < next h)%nat.
Proof.
  induction n as [|k v L IHL R IHR ht]; intros h p fp H l Hl; simpl in H.
  - destruct H as [_ ->]. contradiction.
  - destruct H as (l0 & fl & fr & -> & Hlt & _ & _ & _ & HL & HR & ->).
    destruct Hl as [<-|Hl]; [assumption|].
    apply in_app_or in Hl as [Hl|Hl]; eauto.
Qed.

Lemma sread_arrs h h' (sl : slice) :
  arrs h' = arrs h -> sread h' sl = sread h sl.
Proof. intros E. unfold sread. now rewrite E. Qed.

Lemma sread_at h h' (sl : slice) :
  arrs h' (sarr sl) = arrs h (sarr sl) -> sread h' sl = sread h sl.
Proof. intros E. unfold sread. now rewrite E. Qed.

Lemma shape_frame_reads n : forall h h' p fp,
  shape h p n fp ->
  (forall l, In l fp -> cells h' l = cells h l) ->
  (forall l, In l fp ->
     sread h' (value (cells h l)) = sread h (value (cells h l))) ->
  (next h <= next h')%nat ->
  shape h' p n fp.
Proof.
  induction n as [|k v L IHL R IHR ht]; intros h h' p fp H Hc Hv' Hn;
    simpl in *.
  - exact H.
  - destruct H as (l0 & fl & fr & -> & Hlt & Hk & Hv & Hh & HL & HR & ->).
    exists l0, fl, fr.
    assert (E : cells h' l0 = cells h l0) by (apply Hc; now left).
    rewrite E. repeat split; try assumption; try lia.
    + rewrite Hv' by now left. exact Hv.
    + apply (IHL h); [assumption| | |assumption].
      * intros l Hl. apply Hc. right. apply in_or_app. now left.
      * intros l Hl. apply Hv'. right. apply in_or_app. now left.
    + apply (IHR h); [assumption| | |assumption].
      * intros l Hl. apply Hc. right. apply in_or_app. now right.
      * intros l Hl. apply Hv'. right. apply in_or_app. now right.
Qed.

Lemma shape_frame n h h' p fp :
  shape h p n fp ->
  (forall l, In l fp -> cells h' l = cells h l) ->
  (next h <= next h')%nat ->
  arrs h' = arrs h ->
  shape h' p n fp.
Proof.
  intros H Hc Hn Ea. apply (shape_frame_reads n h); try assumption.
  intros l _. now apply sread_arrs.
Qed.

Lemma shape_length n : forall h p fp,
  shape h p n fp -> List.length fp = AVL.nsize n.
Proof.
  induction n as [|k v L IHL R IHR ht]; intros h p fp H; simpl in H.
  - destruct H as [_ ->]. reflexivity.
  - destruct H as (l0 & fl & fr & -> & _ & _ & _ & _ & HL & HR & ->).
    simpl. rewrite length_app, (IHL _ _ _ HL), (IHR _ _ _ HR). reflexivity.
Qed.

Lemma gh_shape h p n fp : shape h p n fp -> gh h p = AVL.getHeight n.
Proof.
  destruct n as [|k v L R ht]; simpl.
  - now intros [-> _].
  - now intros (l0 & fl & fr & -> & _ & _ & _ & Hh & _).
Qed.

Lemma bf_shape h p n fp : shape h p n fp -> bf h p = AVL.balanceFactor n.
Proof.
  destruct n as [|k v L R ht]; simpl.
  - now intros [-> _].
  - intros (l0 & fl & fr & -> & _ & _ & _ & _ & HL & HR & _). simpl.
    now rewrite (gh_shape _ _ _ _ HL), (gh_shape _ _ _ _ HR).
Qed.

Lemma shape_node h l k v L R ht fl fr :
  (l < next h)%nat ->
  key (cells h l) = k -> sread h (value (cells h l)) = v ->
  height (cells h l) = ht ->
  shape h (left (cells h l)) L fl -> shape h (right (cells h l)) R fr ->
  shape h (Some l) (AVL.Node k v L R ht) (l :: fl ++ fr).
Proof. intros. simpl. exists l, fl, fr. repeat split; assumption. Qed.

(** *** The methods that only read *)
Lemma find_agrees k n : forall h p fp fuel,
  shape h p n fp -> (List.length fp < fuel)%nat ->
  exists sl : slice,
    find fuel k p h = Done (sl, snd (AVL.find k n)) h
    /\ sread h sl = fst (AVL.find k n).
Proof.
  induction n as [|k0 v0 L IHL R IHR ht]; intros h p fp fuel H Hf;
    simpl in H.
  - destruct H as [-> ->]. destruct fuel; [simpl in Hf; lia|].
    exists nil_slice. split; reflexivity.
  - destruct H as (l0 & fl & fr & -> & Hlt & <- & <- & _ & HL & HR & ->).
    destruct fuel as [|fuel]; [simpl in Hf; lia|].
    simpl in Hf. rewrite length_app in Hf.
    cbn [find AVL.find]. rewrite hbind_load.
    destruct (key (cells h l0) =? k).
    { exists (value (cells h l0)). split; reflexivity. }
    destruct (k <? key (cells h l0)).
    + apply (IHL _ _ fl); [assumption|lia].
    + apply (IHR _ _ fr); [assumption|lia].
Qed.

Lemma findNode_agrees k n : forall h p fp fuel,
  shape h p n fp -> (List.length fp < fuel)%nat ->
  exists q fq,
    findNode fuel k p h = Done (q, snd (AVL.findNode k n)) h
    /\ shape h q (fst (AVL.findNode k n)) fq
    /\ (forall l, In l fq -> In l fp).
Proof.
  induction n as [|k0 v0 L IHL R IHR ht]; intros h p fp fuel H Hf.
  - simpl in H. destruct H as [-> ->].
    destruct fuel; [simpl in Hf; lia|].
    exists None, []. repeat split. intros l [].
  - pose proof H as H0. simpl in H.
    destruct H as (l0 & fl & fr & -> & Hlt & <- & <- & _ & HL & HR & ->).
    destruct fuel as [|fuel]; [simpl in Hf; lia|].
    simpl in Hf. rewrite length_app in Hf.
    cbn [findNode AVL.findNode]. rewrite hbind_load.
    destruct (key (cells h l0) =? k).
    + exists (Some l0), (l0 :: fl ++ fr). repeat split; auto.
    + destruct (k <? key (cells h l0)).
      * destruct (IHL _ _ fl fuel HL ltac:(lia)) as (q & fq & E & Hs & Hi).
        exists q, fq. repeat split; auto.
        intros l Hl. right. apply in_or_app. left. auto.
      * destruct (IHR _ _ fr fuel HR ltac:(lia)) as (q & fq & E & Hs & Hi).
        exists q, fq. repeat split; auto.
        intros l Hl. right. apply in_or_app. right. auto.
Qed.

Lemma getSize_agrees n : forall h p fp fuel,
  shape h p n fp -> (List.length fp < fuel)%nat ->
  getSize fuel p h = Done (AVL.getSize n) h.
Proof.
  induction n as [|k0 v0 L IHL R IHR ht]; intros h p fp fuel H Hf;
    simpl in H.
  - destruct H as [-> ->]. destruct fuel; [simpl in Hf; lia|reflexivity].
  - destruct H as (l0 & fl & fr & -> & Hlt & <- & <- & _ & HL & HR & ->).
    destruct fuel as [|fuel]; [simpl in Hf; lia|].
    simpl in Hf. rewrite length_app in Hf.
    cbn [getSize AVL.getSize]. rewrite hbind_load.
    rewrite hbind_eq, (IHL _ _ fl fuel HL) by lia.
    rewrite hbind_eq, (IHR _ _ fr fuel HR) by lia.
    reflexivity.
Qed.

Lemma traverseString_agrees n : forall h p fp fuel sb,
  shape h p n fp -> (List.length fp < fuel)%nat ->
  traverseString fuel p sb h = Done (AVL.traverseString n sb) h.
Proof.
  induction n as [|k0 v0 L IHL R IHR ht]; intros h p fp fuel sb H Hf;
    simpl in H.
  - destruct H as [-> ->]. destruct fuel; [simpl in Hf; lia|reflexivity].
  - destruct H as (l0 & fl & fr & -> & Hlt & <- & <- & _ & HL & HR & ->).
    destruct fuel as [|fuel]; [simpl in Hf; lia|].
    simpl in Hf. rewrite length_app in Hf.
    cbn [traverseString AVL.traverseString]. rewrite hbind_load.
    rewrite hbind_eq, (IHL _ _ fl fuel sb HL) by lia.
    rewrite !hbind_load.
    apply (IHR _ _ fr); [assumption|lia].
Qed.

Lemma nodeString_agrees n h p fp fuel :
  shape h p n fp -> (List.length fp < fuel)%nat ->
  nodeString fuel p h = Done (AVL.String n) h.
Proof.
  intros H Hf. destruct n as [|k0 v0 L R ht].
  - simpl in H. destruct H as [-> _]. reflexivity.
  - pose proof H as H0. simpl in H.
    destruct H as (l0 & fl & fr & -> & _).
    unfold nodeString, AVL.String.
    rewrite hbind_eq, (traverseString_agrees _ _ _ _ _ _ H0 Hf).
    reflexivity.
Qed.

Lemma minValueNode_agrees n : forall h p fp fuel m,
  shape h p n fp -> (List.length fp < fuel)%nat ->
  AVL.minValueNode n = Ok m ->
  exists t fm,
    minValueNode fuel p h = Done (Some t) h
    /\ shape h (Some t) m fm /\ In t fp.
Proof.
  induction n as [|k0 v0 L IHL R _ ht]; intros h p fp fuel m H Hf Em;
    [discriminate|].
  pose proof H as H0. simpl in H.
  destruct H as (l0 & fl & fr & -> & Hlt & Hk & Hv & Hh & HL & HR & ->).
  destruct fuel as [|fuel]; [simpl in Hf; lia|].
  simpl in Hf. rewrite length_app in Hf.
  cbn [minValueNode]. rewrite hbind_load.
  destruct L as [|lk lv ll lr lh].
  - simpl in HL. destruct HL as [EL ->]. rewrite EL.
    simpl in Em. injection Em as <-.
    exists l0, (l0 :: [] ++ fr). split; [reflexivity|].
    split; [assumption|now left].
  - cbn [AVL.minValueNode] in Em.
    destruct (IHL _ _ fl fuel m HL ltac:(lia) Em) as (t & fm & E & Hs & Hi).
    pose proof HL as HL0. simpl in HL0.
    destruct HL0 as (ll0 & ? & ? & EL & _). rewrite EL in *.
    exists t, fm. split; [exact E|]. split; [exact Hs|].
    right. apply in_or_app. now left.
Qed.

(** *** Field writes *)
Lemma cells_hsetH h l z :
  cells (hsetH h l z) l
  = mkCell (key (cells h l)) (value (cells h l)) (left (cells h l))
      (right (cells h l)) z
  /\ forall l', l' <> l -> cells (hsetH h l z) l' = cells h l'.
Proof.
  unfold hsetH, upd. cbn [cells]. rewrite Nat.eqb_refl. split; [reflexivity|].
  intros l' N. destruct (Nat.eqb_spec l' l); [contradiction|reflexivity].
Qed.

Lemma cells_hsetL h l q :
  cells (hsetL h l q) l
  = mkCell (key (cells h l)) (value (cells h l)) q
      (right (cells h l)) (height (cells h l))
  /\ forall l', l' <> l -> cells (hsetL h l q) l' = cells h l'.
Proof.
  unfold hsetL, upd. cbn [cells]. rewrite Nat.eqb_refl. split; [reflexivity|].
  intros l' N. destruct (Nat.eqb_spec l' l); [contradiction|reflexivity].
Qed.

Lemma cells_hsetR h l q :
  cells (hsetR h l q) l
  = mkCell (key (cells h l)) (value (cells h l)) (left (cells h l))
      q (height (cells h l))
  /\ forall l', l' <> l -> cells (hsetR h l q) l' = cells h l'.
Proof.
  unfold hsetR, upd. cbn [cells]. rewrite Nat.eqb_refl. split; [reflexivity|].
  intros l' N. destruct (Nat.eqb_spec l' l); [contradiction|reflexivity].
Qed.

Lemma cells_hsetK h l k :
  cells (hsetK h l k) l
  = mkCell k (value (cells h l)) (left (cells h l))
      (right (cells h l)) (height (cells h l))
  /\ forall l', l' <> l -> cells (hsetK h l k) l' = cells h l'.
Proof.
  unfold hsetK, upd. cbn [cells]. rewrite Nat.eqb_refl. split; [reflexivity|].
  intros l' N. destruct (Nat.eqb_spec l' l); [contradiction|reflexivity].
Qed.

Lemma cells_hsetV h l v :
  cells (hsetV h l v) l
  = mkCell (key (cells h l)) v (left (cells h l))
      (right (cells h l)) (height (cells h l))
  /\ forall l', l' <> l -> cells (hsetV h l v) l' = cells h l'.
Proof.
  unfold hsetV, upd. cbn [cells]. rewrite Nat.eqb_refl. split; [reflexivity|].
  intros l' N. destruct (Nat.eqb_spec l' l); [contradiction|reflexivity].
Qed.

(** *** Footprints *)
Lemma NoDup_node_inv l fl fr :
  NoDup (l :: fl ++ fr) ->
  ~ In l fl /\ ~ In l fr /\ NoDup fl /\ NoDup fr
  /\ (forall a, In a fl -> ~ In a fr).
Proof.
  intros H. apply NoDup_cons_iff in H as [Hl H].
  rewrite in_app_iff in Hl.
  split; [tauto|]. split; [tauto|].
  split; [eapply NoDup_app_remove_r; eauto|].
  split; [eapply NoDup_app_remove_l; eauto|].
  intros a Ha Hb. revert H Ha Hb. clear.
  induction fl as [|b fl IH]; simpl; [tauto|].
  intros H [->|Ha] Hb.
  - apply NoDup_cons_iff in H as [H _]. apply H, in_or_app. now right.
  - apply NoDup_cons_iff in H as [_ H]. eauto.
Qed.

Lemma NoDup_node l fl fr :
  ~ In l fl -> ~ In l fr -> NoDup fl -> NoDup fr ->
  (forall a, In a fl -> ~ In a fr) ->
  NoDup (l :: fl ++ fr).
Proof.
  intros Hl Hr Nl Nr Hd. apply NoDup_cons.
  - rewrite in_app_iff. tauto.
  - revert Nl Hd. clear -Nr. induction fl as [|b fl IH]; simpl; intros Nl Hd.
    + exact Nr.
    + apply NoDup_cons_iff in Nl as [Hb Nl]. apply NoDup_cons.
      * rewrite in_app_iff. intros [H|H]; [contradiction|].
        now apply (Hd b (or_introl eq_refl)).
      * apply IH; auto.
Qed.

Lemma tree_inv h p k v L R ht fp :
  tree h p (AVL.Node k v L R ht) fp ->
  exists l fl fr,
    p = Some l /\ (l < next h)%nat /\ fp = l :: fl ++ fr
    /\ key (cells h l) = k /\ sread h (value (cells h l)) = v
    /\ height (cells h l) = ht
    /\ tree h (left (cells h l)) L fl /\ tree h (right (cells h l)) R fr
    /\ ~ In l fl /\ ~ In l fr /\ (forall a, In a fl -> ~ In a fr).
Proof.
  intros [H ND]. simpl in H.
  destruct H as (l & fl & fr & -> & Hlt & Hk & Hv & Hh & HL & HR & ->).
  destruct (NoDup_node_inv _ _ _ ND) as (A & B & C & D & E).
  exists l, fl, fr. repeat split; assumption.
Qed.

Lemma tree_node h l k v L R ht fl fr :
  (l < next h)%nat ->
  key (cells h l) = k -> sread h (value (cells h l)) = v ->
  height (cells h l) = ht ->
  tree h (left (cells h l)) L fl -> tree h (right (cells h l)) R fr ->
  ~ In l fl -> ~ In l fr -> (forall a, In a fl -> ~ In a fr) ->
  tree h (Some l) (AVL.Node k v L R ht) (l :: fl ++ fr).
Proof.
  intros Hlt Hk Hv Hh [HL NL] [HR NR] A B C. split.
  - now apply shape_node.
  - now apply NoDup_node.
Qed.

Lemma tree_frame_reads h h' p n fp :
  tree h p n fp ->
  (forall l, In l fp -> cells h' l = cells h l) ->
  (forall l, In l fp ->
     sread h' (value (cells h l)) = sread h (value (cells h l))) ->
  (next h <= next h')%nat ->
  tree h' p n fp.
Proof.
  intros [H ND] Hc Hv Hn. split; [|exact ND].
  eapply shape_frame_reads; eauto.
Qed.

Lemma tree_frame h h' p n fp :
  tree h p n fp ->
  (forall l, In l fp -> cells h' l = cells h l) ->
  (next h <= next h')%nat ->
  arrs h' = arrs h ->
  tree h' p n fp.
Proof.
  intros [H ND] Hc Hn Ea. split; [|exact ND]. eapply shape_frame; eauto.
Qed.

Lemma tree_lt h p n fp l : tree h p n fp -> In l fp -> (l < next h)%nat.
Proof. intros [H _]. eapply shape_lt; eauto. Qed.

(** *** Rotations *)
Lemma gh_keep h h' :
  (forall a, height (cells h' a) = height (cells h a)) ->
  forall q, gh h' q = gh h q.
Proof. intros H [a|]; simpl; [apply H|reflexivity]. Qed.

Lemma hrotR_cells h y x :
  x <> y -> left (cells h x) <> Some y ->
  cells (hrotR h y x) y
  = mkCell (key (cells h y)) (value (cells h y))
      (right (cells h x)) (right (cells h y))
      (1 + Z.max (gh h (right (cells h x))) (gh h (right (cells h y))))
  /\ cells (hrotR h y x) x
     = mkCell (key (cells h x)) (value (cells h x))
         (left (cells h x)) (Some y)
         (1 + Z.max (gh h (left (cells h x)))
                (1 + Z.max (gh h (right (cells h x)))
                       (gh h (right (cells h y))))).
Proof.
  intros N1 N2.
  assert (Exy : Nat.eqb x y = false) by now apply Nat.eqb_neq.
  assert (Eyx : Nat.eqb y x = false) by (apply Nat.eqb_neq; congruence).
  set (h1 := hsetL (hsetR h x (Some y)) y (right (cells h x))).
  assert (G1 : forall q, gh h1 q = gh h q).
  { apply gh_keep. intros a. unfold h1, hsetL, hsetR, upd. cbn [cells].
    destruct (Nat.eqb_spec a y) as [->|Ny]; cbn [height].
    - now rewrite Eyx.
    - destruct (Nat.eqb_spec a x) as [->|Nx]; reflexivity. }
  assert (C1y : cells h1 y
                = mkCell (key (cells h y)) (value (cells h y))
                    (right (cells h x)) (right (cells h y))
                    (height (cells h y))).
  { unfold h1, hsetL, hsetR, upd. cbn [cells].
    rewrite Nat.eqb_refl, Eyx. reflexivity. }
  assert (C1x : cells h1 x
                = mkCell (key (cells h x)) (value (cells h x))
                    (left (cells h x)) (Some y) (height (cells h x))).
  { unfold h1, hsetL, hsetR, upd. cbn [cells].
    rewrite Exy, Nat.eqb_refl. reflexivity. }
  set (hy := 1 + Z.max (gh h (right (cells h x))) (gh h (right (cells h y)))).
  assert (Ny : newHeight h1 y = hy).
  { unfold newHeight. rewrite C1y. cbn [left right]. now rewrite !G1. }
  change (hrotR h y x)
    with (hsetH (hsetH h1 y (newHeight h1 y)) x
            (newHeight (hsetH h1 y (newHeight h1 y)) x)).
  rewrite Ny. set (h2 := hsetH h1 y hy).
  destruct (cells_hsetH h1 y hy) as [C2y C2o]. fold h2 in C2y, C2o.
  assert (C2x : cells h2 x = cells h1 x) by (apply C2o; exact N1).
  assert (Nx : newHeight h2 x
               = 1 + Z.max (gh h (left (cells h x))) hy).
  { unfold newHeight. rewrite C2x, C1x. cbn [left right gh].
    rewrite C2y. cbn [height]. f_equal. f_equal.
    destruct (left (cells h x)) as [a|] eqn:El; [|reflexivity].
    cbn [gh]. rewrite C2o by congruence.
    change (height (cells h1 a)) with (gh h1 (Some a)). now rewrite G1. }
  rewrite Nx.
  destruct (cells_hsetH h2 x (1 + Z.max (gh h (left (cells h x))) hy))
    as [C3x C3o].
  split.
  - rewrite C3o by congruence. rewrite C2y, C1y. reflexivity.
  - rewrite C3x, C2x, C1x. reflexivity.
Qed.

Lemma hrotL_cells h x y :
  x <> y -> right (cells h y) <> Some x ->
  cells (hrotL h x y) x
  = mkCell (key (cells h x)) (value (cells h x))
      (left (cells h x)) (left (cells h y))
      (1 + Z.max (gh h (left (cells h x))) (gh h (left (cells h y))))
  /\ cells (hrotL h x y) y
     = mkCell (key (cells h y)) (value (cells h y))
         (Some x) (right (cells h y))
         (1 + Z.max (1 + Z.max (gh h (left (cells h x)))
                            (gh h (left (cells h y))))
                (gh h (right (cells h y)))).
Proof.
  intros N1 N2.
  assert (Exy : Nat.eqb x y = false) by now apply Nat.eqb_neq.
  assert (Eyx : Nat.eqb y x = false) by (apply Nat.eqb_neq; congruence).
  set (h1 := hsetR (hsetL h y (Some x)) x (left (cells h y))).
  assert (G1 : forall q, gh h1 q = gh h q).
  { apply gh_keep. intros a. unfold h1, hsetL, hsetR, upd. cbn [cells].
    destruct (Nat.eqb_spec a x) as [->|Nx]; cbn [height].
    - now rewrite Exy.
    - destruct (Nat.eqb_spec a y) as [->|Ny]; reflexivity. }
  assert (C1x : cells h1 x
                = mkCell (key (cells h x)) (value (cells h x))
                    (left (cells h x)) (left (cells h y))
                    (height (cells h x))).
  { unfold h1, hsetL, hsetR, upd. cbn [cells].
    rewrite Nat.eqb_refl, Exy. reflexivity. }
  assert (C1y : cells h1 y
                = mkCell (key (cells h y)) (value (cells h y))
                    (Some x) (right (cells h y)) (height (cells h y))).
  { unfold h1, hsetL, hsetR, upd. cbn [cells].
    rewrite Eyx, Nat.eqb_refl. reflexivity. }
  set (hx := 1 + Z.max (gh h (left (cells h x))) (gh h (left (cells h y)))).
  assert (Nx : newHeight h1 x = hx).
  { unfold newHeight. rewrite C1x. cbn [left right]. now rewrite !G1. }
  change (hrotL h x y)
    with (hsetH (hsetH h1 x (newHeight h1 x)) y
            (newHeight (hsetH h1 x (newHeight h1 x)) y)).
  rewrite Nx. set (h2 := hsetH h1 x hx).
  destruct (cells_hsetH h1 x hx) as [C2x C2o]. fold h2 in C2x, C2o.
  assert (C2y : cells h2 y = cells h1 y) by (apply C2o; congruence).
  assert (Ny : newHeight h2 y
               = 1 + Z.max hx (gh h (right (cells h y)))).
  { unfold newHeight. rewrite C2y, C1y. cbn [left right gh].
    rewrite C2x. cbn [height]. f_equal. f_equal.
    destruct (right (cells h y)) as [a|] eqn:El; [|reflexivity].
    cbn [gh]. rewrite C2o by congruence.
    change (height (cells h1 a)) with (gh h1 (Some a)). now rewrite G1. }
  rewrite Ny.
  destruct (cells_hsetH h2 y (1 + Z.max hx (gh h (right (cells h y)))))
    as [C3y C3o].
  split.
  - rewrite C3o by exact N1. rewrite C2x, C1x. reflexivity.
  - rewrite C3y, C2y, C1y. reflexivity.
Qed.

Lemma tree_root_in h l n fp : tree h (Some l) n fp -> In l fp.
Proof.
  intros [H _]. destruct n as [|k v L R ht]; simpl in H.
  - destruct H; discriminate.
  - destruct H as (l0 & fl & fr & [= <-] & _ & _ & _ & _ & _ & _ & ->).
    now left.
Qed.

Lemma tree_ptr_neq h q n fp l : tree h q n fp -> ~ In l fp -> q <> Some l.
Proof. intros H Hn ->. apply Hn. eapply tree_root_in; eauto. Qed.

Lemma rotateRight_agrees h y ny fp n' :
  tree h (Some y) ny fp -> AVL.rotateRight ny = Ok n' ->
  exists x h' fp',
    rotateRight (Some y) h = Done (Some x) h'
    /\ tree h' (Some x) n' fp'
    /\ (forall l, In l fp' <-> In l fp)
    /\ unchanged_outside fp h h' /\ next h' = next h.
Proof.
  intros T E.
  destruct ny as [|yk yv [|xk xv XL T2 xh] YR yh]; try discriminate.
  simpl in E. injection E as <-.
  apply tree_inv in T
    as (y0 & fxx & fyr & [= <-] & Hy & -> & Ky & Vy & _ & TX & TYR
        & Ay & By & Dy).
  apply tree_inv in TX
    as (x & fxl & ft2 & EL & Hx & -> & Kx & Vx & _ & TXL & TT2
        & Ax & Bx & Dx).
  assert (Nxy : x <> y) by (intros ->; apply Ay; now left).
  assert (NL : left (cells h x) <> Some y).
  { eapply tree_ptr_neq; [exact TXL|]. intros H. apply Ay. right.
    apply in_or_app. now left. }
  destruct (hrotR_cells h y x Nxy NL) as [Cy Cx].
  destruct (hrotR_ptrs h y x Nxy) as (Hn & _ & _ & _ & _ & Ho).
  set (h' := hrotR h y x) in *.
  assert (Fr : forall f q m, tree h q m f ->
                 ~ In x f -> ~ In y f -> tree h' q m f).
  { intros f q m Tm Nx Ny. apply (tree_frame h); [assumption| |lia|reflexivity].
    intros l Hl. apply Ho; intros ->; contradiction. }
  assert (Iy_t2 : ~ In y ft2).
  { intros H. apply Ay. right. apply in_or_app. now right. }
  assert (Ix_yr : ~ In x fyr).
  { intros H. apply (Dy x); [now left|exact H]. }
  exists x, h', (x :: fxl ++ (y :: ft2 ++ fyr)).
  split; [now apply rotateRight_eq|].
  split.
  { apply tree_node; try (rewrite Cx; cbn; first [assumption|reflexivity]).
    - lia.
    - rewrite Cx. cbn [height].
      now rewrite (gh_shape _ _ _ _ (proj1 TXL)),
        (gh_shape _ _ _ _ (proj1 TT2)), (gh_shape _ _ _ _ (proj1 TYR)).
    - rewrite Cx. cbn [left]. apply Fr; auto.
      intros H. apply Ay. right. apply in_or_app. now left.
    - rewrite Cx. cbn [right].
      apply tree_node; try (rewrite Cy; cbn; first [assumption|reflexivity]).
      + lia.
      + rewrite Cy. cbn [height].
        now rewrite (gh_shape _ _ _ _ (proj1 TT2)),
          (gh_shape _ _ _ _ (proj1 TYR)).
      + rewrite Cy. cbn [left]. apply Fr; auto.
      + rewrite Cy. cbn [right]. apply Fr; auto.
      + exact Iy_t2.
      + exact By.
      + intros a Ha. apply Dy. right. apply in_or_app. now right.
    - exact Ax.
    - intros [H|H]; [congruence|].
      apply in_app_or in H as [H|H]; [contradiction|contradiction].
    - intros a Ha [H|H].
      + subst a. apply Ay. right. apply in_or_app. now left.
      + apply in_app_or in H as [H|H].
        * now apply (Dx a).
        * apply (Dy a); [|exact H]. right. apply in_or_app. now left. }
  split.
  { intros l. simpl. rewrite !in_app_iff. simpl. rewrite !in_app_iff.
    tauto. }
  split; [|exact Hn].
  intros l Hl _. apply Ho; intros ->; apply Hl.
  - right. apply in_or_app. left. now left.
  - now left.
Qed.

Lemma rotateLeft_agrees h x nx fp n' :
  tree h (Some x) nx fp -> AVL.rotateLeft nx = Ok n' ->
  exists y h' fp',
    rotateLeft (Some x) h = Done (Some y) h'
    /\ tree h' (Some y) n' fp'
    /\ (forall l, In l fp' <-> In l fp)
    /\ unchanged_outside fp h h' /\ next h' = next h.
Proof.
  intros T E.
  destruct nx as [|xk xv XL [|yk yv T2 YR yh] xh]; try discriminate.
  simpl in E. injection E as <-.
  apply tree_inv in T
    as (x0 & fxl & fyy & [= <-] & Hx & -> & Kx & Vx & _ & TXL & TY
        & Ax & Bx & Dx).
  apply tree_inv in TY
    as (y & ft2 & fyr & ER & Hy & -> & Ky & Vy & _ & TT2 & TYR
        & Ay & By & Dy).
  assert (Nxy : x <> y) by (intros ->; apply Bx; now left).
  assert (NR : right (cells h y) <> Some x).
  { eapply tree_ptr_neq; [exact TYR|]. intros H. apply Bx. right.
    apply in_or_app. now right. }
  destruct (hrotL_cells h x y Nxy NR) as [Cx Cy].
  destruct (hrotL_ptrs h x y Nxy) as (Hn & _ & _ & _ & _ & Ho).
  set (h' := hrotL h x y) in *.
  assert (Fr : forall f q m, tree h q m f ->
                 ~ In x f -> ~ In y f -> tree h' q m f).
  { intros f q m Tm Nx Ny. apply (tree_frame h); [assumption| |lia|reflexivity].
    intros l Hl. apply Ho; intros ->; contradiction. }
  assert (Ix_t2 : ~ In x ft2).
  { intros H. apply Bx. right. apply in_or_app. now left. }
  assert (Iy_xl : ~ In y fxl).
  { intros H. apply (Dx y); [exact H|now left]. }
  exists y, h', (y :: (x :: fxl ++ ft2) ++ fyr).
  split; [now apply rotateLeft_eq|].
  split.
  { apply tree_node; try (rewrite Cy; cbn; first [assumption|reflexivity]).
    - lia.
    - rewrite Cy. cbn [height].
      now rewrite (gh_shape _ _ _ _ (proj1 TXL)),
        (gh_shape _ _ _ _ (proj1 TT2)), (gh_shape _ _ _ _ (proj1 TYR)).
    - rewrite Cy. cbn [left].
      apply tree_node; try (rewrite Cx; cbn; first [assumption|reflexivity]).
      + lia.
      + rewrite Cx. cbn [height].
        now rewrite (gh_shape _ _ _ _ (proj1 TXL)),
          (gh_shape _ _ _ _ (proj1 TT2)).
      + rewrite Cx. cbn [left]. apply Fr; auto.
      + rewrite Cx. cbn [right]. apply Fr; auto.
      + exact Ax.
      + exact Ix_t2.
      + intros a Ha Hb. apply (Dx a Ha). right. apply in_or_app. now left.
    - rewrite Cy. cbn [right]. apply Fr; auto.
      intros H. apply Bx. right. apply in_or_app. now right.
    - intros [H|H]; [congruence|].
      apply in_app_or in H as [H|H]; [contradiction|contradiction].
    - exact By.
    - intros a [H|H] Hb.
      + subst a. apply Bx. right. apply in_or_app. now right.
      + apply in_app_or in H as [H|H].
        * apply (Dx a H). right. apply in_or_app. now right.
        * now apply (Dy a). }
  split.
  { intros l. simpl. rewrite !in_app_iff. simpl. rewrite !in_app_iff.
    tauto. }
  split; [|exact Hn].
  intros l Hl _. apply Ho; intros ->; apply Hl.
  - now left.
  - right. apply in_or_app. right. now left.
Qed.

(** *** Storing a child and recomputing the height *)
Lemma updateHeight_tree h l k v L R ht fp :
  tree h (Some l) (AVL.Node k v L R ht) fp ->
  tree (hsetH h l (newHeight h l)) (Some l)
    (AVL.Node k v L R (1 + Z.max (AVL.getHeight L) (AVL.getHeight R))) fp.
Proof.
  intros T.
  apply tree_inv in T
    as (l0 & fl & fr & [= <-] & Hl & -> & Kl & Vl & _ & TL & TR
        & A & B & D).
  destruct (cells_hsetH h l (newHeight h l)) as [C Co].
  set (h' := hsetH h l (newHeight h l)) in *.
  assert (Fr : forall f q m, tree h q m f -> ~ In l f -> tree h' q m f).
  { intros f q m Tm Nl. apply (tree_frame h); [assumption| |simpl; lia|reflexivity].
    intros a Ha. apply Co. intros ->. contradiction. }
  apply tree_node; try (rewrite C; cbn; first [assumption|reflexivity]);
    try assumption.
  - rewrite C. cbn [height]. unfold newHeight.
    now rewrite (gh_shape _ _ _ _ (proj1 TL)), (gh_shape _ _ _ _ (proj1 TR)).
  - rewrite C. cbn [left]. now apply Fr.
  - rewrite C. cbn [right]. now apply Fr.
Qed.

(** The node [l] of the tree given a new left subtree that was built
    from the old one. *)
Lemma set_left_tree h l k v R ht fl fr h1 r1 L1 fl1 :
  (l < next h)%nat ->
  key (cells h l) = k -> sread h (value (cells h l)) = v ->
  height (cells h l) = ht ->
  tree h (right (cells h l)) R fr ->
  ~ In l fl -> ~ In l fr -> (forall a, In a fl -> ~ In a fr) ->
  tree h1 r1 L1 fl1 -> within fl1 fl h h1 -> unchanged_outside fl h h1 ->
  (next h <= next h1)%nat ->
  (forall a, In a (l :: fr) ->
     sread h1 (value (cells h a)) = sread h (value (cells h a))) ->
  tree (hsetL h1 l r1) (Some l) (AVL.Node k v L1 R ht) (l :: fl1 ++ fr)
  /\ within (l :: fl1 ++ fr) (l :: fl ++ fr) h h1
  /\ unchanged_outside (l :: fl ++ fr) h (hsetL h1 l r1).
Proof.
  intros Hl Kl Vl Hh TR A B D T1 W U Hn Rd.
  destruct (cells_hsetL h1 l r1) as [C Co].
  set (h2 := hsetL h1 l r1) in *.
  assert (E1 : cells h1 l = cells h l) by (apply U; assumption).
  assert (A1 : ~ In l fl1).
  { intros H. destruct (W l H) as [H'|H']; [contradiction|lia]. }
  assert (D1 : forall a, In a fl1 -> ~ In a fr).
  { intros a Ha Hb. destruct (W a Ha) as [H'|H'].
    - now apply (D a).
    - pose proof (tree_lt _ _ _ _ a TR Hb). lia. }
  split; [|split].
  - apply tree_node; try assumption.
    + simpl. lia.
    + rewrite C, E1. exact Kl.
    + rewrite C, E1. cbn [value].
      rewrite (sread_arrs h1 h2) by reflexivity.
      rewrite Rd by now left. exact Vl.
    + rewrite C, E1. exact Hh.
    + rewrite C. cbn [left].
      apply (tree_frame h1); [assumption| |simpl; lia|reflexivity].
      intros a Ha. apply Co. intros ->. contradiction.
    + rewrite C, E1. cbn [right].
      apply (tree_frame_reads h); [assumption| | |simpl; lia].
      * intros a Ha. rewrite Co by (intros ->; contradiction).
        apply U; [|eapply tree_lt; eauto].
        intros Hf. now apply (D a).
      * intros a Ha. rewrite (sread_arrs h1 h2) by reflexivity.
        apply Rd. now right.
  - intros a [<-|Ha]; [left; now left|].
    apply in_app_or in Ha as [Ha|Ha].
    + destruct (W a Ha) as [H'|H']; [|now right].
      left. right. apply in_or_app. now left.
    + left. right. apply in_or_app. now right.
  - intros a Ha Hlt. rewrite Co by (intros ->; apply Ha; now left).
    apply U; [|assumption]. intros Hf. apply Ha. right.
    apply in_or_app. now left.
Qed.

Lemma set_right_tree h l k v L ht fl fr h1 r1 R1 fr1 :
  (l < next h)%nat ->
  key (cells h l) = k -> sread h (value (cells h l)) = v ->
  height (cells h l) = ht ->
  tree h (left (cells h l)) L fl ->
  ~ In l fl -> ~ In l fr -> (forall a, In a fl -> ~ In a fr) ->
  tree h1 r1 R1 fr1 -> within fr1 fr h h1 -> unchanged_outside fr h h1 ->
  (next h <= next h1)%nat ->
  (forall a, In a (l :: fl) ->
     sread h1 (value (cells h a)) = sread h (value (cells h a))) ->
  tree (hsetR h1 l r1) (Some l) (AVL.Node k v L R1 ht) (l :: fl ++ fr1)
  /\ within (l :: fl ++ fr1) (l :: fl ++ fr) h h1
  /\ unchanged_outside (l :: fl ++ fr) h (hsetR h1 l r1).
Proof.
  intros Hl Kl Vl Hh TL A B D T1 W U Hn Rd.
  destruct (cells_hsetR h1 l r1) as [C Co].
  set (h2 := hsetR h1 l r1) in *.
  assert (E1 : cells h1 l = cells h l) by (apply U; assumption).
  assert (B1 : ~ In l fr1).
  { intros H. destruct (W l H) as [H'|H']; [contradiction|lia]. }
  assert (D1 : forall a, In a fl -> ~ In a fr1).
  { intros a Ha Hb. destruct (W a Hb) as [H'|H'].
    - now apply (D a).
    - pose proof (tree_lt _ _ _ _ a TL Ha). lia. }
  split; [|split].
  - apply tree_node; try assumption.
    + simpl. lia.
    + rewrite C, E1. exact Kl.
    + rewrite C, E1. cbn [value].
      rewrite (sread_arrs h1 h2) by reflexivity.
      rewrite Rd by now left. exact Vl.
    + rewrite C, E1. exact Hh.
    + rewrite C, E1. cbn [left].
      apply (tree_frame_reads h); [assumption| | |simpl; lia].
      * intros a Ha. rewrite Co by (intros ->; contradiction).
        apply U; [|eapply tree_lt; eauto].
        intros Hf. now apply (D a).
      * intros a Ha. rewrite (sread_arrs h1 h2) by reflexivity.
        apply Rd. now right.
    + rewrite C. cbn [right].
      apply (tree_frame h1); [assumption| |simpl; lia|reflexivity].
      intros a Ha. apply Co. intros ->. contradiction.
  - intros a [<-|Ha]; [left; now left|].
    apply in_app_or in Ha as [Ha|Ha].
    + left. right. apply in_or_app. now left.
    + destruct (W a Ha) as [H'|H']; [|now right].
      left. right. apply in_or_app. now right.
  - intros a Ha Hlt. rewrite Co by (intros ->; apply Ha; now left).
    apply U; [|assumption]. intros Hf. apply Ha. right.
    apply in_or_app. now right.
Qed.

Lemma setLeft_eq h l q : setLeft l q h = Done tt (hsetL h l q).
Proof. reflexivity. Qed.

Lemma setRight_eq h l q : setRight l q h = Done tt (hsetR h l q).
Proof. reflexivity. Qed.

Lemma setKey_eq h l k : setKey l k h = Done tt (hsetK h l k).
Proof. reflexivity. Qed.

Lemma setValue_eq h l v : setValue l v h = Done tt (hsetV h l v).
Proof. reflexivity. Qed.

Lemma unchanged_chain fp fp1 h h1 h2 :
  unchanged_outside fp h h1 -> unchanged_outside fp1 h1 h2 ->
  (forall a, In a fp1 -> In a fp \/ (next h <= a)%nat) ->
  (next h <= next h1)%nat ->
  unchanged_outside fp h h2.
Proof.
  intros U1 U2 Hs Hn a Ha Hlt.
  rewrite U2; [now apply U1| |lia].
  intros Hf. destruct (Hs a Hf); [contradiction|lia].
Qed.

Lemma unchanged_hsetH fp h l z :
  In l fp -> unchanged_outside fp h (hsetH h l z).
Proof.
  intros Hl a Ha _. apply cells_hsetH. intros ->. contradiction.
Qed.

(** *** balance *)
Lemma balance_agrees h l k v L R ht fp n' :
  tree h (Some l) (AVL.Node k v L R ht) fp ->
  AVL.balance (AVL.Node k v L R ht) = Ok n' ->
  exists r h' fp',
    balance (Some l) h = Done (Some r) h'
    /\ tree h' (Some r) n' fp'
    /\ (forall a, In a fp' <-> In a fp)
    /\ unchanged_outside fp h h' /\ next h' = next h.
Proof.
  intros T E.
  pose proof (updateHeight_tree _ _ _ _ _ _ _ _ T) as T1.
  pose proof (tree_root_in _ _ _ _ T) as Hin.
  pose proof (unchanged_hsetH fp h l (newHeight h l) Hin) as U1.
  rewrite balance_unfold. cbv zeta.
  set (h1 := hsetH h l (newHeight h l)) in *.
  set (ht1 := 1 + Z.max (AVL.getHeight L) (AVL.getHeight R)) in *.
  assert (Hn1 : next h1 = next h) by reflexivity.
  rewrite (bf_shape _ _ _ _ (proj1 T1)).
  pose proof T1 as T1'.
  apply tree_inv in T1'
    as (l0 & fl & fr & [= <-] & Hl & -> & Kl & Vl & Hh & TL & TR
        & A & B & D).
  rewrite (bf_shape _ _ _ _ (proj1 TL)), (bf_shape _ _ _ _ (proj1 TR)).
  unfold AVL.balance in E. cbn [AVL.updateHeight bind] in E.
  fold ht1 in E. cbn [AVL.balanceFactor] in *.
  assert (Fin : forall r h' fp',
    tree h' (Some r) n' fp' ->
    (forall a, In a fp' <-> In a (l :: fl ++ fr)) ->
    unchanged_outside (l :: fl ++ fr) h1 h' -> next h' = next h1 ->
    tree h' (Some r) n' fp'
    /\ (forall a, In a fp' <-> In a (l :: fl ++ fr))
    /\ unchanged_outside (l :: fl ++ fr) h h' /\ next h' = next h).
  { intros r h' fp' Tr Hi U Hn. split; [exact Tr|]. split; [exact Hi|].
    split; [|lia].
    eapply unchanged_chain; [exact U1|exact U|auto|lia]. }
  destruct ((AVL.getHeight L - AVL.getHeight R >? 1)
            && (AVL.balanceFactor L >=? 0)).
  { destruct (rotateRight_agrees h1 l _ _ n' T1 E)
      as (x & h' & fp' & Er & Tr & Hi & U & Hn).
    exists x, h', fp'. split; [exact Er|]. now apply Fin. }
  destruct ((AVL.getHeight L - AVL.getHeight R >? 1)
            && (AVL.balanceFactor L <? 0)).
  { destruct (AVL.rotateLeft L) as [L'|e] eqn:EL; [|discriminate].
    cbn [bind] in E.
    destruct L as [|lk lv ll lr lh]; [discriminate|].
    pose proof TL as TL'.
    apply tree_inv in TL' as (x & ? & ? & Ex & _).
    rewrite Ex in *.
    destruct (rotateLeft_agrees h1 x _ fl L' TL EL)
      as (y & h2 & fl2 & Er & Ty & Hi2 & U2 & Hn2).
    rewrite hbind_eq, Er. cbv beta.
    rewrite hbind_eq, setLeft_eq.
    pose proof (pres_rotateLeft _ _ _ _ Er) as (Ea2 & _).
    destruct (set_left_tree h1 l k v R ht1 fl fr h2 (Some y) L' fl2)
      as (T3 & W3 & U3); try assumption; try lia.
    { intros a Ha. left. now apply Hi2. }
    { intros a _. now apply sread_arrs. }
    destruct (rotateRight_agrees _ l _ _ n' T3 E)
      as (x' & h' & fp' & Er' & Tr & Hi & U & Hn).
    exists x', h', fp'. split; [exact Er'|].
    apply Fin; try assumption.
    - intros a. rewrite Hi. simpl. rewrite !in_app_iff, Hi2. tauto.
    - eapply unchanged_chain; [exact U3|exact U| |simpl; lia].
      intros a Ha. left. revert Ha. simpl. rewrite !in_app_iff, Hi2. tauto.
    - simpl in Hn. lia. }
  destruct ((AVL.getHeight L - AVL.getHeight R <? -1)
            && (AVL.balanceFactor R <=? 0)).
  { destruct (rotateLeft_agrees h1 l _ _ n' T1 E)
      as (x & h' & fp' & Er & Tr & Hi & U & Hn).
    exists x, h', fp'. split; [exact Er|]. now apply Fin. }
  destruct ((AVL.getHeight L - AVL.getHeight R <? -1)
            && (AVL.balanceFactor R >? 0)).
  { destruct (AVL.rotateRight R) as [R'|e] eqn:EL; [|discriminate].
    cbn [bind] in E.
    destruct R as [|rk rv rl rr rh]; [discriminate|].
    pose proof TR as TR'.
    apply tree_inv in TR' as (x & ? & ? & Ex & _).
    rewrite Ex in *.
    destruct (rotateRight_agrees h1 x _ fr R' TR EL)
      as (y & h2 & fr2 & Er & Ty & Hi2 & U2 & Hn2).
    rewrite hbind_eq, Er. cbv beta.
    rewrite hbind_eq, setRight_eq.
    pose proof (pres_rotateRight _ _ _ _ Er) as (Ea2 & _).
    destruct (set_right_tree h1 l k v L ht1 fl fr h2 (Some y) R' fr2)
      as (T3 & W3 & U3); try assumption; try lia.
    { intros a Ha. left. now apply Hi2. }
    { intros a _. now apply sread_arrs. }
    destruct (rotateLeft_agrees _ l _ _ n' T3 E)
      as (x' & h' & fp' & Er' & Tr & Hi & U & Hn).
    exists x', h', fp'. split; [exact Er'|].
    apply Fin; try assumption.
    - intros a. rewrite Hi. simpl. rewrite !in_app_iff, Hi2. tauto.
    - eapply unchanged_chain; [exact U3|exact U| |simpl; lia].
      intros a Ha. left. revert Ha. simpl. rewrite !in_app_iff, Hi2. tauto.
    - simpl in Hn. lia. }
  injection E as <-.
  exists l, h1, (l :: fl ++ fr). split; [reflexivity|].
  apply Fin; try assumption; try reflexivity.
  intros a Ha _. reflexivity.
Qed.

(** *** Slices and their arrays *)
Lemma firstn_put (xs : list V) i (v : V) :
  firstn (S i) (put xs i v) = firstn i xs ++ [v].
Proof.
  unfold put. rewrite firstn_app.
  rewrite (firstn_all2 (n := S i) (firstn i xs))
    by (pose proof (firstn_le_length i xs); lia).
  f_equal.
  destruct (Nat.le_gt_cases (List.length xs) i) as [Hle|Hgt].
  - rewrite (skipn_all2 (n := S i) xs) by lia.
    rewrite length_firstn, Nat.min_r by lia.
    destruct (S i - List.length xs)%nat as [|d] eqn:Ed; [lia|].
    simpl. now rewrite firstn_nil.
  - rewrite length_firstn, Nat.min_l by lia.
    replace (S i - i)%nat with 1%nat by lia. reflexivity.
Qed.

(** What [append] returns and leaves. *)
Lemma append_spec (sl : slice) (v : V) h :
  exists (sl' : slice) h1,
    append sl v h = Done sl' h1
    /\ cells h1 = cells h /\ next h1 = next h
    /\ sread h1 sl' = sread h sl ++ [v]
    /\ ((sarr sl' = sarr sl /\ anext h1 = anext h
         /\ forall a, a <> sarr sl -> arrs h1 a = arrs h a)
        \/ (sarr sl' = anext h /\ anext h1 = S (anext h)
            /\ forall a, a <> anext h -> arrs h1 a = arrs h a)).
Proof.
  unfold append. destruct (slen sl <? scap sl)%nat.
  - eexists _, _. split; [reflexivity|].
    split; [reflexivity|]. split; [reflexivity|]. split.
    + unfold sread, upd. cbn [arrs sarr slen]. rewrite Nat.eqb_refl.
      apply firstn_put.
    + left. split; [reflexivity|]. split; [reflexivity|].
      intros a Ha. unfold upd. cbn [arrs].
      destruct (Nat.eqb_spec a (sarr sl)); [contradiction|reflexivity].
  - eexists _, _. split; [reflexivity|].
    split; [reflexivity|]. split; [reflexivity|]. split.
    + unfold sread at 1, upd. cbn [arrs sarr slen]. rewrite Nat.eqb_refl.
      apply firstn_all2. rewrite length_app. simpl.
      unfold sread. pose proof (firstn_le_length (slen sl) (arrs h (sarr sl))).
      lia.
    + right. split; [reflexivity|]. split; [reflexivity|].
      intros a Ha. unfold upd. cbn [arrs].
      destruct (Nat.eqb_spec a (anext h)); [contradiction|reflexivity].
Qed.

Lemma arr_of_data h h' : same_data h h' -> forall a, arr_of h' a = arr_of h a.
Proof. intros (_ & _ & Hd) a. unfold arr_of. now rewrite (proj2 (Hd a)). Qed.

Lemma allocated_sub h fp fp' :
  (forall a, In a fp' -> In a fp) -> allocated h fp -> allocated h fp'.
Proof. intros Hs Al a Ha. apply Al. auto. Qed.

Lemma exclusive_sub h fp fp' :
  (forall a, In a fp' -> In a fp) -> exclusive h fp -> exclusive h fp'.
Proof.
  intros Hs [Hi Al]. split; [|now apply (allocated_sub h fp)].
  intros l1 l2 H1 H2. apply Hi; auto.
Qed.

Lemma arrays_outside_refl fp h : arrays_outside fp h h.
Proof. split; [lia|reflexivity]. Qed.

(** The nodes of a part of the footprint, in the store as it was. *)
Lemma carried_sub h fp fp' :
  (forall a, In a fp' -> In a fp) -> allocated h fp -> carried h fp h fp'.
Proof.
  intros Hs Al. split.
  - intros l' Hl'. left. exists l'. auto.
  - intros l1 l2 H1 _ Hfr _. pose proof (Al l1 (Hs l1 H1)). lia.
Qed.

(** The nodes [f1] that a call made of the nodes [f], together with
    nodes [rest] that it left alone, after writes that change no key
    and no slice. *)
Lemma carried_extend h f h1 f1 h' rest fp fp' :
  (allocated h f -> carried h f h1 f1) ->
  allocated h fp ->
  same_data h1 h' ->
  (forall a, In a rest -> cells h1 a = cells h a) ->
  (forall a, In a f -> In a fp) -> (forall a, In a rest -> In a fp) ->
  (forall a, In a fp' -> In a f1 \/ In a rest) ->
  carried h fp h' fp'.
Proof.
  intros Hc Al Hd Hr Hf Hrest Hfp'.
  destruct (Hc (allocated_sub h fp f Hf Al)) as [C3 C4].
  pose proof (arr_of_data h1 h' Hd) as Karr.
  destruct Hd as (_ & En & Hd).
  assert (Kkey : forall a, key (cells h' a) = key (cells h1 a))
    by (intros a; apply Hd).
  assert (Rest : forall a, In a rest ->
            key (cells h' a) = key (cells h a)
            /\ arr_of h' a = arr_of h a /\ (arr_of h a < anext h)%nat).
  { intros a Ha. rewrite Kkey, Karr. unfold arr_of. rewrite (Hr a Ha).
    repeat split. apply Al. auto. }
  split.
  - intros l' Hl'. destruct (Hfp' l' Hl') as [H1|H2].
    + destruct (C3 l' H1) as [(l0 & Hl0 & Hk & Ha)|Hfresh].
      * left. exists l0. split; [auto|]. rewrite Kkey, Karr. auto.
      * right. rewrite Karr, En. exact Hfresh.
    + left. exists l'. destruct (Rest l' H2) as (? & ? & ?). auto.
  - intros l1 l2 H1 H2 Hfr Heq.
    destruct (Hfp' l1 H1) as [A1|A1].
    2:{ destruct (Rest l1 A1) as (_ & Ea1 & Hlt). lia. }
    destruct (Hfp' l2 H2) as [A2|A2].
    2:{ destruct (Rest l2 A2) as (_ & Ea2 & Hlt). lia. }
    apply C4; auto; rewrite <- !Karr; auto.
Qed.

(** *** insert *)
Lemma tree_nil h : tree h None AVL.nil [].
Proof. split; [now split|constructor]. Qed.

Lemma tree_nil_inv h p fp : tree h p AVL.nil fp -> p = None /\ fp = [].
Proof. intros [H _]. exact H. Qed.

(** The recursive call went into the left subtree; its result is stored
    and the node rebalanced. *)
Lemma step_left_agrees h l k v R ht fl fr (m : M V ptr) L1 n' :
  (l < next h)%nat ->
  key (cells h l) = k -> sread h (value (cells h l)) = v ->
  height (cells h l) = ht ->
  tree h (right (cells h l)) R fr ->
  ~ In l fl -> ~ In l fr -> (forall a, In a fl -> ~ In a fr) ->
  agrees h fl (m h) L1 ->
  (forall r1 h1, m h = Done r1 h1 ->
     forall a, In a (l :: fr) ->
       sread h1 (value (cells h a)) = sread h (value (cells h a))) ->
  AVL.balance (AVL.Node k v L1 R ht) = Ok n' ->
  agrees h (l :: fl ++ fr)
    ((l' <~ m ;; setLeft l l' ;;; balance (Some l)) h) n'.
Proof.
  intros Hl Kl Vl Hh TR A B D
    (r1 & h1 & fl1 & E1 & T1 & W1 & U1 & Hn1 & [An1 AO1] & C1) Rd Eb.
  destruct (set_left_tree h l k v R ht fl fr h1 r1 L1 fl1)
    as (T2 & W2 & U2); try assumption.
  { exact (Rd r1 h1 E1). }
  destruct (balance_agrees _ l _ _ _ _ _ _ n' T2 Eb)
    as (r & h' & fp' & Er & Tr & Hi & U & Hn).
  pose proof (same_data_trans _ _ _ (same_data_hsetL h1 l r1)
                (pres_balance _ _ _ _ Er)) as Sd.
  pose proof Sd as (Ea & En & _).
  exists (Some r), h', fp'. split.
  { rewrite hbind_eq, E1. cbv beta. rewrite hbind_eq, setLeft_eq. exact Er. }
  split; [exact Tr|]. simpl in Hn. split; [|split; [|split; [lia|split]]].
  - intros a Ha. apply Hi in Ha. destruct (W2 a Ha) as [H|H]; [now left|].
    right. lia.
  - eapply unchanged_chain; [exact U2|exact U| |simpl; lia].
    intros a Ha. destruct (W2 a Ha) as [H|H]; [now left|right; lia].
  - split; [lia|]. intros a Ha Hno. rewrite Ea. apply AO1; [exact Ha|].
    intros l0 Hl0. apply Hno. right. apply in_or_app. now left.
  - intros Al.
    apply (carried_extend h fl h1 fl1 h' (l :: fr)); try assumption.
    + intros a [<-|Ha]; apply U1; auto.
      * intros Hf. exact (D a Hf Ha).
      * eapply tree_lt; eauto.
    + intros a Ha. right. apply in_or_app. now left.
    + intros a [<-|Ha]; [now left|]. right. apply in_or_app. now right.
    + intros a Ha. apply Hi in Ha. destruct Ha as [<-|Ha]; [right; now left|].
      apply in_app_or in Ha as [Ha|Ha]; [now left|right; now right].
Qed.

Lemma step_right_agrees h l k v L ht fl fr (m : M V ptr) R1 n' :
  (l < next h)%nat ->
  key (cells h l) = k -> sread h (value (cells h l)) = v ->
  height (cells h l) = ht ->
  tree h (left (cells h l)) L fl ->
  ~ In l fl -> ~ In l fr -> (forall a, In a fl -> ~ In a fr) ->
  agrees h fr (m h) R1 ->
  (forall r1 h1, m h = Done r1 h1 ->
     forall a, In a (l :: fl) ->
       sread h1 (value (cells h a)) = sread h (value (cells h a))) ->
  AVL.balance (AVL.Node k v L R1 ht) = Ok n' ->
  agrees h (l :: fl ++ fr)
    ((r' <~ m ;; setRight l r' ;;; balance (Some l)) h) n'.
Proof.
  intros Hl Kl Vl Hh TL A B D
    (r1 & h1 & fr1 & E1 & T1 & W1 & U1 & Hn1 & [An1 AO1] & C1) Rd Eb.
  destruct (set_right_tree h l k v L ht fl fr h1 r1 R1 fr1)
    as (T2 & W2 & U2); try assumption.
  { exact (Rd r1 h1 E1). }
  destruct (balance_agrees _ l _ _ _ _ _ _ n' T2 Eb)
    as (r & h' & fp' & Er & Tr & Hi & U & Hn).
  pose proof (same_data_trans _ _ _ (same_data_hsetR h1 l r1)
                (pres_balance _ _ _ _ Er)) as Sd.
  pose proof Sd as (Ea & En & _).
  exists (Some r), h', fp'. split.
  { rewrite hbind_eq, E1. cbv beta. rewrite hbind_eq, setRight_eq. exact Er. }
  split; [exact Tr|]. simpl in Hn. split; [|split; [|split; [lia|split]]].
  - intros a Ha. apply Hi in Ha. destruct (W2 a Ha) as [H|H]; [now left|].
    right. lia.
  - eapply unchanged_chain; [exact U2|exact U| |simpl; lia].
    intros a Ha. destruct (W2 a Ha) as [H|H]; [now left|right; lia].
  - split; [lia|]. intros a Ha Hno. rewrite Ea. apply AO1; [exact Ha|].
    intros l0 Hl0. apply Hno. right. apply in_or_app. now right.
  - intros Al.
    apply (carried_extend h fr h1 fr1 h' (l :: fl)); try assumption.
    + intros a [<-|Ha]; apply U1; auto.
      eapply tree_lt; eauto.
    + intros a Ha. right. apply in_or_app. now right.
    + intros a [<-|Ha]; [now left|]. right. apply in_or_app. now left.
    + intros a Ha. apply Hi in Ha. destruct Ha as [<-|Ha]; [right; now left|].
      apply in_app_or in Ha as [Ha|Ha]; [right; now right|now left].
Qed.

(** The reads that an agreeing call on the nodes [f] leaves alone: those
    of slices on allocated arrays that no node of [f] is on. *)
Lemma agrees_reads h f (o : outcome V ptr) n1 r1 h1 (sl : slice) :
  agrees h f o n1 -> o = Done r1 h1 ->
  (sarr sl < anext h)%nat -> (forall l0, In l0 f -> arr_of h l0 <> sarr sl) ->
  sread h1 sl = sread h sl.
Proof.
  intros (r & h' & f' & E & _ & _ & _ & _ & [_ AO] & _) E1 Hlt Hno.
  rewrite E in E1. injection E1 as _ <-.
  apply sread_at. now apply AO.
Qed.

Lemma insert_agrees k v n : forall h p fp fuel n',
  tree h p n fp -> exclusive h fp -> (List.length fp < fuel)%nat ->
  AVL.insert k v n = Ok n' ->
  agrees h fp (insert fuel k v p h) n'.
Proof.
  induction n as [|k0 v0 L IHL R IHR ht]; intros h p fp fuel n' T X Hf E.
  - apply tree_nil_inv in T as [-> ->].
    destruct fuel as [|fuel]; [simpl in Hf; lia|].
    simpl in E. injection E as <-.
    exists (Some (next h)), (halloc h k v), (next h :: [] ++ []).
    split; [reflexivity|].
    assert (C : cells (halloc h k v) (next h)
                = mkCell k (mkSlice (anext h) 1 1) None None 1).
    { unfold halloc, upd. cbn [cells]. now rewrite Nat.eqb_refl. }
    split; [|split; [|split; [|split; [|split]]]].
    + unfold AVL.createNode. apply tree_node.
      * simpl. lia.
      * now rewrite C.
      * rewrite C. unfold sread, halloc, upd. cbn [arrs value sarr slen].
        now rewrite Nat.eqb_refl.
      * now rewrite C.
      * rewrite C. apply tree_nil.
      * rewrite C. apply tree_nil.
      * intros [].
      * intros [].
      * intros a [].
    + intros a [<-|[]]. right. simpl. lia.
    + intros a _ Ha. unfold halloc, upd. cbn [cells].
      destruct (Nat.eqb_spec a (next h)); [lia|reflexivity].
    + simpl. lia.
    + split; [simpl; lia|]. intros a Ha _. unfold halloc, upd. cbn [arrs].
      destruct (Nat.eqb_spec a (anext h)); [lia|reflexivity].
    + intros _. split.
      * intros l' [<-|[]]. right. unfold arr_of. rewrite C. simpl. lia.
      * intros l1 l2 [<-|[]] [<-|[]] _ _. reflexivity.
  - apply tree_inv in T
      as (l & fl & fr & -> & Hl & -> & Kl & Vl & Hh & TL & TR & A & B & D).
    destruct fuel as [|fuel]; [simpl in Hf; lia|].
    simpl in Hf. rewrite length_app in Hf.
    assert (Xl : exclusive h fl).
    { apply (exclusive_sub h (l :: fl ++ fr)); [|exact X].
      intros a Ha. right. apply in_or_app. now left. }
    assert (Xr : exclusive h fr).
    { apply (exclusive_sub h (l :: fl ++ fr)); [|exact X].
      intros a Ha. right. apply in_or_app. now right. }
    destruct X as [Xi Xa].
    cbn [insert]. rewrite hbind_load. rewrite Kl.
    cbn [AVL.insert] in E.
    destruct (k <? k0).
    { destruct (AVL.insert k v L) as [L1|e] eqn:EL; [|discriminate].
      cbn [bind] in E.
      pose proof (IHL h (left (cells h l)) fl fuel L1 TL Xl ltac:(lia)
                    eq_refl) as IH.
      apply (step_left_agrees h l k0 v0 R ht fl fr _ L1); try assumption.
      intros r1 h1 E1 a Ha.
      assert (Hin : In a (l :: fl ++ fr)).
      { destruct Ha as [<-|Ha]; [now left|].
        right. apply in_or_app. now right. }
      apply (agrees_reads h fl _ L1 r1 h1 _ IH E1); [now apply Xa|].
      intros l0 Hl0 Heq.
      assert (l0 = a).
      { apply Xi; [right; apply in_or_app; now left|exact Hin|exact Heq]. }
      subst l0. destruct Ha as [<-|Ha]; [contradiction|].
      exact (D a Hl0 Ha). }
    destruct (k >? k0).
    { destruct (AVL.insert k v R) as [R1|e] eqn:ER; [|discriminate].
      cbn [bind] in E.
      pose proof (IHR h (right (cells h l)) fr fuel R1 TR Xr ltac:(lia)
                    eq_refl) as IH.
      apply (step_right_agrees h l k0 v0 L ht fl fr _ R1); try assumption.
      intros r1 h1 E1 a Ha.
      assert (Hin : In a (l :: fl ++ fr)).
      { destruct Ha as [<-|Ha]; [now left|].
        right. apply in_or_app. now left. }
      apply (agrees_reads h fr _ R1 r1 h1 _ IH E1); [now apply Xa|].
      intros l0 Hl0 Heq.
      assert (l0 = a).
      { apply Xi; [right; apply in_or_app; now right|exact Hin|exact Heq]. }
      subst l0. destruct Ha as [<-|Ha]; [contradiction|].
      exact (D a Ha Hl0). }
    injection E as <-.
    destruct (append_spec (value (cells h l)) v h)
      as (sl' & h1 & Ea & Ec & En & Rd & Hcase).
    exists (Some l), (hsetV h1 l sl'), (l :: fl ++ fr).
    split; [rewrite hbind_eq, Ea; reflexivity|].
    destruct (cells_hsetV h1 l sl') as [C Co].
    set (h' := hsetV h1 l sl') in *.
    assert (Eo : forall a, a <> l -> cells h' a = cells h a).
    { intros a Na. rewrite Co by exact Na. now rewrite Ec. }
    assert (Ar : forall a, In a (fl ++ fr) ->
              arrs h1 (arr_of h a) = arrs h (arr_of h a)).
    { intros a Ha.
      assert (Hin : In a (l :: fl ++ fr)) by now right.
      assert (Na : arr_of h a <> arr_of h l).
      { intros Heq. assert (a = l) by (apply Xi; auto; now left).
        subst a. apply in_app_or in Ha as [Ha|Ha]; contradiction. }
      pose proof (Xa a Hin) as Hlt.
      destruct Hcase as [(_ & _ & H)|(_ & _ & H)]; apply H;
        [exact Na|lia]. }
    assert (Fr : forall f q m, tree h q m f -> ~ In l f ->
                 (forall a, In a f -> In a (fl ++ fr)) -> tree h' q m f).
    { intros f q m Tm Nl Hs.
      apply (tree_frame_reads h); [assumption| | |simpl; lia].
      - intros a Ha. apply Eo. intros ->. contradiction.
      - intros a Ha. rewrite (sread_arrs h1 h') by reflexivity.
        apply sread_at. apply Ar. auto. }
    assert (Al' : forall a, arr_of h' a
                            = if Nat.eqb a l then sarr sl' else arr_of h a).
    { intros a. unfold arr_of. destruct (Nat.eqb_spec a l) as [->|Na].
      - now rewrite C.
      - now rewrite Eo. }
    split; [|split; [|split; [|split; [|split]]]].
    + apply tree_node; try assumption.
      * simpl. lia.
      * rewrite C, Ec. exact Kl.
      * rewrite C. cbn [value]. rewrite (sread_arrs h1 h') by reflexivity.
        rewrite Rd. now rewrite Vl.
      * rewrite C, Ec. exact Hh.
      * rewrite C, Ec. cbn [left]. apply Fr; auto.
        intros a Ha. apply in_or_app. now left.
      * rewrite C, Ec. cbn [right]. apply Fr; auto.
        intros a Ha. apply in_or_app. now right.
    + intros a Ha. now left.
    + intros a Ha _. apply Eo. intros ->. apply Ha. now left.
    + simpl. lia.
    + split.
      * destruct Hcase as [(_ & H & _)|(_ & H & _)]; simpl; lia.
      * intros a Ha Hno. change (arrs h' a) with (arrs h1 a).
        assert (N1 : a <> arr_of h l).
        { intros ->. apply (Hno l); [now left|reflexivity]. }
        destruct Hcase as [(_ & _ & H)|(_ & _ & H)]; apply H;
          [exact N1|lia].
    + intros _. change (anext h') with (anext h1). split.
      * intros a Ha. rewrite Al'.
        destruct (Nat.eqb_spec a l) as [->|Na]; cbv iota.
        -- destruct Hcase as [(Hs & _ & _)|(Hs & Hn' & _)].
           ++ left. exists l. split; [now left|].
              split; [now rewrite C, Ec|exact Hs].
           ++ right. change (anext h') with (anext h1). lia.
        -- left. exists a. split; [exact Ha|]. now rewrite Eo.
      * intros l1 l2 H1 H2 Hfr Heq. rewrite !Al' in *.
        destruct (Nat.eqb_spec l1 l) as [->|N1]; cbv iota in *.
        -- destruct (Nat.eqb_spec l2 l) as [->|N2]; cbv iota in *;
             [reflexivity|].
           pose proof (Xa l2 H2). lia.
        -- pose proof (Xa l1 H1). lia.
Qed.

(** *** delete *)
Lemma agrees_pre h hm fp (o : outcome V ptr) n' :
  next hm = next h -> arrs hm = arrs h -> anext hm = anext h ->
  (forall a, ~ In a fp -> cells hm a = cells h a) ->
  (forall a, In a fp ->
     exists a0, In a0 fp /\ key (cells hm a) = key (cells h a0)
                /\ arr_of hm a = arr_of h a0) ->
  agrees hm fp o n' -> agrees h fp o n'.
Proof.
  intros Hn Ea En Hc Ho (r & h' & fp' & E & T & W & U & Hle & [An AO] & C).
  exists r, h', fp'. split; [exact E|]. split; [exact T|].
  split; [|split; [|split; [lia|split]]].
  - intros a Ha. destruct (W a Ha) as [H|H]; [now left|right; lia].
  - intros a Ha Hlt. rewrite U; [now apply Hc|assumption|lia].
  - split; [lia|]. intros a Ha Hno. rewrite <- Ea. apply AO; [lia|].
    intros l0 Hl0 Heq. destruct (Ho l0 Hl0) as (a0 & Ha0 & _ & Harr).
    apply (Hno a0 Ha0). congruence.
  - intros Al.
    assert (Alm : allocated hm fp).
    { intros a Ha. destruct (Ho a Ha) as (a0 & Ha0 & _ & Harr).
      rewrite Harr, En. now apply Al. }
    destruct (C Alm) as [C3 C4]. split.
    + intros l' Hl'. destruct (C3 l' Hl') as [(l0 & Hl0 & Hk & Harr)|Hfr].
      * left. destruct (Ho l0 Hl0) as (a0 & Ha0 & Hk0 & Harr0).
        exists a0. split; [exact Ha0|]. split; congruence.
      * right. lia.
    + intros l1 l2 H1 H2 Hfr Heq. apply C4; auto. lia.
Qed.

Lemma delete_agrees n : forall k h p fp fuel n',
  tree h p n fp -> (List.length fp < fuel)%nat ->
  AVL.delete k n = Ok n' ->
  agrees h fp (delete fuel k p h) n'.
Proof.
  induction n as [|k0 v0 L IHL R IHR ht]; intros k h p fp fuel n' T Hf E.
  - apply tree_nil_inv in T as [-> ->].
    destruct fuel as [|fuel]; [simpl in Hf; lia|].
    simpl in E. injection E as <-.
    exists None, h, []. split; [reflexivity|]. split; [apply tree_nil|].
    split; [intros a []|]. split; [intros a _ _; reflexivity|].
    split; [lia|]. split; [apply arrays_outside_refl|].
    apply carried_sub. auto.
  - pose proof T as T0.
    apply tree_inv in T
      as (l & fl & fr & -> & Hl & -> & Kl & Vl & Hh & TL & TR & A & B & D).
    destruct fuel as [|fuel]; [simpl in Hf; lia|].
    simpl in Hf. rewrite length_app in Hf.
    cbn [delete]. rewrite hbind_load. rewrite Kl.
    cbn [AVL.delete] in E.
    destruct (k <? k0).
    { destruct (AVL.delete k L) as [L1|e] eqn:EL; [|discriminate].
      cbn [bind] in E.
      apply (step_left_agrees h l k0 v0 R ht fl fr _ L1); try assumption.
      - apply IHL; [assumption|lia|assumption].
      - intros r1 h1 E1 a _. apply sread_arrs.
        exact (proj1 (keeps_delete _ _ _ _ _ _ E1)). }
    destruct (k >? k0).
    { destruct (AVL.delete k R) as [R1|e] eqn:ER; [|discriminate].
      cbn [bind] in E.
      apply (step_right_agrees h l k0 v0 L ht fl fr _ R1); try assumption.
      - apply IHR; [assumption|lia|assumption].
      - intros r1 h1 E1 a _. apply sread_arrs.
        exact (proj1 (keeps_delete _ _ _ _ _ _ E1)). }
    destruct L as [|lk lv ll lr lh].
    { injection E as <-. apply tree_nil_inv in TL as [EL ->]. rewrite EL.
      exists (right (cells h l)), h, fr. split; [reflexivity|].
      split; [exact TR|]. split; [|split; [|split; [lia|split]]].
      - intros a Ha. left. now right.
      - intros a _ _. reflexivity.
      - apply arrays_outside_refl.
      - apply carried_sub. intros a Ha. now right. }
    pose proof TL as TL'.
    apply tree_inv in TL' as (a0 & ? & ? & EL & _). rewrite EL.
    destruct R as [|rk rv rl rr rh].
    { injection E as <-. apply tree_nil_inv in TR as [ER ->]. rewrite ER.
      exists (Some a0), h, fl. split; [reflexivity|].
      rewrite EL in TL. split; [exact TL|].
      split; [|split; [|split; [lia|split]]].
      - intros a Ha. left. right. apply in_or_app. now left.
      - intros a _ _. reflexivity.
      - apply arrays_outside_refl.
      - apply carried_sub. intros a Ha. right. apply in_or_app. now left. }
    pose proof TR as TR'.
    apply tree_inv in TR' as (b0 & ? & ? & ER & _). rewrite ER.
    destruct (AVL.minValueNode (AVL.Node rk rv rl rr rh)) as [m|e] eqn:Em;
      [|discriminate].
    cbn [bind] in E.
    destruct m as [|mk mv ml mr mh]; [discriminate|].
    cbn [AVL.get bind fst snd] in E.
    destruct (AVL.delete mk (AVL.Node rk rv rl rr rh)) as [R1|e] eqn:ED;
      [|discriminate].
    cbn [bind] in E.
    rewrite ER in TR.
    destruct (minValueNode_agrees _ h (Some b0) fr fuel _ (proj1 TR)
                ltac:(lia) Em) as (t & fm & Emin & Sm & Ht).
    rewrite hbind_eq, Emin. cbv beta.
    rewrite delete_two_tail. cbv zeta.
    assert (Ntl : t <> l) by (intros ->; contradiction).
    simpl in Sm.
    destruct Sm as (t0 & ? & ? & [= <-] & _ & Kt & Vt & _).
    destruct (cells_hsetK h l (key (cells h t))) as [CK CKo].
    set (hK := hsetK h l (key (cells h t))) in *.
    destruct (cells_hsetV hK l (value (cells hK t))) as [CV CVo].
    set (hKV := hsetV hK l (value (cells hK t))) in *.
    assert (EKt : cells hK t = cells h t) by now apply CKo.
    assert (Eo : forall a, a <> l -> cells hKV a = cells h a).
    { intros a Na. rewrite CVo by exact Na. now apply CKo. }
    assert (El : cells hKV l
                 = mkCell mk (value (cells h t)) (Some a0) (Some b0) ht).
    { rewrite CV, CK, EKt. cbn [key value left right height].
      now rewrite Kt, EL, ER, Hh. }
    rewrite (Eo t Ntl), Kt.
    assert (Fr : forall f q m, tree h q m f -> ~ In l f -> tree hKV q m f).
    { intros f q m Tm Nl.
      apply (tree_frame h); [assumption| |simpl; lia|reflexivity].
      intros a Ha. apply Eo. intros ->. contradiction. }
    apply (agrees_pre h hKV); try reflexivity.
    { intros a Ha. apply Eo. intros ->. apply Ha. now left. }
    { intros a Ha. destruct (Nat.eq_dec a l) as [->|Na].
      - exists t. split; [right; apply in_or_app; now right|].
        unfold arr_of. rewrite El. cbn [key value]. now split.
      - exists a. split; [exact Ha|]. unfold arr_of. now rewrite Eo. }
    apply (step_right_agrees hKV l mk mv (AVL.Node lk lv ll lr lh) ht
             fl fr _ R1);
      try (rewrite El; cbn; reflexivity); try assumption.
    + rewrite El. cbn [value]. exact Vt.
    + rewrite El. cbn [left]. rewrite EL in TL. now apply Fr.
    + rewrite El. cbn [right]. apply IHR; [now apply Fr|lia|assumption].
    + intros r1 h1 E1 a _. apply sread_arrs.
      exact (proj1 (keeps_delete _ _ _ _ _ _ E1)).
Qed.

(** *** The public operations *)
Lemma nth_error_set_nth_same (rs : list ptr) : forall t p,
  (t < List.length rs)%nat -> nth_error (set_nth rs t p) t = Some p.
Proof.
  induction rs as [|r0 rs IH]; intros t p Ht; simpl in Ht; [lia|].
  destruct t; simpl; [reflexivity|]. apply IH. lia.
Qed.

Lemma get_agrees h t k v L R ht fm :
  shape h (Some t) (AVL.Node k v L R ht) fm ->
  exists sl : slice, get (Some t) h = Done (k, sl) h /\ sread h sl = v.
Proof.
  simpl. intros (t0 & ? & ? & [= <-] & _ & <- & <- & _).
  exists (value (cells h t)). split; reflexivity.
Qed.

(** The keys of the nodes of a search tree are distinct. *)
Lemma shape_all_keys (P : Z -> Prop) n : forall h p fp,
  shape h p n fp -> AVL.all_keys P n ->
  forall l, In l fp -> P (key (cells h l)).
Proof.
  induction n as [|k v L IHL R IHR ht]; intros h p fp H Ha l Hl; simpl in H.
  - destruct H as [_ ->]. contradiction.
  - destruct H as (l0 & fl & fr & -> & _ & Hk & _ & _ & HL & HR & ->).
    destruct Ha as (Pk & PL & PR).
    destruct Hl as [<-|Hl]; [now rewrite Hk|].
    apply in_app_or in Hl as [Hl|Hl]; eauto.
Qed.

Lemma bst_keys_inj n : forall h p fp,
  tree h p n fp -> AVL.bst_order n ->
  forall l1 l2, In l1 fp -> In l2 fp ->
    key (cells h l1) = key (cells h l2) -> l1 = l2.
Proof.
  induction n as [|k v L IHL R IHR ht]; intros h p fp T B l1 l2 H1 H2 E.
  - apply tree_nil_inv in T as [_ ->]. contradiction.
  - apply tree_inv in T
      as (l & fl & fr & -> & Hl & -> & Kl & Vl & Hh & TL & TR & A' & B' & D).
    destruct B as (OL & OR & BL & BR).
    pose proof (shape_all_keys _ _ _ _ _ (proj1 TL) OL) as KL.
    pose proof (shape_all_keys _ _ _ _ _ (proj1 TR) OR) as KR.
    cbv beta in KL, KR.
    destruct H1 as [<-|H1]; destruct H2 as [<-|H2]; try reflexivity.
    + apply in_app_or in H2 as [H2|H2];
        [specialize (KL l2 H2)|specialize (KR l2 H2)]; lia.
    + apply in_app_or in H1 as [H1|H1];
        [specialize (KL l1 H1)|specialize (KR l1 H1)]; lia.
    + apply in_app_or in H1 as [H1|H1]; apply in_app_or in H2 as [H2|H2].
      * eapply IHL; eauto.
      * specialize (KL l1 H1). specialize (KR l2 H2). lia.
      * specialize (KR l1 H1). specialize (KL l2 H2). lia.
      * eapply IHR; eauto.
Qed.

(** No array is shared after a call whose arrays are carried over from
    a tree that shared none, when the result is a search tree. *)
Lemma exclusive_after h fp h' r n' fp' :
  exclusive h fp -> carried h fp h' fp' -> (anext h <= anext h')%nat ->
  tree h' r n' fp' -> AVL.bst_order n' -> exclusive h' fp'.
Proof.
  intros [Xi Xa] [C3 C4] Hle T B. split.
  - intros l1 l2 H1 H2 Heq.
    destruct (C3 l1 H1) as [(a1 & Ha1 & Hk1 & Hr1)|F1].
    2:{ apply C4; auto. lia. }
    destruct (C3 l2 H2) as [(a2 & Ha2 & Hk2 & Hr2)|F2].
    2:{ symmetry. apply C4; auto. lia. }
    assert (a1 = a2) by (apply Xi; auto; congruence). subst a2.
    apply (bst_keys_inj n' h' r fp' T B); auto. congruence.
  - intros l Hl. destruct (C3 l Hl) as [(a1 & Ha1 & _ & Hr1)|F1]; [|lia].
    rewrite Hr1. pose proof (Xa a1 Ha1). lia.
Qed.

Lemma run_Insert_agrees (s : state (V := V)) t T fp fuel k v T' :
  holds s t T fp -> exclusive (hp s) fp -> (List.length fp < fuel)%nat ->
  AVL.Insert k v T = Ok T' ->
  exists s' fp',
    run fuel (CInsert (Some t) k v) s = Returned RNone s'
    /\ holds s' t T' fp'
    /\ within fp' fp (hp s) (hp s')
    /\ unchanged_outside fp (hp s) (hp s')
    /\ (next (hp s) <= next (hp s'))%nat
    /\ arrays_outside fp (hp s) (hp s')
    /\ carried (hp s) fp (hp s') fp'
    /\ out s' = out s
    /\ List.length (roots s') = List.length (roots s)
    /\ (forall t2, t2 <> t ->
          nth_error (roots s') t2 = nth_error (roots s) t2).
Proof.
  intros (root & En & Tr) X Hf E.
  apply AVLFacts.Insert_insert in E.
  destruct (insert_agrees k v _ _ _ _ fuel _ Tr X Hf E)
    as (r & h' & fp' & Ei & T1 & W & U & Hn & AO & C).
  assert (Ht : (t < List.length (roots s))%nat).
  { apply nth_error_Some. congruence. }
  exists (mkState h' (set_nth (roots s) t r) (out s)), fp'.
  split.
  { unfold run, root_of. rewrite En. unfold lift. now rewrite Ei. }
  split.
  { exists r. cbn [hp roots]. split; [|exact T1].
    now apply nth_error_set_nth_same. }
  cbn [hp roots out]. repeat (split; [assumption|]).
  split; [apply C, X|].
  split; [reflexivity|]. split; [apply length_set_nth|].
  intros t2 Hne. now apply nth_error_set_nth_other.
Qed.

Lemma run_Delete_agrees (s : state (V := V)) t T fp fuel k T' :
  holds s t T fp -> (List.length fp < fuel)%nat ->
  AVL.Delete k T = Ok T' ->
  exists s' fp',
    run fuel (CDelete (Some t) k) s = Returned RNone s'
    /\ holds s' t T' fp'
    /\ within fp' fp (hp s) (hp s')
    /\ unchanged_outside fp (hp s) (hp s')
    /\ (next (hp s) <= next (hp s'))%nat
    /\ arrs (hp s') = arrs (hp s) /\ anext (hp s') = anext (hp s)
    /\ (allocated (hp s) fp -> carried (hp s) fp (hp s') fp')
    /\ out s' = out s
    /\ List.length (roots s') = List.length (roots s)
    /\ (forall t2, t2 <> t ->
          nth_error (roots s') t2 = nth_error (roots s) t2).
Proof.
  intros (root & En & Tr) Hf E.
  assert (Ht : (t < List.length (roots s))%nat).
  { apply nth_error_Some. congruence. }
  destruct (AVL.root T) as [|k0 v0 L R ht] eqn:ET.
  - unfold AVL.Delete in E. rewrite ET in E. injection E as <-.
    pose proof Tr as Tr'. apply tree_nil_inv in Tr' as [-> ->].
    exists s, []. split; [unfold run, root_of; now rewrite En|].
    split; [exists None; split; [exact En|now rewrite ET]|].
    split; [intros a []|]. split; [intros a _ _; reflexivity|].
    split; [lia|]. split; [reflexivity|]. split; [reflexivity|].
    split; [apply carried_sub; auto|]. repeat split.
  - apply AVLFacts.Delete_delete in E. rewrite ET in E.
    destruct (delete_agrees _ k _ _ _ fuel _ Tr Hf E)
      as (r & h' & fp' & Ei & T1 & W & U & Hn & AO & C).
    pose proof Tr as Tr'. apply tree_inv in Tr' as (l & ? & ? & -> & _).
    destruct (keeps_delete _ _ _ _ _ _ Ei) as [Ka Kn].
    exists (mkState h' (set_nth (roots s) t r) (out s)), fp'.
    split.
    { unfold run, root_of. rewrite En. unfold lift. now rewrite Ei. }
    split.
    { exists r. cbn [hp roots]. split; [|exact T1].
      now apply nth_error_set_nth_same. }
    cbn [hp roots out]. repeat (split; [assumption|]).
    split; [reflexivity|]. split; [apply length_set_nth|].
    intros t2 Hne. now apply nth_error_set_nth_other.
Qed.

(** *** More fuel changes nothing *)
Lemma insert_S fuel k (v : V) p :
  insert (S fuel) k v p
  = match p with
    | None => createNode k v
    | Some nl =>
        c <~ load p ;;
        if k <? key c then
          l' <~ insert fuel k v (left c) ;; setLeft nl l' ;;; balance p
        else if k >? key c then
          r' <~ insert fuel k v (right c) ;; setRight nl r' ;;; balance p
        else sl <~ append (value c) v ;; setValue nl sl ;;; ret p
    end.
Proof. reflexivity. Qed.

Lemma insert_fuel_mono fuel : forall k (v : V) p h r h',
  insert fuel k v p h = Done r h' -> insert (S fuel) k v p h = Done r h'.
Proof.
  induction fuel as [|fuel IH]; intros k v p h r h' E; [discriminate|].
  rewrite insert_S in E. rewrite insert_S.
  destruct p as [l|]; [|exact E].
  rewrite hbind_load in *.
  destruct (k <? key (cells h l)).
  { rewrite hbind_eq in *.
    destruct (insert fuel k v (left (cells h l)) h) as [r1 h1|e|] eqn:E1;
      try discriminate.
    now rewrite (IH _ _ _ _ _ _ E1). }
  destruct (k >? key (cells h l)); [|exact E].
  rewrite hbind_eq in *.
  destruct (insert fuel k v (right (cells h l)) h) as [r1 h1|e|] eqn:E1;
    try discriminate.
  now rewrite (IH _ _ _ _ _ _ E1).
Qed.

Lemma minValueNode_S fuel p :
  minValueNode (V := V) (S fuel) p
  = (c <~ load p ;;
     match left c with
     | None => ret p
     | Some _ => minValueNode fuel (left c)
     end).
Proof. reflexivity. Qed.

Lemma minValueNode_fuel_mono fuel : forall p h r h',
  minValueNode fuel p h = Done r h' ->
  minValueNode (S fuel) p h = Done r h'.
Proof.
  induction fuel as [|fuel IH]; intros p h r h' E; [discriminate|].
  rewrite minValueNode_S in E. rewrite minValueNode_S.
  rewrite hbind_eq in *.
  destruct (load p h) as [c h1|e|]; try discriminate.
  destruct (left c); [|exact E]. now apply IH.
Qed.

Lemma delete_S fuel k p :
  delete (V := V) (S fuel) k p
  = match p with
    | None => ret p
    | Some nl =>
        c <~ load p ;;
        if k <? key c then
          l' <~ delete fuel k (left c) ;; setLeft nl l' ;;; balance p
        else if k >? key c then
          r' <~ delete fuel k (right c) ;; setRight nl r' ;;; balance p
        else
          match left c, right c with
          | None, _ => ret (right c)
          | Some _, None => ret (left c)
          | Some _, Some _ =>
              temp <~ minValueNode fuel (right c) ;;
              ct <~ load temp ;;
              setKey nl (key ct) ;;;
              ct' <~ load temp ;;
              setValue nl (value ct') ;;;
              c' <~ load p ;;
              ct'' <~ load temp ;;
              r' <~ delete fuel (key ct'') (right c') ;;
              setRight nl r' ;;;
              balance p
          end
    end.
Proof. reflexivity. Qed.

Lemma delete_fuel_mono fuel : forall k p h r h',
  delete (V := V) fuel k p h = Done r h' ->
  delete (S fuel) k p h = Done r h'.
Proof.
  induction fuel as [|fuel IH]; intros k p h r h' E; [discriminate|].
  rewrite delete_S in E. rewrite delete_S.
  destruct p as [l|]; [|exact E].
  rewrite hbind_load in *.
  destruct (k <? key (cells h l)).
  { rewrite hbind_eq in *.
    destruct (delete fuel k (left (cells h l)) h) as [r1 h1|e|] eqn:E1;
      try discriminate.
    now rewrite (IH _ _ _ _ _ E1). }
  destruct (k >? key (cells h l)).
  { rewrite hbind_eq in *.
    destruct (delete fuel k (right (cells h l)) h) as [r1 h1|e|] eqn:E1;
      try discriminate.
    now rewrite (IH _ _ _ _ _ E1). }
  destruct (left (cells h l)); [|exact E].
  destruct (right (cells h l)) as [b|]; [|exact E].
  rewrite hbind_eq in *.
  destruct (minValueNode fuel (Some b) h) as [tp hm|e|] eqn:Em;
    try discriminate.
  rewrite (minValueNode_fuel_mono _ _ _ _ _ Em).
  cbv beta in *.
  destruct tp as [t|]; [|discriminate].
  rewrite delete_two_tail in E. rewrite delete_two_tail. cbv zeta in *.
  rewrite hbind_eq in *.
  match type of E with
  | match delete fuel ?kk ?pp ?hh with _ => _ end = _ =>
      destruct (delete fuel kk pp hh) as [r1 h1|e|] eqn:E1;
        try discriminate
  end.
  now rewrite (IH _ _ _ _ _ E1).
Qed.

Lemma insert_fuel_le fuel fuel' k (v : V) p h r h' :
  (fuel <= fuel')%nat ->
  insert fuel k v p h = Done r h' -> insert fuel' k v p h = Done r h'.
Proof.
  induction 1 as [|fuel' _ IH]; [auto|].
  intros E. apply insert_fuel_mono. auto.
Qed.

Lemma delete_fuel_le fuel fuel' k p h r h' :
  (fuel <= fuel')%nat ->
  delete (V := V) fuel k p h = Done r h' -> delete fuel' k p h = Done r h'.
Proof.
  induction 1 as [|fuel' _ IH]; [auto|].
  intros E. apply delete_fuel_mono. auto.
Qed.

(** *** Tree objects that share nothing *)
Lemma plain_reachable (s : state (V := V)) : plain s -> reachable s.
Proof.
  induction 1 as [|s fuel c rv s' _ IH _ E]; [apply reach_init|].
  eapply reach_step; eauto.
Qed.

Lemma holds_other (s s' : state (V := V)) t fp t2 T2 fp2 :
  unchanged_outside fp (hp s) (hp s') ->
  (next (hp s) <= next (hp s'))%nat ->
  (forall a, In a fp2 ->
     arrs (hp s') (arr_of (hp s) a) = arrs (hp s) (arr_of (hp s) a)) ->
  (forall t', t' <> t -> nth_error (roots s') t' = nth_error (roots s) t') ->
  t2 <> t -> holds s t2 T2 fp2 ->
  (forall a, In a fp2 -> ~ In a fp) ->
  holds s' t2 T2 fp2.
Proof.
  intros U Hn Ha Hr Hne (root & En & Tr) Hd.
  exists root. split; [rewrite Hr; assumption|].
  apply (tree_frame_reads (hp s)); [assumption| | |assumption].
  - intros a Hin. apply U; [now apply Hd|eapply tree_lt; eauto].
  - intros a Hin. apply sread_at. now apply Ha.
Qed.

Lemma owned_exclusive (s : state (V := V)) TT F t :
  owned s TT F -> (t < List.length (roots s))%nat ->
  exclusive (hp s) (F t).
Proof.
  intros (_ & _ & Hx & Ha) Ht. split; [|now apply Ha].
  intros l1 l2 H1 H2. now apply (Hx t t).
Qed.

(** One mutation through the object [t] of a state whose objects share
    nothing. *)
Lemma owned_step (s s' : state (V := V)) TT F t T' fp' :
  owned s TT F ->
  (t < List.length (roots s))%nat ->
  AVL.Reachable T' ->
  holds s' t T' fp' ->
  within fp' (F t) (hp s) (hp s') ->
  unchanged_outside (F t) (hp s) (hp s') ->
  (next (hp s) <= next (hp s'))%nat ->
  arrays_outside (F t) (hp s) (hp s') ->
  carried (hp s) (F t) (hp s') fp' ->
  List.length (roots s') = List.length (roots s) ->
  (forall t2, t2 <> t -> nth_error (roots s') t2 = nth_error (roots s) t2) ->
  owned s' (fun i => if Nat.eqb i t then T' else TT i)
           (fun i => if Nat.eqb i t then fp' else F i).
Proof.
  intros Hown Ht HR (r & Er & Tr) W U Hn [An AO] C Hlen Hroots.
  pose proof (owned_exclusive s TT F t Hown Ht) as X.
  destruct Hown as (Ho & Hd & Hx & Ha).
  assert (Hlt : forall i a, (i < List.length (roots s))%nat ->
                  In a (F i) -> (a < next (hp s))%nat).
  { intros i a Hi Hin.
    destruct (nth_error (roots s) i) as [ri|] eqn:Ei.
    - destruct (Ho i ri Ei) as [_ Ti]. eapply tree_lt; eauto.
    - apply nth_error_None in Ei. lia. }
  assert (Hcell : forall i a, (i < List.length (roots s))%nat -> i <> t ->
                    In a (F i) -> cells (hp s') a = cells (hp s) a).
  { intros i a Hi N Hin. apply U; [|eapply Hlt; eauto].
    intros Hf. exact (Hd i t a Hi Ht N Hin Hf). }
  assert (Harr : forall i a, (i < List.length (roots s))%nat -> i <> t ->
                    In a (F i) -> arr_of (hp s') a = arr_of (hp s) a).
  { intros i a Hi N Hin. unfold arr_of. now rewrite (Hcell i a Hi N Hin). }
  assert (Hex : exclusive (hp s') fp').
  { apply (exclusive_after (hp s) (F t) (hp s') r (AVL.root T')); auto.
    apply (AVLFacts.Reachable_Inv _ HR). }
  assert (Hcross : forall i l1 l2, (i < List.length (roots s))%nat -> i <> t ->
                     In l1 fp' -> In l2 (F i) ->
                     arr_of (hp s') l1 = arr_of (hp s') l2 -> False).
  { intros i l1 l2 Hi N H1 H2 Heq. rewrite (Harr i l2 Hi N H2) in Heq.
    pose proof (Ha i Hi l2 H2) as Hl2.
    destruct C as [C3 _].
    destruct (C3 l1 H1) as [(a1 & Ha1 & _ & Hr1)|F1]; [|lia].
    assert (a1 = l2) by (apply (Hx t i); auto; congruence). subst a1.
    exact (Hd i t l2 Hi Ht N H2 Ha1). }
  split; [|split; [|split]].
  - intros i root Ei. destruct (Nat.eqb_spec i t) as [->|N].
    + rewrite Er in Ei. injection Ei as <-. now split.
    + rewrite (Hroots i N) in Ei. destruct (Ho i root Ei) as [Ri Ti].
      split; [exact Ri|].
      assert (Hi : (i < List.length (roots s))%nat).
      { apply nth_error_Some. congruence. }
      apply (tree_frame_reads (hp s)); [assumption| | |assumption].
      * intros a Hin. now apply (Hcell i).
      * intros a Hin. apply sread_at. apply AO; [now apply (Ha i)|].
        intros l0 Hl0 Heq.
        assert (l0 = a) by (apply (Hx t i); auto). subst l0.
        exact (Hd i t a Hi Ht N Hin Hl0).
  - intros t1 t2 a H1 H2 Hne. rewrite Hlen in H1, H2.
    destruct (Nat.eqb_spec t1 t) as [->|N1];
      destruct (Nat.eqb_spec t2 t) as [->|N2]; try contradiction.
    + intros Hin Hb. destruct (W a Hin) as [H|H].
      * exact (Hd t t2 a Ht H2 Hne H Hb).
      * pose proof (Hlt t2 a H2 Hb). lia.
    + intros Hin Hb. destruct (W a Hb) as [H|H].
      * exact (Hd t1 t a H1 Ht Hne Hin H).
      * pose proof (Hlt t1 a H1 Hin). lia.
    + now apply Hd.
  - intros t1 t2 l1 l2 H1 H2. rewrite Hlen in H1, H2.
    destruct (Nat.eqb_spec t1 t) as [->|N1];
      destruct (Nat.eqb_spec t2 t) as [->|N2]; intros I1 I2 Heq.
    + now apply Hex.
    + exfalso. exact (Hcross t2 l1 l2 H2 N2 I1 I2 Heq).
    + exfalso. exact (Hcross t1 l2 l1 H1 N1 I2 I1 (eq_sym Heq)).
    + rewrite (Harr t1 l1 H1 N1 I1), (Harr t2 l2 H2 N2 I2) in Heq.
      now apply (Hx t1 t2).
  - intros i Hi. rewrite Hlen in Hi.
    destruct (Nat.eqb_spec i t) as [->|N]; [apply Hex|].
    intros a Hin. rewrite (Harr i a Hi N Hin).
    pose proof (Ha i Hi a Hin). lia.
Qed.

Lemma plain_owned (s : state (V := V)) :
  plain s -> exists TT F, owned s TT F.
Proof.
  induction 1 as [|s fuel c rv s' Hp (TT & F & Ho) Hc E].
  { exists (fun _ => AVL.New), (fun _ => []). split; [|split; [|split]].
    - intros t root En. destruct t; discriminate.
    - intros t1 t2 a H1. simpl in H1. lia.
    - intros t1 t2 l1 l2 H1. simpl in H1. lia.
    - intros t H1. simpl in H1. lia. }
  pose proof (plain_reachable s Hp) as Hr.
  pose proof (run_effect s c fuel rv s' Hr E) as Heff.
  pose proof Ho as (Ho1 & Ho2 & Ho3 & Ho4).
  destruct c as [|t k v|t k|t|t|t|t k|t k|t|t|t k];
    try (exists TT, F; subst s'; exact Ho);
    try (exfalso; exact (Hc t k eq_refl)).
  - (* New *)
    destruct Heff as (Eh & _ & Er).
    exists (fun i => if Nat.eqb i (List.length (roots s))
                     then AVL.New else TT i),
           (fun i => if Nat.eqb i (List.length (roots s)) then [] else F i).
    split; [|split; [|split]].
    + intros t root En. rewrite Er in En.
      destruct (Nat.eqb_spec t (List.length (roots s))) as [->|N].
      * rewrite nth_error_app2, Nat.sub_diag in En by lia.
        injection En as <-. split; [constructor|apply tree_nil].
      * assert (Ht : (t < List.length (roots s))%nat).
        { assert (H : (t < List.length (roots s ++ [None]))%nat).
          { apply nth_error_Some. congruence. }
          rewrite length_app in H. simpl in H. lia. }
        rewrite nth_error_app1 in En by exact Ht.
        rewrite Eh. now apply Ho1.
    + intros t1 t2 a H1 H2 Hne. rewrite Er, length_app in H1, H2.
      simpl in H1, H2.
      destruct (Nat.eqb_spec t1 (List.length (roots s)));
        destruct (Nat.eqb_spec t2 (List.length (roots s)));
        try (intros []); try (intros _ []); try lia.
      apply Ho2; lia.
    + intros t1 t2 l1 l2 H1 H2. rewrite Er, length_app in H1, H2.
      simpl in H1, H2. rewrite Eh.
      destruct (Nat.eqb_spec t1 (List.length (roots s)));
        destruct (Nat.eqb_spec t2 (List.length (roots s)));
        try (intros []); try (intros _ []).
      apply Ho3; lia.
    + intros t H1. rewrite Er, length_app in H1. simpl in H1. rewrite Eh.
      destruct (Nat.eqb_spec t (List.length (roots s))); [intros a []|].
      apply Ho4. lia.
  - (* Insert *)
    destruct t as [t|]; [|discriminate E].
    destruct (nth_error (roots s) t) as [root|] eqn:En;
      [|unfold run, root_of in E; rewrite En in E; discriminate].
    destruct (Ho1 t root En) as [Rt Tt].
    assert (Ht : (t < List.length (roots s))%nat).
    { apply nth_error_Some. congruence. }
    destruct (AVLFacts.Insert_ok k v (TT t) (AVLFacts.Reachable_Inv _ Rt))
      as (T' & Ei & _).
    set (fuel' := Nat.max fuel (S (List.length (F t)))).
    destruct (run_Insert_agrees s t (TT t) (F t) fuel' k v T')
      as (s2 & fp' & E2 & Hh & W & U & Hn & AO & C & _ & Hlen & Hroots);
      [exists root; now split|exact (owned_exclusive s TT F t Ho Ht)
      |unfold fuel'; lia|exact Ei|].
    assert (Es : s2 = s').
    { unfold run, root_of in E, E2. rewrite En in E, E2.
      unfold lift in E, E2.
      destruct (insert fuel k v root (hp s)) as [r h'|e|] eqn:E1;
        try discriminate.
      rewrite (insert_fuel_le fuel fuel' _ _ _ _ _ _ ltac:(unfold fuel'; lia)
                 E1) in E2. congruence. }
    subst s2.
    eexists _, _.
    eapply (owned_step s s' TT F t T' fp'); eauto.
    eapply AVL.Reach_Insert; eauto.
  - (* Delete *)
    destruct t as [t|]; [|discriminate E].
    destruct (nth_error (roots s) t) as [root|] eqn:En;
      [|unfold run, root_of in E; rewrite En in E; discriminate].
    destruct (Ho1 t root En) as [Rt Tt].
    assert (Ht : (t < List.length (roots s))%nat).
    { apply nth_error_Some. congruence. }
    destruct (AVLFacts.Delete_ok k (TT t) (AVLFacts.Reachable_Inv _ Rt))
      as (T' & Ei & _).
    set (fuel' := Nat.max fuel (S (List.length (F t)))).
    destruct (run_Delete_agrees s t (TT t) (F t) fuel' k T')
      as (s2 & fp' & E2 & Hh & W & U & Hn & Ka & Kn & C & _ & Hlen & Hroots);
      [exists root; now split|unfold fuel'; lia|exact Ei|].
    assert (Es : s2 = s').
    { unfold run, root_of in E, E2. rewrite En in E, E2.
      destruct root as [l|]; [|congruence].
      unfold lift in E, E2.
      destruct (delete fuel k (Some l) (hp s)) as [r h'|e|] eqn:E1;
        try discriminate.
      rewrite (delete_fuel_le fuel fuel' _ _ _ _ _ ltac:(unfold fuel'; lia)
                 E1) in E2. congruence. }
    subst s2.
    eexists _, _.
    eapply (owned_step s s' TT F t T' fp'); eauto.
    + eapply AVL.Reach_Delete; eauto.
    + split; [lia|]. intros a _ _. now rewrite Ka.
  - (* Print *)
    destruct Heff as (Eh & Er & _). exists TT, F.
    unfold owned. rewrite Eh, Er. exact Ho.
Qed.

End Simulation.

(** X19.  On a tree object that holds a tree of the functional model,
    every query of the store model returns what the functional model
    returns, and leaves the state as it was: [Height], [Size], [Find],
    [Contains], [String], [Min]; [Print] appends to the diagnostic sink
    the line that the functional model appends. *)
Theorem X19_queries_agree {V : Type} {RT : Runtime}
    (s : state (V := V)) (t : nat)
    (T : AVL.Tree V) (fp : list loc) (fuel : nat) :
  holds s t T fp -> (List.length fp < fuel)%nat ->
  run fuel (CHeight (Some t)) s = Returned (RInt (AVL.Height T)) s
  /\ run fuel (CSize (Some t)) s = Returned (RInt (AVL.Size T)) s
  /\ (forall k,
        run fuel (CFind (Some t) k) s
        = Returned (RFind (fst (AVL.Find k T)) (snd (AVL.Find k T))) s)
  /\ (forall k,
        run fuel (CContains (Some t) k) s
        = Returned (RBool (AVL.Contains k T)) s)
  /\ run fuel (CString (Some t)) s = Returned (RString (AVL.TreeString T)) s
  /\ run fuel (CPrint (Some t)) s
     = Returned RNone
         (mkState (hp s) (roots s) (AVL.TreePrint T (out s)))
  /\ (forall k vs ok,
        AVL.Min T = Ok (k, vs, ok) ->
        run fuel (CMin (Some t)) s = Returned (RMin k vs ok) s).
Proof.
  intros (root & En & [Sh _]) Hf.
  unfold run, root_of. rewrite En.
  unfold AVL.Height, AVL.Size, AVL.Find, AVL.Contains, AVL.TreeString,
    AVL.TreePrint, AVL.Min.
  destruct (AVL.root T) as [|k0 v0 L R ht] eqn:ET.
  - simpl in Sh. destruct Sh as [-> ->].
    repeat split; try reflexivity.
    intros k vs ok [= <- <- <-]. reflexivity.
  - pose proof Sh as Sh'. simpl in Sh'.
    destruct Sh' as (l & fl & fr & -> & _).
    unfold lift.
    split.
    { rewrite getHeight_eq, (gh_shape _ _ _ _ Sh). now rewrite state_eta. }
    split.
    { rewrite (getSize_agrees _ _ _ _ _ Sh Hf). now rewrite state_eta. }
    split.
    { intros k. destruct (find_agrees k _ _ _ _ fuel Sh Hf) as (sl & Ef & Rs).
      rewrite Ef. cbn [fst snd]. rewrite Rs. now rewrite state_eta. }
    split.
    { intros k. unfold contains. rewrite hbind_eq.
      destruct (find_agrees k _ _ _ _ fuel Sh Hf) as (sl & Ef & Rs).
      rewrite Ef. cbn [ret snd]. now rewrite state_eta. }
    split.
    { rewrite (nodeString_agrees _ _ _ _ _ Sh Hf). now rewrite state_eta. }
    split.
    { rewrite (nodeString_agrees _ _ _ _ _ Sh Hf). reflexivity. }
    intros k vs ok Em.
    destruct (AVL.minValueNode (AVL.Node k0 v0 L R ht)) as [m|e] eqn:Emin;
      [|discriminate].
    cbn [bind] in Em. destruct m as [|mk mv ml mr mh]; [discriminate|].
    cbn [AVL.get bind fst snd] in Em. injection Em as <- <- <-.
    destruct (minValueNode_agrees _ _ _ _ fuel _ Sh Hf Emin)
      as (tm & fm & E & Sm & _).
    destruct (get_agrees _ _ _ _ _ _ _ _ Sm) as (sl & Eg & Rs).
    rewrite hbind_eq, E. cbv beta. rewrite Eg.
    cbn [fst snd]. rewrite Rs. now rewrite state_eta.
Qed.

(** X20.  On a tree object that holds a tree of the functional model and
    shares no node, [Insert] and [Delete] of the store model do what the
    functional model does: whenever the functional operation returns a
    tree, the call returns and the object holds that tree, again with no
    node shared.  For [Insert] this needs that no two nodes of the
    object have their slices on one array, since [append] writes into
    the array.  The nodes of the new tree are nodes of the old one or
    newly allocated, and no other allocated node is written.  [Delete]
    writes no array; [Insert] writes no allocated array other than
    those of the nodes of the object.  When the tree satisfies the
    invariants of the data model, the object shares no array
    afterwards either.  Every other tree object that had no node in
    common with this one, and for [Insert] no array either, holds what
    it held. *)
Theorem X20_mutations_agree {V : Type} {RT : Runtime}
    (s : state (V := V)) (t : nat)
    (T : AVL.Tree V) (fp : list loc) (fuel : nat) (k : Z) (v : V) :
  holds s t T fp -> (List.length fp < fuel)%nat ->
  (exclusive (hp s) fp ->
   forall T', AVL.Insert k v T = Ok T' ->
     exists s' fp',
       run fuel (CInsert (Some t) k v) s = Returned RNone s'
       /\ holds s' t T' fp'
       /\ within fp' fp (hp s) (hp s')
       /\ unchanged_outside fp (hp s) (hp s')
       /\ arrays_outside fp (hp s) (hp s')
       /\ (AVL.Inv (AVL.root T) -> exclusive (hp s') fp')
       /\ forall t2 T2 fp2,
            t2 <> t -> holds s t2 T2 fp2 -> apart (hp s) fp fp2 ->
            holds s' t2 T2 fp2)
  /\ (forall T', AVL.Delete k T = Ok T' ->
     exists s' fp',
       run fuel (CDelete (Some t) k) s = Returned RNone s'
       /\ holds s' t T' fp'
       /\ within fp' fp (hp s) (hp s')
       /\ unchanged_outside fp (hp s) (hp s')
       /\ arrs (hp s') = arrs (hp s) /\ anext (hp s') = anext (hp s)
       /\ (AVL.Inv (AVL.root T) -> exclusive (hp s) fp ->
           exclusive (hp s') fp')
       /\ forall t2 T2 fp2,
            t2 <> t -> holds s t2 T2 fp2 ->
            (forall a, In a fp2 -> ~ In a fp) -> holds s' t2 T2 fp2).
Proof.
  intros Hh Hf. split.
  - intros X T' E.
    destruct (run_Insert_agrees s t T fp fuel k v T' Hh X Hf E)
      as (s' & fp' & Er & Hh' & W & U & Hn & AO & C & _ & _ & Hroots).
    exists s', fp'. repeat (split; [assumption|]). split.
    + intros HI. destruct Hh' as (r & _ & Tr).
      apply (exclusive_after (hp s) fp (hp s') r (AVL.root T'));
        try assumption; [apply AO|].
      destruct (AVLFacts.Insert_ok k v T HI) as (T2 & E2 & HI' & _).
      assert (T2 = T') by congruence. subst T2. apply HI'.
    + intros t2 T2 fp2 Hne H2 (Hd & Hx & Ha2).
      eapply (holds_other s s' t fp); eauto.
      intros a Hin. apply AO; [now apply Ha2|].
      intros l0 Hl0. now apply Hx.
  - intros T' E.
    destruct (run_Delete_agrees s t T fp fuel k T' Hh Hf E)
      as (s' & fp' & Er & Hh' & W & U & Hn & Ka & Kn & C & _ & _ & Hroots).
    exists s', fp'. repeat (split; [assumption|]). split.
    + intros HI X. destruct Hh' as (r & _ & Tr).
      apply (exclusive_after (hp s) fp (hp s') r (AVL.root T'));
        try assumption; [apply C, X|lia|].
      destruct (AVLFacts.Delete_ok k T HI) as (T2 & E2 & HI' & _).
      assert (T2 = T') by congruence. subst T2. apply HI'.
    + intros t2 T2 fp2 Hne H2 Hd.
      eapply (holds_other s s' t fp); eauto.
      intros a _. now rewrite Ka.
Qed.

(** X21.  As long as [SubTreeFromKey] is not called, every tree object of
    the store model holds a tree that the functional model builds from
    the empty tree by [Insert] and [Delete], no two tree objects have a
    node in common, and no two nodes have their slices on one array,
    whatever calls were made through whatever objects and with whatever
    fuel. *)
Theorem X21_unshared_objects {V : Type} {RT : Runtime}
    (s : state (V := V)) :
  plain s -> exists TT F, owned s TT F.
Proof. intros Hp. destruct (plain_owned s Hp) as (TT & F & Ho). eauto. Qed.

Lemma plain_exec {V : Type} {RT : Runtime} (s : state (V := V)) fuel c :
  (forall t k, c <> CSubTreeFromKey t k) -> plain s -> plain (exec fuel c s).
Proof.
  intros Hc Hp. unfold exec. destruct (run fuel c s) eqn:E; try assumption.
  eapply plain_step; eauto.
Qed.

#[local] Existing Instance doubling.

Lemma solo_plain : plain solo_state.
Proof.
  unfold solo_state.
  repeat (apply plain_exec; [discriminate|]). apply plain_init.
Qed.

Lemma solo_roots : nth_error (roots solo_state) 0 = Some (Some 1%nat).
Proof. vm_compute. reflexivity. Qed.

Lemma solo_holds : holds solo_state 0 solo_tree [1; 0; 2]%nat.
Proof.
  exists (Some 1%nat). split; [exact solo_roots|]. split.
  - unfold solo_tree. cbn [AVL.root shape].
    exists 1%nat, [0%nat], [2%nat].
    split; [reflexivity|].
    split; [vm_compute; lia|].
    split; [vm_compute; reflexivity|].
    split; [vm_compute; reflexivity|].
    split; [vm_compute; reflexivity|].
    split.
    { exists 0%nat, [], [].
      split; [vm_compute; reflexivity|].
      split; [vm_compute; lia|].
      split; [vm_compute; reflexivity|].
      split; [vm_compute; reflexivity|].
      split; [vm_compute; reflexivity|].
      split; [vm_compute; split; reflexivity|].
      split; [vm_compute; split; reflexivity|reflexivity]. }
    split; [|reflexivity].
    exists 2%nat, [], [].
    split; [vm_compute; reflexivity|].
    split; [vm_compute; lia|].
    split; [vm_compute; reflexivity|].
    split; [vm_compute; reflexivity|].
    split; [vm_compute; reflexivity|].
    split; [vm_compute; split; reflexivity|].
    split; [vm_compute; split; reflexivity|reflexivity].
  - repeat constructor; simpl; intuition lia.
Qed.

Lemma solo_exclusive : exclusive (hp solo_state) [1; 0; 2]%nat.
Proof.
  assert (C : arr_of (hp solo_state) 0%nat = 0%nat
              /\ arr_of (hp solo_state) 1%nat = 1%nat
              /\ arr_of (hp solo_state) 2%nat = 2%nat
              /\ anext (hp solo_state) = 3%nat)
    by (vm_compute; repeat split).
  revert C. generalize (hp solo_state). intros h (A0 & A1 & A2 & An).
  split.
  - intros l1 l2 H1 H2 E. simpl in H1, H2.
    destruct H1 as [<-|[<-|[<-|[]]]]; destruct H2 as [<-|[<-|[<-|[]]]];
      congruence.
  - intros l Hl. simpl in Hl. destruct Hl as [<-|[<-|[<-|[]]]]; lia.
Qed.

Lemma X19_witness :
  holds solo_state 0 solo_tree [1; 0; 2]%nat
  /\ (List.length [1; 0; 2]%nat < 9)%nat
  /\ run 9 (CSize (Some 0%nat)) solo_state
     = Returned (RInt (AVL.Size solo_tree)) solo_state.
Proof.
  assert (H : (List.length [1; 0; 2]%nat < 9)%nat) by (simpl; lia).
  split; [exact solo_holds|]. split; [exact H|].
  pose proof (X19_queries_agree solo_state 0 solo_tree
                         [1; 0; 2]%nat 9 solo_holds H) as P.
  destruct P as (_ & P & _). exact P.
Defined.

Lemma X20_witness :
  holds solo_state 0 solo_tree [1; 0; 2]%nat
  /\ (List.length [1; 0; 2]%nat < 9)%nat
  /\ exclusive (hp solo_state) [1; 0; 2]%nat
  /\ (forall T', AVL.Insert 30 tt solo_tree = Ok T' ->
      exists s' fp',
        run 9 (CInsert (Some 0%nat) 30 tt) solo_state = Returned RNone s'
        /\ holds s' 0 T' fp')
  /\ (forall T', AVL.Delete 20 solo_tree = Ok T' ->
      exists s' fp',
        run 9 (CDelete (Some 0%nat) 20) solo_state = Returned RNone s'
        /\ holds s' 0 T' fp').
Proof.
  assert (H : (List.length [1; 0; 2]%nat < 9)%nat) by (simpl; lia).
  split; [exact solo_holds|]. split; [exact H|].
  split; [exact solo_exclusive|].
  pose proof (X20_mutations_agree solo_state 0 solo_tree
                     [1; 0; 2]%nat 9) as P.
  split.
  - intros T' E.
    destruct (P 30 tt solo_holds H) as [PI _].
    destruct (PI solo_exclusive T' E) as (s' & fp' & Er & Hh & _).
    exists s', fp'. split; [exact Er|exact Hh].
  - intros T' E.
    destruct (P 20 tt solo_holds H) as [_ PD].
    destruct (PD T' E) as (s' & fp' & Er & Hh & _).
    exists s', fp'. split; [exact Er|exact Hh].
Defined.

Lemma X21_witness :
  plain solo_state /\ exists TT F, owned solo_state TT F.
Proof.
  split; [exact solo_plain|]. exact (X21_unshared_objects solo_state solo_plain).
Defined.

End RefineFacts.

